(** * AI-Article-Architect: the article assembly pipeline and its renderer

    A shallow embedding of the parts of [src/index.tsx] that the
    specification speaks about: the hallucination filter of the core-text
    stage, the reversible key encoding of image placeholders, the reference
    list of the assembled article, the chart pass of the markdown renderer,
    image resolution, the retry wrapper, the creative-direction fallback, the
    markup cache and the history cap.

    JavaScript strings are sequences of UTF-16 code units; they are modelled
    as lists of [N].  Built-ins of the platform ([btoa], [atob],
    [encodeURIComponent], [decodeURIComponent], regular expressions,
    [JSON.parse]) are modelled after their standards. *)

From Stdlib Require Import NArith ZArith Ascii String Lia.
From stdpp Require Import base option list gmap.

Local Open Scope N_scope.
Local Open Scope nat_scope.

(** ** Strings *)

Definition jsstring := list N.

Module Chars.
Definition tab : N := 9.
Definition lf : N := 10.
Definition vt : N := 11.
Definition ff : N := 12.
Definition cr : N := 13.
Definition space : N := 32.
Definition dquote : N := 34.
Definition hash : N := 35.
Definition percent : N := 37.
Definition amp : N := 38.
Definition lparen : N := 40.
Definition rparen : N := 41.
Definition star : N := 42.
Definition plus : N := 43.
Definition minus : N := 45.
Definition dot : N := 46.
Definition slash : N := 47.
Definition colon : N := 58.
Definition semi : N := 59.
Definition lt : N := 60.
Definition equal : N := 61.
Definition gt : N := 62.
Definition lbrack : N := 91.
Definition rbrack : N := 93.
Definition backtick : N := 96.
Definition lbrace : N := 123.
Definition rbrace : N := 125.
End Chars.

(** Code units of an ASCII literal.  Literals with characters outside ASCII
    are written as code units. *)
Definition lit (s : string) : jsstring :=
  map N_of_ascii (list_ascii_of_string s).

(** A literal of markup: an apostrophe in the literal stands for the double
    quote of the source text (no markup literal of the source holds an
    apostrophe). *)
Definition markup (s : string) : jsstring :=
  map (fun c => if N.eqb c 39 then Chars.dquote else c) (lit s).

Definition jseqb (a b : jsstring) : bool := bool_decide (a = b).

(** [WhiteSpace] and [LineTerminator] of ECMAScript: what [\s] and
    [String.prototype.trim] take for white space. *)
Definition is_line_terminator (c : N) : bool :=
  (c =? 10)%N || (c =? 13)%N || (c =? 8232)%N || (c =? 8233)%N.

Definition is_space (c : N) : bool :=
  ((9 <=? c)%N && (c <=? 13)%N) || (c =? 32)%N || (c =? 160)%N
  || (c =? 5760)%N || ((8192 <=? c)%N && (c <=? 8202)%N)
  || (c =? 8232)%N || (c =? 8233)%N || (c =? 8239)%N || (c =? 8287)%N
  || (c =? 12288)%N || (c =? 65279)%N.

Fixpoint trim_start (s : jsstring) : jsstring :=
  match s with
  | c :: t => if is_space c then trim_start t else s
  | [] => []
  end.

Definition trim_end (s : jsstring) : jsstring := rev (trim_start (rev s)).

Definition trim (s : jsstring) : jsstring := trim_end (trim_start s).

Fixpoint starts_with (p s : jsstring) : bool :=
  match p, s with
  | [], _ => true
  | a :: p', b :: s' => (a =? b)%N && starts_with p' s'
  | _ :: _, [] => false
  end.

Definition ends_with (p s : jsstring) : bool := starts_with (rev p) (rev s).

(** [s.split(sep)] for a separator of one code unit. *)
Fixpoint split_on (sep : N) (s : jsstring) : list jsstring :=
  match s with
  | [] => [[]]
  | c :: t =>
      if (c =? sep)%N then [] :: split_on sep t
      else match split_on sep t with
           | w :: ws => (c :: w) :: ws
           | [] => [[c]]
           end
  end.

(** [parts.join(sep)]. *)
Fixpoint join (sep : jsstring) (parts : list jsstring) : jsstring :=
  match parts with
  | [] => []
  | [p] => p
  | p :: ps => p ++ sep ++ join sep ps
  end.

(** ** Regular expressions

    The subset of ECMAScript patterns the source uses, with the backtracking
    semantics of the standard: alternatives are tried left to right, a greedy
    quantifier tries one more iteration first, a lazy one tries to stop
    first.  No pattern of the source has a group under a quantifier, so
    captures are never reset. *)

Inductive regex :=
| RChar (p : N -> bool)
| REmpty
| RSeq (a b : regex)
| RAlt (a b : regex)
| RStar (greedy : bool) (a : regex)
| RGroup (i : nat) (a : regex)
| RBackref (i : nat)
| RBol
| REol.

(** The position of a match in progress: [left] holds the code units before
    the position, last one first; [right] the ones from the position on. *)
Record mstate := MState {
  left : jsstring;
  right : jsstring;
  caps : list (nat * jsstring)
}.

Fixpoint cap_lookup (i : nat) (cs : list (nat * jsstring)) : option jsstring :=
  match cs with
  | [] => None
  | (j, s) :: cs' => if Nat.eqb i j then Some s else cap_lookup i cs'
  end.

Definition advance (n : nat) (st : mstate) : mstate :=
  MState (rev (take n (right st)) ++ left st) (drop n (right st)) (caps st).

Definition or_else {A} (a b : option A) : option A :=
  match a with Some _ => a | None => b end.

Fixpoint rmatch (r : regex) (st : mstate) (k : mstate -> option mstate)
  : option mstate :=
  match r with
  | RChar p =>
      match right st with
      | c :: t => if p c then k (MState (c :: left st) t (caps st)) else None
      | [] => None
      end
  | REmpty => k st
  | RSeq a b => rmatch a st (fun st' => rmatch b st' k)
  | RAlt a b => or_else (rmatch a st k) (rmatch b st k)
  | RStar greedy a =>
      (fix loop (n : nat) (st : mstate) : option mstate :=
         match n with
         | O => k st
         | S n' =>
             let more :=
               rmatch a st (fun st' =>
                 if length (right st') <? length (right st)
                 then loop n' st' else None) in
             if greedy then or_else more (k st) else or_else (k st) more
         end) (length (right st)) st
  | RGroup i a =>
      rmatch a st (fun st' =>
        let n := length (left st') - length (left st) in
        k (MState (left st') (right st')
                  ((i, rev (take n (left st'))) :: caps st')))
  | RBackref i =>
      match cap_lookup i (caps st) with
      | Some s =>
          if starts_with s (right st) then k (advance (length s) st) else None
      | None => k st
      end
  | RBol =>
      match left st with
      | [] => k st
      | c :: _ => if is_line_terminator c then k st else None
      end
  | REol =>
      match right st with
      | [] => k st
      | c :: _ => if is_line_terminator c then k st else None
      end
  end.

Definition RPlus (greedy : bool) (a : regex) : regex := RSeq a (RStar greedy a).
Definition ROpt (a : regex) : regex := RAlt a REmpty.
Definition RIs (c : N) : regex := RChar (N.eqb c).
Definition RAny : regex := RChar (fun _ => true).
Definition RDot : regex := RChar (fun c => negb (is_line_terminator c)).
Definition RStr (s : jsstring) : regex := foldr (fun c r => RSeq (RIs c) r) REmpty s.

(** One match attempt at a position. *)
Definition rexec (r : regex) (l s : jsstring) : option mstate :=
  rmatch r (MState l s []) Some.

(** What a replacement callback receives: the matched text and the groups
    (a group that did not take part reads as the empty string, as [$n]
    does). *)
Record rmatched := RMatched { whole : jsstring; groups : list (nat * jsstring) }.

Definition group (m : rmatched) (i : nat) : jsstring :=
  default [] (cap_lookup i (groups m)).

(** [s.replace(/r/g, cb)]: the leftmost match from the current position is
    replaced and the scan goes on behind it; after an empty match the scan
    moves one code unit on. *)
Fixpoint replace_loop (fuel : nat) (r : regex) (cb : rmatched -> jsstring)
    (l s : jsstring) : jsstring :=
  match fuel with
  | O => s
  | S fuel' =>
      match rexec r l s with
      | Some st' =>
          let n := length (left st') - length l in
          let out := cb (RMatched (take n s) (caps st')) in
          match n, s with
          | O, [] => out
          | O, c :: t => out ++ c :: replace_loop fuel' r cb (c :: l) t
          | S _, _ => out ++ replace_loop fuel' r cb (left st') (right st')
          end
      | None =>
          match s with
          | [] => []
          | c :: t => c :: replace_loop fuel' r cb (c :: l) t
          end
      end
  end.

Definition replace_all (r : regex) (cb : rmatched -> jsstring) (s : jsstring)
  : jsstring :=
  replace_loop (S (length s)) r cb [] s.

Definition RCat (rs : list regex) : regex := foldr RSeq REmpty rs.

(** ** Core-text stage: the hallucination filter

    [step1_generateCoreText] accumulates the streamed text and the grounding
    chunks, then rewrites the links of the text.  A grounding chunk is an
    object of the API; [web] and its [uri] and [title] may be missing. *)

Record web_source := WebSource {
  uri : option jsstring;
  title : option jsstring
}.

Record grounding_chunk := GroundingChunk { web : option web_source }.

(** Truthiness of an optional string: defined and not empty. *)
Definition truthy (o : option jsstring) : bool :=
  match o with
  | Some (_ :: _) => true
  | _ => false
  end.

(** [chunk.web && chunk.web.uri] *)
Definition has_uri (c : grounding_chunk) : bool :=
  match web c with
  | Some w => truthy (uri w)
  | None => false
  end.

Definition chunk_uri (c : grounding_chunk) : jsstring :=
  match web c with
  | Some w => default [] (uri w)
  | None => []
  end.

(** [new Set(groundingMetadata.filter(...).map(chunk => chunk.web.uri))] *)
Definition validUris (groundingMetadata : list grounding_chunk) : gset jsstring :=
  list_to_set (map chunk_uri (filter (fun c => has_uri c = true) groundingMetadata)).

Definition not_rbrack (c : N) : bool := negb (c =? Chars.rbrack)%N.

Definition url_char (c : N) : bool := negb (is_space c || (c =? Chars.rparen)%N).

(** [https?:\/\/[^\s\)]+], the second group of the link pattern. *)
Definition url_re : regex :=
  RCat [ RStr (lit "http"); ROpt (RIs 115%N); RStr (lit "://");
         RPlus true (RChar url_char) ].

(** [/\[([^\]]+)\]\((https?:\/\/[^\s\)]+)\)/] *)
Definition link_re : regex :=
  RCat [ RIs Chars.lbrack;
         RGroup 1 (RPlus true (RChar not_rbrack));
         RIs Chars.rbrack;
         RIs Chars.lparen;
         RGroup 2 url_re;
         RIs Chars.rparen ].

(** The callback of the replacement: keep a link whose url is a grounding
    uri, otherwise return the anchor text. *)
Definition keep_grounded (valid : gset jsstring) (m : rmatched) : jsstring :=
  if bool_decide (group m 2 ∈ valid) then whole m else group m 1.

Definition remove_hallucinated_links (valid : gset jsstring) (fullText : jsstring)
  : jsstring :=
  replace_all link_re (keep_grounded valid) (trim fullText).

(** The tail of [step1_generateCoreText], from the end of the stream on: an
    empty text is an error, otherwise the filtered markdown is returned with
    the raw grounding chunks. *)
Definition step1_postprocess (fullText : jsstring)
    (groundingMetadata : list grounding_chunk)
  : option (jsstring * list grounding_chunk) :=
  match trim fullText with
  | [] => None
  | _ :: _ =>
      Some (remove_hallucinated_links (validUris groundingMetadata) fullText,
            groundingMetadata)
  end.

(** *** What the filter is specified to do

    The source text of a link, and the shape the pattern accepts: an anchor
    text that is not empty and holds no closing bracket, a url that starts
    with [http://] or [https://] and goes on with one or more code units
    other than white space and the closing parenthesis. *)

Definition link_src (text url : jsstring) : jsstring :=
  Chars.lbrack :: text ++ [Chars.rbrack; Chars.lparen] ++ url ++ [Chars.rparen].

Record is_link (text url : jsstring) : Prop := IsLink {
  text_nonempty : text <> [];
  text_no_rbrack : Forall (fun c => not_rbrack c = true) text;
  url_shape : exists body,
    (url = lit "http://" ++ body \/ url = lit "https://" ++ body)
    /\ body <> [] /\ Forall (fun c => url_char c = true) body
}.

(** [filtered valid s out]: [out] is [s] where, scanning from the left, each
    link of that shape is kept when its url is in [valid] and replaced by its
    anchor text otherwise; a code unit at which no such link starts is
    copied. *)
Inductive filtered (valid : gset jsstring) : jsstring -> jsstring -> Prop :=
| filtered_nil : filtered valid [] []
| filtered_kept text url rest out :
    is_link text url -> url ∈ valid -> filtered valid rest out ->
    filtered valid (link_src text url ++ rest) (link_src text url ++ out)
| filtered_demoted text url rest out :
    is_link text url -> url ∉ valid -> filtered valid rest out ->
    filtered valid (link_src text url ++ rest) (text ++ out)
| filtered_plain c rest out :
    (forall text url rest', is_link text url ->
       c :: rest <> link_src text url ++ rest') ->
    filtered valid rest out ->
    filtered valid (c :: rest) (c :: out).

(** *** Auxiliary functions of the proofs about patterns *)

(** The longest prefix of code units of a class, and the rest. *)
Fixpoint span (p : N -> bool) (s : jsstring) : jsstring * jsstring :=
  match s with
  | c :: t => if p c then (c :: fst (span p t), snd (span p t)) else ([], s)
  | [] => ([], [])
  end.

(** The loop of [rmatch] for a quantifier, with its fuel as an argument. *)
Definition star_loop (greedy : bool) (a : regex) (k : mstate -> option mstate) :=
  fix loop (n : nat) (st : mstate) : option mstate :=
    match n with
    | O => k st
    | S n' =>
        let more :=
          rmatch a st (fun st' =>
            if length (right st') <? length (right st)
            then loop n' st' else None) in
        if greedy then or_else more (k st) else or_else (k st) more
    end.

Fixpoint strip_prefix (w s : jsstring) : option jsstring :=
  match w, s with
  | [], _ => Some s
  | a :: w', c :: s' => if (c =? a)%N then strip_prefix w' s' else None
  | _ :: _, [] => None
  end.

(** The scheme of a url the filter looks at, and what follows it. *)
Definition scheme (s : jsstring) : option (jsstring * jsstring) :=
  match strip_prefix (lit "https://") s with
  | Some s3 => Some (lit "https://", s3)
  | None =>
      match strip_prefix (lit "http://") s with
      | Some s3 => Some (lit "http://", s3)
      | None => None
      end
  end.

(** The link pattern as a function: anchor text, url and rest of a link that
    starts the string. *)
Definition link_at (s : jsstring) : option (jsstring * jsstring * jsstring) :=
  match strip_prefix [Chars.lbrack] s with
  | Some s1 =>
      let text := fst (span not_rbrack s1) in
      match text with
      | [] => None
      | _ :: _ =>
          match strip_prefix [Chars.rbrack; Chars.lparen] (snd (span not_rbrack s1)) with
          | Some s3 =>
              match scheme s3 with
              | Some (sch, s4) =>
                  let body := fst (span url_char s4) in
                  match body with
                  | [] => None
                  | _ :: _ =>
                      match strip_prefix [Chars.rparen] (snd (span url_char s4)) with
                      | Some s6 => Some (text, sch ++ body, s6)
                      | None => None
                      end
                  end
              | None => None
              end
          | None => None
          end
      end
  | None => None
  end.

(** ** Article assembly: the reference list

    [finalizeArticle] turns the grounding chunks into references, removes
    duplicates by passing them through a [Map] keyed by uri, and keeps the
    first seven. *)

Record reference := Reference { ref_uri : jsstring; ref_title : jsstring }.

(** [{ uri: chunk.web.uri, title: chunk.web.title || chunk.web.uri }] *)
Definition chunk_reference (c : grounding_chunk) : reference :=
  match web c with
  | Some w =>
      Reference (default [] (uri w))
                (if truthy (title w) then default [] (title w)
                 else default [] (uri w))
  | None => Reference [] []
  end.

Definition groundedReferences (coreReferences : list grounding_chunk)
  : list reference :=
  map chunk_reference (filter (fun c => has_uri c = true) coreReferences).

(** A JavaScript [Map] with string keys: the entries in insertion order.
    Setting a key that is present replaces the value in place; a new key goes
    to the end. *)
Definition jsmap (V : Type) := list (jsstring * V).

Fixpoint jsmap_set {V} (k : jsstring) (v : V) (m : jsmap V) : jsmap V :=
  match m with
  | [] => [(k, v)]
  | (k', v') :: m' =>
      if bool_decide (k = k') then (k, v) :: m'
      else (k', v') :: jsmap_set k v m'
  end.

(** [new Map(entries)] *)
Definition jsmap_of {V} (entries : list (jsstring * V)) : jsmap V :=
  foldl (fun m e => jsmap_set (fst e) (snd e) m) [] entries.

(** [[...m.values()]] *)
Definition jsmap_values {V} (m : jsmap V) : list V := map snd m.

Definition uniqueReferences (groundedReferences : list reference)
  : list reference :=
  jsmap_values (jsmap_of (map (fun item => (ref_uri item, item)) groundedReferences)).

Definition finalReferences (coreReferences : list grounding_chunk)
  : list reference :=
  take 7 (uniqueReferences (groundedReferences coreReferences)).

(** The uris of a list without repetition, each at its first occurrence. *)
Fixpoint first_occurrences (l : list jsstring) : list jsstring :=
  match l with
  | [] => []
  | x :: t => x :: filter (fun y => y <> x) (first_occurrences t)
  end.

(** Every entry of the map of references is filed under its own uri. *)
Definition keyed_by_uri (m : jsmap reference) : Prop :=
  Forall (fun e => fst e = ref_uri (snd e)) m.

(** ** Effects

    Asynchronous operations are functions on the state of their environment
    that return a value or throw.  The errors the repository raises itself
    are named; a failure of an external service is numbered by the
    environment. *)

Inductive js_error :=
| ApiKeyMissing          (* the [Error] of [getGenAIClient] *)
| RetryLogicFailed       (* [Error("Retry logic failed")] *)
| NoImagesGenerated      (* [Error("No images were generated by the API.")] *)
| EmptyCoreText          (* the [Error] of an empty core text *)
| EmptyProofread         (* the [Error] of an empty proofread answer *)
| URIError               (* of [encodeURIComponent] and [decodeURIComponent] *)
| InvalidCharacterError  (* of [btoa] and [atob] *)
| External (n : nat).

Inductive outcome (A : Type) :=
| Ok (a : A)
| Throw (e : js_error).

Arguments Ok {A} a.
Arguments Throw {A} e.

Definition is_throw {A} (o : outcome A) : Prop :=
  match o with
  | Throw _ => True
  | Ok _ => False
  end.

(** What the retry wrapper does to the outside: it starts the operation and
    it waits on a timer. *)
Inductive event :=
| Invoked
| Slept (ms : nat).

Record world (St : Type) := World { env : St; log : list event }.

Arguments World {St} env log.
Arguments env {St} w.
Arguments log {St} w.

(** ** The retry wrapper

    [for (let i = 0; i < retries; i++) { try { return await fn(); }
      catch (e) { if (i === retries - 1) throw e;
                  await new Promise(res => setTimeout(res, delay * (i + 1))); } }
     throw new Error("Retry logic failed");]

    The fuel is the number of iterations left, [retries - i]. *)

Fixpoint retry_from {St T} (fn : St -> outcome T * St) (retries delay : nat)
    (fuel i : nat) (w : world St) : outcome T * world St :=
  match fuel with
  | O => (Throw RetryLogicFailed, w)
  | S fuel' =>
      if i <? retries then
        let (r, s') := fn (env w) in
        let w1 := World s' (log w ++ [Invoked]) in
        match r with
        | Ok v => (Ok v, w1)
        | Throw e =>
            if i =? retries - 1 then (Throw e, w1)
            else retry_from fn retries delay fuel' (i + 1)
                   (World s' (log w1 ++ [Slept (delay * (i + 1))]))
        end
      else (Throw RetryLogicFailed, w)
  end.

Definition withRetry {St T} (fn : St -> outcome T * St) (retries delay : nat)
    (w : world St) : outcome T * world St :=
  retry_from fn retries delay retries 0 w.

(** The default arguments, [retries = 3] and [delay = 1000]. *)
Definition withRetry_default {St T} (fn : St -> outcome T * St)
  : world St -> outcome T * world St :=
  withRetry fn 3 1000.

(** The outcome of the invocation after [j] earlier ones, and the
    environment after [k] invocations in a row. *)
Fixpoint env_after {St T} (fn : St -> outcome T * St) (k : nat) (s : St) : St :=
  match k with
  | O => s
  | S k' => env_after fn k' (snd (fn s))
  end.

Definition nth_outcome {St T} (fn : St -> outcome T * St) (j : nat) (s : St)
  : outcome T :=
  fst (fn (env_after fn j s)).

(** [k] invocations with the waits between them; the wait after attempt
    number [i] is [delay * i]. *)
Fixpoint retry_log_from (delay i k : nat) : list event :=
  match k with
  | O => []
  | S O => [Invoked]
  | S k' => Invoked :: Slept (delay * i) :: retry_log_from delay (i + 1) k'
  end.

Definition retry_log (delay k : nat) : list event := retry_log_from delay 1 k.

(** ** Image resolution *)

Record ImageGenerationTask := ImageTask {
  key : jsstring;
  prompt : jsstring;
  overlayText : option jsstring
}.

(** The answer of the image service: the [imageBytes] of the generated
    images, when the field [generatedImages] is there. *)
Record GenerateImagesResponse := ImagesResponse {
  generatedImages : option (list jsstring)
}.

(** [getGenAIClient]: the client is made from the stored key and there is
    none without a key. *)
Definition getGenAIClient (apiKey : option jsstring) : outcome jsstring :=
  if truthy apiKey then Ok (default [] apiKey) else Throw ApiKeyMissing.

(** [task.overlayText ? `${task.prompt}, with the text "${task.overlayText}"
    clearly visible` : task.prompt] *)
Definition fullPrompt (task : ImageGenerationTask) : jsstring :=
  if truthy (overlayText task)
  then prompt task ++ markup ", with the text '" ++ default [] (overlayText task)
       ++ markup "' clearly visible"
  else prompt task.

Definition error_sentinel : jsstring := lit "error".

(** The results are collected in a plain object, [const results = {}]; the
    map holds its own properties.  [results[key] = value] writes an own
    property, except under the key [__proto__]: there the assignment runs
    the setter that [Object.prototype] has for this name, which ignores a
    value that is no object (the values here are strings), and the object
    gets no property. *)
Definition proto_key : jsstring := lit "__proto__".

Definition object_set (k v : jsstring) (o : gmap jsstring jsstring)
  : gmap jsstring jsstring :=
  if bool_decide (k = proto_key) then o else <[k := v]> o.

Section ImageResolution.
Context {St : Type}.

(** [ai.models.generateImages] with the fixed model and configuration: the
    client, the prompt, and the environment decide the answer. *)
Variable generateImages :
  jsstring -> jsstring -> St -> outcome GenerateImagesResponse * St.

(** The body of the [try] for one task. *)
Definition image_attempt (ai : jsstring) (task : ImageGenerationTask)
    (w : world St) : outcome jsstring * world St :=
  let (r, w1) := withRetry_default (generateImages ai (fullPrompt task)) w in
  match r with
  | Ok response =>
      match generatedImages response with
      | Some (base64ImageBytes :: _) => (Ok base64ImageBytes, w1)
      | _ => (Throw NoImagesGenerated, w1)
      end
  | Throw e => (Throw e, w1)
  end.

(** What one task leaves under its key. *)
Definition image_value (r : outcome jsstring) : jsstring :=
  match r with
  | Ok base64ImageBytes => base64ImageBytes
  | Throw _ => error_sentinel
  end.

(** One iteration of the loop: the [try] and its [catch]; either way the
    value is assigned under the key of the task. *)
Definition image_step (ai : jsstring)
    (acc : gmap jsstring jsstring * world St) (task : ImageGenerationTask)
  : gmap jsstring jsstring * world St :=
  let (r, w1) := image_attempt ai task (snd acc) in
  (object_set (key task) (image_value r) (fst acc), w1).

(** The loop over the tasks, in their order. *)
Definition run_tasks (ai : jsstring) (w : world St)
    (tasks : list ImageGenerationTask) : gmap jsstring jsstring * world St :=
  foldl (image_step ai) (∅, w) tasks.

Definition generateAndStoreImages (apiKey : option jsstring)
    (tasks : list ImageGenerationTask) (w : world St)
  : outcome (gmap jsstring jsstring) * world St :=
  match getGenAIClient apiKey with
  | Throw e => (Throw e, w)
  | Ok ai =>
      let (results, w') := run_tasks ai w tasks in
      (Ok results, w')
  end.

(** The world in which task number [i] is started. *)
Definition world_before (ai : jsstring) (tasks : list ImageGenerationTask)
    (w : world St) (i : nat) : world St :=
  snd (run_tasks ai w (take i tasks)).

End ImageResolution.

(** ** The reversible key encoding

    [encodeUnicode] and [decodeUnicode] are built from four functions of the
    platform; these are modelled after ECMA-262 ([encodeURIComponent],
    [decodeURIComponent]) and the HTML standard ([btoa], [atob]). *)

Definition outcome_map {A B} (f : A -> B) (o : outcome A) : outcome B :=
  match o with
  | Ok a => Ok (f a)
  | Throw e => Throw e
  end.

Definition outcome_bind {A B} (o : outcome A) (f : A -> outcome B) : outcome B :=
  match o with
  | Ok a => f a
  | Throw e => Throw e
  end.

(** *** UTF-16 and UTF-8 *)

Definition is_high_surrogate (c : N) : bool := (55296 <=? c)%N && (c <=? 56319)%N.

Definition is_low_surrogate (c : N) : bool := (56320 <=? c)%N && (c <=? 57343)%N.

(** The code point of a surrogate pair. *)
Definition pair_code_point (hi lo : N) : N :=
  ((hi - 55296) * 1024 + (lo - 56320) + 65536)%N.

(** [UTF16EncodeCodePoint] *)
Definition utf16_encode (cp : N) : jsstring :=
  if (cp <? 65536)%N then [cp]
  else [(55296 + (cp - 65536) / 1024)%N; (56320 + (cp - 65536) mod 1024)%N].

(** A string in which every code unit is below 2^16 and every surrogate is
    half of a pair. *)
Fixpoint well_formed (s : jsstring) : bool :=
  match s with
  | [] => true
  | c :: t =>
      if is_high_surrogate c then
        match t with
        | d :: t' => is_low_surrogate d && well_formed t'
        | [] => false
        end
      else negb (is_low_surrogate c) && (c <? 65536)%N && well_formed t
  end.

(** The octets of the UTF-8 encoding of a code point. *)
Definition utf8_encode (cp : N) : list N :=
  if (cp <? 128)%N then [cp]
  else if (cp <? 2048)%N then [(192 + cp / 64)%N; (128 + cp mod 64)%N]
  else if (cp <? 65536)%N then
    [(224 + cp / 4096)%N; (128 + (cp / 64) mod 64)%N; (128 + cp mod 64)%N]
  else
    [(240 + cp / 262144)%N; (128 + (cp / 4096) mod 64)%N;
     (128 + (cp / 64) mod 64)%N; (128 + cp mod 64)%N].

Definition is_continuation (b : N) : bool := (128 <=? b)%N && (b <=? 191)%N.

(** The code point of two to four octets that are a valid UTF-8 encoding:
    continuation octets where they belong, no longer form than needed, no
    surrogate, nothing above U+10FFFF. *)
Definition utf8_decode (octets : list N) : option N :=
  match octets with
  | [b0; b1] =>
      let cp := ((b0 - 192) * 64 + (b1 - 128))%N in
      if (192 <=? b0)%N && (b0 <=? 223)%N && is_continuation b1
         && (128 <=? cp)%N
      then Some cp else None
  | [b0; b1; b2] =>
      let cp := ((b0 - 224) * 4096 + (b1 - 128) * 64 + (b2 - 128))%N in
      if (224 <=? b0)%N && (b0 <=? 239)%N && is_continuation b1
         && is_continuation b2 && (2048 <=? cp)%N
         && negb ((55296 <=? cp)%N && (cp <=? 57343)%N)
      then Some cp else None
  | [b0; b1; b2; b3] =>
      let cp := ((b0 - 240) * 262144 + (b1 - 128) * 4096 + (b2 - 128) * 64
                 + (b3 - 128))%N in
      if (240 <=? b0)%N && (b0 <=? 247)%N && is_continuation b1
         && is_continuation b2 && is_continuation b3
         && (65536 <=? cp)%N && (cp <=? 1114111)%N
      then Some cp else None
  | _ => None
  end.

(** *** Hexadecimal digits *)

Definition hex_upper (d : N) : N := if (d <? 10)%N then (48 + d)%N else (55 + d)%N.

Definition hex_lower (d : N) : N := if (d <? 10)%N then (48 + d)%N else (87 + d)%N.

Definition is_upper_hex (c : N) : bool :=
  ((48 <=? c)%N && (c <=? 57)%N) || ((65 <=? c)%N && (c <=? 70)%N).

Definition hex_value (c : N) : option N :=
  if (48 <=? c)%N && (c <=? 57)%N then Some (c - 48)%N
  else if (65 <=? c)%N && (c <=? 70)%N then Some (c - 55)%N
  else if (97 <=? c)%N && (c <=? 102)%N then Some (c - 87)%N
  else None.

(** [%XX] for an octet, as [encodeURIComponent] writes it. *)
Definition percent_upper (b : N) : jsstring :=
  [Chars.percent; hex_upper (b / 16); hex_upper (b mod 16)].

(** *** [encodeURIComponent] *)

Definition is_ascii_alnum (c : N) : bool :=
  ((48 <=? c)%N && (c <=? 57)%N) || ((65 <=? c)%N && (c <=? 90)%N)
  || ((97 <=? c)%N && (c <=? 122)%N).

(** The code units [encodeURIComponent] copies: letters, digits and
    [-_.!~*'()]. *)
Definition uri_unreserved (c : N) : bool :=
  is_ascii_alnum c
  || (c =? 45)%N || (c =? 95)%N || (c =? 46)%N || (c =? 33)%N || (c =? 126)%N
  || (c =? 42)%N || (c =? 39)%N || (c =? 40)%N || (c =? 41)%N.

Fixpoint encodeURIComponent (s : jsstring) : outcome jsstring :=
  match s with
  | [] => Ok []
  | c :: t =>
      if uri_unreserved c then outcome_map (cons c) (encodeURIComponent t)
      else if is_low_surrogate c then Throw URIError
      else if is_high_surrogate c then
        match t with
        | d :: t' =>
            if is_low_surrogate d then
              outcome_map
                (app (flat_map percent_upper (utf8_encode (pair_code_point c d))))
                (encodeURIComponent t')
            else Throw URIError
        | [] => Throw URIError
        end
      else
        outcome_map (app (flat_map percent_upper (utf8_encode c)))
                    (encodeURIComponent t)
  end.

(** *** [btoa] and [atob] *)

Definition b64_char (n : N) : N :=
  if (n <? 26)%N then (65 + n)%N
  else if (n <? 52)%N then (71 + n)%N
  else if (n <? 62)%N then (n - 4)%N
  else if (n =? 62)%N then 43%N
  else 47%N.

Definition b64_value (c : N) : option N :=
  if (65 <=? c)%N && (c <=? 90)%N then Some (c - 65)%N
  else if (97 <=? c)%N && (c <=? 122)%N then Some (c - 71)%N
  else if (48 <=? c)%N && (c <=? 57)%N then Some (c + 4)%N
  else if (c =? 43)%N then Some 62%N
  else if (c =? 47)%N then Some 63%N
  else None.

Fixpoint b64_encode (bs : list N) : jsstring :=
  match bs with
  | [] => []
  | [a] => [b64_char (a / 4); b64_char ((a mod 4) * 16); Chars.equal; Chars.equal]
  | [a; b] =>
      [b64_char (a / 4); b64_char ((a mod 4) * 16 + b / 16);
       b64_char ((b mod 16) * 4); Chars.equal]
  | a :: b :: c :: t =>
      b64_char (a / 4) :: b64_char ((a mod 4) * 16 + b / 16)
      :: b64_char ((b mod 16) * 4 + c / 64) :: b64_char (c mod 64)
      :: b64_encode t
  end.

(** [btoa]: a code unit above 255 is an error. *)
Definition btoa (s : jsstring) : outcome jsstring :=
  if forallb (fun c => (c <=? 255)%N) s then Ok (b64_encode s)
  else Throw InvalidCharacterError.

Definition is_ascii_whitespace (c : N) : bool :=
  (c =? 9)%N || (c =? 10)%N || (c =? 12)%N || (c =? 13)%N || (c =? 32)%N.

(** One or two [=] at the end of data whose length is a multiple of four are
    removed. *)
Definition strip_padding (data : jsstring) : jsstring :=
  if length data mod 4 =? 0 then
    match rev data with
    | c1 :: c2 :: r =>
        if (c1 =? Chars.equal)%N then
          if (c2 =? Chars.equal)%N then rev r else rev (c2 :: r)
        else data
    | _ => data
    end
  else data.

Fixpoint b64_values (data : jsstring) : option (list N) :=
  match data with
  | [] => Some []
  | c :: t =>
      match b64_value c, b64_values t with
      | Some v, Some vs => Some (v :: vs)
      | _, _ => None
      end
  end.

(** Four values give three octets; of a rest of three values the last two
    bits are dropped, of a rest of two the last four. *)
Fixpoint b64_octets (vs : list N) : list N :=
  match vs with
  | a :: b :: c :: d :: t =>
      (a * 4 + b / 16)%N :: ((b mod 16) * 16 + c / 4)%N
      :: ((c mod 4) * 64 + d)%N :: b64_octets t
  | [a; b; c] => [(a * 4 + b / 16)%N; ((b mod 16) * 16 + c / 4)%N]
  | [a; b] => [(a * 4 + b / 16)%N]
  | _ => []
  end.

(** [atob], the forgiving-base64 decoding. *)
Definition atob (s : jsstring) : outcome jsstring :=
  let data := strip_padding (filter (fun c => is_ascii_whitespace c = false) s) in
  if length data mod 4 =? 1 then Throw InvalidCharacterError
  else match b64_values data with
       | Some vs => Ok (b64_octets vs)
       | None => Throw InvalidCharacterError
       end.

(** *** [decodeURIComponent] *)

(** [%XX] at the head of a string: the octet and the rest. *)
Definition percent_octet (s : jsstring) : option (N * jsstring) :=
  match s with
  | p :: h :: l :: t =>
      if (p =? Chars.percent)%N then
        match hex_value h, hex_value l with
        | Some a, Some b => Some ((16 * a + b)%N, t)
        | _, _ => None
        end
      else None
  | _ => None
  end.

(** The number of leading 1 bits of an octet (5 stands for five or more). *)
Definition leading_ones (b : N) : nat :=
  if (b <? 128)%N then 0
  else if (b <? 192)%N then 1
  else if (b <? 224)%N then 2
  else if (b <? 240)%N then 3
  else if (b <? 248)%N then 4
  else 5.

Fixpoint continuation_octets (n : nat) (s : jsstring)
  : option (list N * jsstring) :=
  match n with
  | O => Some ([], s)
  | S n' =>
      match percent_octet s with
      | Some (b, t) =>
          match continuation_octets n' t with
          | Some (bs, r) => Some (b :: bs, r)
          | None => None
          end
      | None => None
      end
  end.

(** [Decode] of ECMA-262 with no reserved set; every round takes at least
    one code unit, so the length of the string is fuel enough. *)
Fixpoint decode_loop (fuel : nat) (s : jsstring) : outcome jsstring :=
  match fuel with
  | O => Ok []
  | S fuel' =>
      match s with
      | [] => Ok []
      | c :: t =>
          if (c =? Chars.percent)%N then
            match percent_octet s with
            | None => Throw URIError
            | Some (b, t1) =>
                match leading_ones b with
                | 0 => outcome_map (cons b) (decode_loop fuel' t1)
                | 1 => Throw URIError
                | 2 | 3 | 4 =>
                    match continuation_octets (leading_ones b - 1) t1 with
                    | None => Throw URIError
                    | Some (bs, t2) =>
                        match utf8_decode (b :: bs) with
                        | None => Throw URIError
                        | Some cp =>
                            outcome_map (app (utf16_encode cp))
                                        (decode_loop fuel' t2)
                        end
                    end
                | _ => Throw URIError
                end
            end
          else outcome_map (cons c) (decode_loop fuel' t)
      end
  end.

Definition decodeURIComponent (s : jsstring) : outcome jsstring :=
  decode_loop (length s) s.

(** *** [encodeUnicode] and [decodeUnicode] *)

(** [/%([0-9A-F]{2})/] *)
Definition percent_re : regex :=
  RCat [ RIs Chars.percent;
         RGroup 1 (RSeq (RChar is_upper_hex) (RChar is_upper_hex)) ].

(** [parseInt(p1, 16)] on a string of hexadecimal digits. *)
Definition parseInt16 (p1 : jsstring) : N :=
  foldl (fun acc c => (16 * acc + default 0 (hex_value c))%N) 0%N p1.

(** [String.fromCharCode] *)
Definition fromCharCode (n : N) : jsstring := [(n mod 65536)%N].

(** The callback of the replacement: the code unit of the two digits. *)
Definition unescape_cb (m : rmatched) : jsstring :=
  fromCharCode (parseInt16 (group m 1)).

(** [btoa(encodeURIComponent(str).replace(/%([0-9A-F]{2})/g,
      (match, p1) => String.fromCharCode(parseInt(p1, 16))))] *)
Definition encodeUnicode (str : jsstring) : outcome jsstring :=
  outcome_bind (encodeURIComponent str) (fun e =>
    btoa (replace_all percent_re unescape_cb e)).

(** [n.toString(16)] *)
Fixpoint hex_digits (fuel : nat) (n : N) : jsstring :=
  match fuel with
  | O => []
  | S fuel' =>
      if (n <? 16)%N then [hex_lower n]
      else hex_digits fuel' (n / 16) ++ [hex_lower (n mod 16)]
  end.

Definition toString16 (n : N) : jsstring :=
  hex_digits (S (N.to_nat (N.log2 n))) n.

(** [s.slice(-2)] *)
Definition slice_last2 (s : jsstring) : jsstring := drop (length s - 2) s.

(** ['%' + ('00' + c.charCodeAt(0).toString(16)).slice(-2)] *)
Definition percent_lower (c : N) : jsstring :=
  Chars.percent :: slice_last2 (lit "00" ++ toString16 c).

(** The body of the [try] of [decodeUnicode]. *)
Definition decodeUnicode_try (str : jsstring) : outcome jsstring :=
  outcome_bind (atob str) (fun bin =>
    decodeURIComponent (flat_map percent_lower bin)).

(** [try { ... } catch (e) { ... }] *)
Definition try_catch {A} (body : outcome A) (handler : js_error -> outcome A)
  : outcome A :=
  match body with
  | Ok a => Ok a
  | Throw e => handler e
  end.

(** [try { return decodeURIComponent(atob(str).split('').map(...).join('')); }
     catch(e) { return str; }] *)
Definition decodeUnicode (str : jsstring) : outcome jsstring :=
  try_catch (decodeUnicode_try str) (fun _ => Ok str).

(** *** Auxiliary functions of the proofs about the encoding *)

(** The six-bit values [btoa] writes for a list of octets, and the padding
    it adds. *)
Fixpoint b64_sextets (bs : list N) : list N :=
  match bs with
  | [] => []
  | [a] => [(a / 4)%N; ((a mod 4) * 16)%N]
  | [a; b] => [(a / 4)%N; ((a mod 4) * 16 + b / 16)%N; ((b mod 16) * 4)%N]
  | a :: b :: c :: t =>
      (a / 4)%N :: ((a mod 4) * 16 + b / 16)%N
      :: ((b mod 16) * 4 + c / 64)%N :: (c mod 64)%N :: b64_sextets t
  end.

Fixpoint b64_padding (bs : list N) : jsstring :=
  match bs with
  | [] => []
  | [_] => [Chars.equal; Chars.equal]
  | [_; _] => [Chars.equal]
  | _ :: _ :: _ :: t => b64_padding t
  end.

(** A code point that is a Unicode scalar value. *)
Definition is_scalar (cp : N) : Prop :=
  (cp < 55296 \/ 57343 < cp <= 1114111)%N.

(** The UTF-8 octets of a well-formed string. *)
Fixpoint utf8_string (s : jsstring) : list N :=
  match s with
  | [] => []
  | c :: t =>
      if is_high_surrogate c then
        match t with
        | d :: t' => utf8_encode (pair_code_point c d) ++ utf8_string t'
        | [] => []
        end
      else utf8_encode c ++ utf8_string t
  end.

(** What [encodeURIComponent] returns for a well-formed string. *)
Fixpoint uri_escaped (s : jsstring) : jsstring :=
  match s with
  | [] => []
  | c :: t =>
      if uri_unreserved c then c :: uri_escaped t
      else if is_high_surrogate c then
        match t with
        | d :: t' =>
            flat_map percent_upper (utf8_encode (pair_code_point c d))
            ++ uri_escaped t'
        | [] => []
        end
      else flat_map percent_upper (utf8_encode c) ++ uri_escaped t
  end.

(** ** The markup renderer

    [renderMarkdownToHtml] is a sequence of replacements.  [JSON.parse] is
    needed only as a test: [json_valid] is the grammar of ECMA-404 that
    [JSON.parse] accepts. *)

Definition is_json_ws (c : N) : bool :=
  (c =? 9)%N || (c =? 10)%N || (c =? 13)%N || (c =? 32)%N.

Fixpoint json_skip_ws (s : jsstring) : jsstring :=
  match s with
  | c :: t => if is_json_ws c then json_skip_ws t else s
  | [] => []
  end.

Definition is_digit (c : N) : bool := (48 <=? c)%N && (c <=? 57)%N.

Definition is_hex_digit (c : N) : bool :=
  match hex_value c with
  | Some _ => true
  | None => false
  end.

(** The rest of a string literal behind its opening quote, up to the closing
    quote; [None] when the literal is malformed. *)
Fixpoint json_string_rest (s : jsstring) : option jsstring :=
  match s with
  | [] => None
  | c :: t =>
      if (c =? Chars.dquote)%N then Some t
      else if (c =? 92)%N then
        match t with
        | e :: t1 =>
            if (e =? Chars.dquote)%N || (e =? 92)%N || (e =? Chars.slash)%N
               || (e =? 98)%N || (e =? 102)%N || (e =? 110)%N || (e =? 114)%N
               || (e =? 116)%N
            then json_string_rest t1
            else if (e =? 117)%N then
              match t1 with
              | h1 :: h2 :: h3 :: h4 :: t2 =>
                  if is_hex_digit h1 && is_hex_digit h2 && is_hex_digit h3
                     && is_hex_digit h4
                  then json_string_rest t2 else None
              | _ => None
              end
            else None
        | [] => None
        end
      else if (c <? 32)%N then None
      else json_string_rest t
  end.

(** One or more digits: the rest behind them. *)
Definition json_digits (s : jsstring) : option jsstring :=
  match fst (span is_digit s) with
  | [] => None
  | _ :: _ => Some (snd (span is_digit s))
  end.

(** A number: an optional minus; a zero, or a digit from 1 to 9 with digits
    behind it; an optional fraction; an optional exponent. *)
Definition json_number_rest (s : jsstring) : option jsstring :=
  let s1 := match s with
            | c :: t => if (c =? Chars.minus)%N then t else s
            | [] => s
            end in
  let after_int :=
    match s1 with
    | c :: t =>
        if (c =? 48)%N then Some t
        else if is_digit c then Some (snd (span is_digit t))
        else None
    | [] => None
    end in
  match after_int with
  | None => None
  | Some s2 =>
      let after_frac :=
        match s2 with
        | c :: t => if (c =? Chars.dot)%N then json_digits t else Some s2
        | [] => Some s2
        end in
      match after_frac with
      | None => None
      | Some s3 =>
          match s3 with
          | c :: t =>
              if (c =? 101)%N || (c =? 69)%N then
                match t with
                | sg :: t' =>
                    if (sg =? Chars.plus)%N || (sg =? Chars.minus)%N
                    then json_digits t' else json_digits t
                | [] => None
                end
              else Some s3
          | [] => Some s3
          end
      end
  end.

Inductive json_mode :=
| JValue      (* a value is expected *)
| JElements   (* behind an element of an array *)
| JMembers.   (* behind the value of a member of an object *)

(** The rest of the text behind what is expected, or [None] on a syntax
    error.  Every call takes at least one code unit before it calls again,
    so the length of the text is fuel enough. *)
Fixpoint json_rest (fuel : nat) (mode : json_mode) (s : jsstring)
  : option jsstring :=
  match fuel with
  | O => None
  | S fuel' =>
      let member (t : jsstring) : option jsstring :=
        match json_skip_ws t with
        | q :: t1 =>
            if (q =? Chars.dquote)%N then
              match json_string_rest t1 with
              | Some t2 =>
                  match json_skip_ws t2 with
                  | c :: t3 =>
                      if (c =? Chars.colon)%N then
                        match json_rest fuel' JValue t3 with
                        | Some t4 => json_rest fuel' JMembers t4
                        | None => None
                        end
                      else None
                  | [] => None
                  end
              | None => None
              end
            else None
        | [] => None
        end in
      match mode with
      | JValue =>
          match json_skip_ws s with
          | [] => None
          | c :: t =>
              if (c =? Chars.lbrace)%N then
                match json_skip_ws t with
                | c1 :: t1 =>
                    if (c1 =? Chars.rbrace)%N then Some t1 else member t
                | [] => None
                end
              else if (c =? Chars.lbrack)%N then
                match json_skip_ws t with
                | c1 :: t1 =>
                    if (c1 =? Chars.rbrack)%N then Some t1
                    else match json_rest fuel' JValue t with
                         | Some t2 => json_rest fuel' JElements t2
                         | None => None
                         end
                | [] => None
                end
              else if (c =? Chars.dquote)%N then json_string_rest t
              else if starts_with (lit "true") (c :: t) then Some (drop 4 (c :: t))
              else if starts_with (lit "false") (c :: t) then Some (drop 5 (c :: t))
              else if starts_with (lit "null") (c :: t) then Some (drop 4 (c :: t))
              else json_number_rest (c :: t)
          end
      | JElements =>
          match json_skip_ws s with
          | c :: t =>
              if (c =? Chars.rbrack)%N then Some t
              else if (c =? 44)%N then
                match json_rest fuel' JValue t with
                | Some t2 => json_rest fuel' JElements t2
                | None => None
                end
              else None
          | [] => None
          end
      | JMembers =>
          match json_skip_ws s with
          | c :: t =>
              if (c =? Chars.rbrace)%N then Some t
              else if (c =? 44)%N then member t
              else None
          | [] => None
          end
      end
  end.

(** [JSON.parse(text)] does not throw. *)
Definition json_valid (text : jsstring) : bool :=
  match json_rest (S (length text)) JValue text with
  | Some rest =>
      match json_skip_ws rest with
      | [] => true
      | _ :: _ => false
      end
  | None => false
  end.

(** [s.replace(/r/g, cb)] for a callback that may throw. *)
Fixpoint replace_loop_try (fuel : nat) (r : regex)
    (cb : rmatched -> outcome jsstring) (l s : jsstring) : outcome jsstring :=
  match fuel with
  | O => Ok s
  | S fuel' =>
      match rexec r l s with
      | Some st' =>
          let n := length (left st') - length l in
          outcome_bind (cb (RMatched (take n s) (caps st'))) (fun out =>
            match n, s with
            | O, [] => Ok out
            | O, c :: t =>
                outcome_map (fun rest => out ++ c :: rest)
                            (replace_loop_try fuel' r cb (c :: l) t)
            | S _, _ =>
                outcome_map (app out)
                            (replace_loop_try fuel' r cb (left st') (right st'))
            end)
      | None =>
          match s with
          | [] => Ok []
          | c :: t => outcome_map (cons c) (replace_loop_try fuel' r cb (c :: l) t)
          end
      end
  end.

Definition replace_all_try (r : regex) (cb : rmatched -> outcome jsstring)
    (s : jsstring) : outcome jsstring :=
  replace_loop_try (S (length s)) r cb [] s.

(** A replacement by a constant text. *)
Definition replace_text (r : regex) (text : jsstring) (s : jsstring) : jsstring :=
  replace_all r (fun _ => text) s.

Definition RAlts (rs : list regex) : regex :=
  match rs with
  | [] => REmpty
  | r :: rs' => foldl RAlt r rs'
  end.

(** *** The patterns of the renderer *)

(** [/\[INTERACTIVE_CHART:([\s\S]*?)\]/gs] *)
Definition chart_re : regex :=
  RCat [ RStr (lit "[INTERACTIVE_CHART:"); RGroup 1 (RStar false RAny);
         RIs Chars.rbrack ].

(** [/\[(IMAGE_GENERATE|IMAGE_SCREENSHOT):({[\s\S]*?})\]/g] *)
Definition image_re : regex :=
  RCat [ RIs Chars.lbrack;
         RGroup 1 (RAlt (RStr (lit "IMAGE_GENERATE")) (RStr (lit "IMAGE_SCREENSHOT")));
         RIs Chars.colon;
         RGroup 2 (RCat [ RIs Chars.lbrace; RStar false RAny; RIs Chars.rbrace ]);
         RIs Chars.rbrack ].

(** [/\*\*(.*?)\*\*/g] *)
Definition bold_re : regex :=
  RCat [ RStr (lit "**"); RGroup 1 (RStar false RDot); RStr (lit "**") ].

(** [/\*(.*?)\*/g] *)
Definition em_re : regex :=
  RCat [ RIs Chars.star; RGroup 1 (RStar false RDot); RIs Chars.star ].

(** The divider of paid content, three hyphens around six code units of
    Japanese text. *)
Definition paid_text : jsstring :=
  [12371; 12371; 12363; 12425; 26377; 26009]%N.

Definition paid_marker : jsstring := lit "---" ++ paid_text ++ lit "---".

Definition paid_re : regex := RStr paid_marker.

(** [/\[BOX:(tip|info|warning|quote):([\s\S]*?)\]/gs] *)
Definition box_re : regex :=
  RCat [ RStr (lit "[BOX:");
         RGroup 1 (RAlts [ RStr (lit "tip"); RStr (lit "info");
                           RStr (lit "warning"); RStr (lit "quote") ]);
         RIs Chars.colon; RGroup 2 (RStar false RAny); RIs Chars.rbrack ].

(** [/\[SUMMARY:([\s\S]*?)\]/gs] *)
Definition summary_re : regex :=
  RCat [ RStr (lit "[SUMMARY:"); RGroup 1 (RStar false RAny); RIs Chars.rbrack ].

(** [/^### (.*$)/gim] and the like; no letter stands in the pattern, so the
    flag [i] changes nothing. *)
Definition heading_re (hashes : jsstring) : regex :=
  RCat [ RBol; RStr hashes; RIs Chars.space;
         RGroup 1 (RSeq (RStar true RDot) REol) ].

(** [/`([^`]+)`/g] *)
Definition code_re : regex :=
  RCat [ RIs Chars.backtick;
         RGroup 1 (RPlus true (RChar (fun c => negb (c =? Chars.backtick)%N)));
         RIs Chars.backtick ].

(** The pattern of a list line, with flags [gim]: at the start of a line
    any number of spaces (group 1); a hyphen, a star, or digits and a dot
    (group 2); a space; the rest of the line (group 3). *)
Definition list_re : regex :=
  RCat [ RBol; RGroup 1 (RStar true (RIs Chars.space));
         RGroup 2 (RAlts [ RIs Chars.minus; RIs Chars.star;
                           RSeq (RPlus true (RChar is_digit)) (RIs Chars.dot) ]);
         RIs Chars.space; RGroup 3 (RSeq (RStar true RDot) REol) ].

(** [/<\/(ul|ol)>\s*<\1>/g] *)
Definition adjacent_lists_re : regex :=
  RCat [ RStr (lit "</"); RGroup 1 (RAlt (RStr (lit "ul")) (RStr (lit "ol")));
         RIs Chars.gt; RStar true (RChar is_space); RIs Chars.lt; RBackref 1;
         RIs Chars.gt ].

(** [/<p>\s*<\/p>/g] *)
Definition empty_paragraph_re : regex :=
  RCat [ RStr (lit "<p>"); RStar true (RChar is_space); RStr (lit "</p>") ].

Definition block_tag : regex :=
  RAlts [ RStr (lit "ul"); RStr (lit "ol"); RStr (lit "h1"); RStr (lit "h2");
          RStr (lit "h3"); RStr (lit "div"); RStr (lit "hr") ].

(** [/<p>(<(ul|ol|h1|h2|h3|div|hr))/g] *)
Definition paragraph_open_re : regex :=
  RCat [ RStr (lit "<p>"); RGroup 1 (RSeq (RIs Chars.lt) (RGroup 2 block_tag)) ].

(** [/(<\/(ul|ol|h1|h2|h3|div|hr))><\/p>/g] *)
Definition paragraph_close_re : regex :=
  RCat [ RGroup 1 (RSeq (RStr (lit "</")) (RGroup 2 block_tag));
         RStr (lit "></p>") ].

(** *** The texts the renderer writes *)

(** The message of the error element of a chart (Japanese text with the two
    letters [AI] in it). *)
Definition chart_error_message : jsstring :=
  [12464; 12521; 12501; 12487; 12540; 12479; 12398; 35299; 26512;
   12395; 22833; 25943; 12375; 12414; 12375; 12383; 12290; 65; 73;
   12364; 29983; 25104; 12375; 12383; 12487; 12540; 12479; 12364;
   19981; 27491; 12394; 24418; 24335; 12391; 12377; 12290]%N.

Definition chart_error : jsstring :=
  markup "<div class='error'>" ++ chart_error_message ++ lit "</div>".

Definition icon_tip : jsstring :=
  markup "<svg xmlns='http://www.w3.org/2000/svg' height='24px' viewBox='0 0 24 24' width='24px' fill='currentColor'><path d='M0 0h24v24H0V0z' fill='none'/><path d='M10 20c.55 0 1-.45 1-1v-2.34c1.64-.16 3.1-.93 4.21-2.04.18-.18.18-.46 0-.63l-1.06-1.06c-.18-.18-.46-.18-.63 0l-.35.35c-1.1-1.1-2.65-1.81-4.32-1.93V8c0-.55-.45-1-1-1s-1 .45-1 1v2.34c-1.64.16-3.1.93-4.21-2.04-.18.18.18-.46 0 .63l1.06 1.06c.18.18.46.18.63 0l.35-.35c1.1 1.1 2.65 1.81 4.32 1.93V19c0 .55.45 1 1 1zM12 2C6.48 2 2 6.48 2 12s4.48 10 10 10 10-4.48 10-10S17.52 2 12 2zm0 18c-4.41 0-8-3.59-8-8s3.59-8 8-8 8 3.59 8 8-3.59 8-8 8z'/></svg>".

Definition icon_info : jsstring :=
  markup "<svg xmlns='http://www.w3.org/2000/svg' height='24px' viewBox='0 0 24 24' width='24px' fill='currentColor'><path d='M0 0h24v24H0V0z' fill='none'/><path d='M11 7h2v2h-2zm0 4h2v6h-2zm1-9C6.48 2 2 6.48 2 12s4.48 10 10 10 10-4.48 10-10S17.52 2 12 2zm0 18c-4.41 0-8-3.59-8-8s3.59-8 8-8 8 3.59 8 8-3.59 8-8 8z'/></svg>".

Definition icon_warning : jsstring :=
  markup "<svg xmlns='http://www.w3.org/2000/svg' height='24px' viewBox='0 0 24 24' width='24px' fill='currentColor'><path d='M0 0h24v24H0V0z' fill='none'/><path d='M1 21h22L12 2 1 21zm12-3h-2v-2h2v2zm0-4h-2v-4h2v4z'/></svg>".

Definition icon_quote : jsstring :=
  markup "<svg xmlns='http://www.w3.org/2000/svg' height='24px' viewBox='0 0 24 24' width='24px' fill='currentColor'><path d='M0 0h24v24H0V0z' fill='none'/><path d='M6 17h3l2-4V7H5v6h3zm8 0h3l2-4V7h-6v6h3z'/></svg>".

Definition icon_summary : jsstring :=
  markup "<svg xmlns='http://www.w3.org/2000/svg' height='24px' viewBox='0 0 24 24' width='24px' fill='currentColor'><path d='M0 0h24v24H0V0z' fill='none'/><path d='M12 17.27l4.15 2.51-1.08-4.72 3.67-3.18-4.83-.41L12 7.18l-1.98 4.3-4.83.41 3.67 3.18-1.08 4.72L12 17.27z'/></svg>".


(** *** The callbacks of the renderer *)

(** An attribute value: every double quote of [jsonString] becomes
    [&quot;]. *)
Definition quote_attribute (s : jsstring) : jsstring :=
  replace_text (RIs Chars.dquote) (lit "&quot;") s.

(** The callback of the chart pattern: the [try] around [JSON.parse]. *)
Definition chart_cb (m : rmatched) : jsstring :=
  let jsonString := group m 1 in
  if json_valid jsonString then
    markup "<div class='chart-container'><canvas data-chart-data='"
    ++ quote_attribute jsonString ++ markup "'></canvas></div>"
  else chart_error.

(** The callback of the image pattern; [encodeUnicode] may throw. *)
Definition image_cb (m : rmatched) : outcome jsstring :=
  outcome_map
    (fun data_key =>
       markup "<div class='image-placeholder-wrapper' data-key='"
       ++ data_key ++ markup "'></div>")
    (encodeUnicode (whole m)).

Definition newline_indent (n : nat) : jsstring := Chars.lf :: replicate n Chars.space.

(** [iconSvg[type] || iconSvg.info] *)
Definition icon_of (type : jsstring) : jsstring :=
  if jseqb type (lit "tip") then icon_tip
  else if jseqb type (lit "info") then icon_info
  else if jseqb type (lit "warning") then icon_warning
  else if jseqb type (lit "quote") then icon_quote
  else icon_info.

(** The callback of the box pattern: the content is [title:body]. *)
Definition box_cb (m : rmatched) : jsstring :=
  let type := group m 1 in
  let parts := split_on Chars.colon (group m 2) in
  let title := match parts with p :: _ => p | [] => [] end in
  let body := join [Chars.colon] (tail parts) in
  markup "<div class='info-box info-box-" ++ type ++ markup "'>"
  ++ newline_indent 20 ++ markup "<div class='info-box-header'>"
  ++ icon_of type ++ lit " " ++ title ++ lit "</div>"
  ++ newline_indent 20 ++ markup "<div class='info-box-body'>" ++ body
  ++ lit "</div>" ++ newline_indent 16 ++ lit "</div>".

(** The callback of the summary pattern: the content is a list of items
    with semicolons between them. *)
Definition summary_cb (m : rmatched) : jsstring :=
  let items :=
    concat (map (fun item => lit "<li>" ++ trim item ++ lit "</li>")
                (split_on Chars.semi (group m 1))) in
  markup "<div class='summary-box'>"
  ++ newline_indent 20 ++ markup "<div class='summary-box-header'>"
  ++ icon_summary ++ lit " Key Takeaways</div>"
  ++ newline_indent 20 ++ markup "<ul class='summary-box-list'>" ++ items
  ++ lit "</ul>" ++ newline_indent 16 ++ lit "</div>".

(** The callback of the list pattern. *)
Definition list_cb (m : rmatched) : jsstring :=
  let isOrdered := match group m 2 with c :: _ => is_digit c | [] => false end in
  let tag := if isOrdered then lit "ol" else lit "ul" in
  group m 1 ++ lit "<" ++ tag ++ lit "><li>" ++ group m 3 ++ lit "</li></"
  ++ tag ++ lit ">".

(** One line of the paragraph pass. *)
Definition paragraph_line (line : jsstring) : jsstring :=
  let trimmed := trim line in
  match trimmed with
  | [] => []
  | _ :: _ =>
      if starts_with (lit "<") trimmed && ends_with (lit ">") trimmed then line
      else lit "<p>" ++ line ++ lit "</p>"
  end.

(** *** The renderer *)

(** The first pass: [&], [<] and [>] are escaped. *)
Definition escape_markup (markdown : jsstring) : jsstring :=
  replace_text (RIs Chars.gt) (lit "&gt;")
    (replace_text (RIs Chars.lt) (lit "&lt;")
       (replace_text (RIs Chars.amp) (lit "&amp;") markdown)).

(** The second pass: chart placeholders. *)
Definition chart_pass (html : jsstring) : jsstring := replace_all chart_re chart_cb html.

(** The third pass: image and screenshot placeholders. *)
Definition image_pass (html : jsstring) : outcome jsstring :=
  replace_all_try image_re image_cb html.

(** The passes behind the placeholders, in the order of the source. *)
Definition inline_and_block_passes (html : jsstring) : jsstring :=
  let html := replace_all bold_re
                (fun m => lit "<strong>" ++ group m 1 ++ lit "</strong>") html in
  let html := replace_all em_re (fun m => lit "<em>" ++ group m 1 ++ lit "</em>") html in
  let html := replace_text paid_re
                (markup "<hr class='paid-divider' data-text='" ++ paid_text
                 ++ markup "'>") html in
  let html := replace_all box_re box_cb html in
  let html := replace_all summary_re summary_cb html in
  let html := replace_all (heading_re (lit "###"))
                (fun m => lit "<h3>" ++ group m 1 ++ lit "</h3>") html in
  let html := replace_all (heading_re (lit "##"))
                (fun m => lit "<h2>" ++ group m 1 ++ lit "</h2>") html in
  let html := replace_all (heading_re (lit "#"))
                (fun m => lit "<h1>" ++ group m 1 ++ lit "</h1>") html in
  let html := replace_all code_re
                (fun m => lit "<code>" ++ group m 1 ++ lit "</code>") html in
  let html := replace_all link_re
                (fun m => markup "<a href='" ++ group m 2
                          ++ markup "' target='_blank' rel='noopener noreferrer'>"
                          ++ group m 1 ++ lit "</a>") html in
  let html := replace_all list_re list_cb html in
  let html := replace_text adjacent_lists_re [] html in
  let html := concat (map paragraph_line (split_on Chars.lf html)) in
  let html := replace_text empty_paragraph_re [] html in
  let html := replace_all paragraph_open_re (fun m => group m 1) html in
  replace_all paragraph_close_re (fun m => group m 1) html.

Definition renderMarkdownToHtml (markdown : jsstring) : outcome jsstring :=
  outcome_map inline_and_block_passes
    (image_pass (chart_pass (escape_markup markdown))).

(** ** Articles, the history and the application state *)

Record CreativeDirection := Direction {
  style : jsstring;
  palette : list jsstring
}.

Record ArticleOutline := Outline {
  outline_title : jsstring;
  introduction : jsstring;
  headings : list jsstring
}.

(** The fields of an article that come from the form and are never changed
    afterwards. *)
Record authoring := Authoring {
  theme : jsstring;
  persona : jsstring;
  expertPersona : option jsstring;
  tone : jsstring;
  articleType : jsstring;
  price : option N;
  productDescription : option jsstring;
  createdAt : jsstring
}.

(** The performance analysis as the text of its JSON, with the figures the
    user has entered. *)
Record ArticlePerformance := Performance {
  analysis : jsstring;
  userInput : option jsstring
}.

Inductive fact_check_status := Unchecked | Checked.

Record FactCheck := MkFactCheck {
  fc_status : fact_check_status;
  fc_results : list jsstring
}.

Record Video := MkVideo {
  videoUrl : option jsstring;
  videoStatus : option jsstring;
  videoOperationName : option jsstring
}.

(** An entry of the image map: image data (or the sentinel), or the
    instruction of a screenshot, kept as the JSON text it is read from. *)
Inductive image_entry :=
| ImageData (data : jsstring)
| Screenshot (payload : jsstring).

(** The metadata record of an article: [ArticleHistoryItem] without
    [coverImage] and [imageMap].  An absent [html] is the empty string. *)
Record ArticleMeta := Meta {
  id : Z;
  inputs : authoring;
  markdown : jsstring;
  html : jsstring;
  references : list reference;
  enhancements : jsstring;
  faqs : option jsstring;
  performance : option ArticlePerformance;
  creativeDirection : option CreativeDirection;
  factCheck : option FactCheck;
  scheduledAt : option jsstring;
  video : Video;
  lastCheckedForUpdate : option jsstring
}.

(** The binary-asset record of an article. *)
Record Assets := MkAssets {
  coverImage : option jsstring;
  imageMap : gmap jsstring image_entry
}.

Record ArticleHistoryItem := Item {
  meta : ArticleMeta;
  assets : Assets
}.

Definition set_html (h : jsstring) (a : ArticleMeta) : ArticleMeta :=
  Meta (id a) (inputs a) (markdown a) h (references a) (enhancements a)
       (faqs a) (performance a) (creativeDirection a) (factCheck a)
       (scheduledAt a) (video a) (lastCheckedForUpdate a).

Definition set_factCheck (f : option FactCheck) (a : ArticleMeta) : ArticleMeta :=
  Meta (id a) (inputs a) (markdown a) (html a) (references a) (enhancements a)
       (faqs a) (performance a) (creativeDirection a) f
       (scheduledAt a) (video a) (lastCheckedForUpdate a).

Definition set_scheduledAt (d : option jsstring) (a : ArticleMeta) : ArticleMeta :=
  Meta (id a) (inputs a) (markdown a) (html a) (references a) (enhancements a)
       (faqs a) (performance a) (creativeDirection a) (factCheck a)
       d (video a) (lastCheckedForUpdate a).

Definition set_performance (p : option ArticlePerformance) (a : ArticleMeta)
  : ArticleMeta :=
  Meta (id a) (inputs a) (markdown a) (html a) (references a) (enhancements a)
       (faqs a) p (creativeDirection a) (factCheck a)
       (scheduledAt a) (video a) (lastCheckedForUpdate a).

Definition set_video (v : Video) (a : ArticleMeta) : ArticleMeta :=
  Meta (id a) (inputs a) (markdown a) (html a) (references a) (enhancements a)
       (faqs a) (performance a) (creativeDirection a) (factCheck a)
       (scheduledAt a) v (lastCheckedForUpdate a).

Definition set_lastChecked (d : option jsstring) (a : ArticleMeta) : ArticleMeta :=
  Meta (id a) (inputs a) (markdown a) (html a) (references a) (enhancements a)
       (faqs a) (performance a) (creativeDirection a) (factCheck a)
       (scheduledAt a) (video a) d.

Definition with_meta (f : ArticleMeta -> ArticleMeta) (x : ArticleHistoryItem)
  : ArticleHistoryItem :=
  Item (f (meta x)) (assets x).

(** The state of the page: the metadata list (newest first), the article on
    display, the object store of the binary assets, and the selections of
    the pipeline in progress. *)
Record page_state := PageState {
  articles : list ArticleMeta;
  currentArticle : option ArticleHistoryItem;
  db : gmap Z Assets;
  suggestedOutlines : list ArticleOutline;
  selectedOutline : option ArticleOutline;
  suggestedDirections : list CreativeDirection;
  selectedDirection : option CreativeDirection;
  currentResearchedText : jsstring
}.

Definition initial_page : page_state := PageState [] None ∅ [] None [] None [].

Definition set_articles (l : list ArticleMeta) (st : page_state) : page_state :=
  PageState l (currentArticle st) (db st) (suggestedOutlines st) (selectedOutline st)
      (suggestedDirections st) (selectedDirection st) (currentResearchedText st).

Definition set_currentArticle (c : option ArticleHistoryItem) (st : page_state) : page_state :=
  PageState (articles st) c (db st) (suggestedOutlines st) (selectedOutline st)
      (suggestedDirections st) (selectedDirection st) (currentResearchedText st).

Definition set_db (d : gmap Z Assets) (st : page_state) : page_state :=
  PageState (articles st) (currentArticle st) d (suggestedOutlines st)
      (selectedOutline st) (suggestedDirections st) (selectedDirection st)
      (currentResearchedText st).

(** *** The storage functions

    The object store and the list store are taken to work: a put, a delete
    and a write succeed. *)

Definition saveImagesToDb (i : Z) (a : Assets) (st : page_state) : page_state :=
  set_db (<[i := a]> (db st)) st.

Definition deleteImagesFromDb (i : Z) (st : page_state) : page_state :=
  set_db (delete i (db st)) st.

Definition getImagesFromDb (i : Z) (st : page_state) : Assets :=
  default (MkAssets None ∅) (db st !! i).

(** The length of the history. *)
Definition history_cap : nat := 50.

(** [articles.unshift(item); if (articles.length > 50) { oldest =
    articles.pop(); deleteImagesFromDb(oldest.id) }] behind the write of the
    assets of the new article. *)
Definition addArticleToHistory (item : ArticleHistoryItem) (st : page_state) : page_state :=
  let st1 := saveImagesToDb (id (meta item)) (assets item) st in
  let l := meta item :: articles st1 in
  if history_cap <? length l then
    match last l with
    | Some oldestItem =>
        deleteImagesFromDb (id oldestItem) (set_articles (removelast l) st1)
    | None => set_articles l st1
    end
  else set_articles l st1.

Fixpoint find_index {A} (p : A -> bool) (l : list A) : option nat :=
  match l with
  | [] => None
  | x :: t => if p x then Some 0 else option_map S (find_index p t)
  end.

(** [index = articles.findIndex(a => a.id === updated.id); if (index !== -1)
    articles[index] = updated] behind the write of its assets. *)
Definition updateArticleInHistory (updated : ArticleHistoryItem) (st : page_state) : page_state :=
  let st1 := saveImagesToDb (id (meta updated)) (assets updated) st in
  match find_index (fun a => (id a =? id (meta updated))%Z) (articles st1) with
  | Some index => set_articles (<[index := meta updated]> (articles st1)) st1
  | None => st1
  end.

Definition removeArticleFromHistory (i : Z) (st : page_state) : page_state :=
  deleteImagesFromDb i
    (set_articles (filter (fun a => id a <> i) (articles st)) st).

(** [renderArticle]: the article goes on display; when it has no markup, the
    markup is made from its markdown, stored on it and persisted.  When the
    renderer throws, the article stays on display without markup. *)
Definition renderArticle (article : ArticleHistoryItem) (st : page_state) : page_state :=
  match html (meta article) with
  | [] =>
      match renderMarkdownToHtml (markdown (meta article)) with
      | Ok h =>
          let article' := with_meta (set_html h) article in
          updateArticleInHistory article' (set_currentArticle (Some article') st)
      | Throw _ => set_currentArticle (Some article) st
      end
  | _ :: _ => set_currentArticle (Some article) st
  end.

(** What [renderArticle] puts in the place of a placeholder element: the
    generated image, the note of a screenshot, or the notice that the image
    could not be generated. *)
Inductive placeholder_view :=
| GeneratedImage (data : jsstring)
| ScreenshotNote (payload : jsstring)
| ImageFailed.

(** The body of the loop of [renderArticle] over the placeholder elements:
    the key of the element is decoded with [decodeUnicode] and looked up in
    the image map of the article; image data other than the sentinel is
    shown as the image, the entry of a screenshot as its note, and anything
    else (the sentinel, or no entry) as a failed image. *)
Definition view_of_placeholder (article : ArticleHistoryItem)
    (data_key : jsstring) : placeholder_view :=
  match decodeUnicode data_key with
  | Ok key =>
      match imageMap (assets article) !! key with
      | Some (ImageData data) =>
          if jseqb data error_sentinel then ImageFailed else GeneratedImage data
      | Some (Screenshot payload) => ScreenshotNote payload
      | None => ImageFailed
      end
  | Throw _ => ImageFailed
  end.

(** ** The pipeline

    Each stage asks the generative service; what the service and the clock
    answer during one run of the assembly line is given by the
    environment. *)

Record assembly_answers := Answers {
  form : authoring;                 (* the fields of the form *)
  core_stream : outcome (jsstring * list grounding_chunk);
                                    (* the text and the chunks of the stream *)
  decoration : outcome (jsstring * jsstring * jsstring);
                                    (* [step2_decorateMarkdown] *)
  images : outcome (gmap jsstring jsstring);
                                    (* [generateAndStoreImages] *)
  faq_answer : option jsstring;     (* [generateFaqSection] *)
  performance_answer : option ArticlePerformance;
                                    (* [analyzeArticlePerformance] *)
  enhancements_answer : jsstring;   (* [generateEnhancements] *)
  now : Z                           (* [Date.now()] *)
}.

(** [/\[IMAGE_SCREENSHOT:({.*?})\]/g] *)
Definition screenshot_re : regex :=
  RCat [ RStr (lit "[IMAGE_SCREENSHOT:");
         RGroup 1 (RCat [ RIs Chars.lbrace; RStar false RDot; RIs Chars.rbrace ]);
         RIs Chars.rbrack ].

(** The matches of a pattern in a string, from left to right, as a loop of
    [exec] finds them. *)
Fixpoint matches_loop (fuel : nat) (r : regex) (l s : jsstring) : list rmatched :=
  match fuel with
  | O => []
  | S fuel' =>
      match rexec r l s with
      | Some st' =>
          let n := length (left st') - length l in
          RMatched (take n s) (caps st')
          :: match n, s with
             | O, [] => []
             | O, c :: t => matches_loop fuel' r (c :: l) t
             | S _, _ => matches_loop fuel' r (left st') (right st')
             end
      | None =>
          match s with
          | [] => []
          | c :: t => matches_loop fuel' r (c :: l) t
          end
      end
  end.

Definition matches_all (r : regex) (s : jsstring) : list rmatched :=
  matches_loop (S (length s)) r [] s.

(** The image map of a new article: the generated images, and an entry for
    every screenshot placeholder whose payload parses. *)
Definition finalImageMap (finalMarkdown : jsstring)
    (generatedImages : gmap jsstring jsstring) : gmap jsstring image_entry :=
  foldl (fun acc m =>
           if json_valid (group m 1) then <[whole m := Screenshot (group m 1)]> acc
           else acc)
        (ImageData <$> generatedImages)
        (matches_all screenshot_re finalMarkdown).

(** [generatedImages['cover'] !== 'error' ? generatedImages['cover'] : undefined] *)
Definition coverImageData (generatedImages : gmap jsstring jsstring)
  : option jsstring :=
  match generatedImages !! lit "cover" with
  | Some data => if jseqb data error_sentinel then None else Some data
  | None => None
  end.

(** The article [finalizeArticle] builds. *)
Definition newItem (finalMarkdown : jsstring)
    (coreReferences : list grounding_chunk)
    (generatedImages : gmap jsstring jsstring) (run : assembly_answers)
    (st : page_state) : ArticleHistoryItem :=
  Item
    {| id := now run;
       inputs := form run;
       markdown := finalMarkdown;
       html := [];
       references := finalReferences coreReferences;
       enhancements := enhancements_answer run;
       faqs := faq_answer run;
       performance := performance_answer run;
       creativeDirection := selectedDirection st;
       factCheck := Some (MkFactCheck Unchecked []);
       scheduledAt := None;
       video := MkVideo None None None;
       lastCheckedForUpdate := None |}
    (MkAssets (coverImageData generatedImages)
              (finalImageMap finalMarkdown generatedImages)).

Definition finalizeArticle (finalMarkdown : jsstring)
    (coreReferences : list grounding_chunk)
    (generatedImages : gmap jsstring jsstring) (run : assembly_answers)
    (st : page_state) : page_state :=
  let item := newItem finalMarkdown coreReferences generatedImages run st in
  renderArticle item (addArticleToHistory item st).

(** [generateArticleAssemblyLine]: nothing without a selected outline; a
    stage that throws ends the run and nothing is stored. *)
Definition generateArticleAssemblyLine (run : assembly_answers) (st : page_state) : page_state :=
  match selectedOutline st with
  | None => st
  | Some _ =>
      match core_stream run with
      | Throw _ => st
      | Ok (fullText, groundingMetadata) =>
          match step1_postprocess fullText groundingMetadata with
          | None => st
          | Some (_, coreReferences) =>
              match decoration run with
              | Throw _ => st
              | Ok (decoratedMarkdown, _, _) =>
                  match images run with
                  | Throw _ => st
                  | Ok generatedImages =>
                      finalizeArticle decoratedMarkdown coreReferences
                        generatedImages run st
                  end
              end
          end
      end
  end.

Definition set_directions (suggested : list CreativeDirection)
    (selected : option CreativeDirection) (st : page_state) : page_state :=
  PageState (articles st) (currentArticle st) (db st) (suggestedOutlines st)
      (selectedOutline st) suggested selected (currentResearchedText st).

Definition set_outlines (suggested : list ArticleOutline)
    (selected : option ArticleOutline) (st : page_state) : page_state :=
  PageState (articles st) (currentArticle st) (db st) suggested selected
      (suggestedDirections st) (selectedDirection st) (currentResearchedText st).

(** [generateCreativeDirections]: the directions of the service are shown;
    when the stage throws, the assembly line is started at once. *)
Definition generateCreativeDirections (directions : outcome (list CreativeDirection))
    (run : assembly_answers) (st : page_state) : page_state :=
  match directions with
  | Ok suggested => set_directions suggested (selectedDirection st) st
  | Throw _ => generateArticleAssemblyLine run st
  end.

(** *** What happens on the page *)

(** A handler that reads an article, waits, and writes it back works on
    the article as it was when it was read; such events carry that
    snapshot.  [generateVideo] writes its article twice: with the status of
    the video, and then the article is rendered ([VideoStarted]), and with
    the name of the operation, without rendering ([VideoRequested]); there
    the object written is changed in place, and [shown] tells whether it is
    the object on display. *)
Inductive page_event :=
| AnalyzePersona (outlines : outcome (list ArticleOutline))
| ClickOutline (index : nat) (directions : outcome (list CreativeDirection))
    (run : assembly_answers)
| ClickDirection (index : nat) (run : assembly_answers)
| BackToForm
| BackToOutlines
| SaveEdit (newMarkdown : jsstring) (newPerformance : option ArticlePerformance)
| Proofread (answer : outcome jsstring)
| FactCheckDone (results : list jsstring)
| SaveSchedule (date : jsstring)
| RemoveSchedule
| SavePerformance (stub : ArticleMeta) (input : jsstring)
| OpenFromHistory (stub : ArticleMeta)
| DeleteFromHistory (article_id : Z)
| AuditDone (stub : ArticleMeta) (checked_at : jsstring)
| VideoPolled (stub : ArticleMeta) (v : Video)
| VideoStarted (article : ArticleHistoryItem) (v : Video)
| VideoRequested (article : ArticleHistoryItem) (v : Video) (shown : bool).

(** The object literal of the save-edit handler. *)
Definition saveEdit_update (current : ArticleHistoryItem) (newMarkdown : jsstring)
    (newPerformance : option ArticlePerformance) : ArticleHistoryItem :=
  let a := meta current in
  let kept :=
    match newPerformance, performance a with
    | Some p, Some old =>
        match userInput old with
        | Some u => Some (Performance (analysis p) (Some u))
        | None => Some p
        end
    | _, _ => newPerformance
    end in
  Item
    {| id := id a;
       inputs := inputs a;
       markdown := newMarkdown;
       html := [];
       references := references a;
       enhancements := enhancements a;
       faqs := faqs a;
       performance := kept;
       creativeDirection := creativeDirection a;
       factCheck := Some (MkFactCheck Unchecked []);
       scheduledAt := scheduledAt a;
       video := video a;
       lastCheckedForUpdate := lastCheckedForUpdate a |}
    (assets current).

(** The object literal of the proofread handler. *)
Definition proofread_update (current : ArticleHistoryItem)
    (proofreadMarkdown : jsstring) : ArticleHistoryItem :=
  let a := meta current in
  Item
    {| id := id a;
       inputs := inputs a;
       markdown := proofreadMarkdown;
       html := [];
       references := references a;
       enhancements := enhancements a;
       faqs := faqs a;
       performance := performance a;
       creativeDirection := creativeDirection a;
       factCheck := factCheck a;
       scheduledAt := scheduledAt a;
       video := video a;
       lastCheckedForUpdate := lastCheckedForUpdate a |}
    (assets current).

(** A stored article with its assets: [{ ...stub, ...getImagesFromDb(id) }]. *)
Definition full_article (stub : ArticleMeta) (st : page_state) : ArticleHistoryItem :=
  Item stub (getImagesFromDb (id stub) st).

(** A change of a stored article that is persisted, and shown when the
    article is the one on display (performance figures, video status). *)
Definition amend_stored (stub : ArticleMeta) (f : ArticleMeta -> ArticleMeta)
    (st : page_state) : page_state :=
  let fullArticle := with_meta f (full_article stub st) in
  let st1 := updateArticleInHistory fullArticle st in
  match currentArticle st1 with
  | Some c =>
      if (id (meta c) =? id (meta fullArticle))%Z
      then renderArticle fullArticle st1 else st1
  | None => st1
  end.

(** A change of the article on display, made on the object itself and
    persisted. *)
Definition amend_current (f : ArticleMeta -> ArticleMeta) (st : page_state) : page_state :=
  match currentArticle st with
  | None => st
  | Some c =>
      let c' := with_meta f c in
      updateArticleInHistory c' (set_currentArticle (Some c') st)
  end.

Definition add_user_input (input : jsstring) (a : ArticleMeta) : ArticleMeta :=
  set_performance
    (Some (Performance (default [] (analysis <$> performance a)) (Some input))) a.

Definition handle (st : page_state) (e : page_event) : page_state :=
  match e with
  | AnalyzePersona (Ok outlines) => set_outlines outlines (selectedOutline st) st
  | AnalyzePersona (Throw _) => st
  | ClickOutline index directions run =>
      match suggestedOutlines st !! index with
      | Some o =>
          generateCreativeDirections directions run
            (set_outlines (suggestedOutlines st) (Some o) st)
      | None => st
      end
  | ClickDirection index run =>
      match suggestedDirections st !! index with
      | Some d =>
          generateArticleAssemblyLine run
            (set_directions (suggestedDirections st) (Some d) st)
      | None => st
      end
  | BackToForm =>
      PageState (articles st) (currentArticle st) (db st) [] None
          (suggestedDirections st) (selectedDirection st) []
  | BackToOutlines => set_directions [] None st
  | SaveEdit newMarkdown newPerformance =>
      match currentArticle st with
      | None => st
      | Some current =>
          let updatedArticle := saveEdit_update current newMarkdown newPerformance in
          renderArticle updatedArticle (updateArticleInHistory updatedArticle st)
      end
  | Proofread answer =>
      match currentArticle st, answer with
      | Some current, Ok proofreadMarkdown =>
          match trim proofreadMarkdown with
          | [] => st
          | _ :: _ =>
              let updatedArticle := proofread_update current proofreadMarkdown in
              renderArticle updatedArticle
                (updateArticleInHistory updatedArticle st)
          end
      | _, _ => st
      end
  | FactCheckDone results =>
      amend_current (set_factCheck (Some (MkFactCheck Checked results))) st
  | SaveSchedule date => amend_current (set_scheduledAt (Some date)) st
  | RemoveSchedule => amend_current (set_scheduledAt None) st
  | SavePerformance stub input => amend_stored stub (add_user_input input) st
  | OpenFromHistory stub => renderArticle (full_article stub st) st
  | DeleteFromHistory i => removeArticleFromHistory i st
  | AuditDone stub checked_at =>
      updateArticleInHistory
        (with_meta (set_lastChecked (Some checked_at)) (full_article stub st)) st
  | VideoPolled stub v => amend_stored stub (set_video v) st
  | VideoStarted article v =>
      let article' := with_meta (set_video v) article in
      renderArticle article' (updateArticleInHistory article' st)
  | VideoRequested article v shown =>
      let article' := with_meta (set_video v) article in
      updateArticleInHistory article'
        (if shown then set_currentArticle (Some article') st else st)
  end.

Definition run_events (st : page_state) (events : list page_event) : page_state :=
  foldl handle st events.

(** The cache of an article is sound: there is none, or it is what the
    renderer returns for the markdown of the article. *)
Definition cache_sound (a : ArticleMeta) : Prop :=
  html a = [] \/ renderMarkdownToHtml (markdown a) = Ok (html a).

Definition caches_sound (st : page_state) : Prop :=
  Forall cache_sound (articles st)
  /\ match currentArticle st with
     | Some c => cache_sound (meta c)
     | None => True
     end.

(** The snapshots an event carries. *)
Definition event_snapshots (e : page_event) : list ArticleMeta :=
  match e with
  | SavePerformance stub _ | OpenFromHistory stub | AuditDone stub _
  | VideoPolled stub _ => [stub]
  | VideoStarted article _ | VideoRequested article _ _ => [meta article]
  | _ => []
  end.

(** An article record of a state: in the history or on display. *)
Definition known_in (st : page_state) (m : ArticleMeta) : Prop :=
  m ∈ articles st
  \/ exists c, currentArticle st = Some c /\ meta c = m.

(** The runs of the page from the state [st0] it is loaded with, as the list
    of the states passed, the latest first: a snapshot of an event is a
    record of the present state or of an earlier one. *)
Inductive page_run (st0 : page_state) : list page_state -> Prop :=
| run_start : page_run st0 [st0]
| run_step st hist e :
    page_run st0 (st :: hist) ->
    Forall (fun m => Exists (fun st' => known_in st' m) (st :: hist))
           (event_snapshots e) ->
    page_run st0 (handle st e :: st :: hist).

(** A change of a record that leaves its markdown and its markup alone. *)
Definition keeps_text (f : ArticleMeta -> ArticleMeta) : Prop :=
  forall a, markdown (f a) = markdown a /\ html (f a) = html a.

(** ** Sample data

    Concrete forms, answers of the service and states of the page, at which
    the properties below are evaluated. *)

Definition sample_form : authoring :=
  Authoring (lit "theme") (lit "persona") None (lit "plain") (lit "free")
            None None (lit "2024-01-01").

Definition sample_outline : ArticleOutline :=
  Outline (lit "title") (lit "introduction") [lit "first"; lit "second"].

Definition sample_minimal : CreativeDirection :=
  Direction (lit "minimal") [lit "#111111"; lit "#222222"; lit "#333333"].

Definition sample_vivid : CreativeDirection :=
  Direction (lit "vivid") [lit "#aa0000"; lit "#00aa00"; lit "#0000aa"].

Definition sample_classic : CreativeDirection :=
  Direction (lit "classic") [lit "#444444"; lit "#555555"; lit "#666666"].

(** A run of the assembly line in which every stage succeeds, started at
    the time [t]: the decoration has its three fields, the text has no
    image placeholder, and the image of the cover was generated. *)
Definition sample_run (t : Z) : assembly_answers :=
  Answers sample_form
          (Ok (lit "body", []))
          (Ok (lit "# body", lit "a cover", lit "Title"))
          (Ok {[ lit "cover" := lit "AAAA" ]})
          None None [] t.

(** A first article is made with the second of three directions; then the
    form is used again, an outline is picked once more, and this time the
    direction stage fails. *)
Definition stale_direction_trace : list page_event :=
  [ AnalyzePersona (Ok [sample_outline]);
    ClickOutline 0 (Ok [sample_minimal; sample_vivid; sample_classic])
                 (sample_run 1);
    ClickDirection 1 (sample_run 1);
    AnalyzePersona (Ok [sample_outline]);
    ClickOutline 0 (Throw (External 0)) (sample_run 2) ].

(** The placeholder of an image whose prompt holds an ampersand; a run of
    the assembly line in which the decoration is this placeholder and the
    image service has generated the cover and the image of the placeholder;
    and the clicks that start the run on a fresh page. *)
Definition ampersand_placeholder : jsstring :=
  markup "[IMAGE_GENERATE:{'prompt':'a&b'}]".

Definition ampersand_run : assembly_answers :=
  Answers sample_form
          (Ok (lit "body", []))
          (Ok (ampersand_placeholder, lit "a cover", lit "Title"))
          (Ok {[ lit "cover" := lit "AAAA"; ampersand_placeholder := lit "BBBB" ]})
          None None [] 1.

Definition ampersand_trace : list page_event :=
  [ AnalyzePersona (Ok [sample_outline]);
    ClickOutline 0 (Ok [sample_minimal; sample_vivid; sample_classic])
                 ampersand_run;
    ClickDirection 1 ampersand_run ].

(** A stored article with the markup [h] for the markdown [md]. *)
Definition sample_meta (i : Z) (md h : jsstring) : ArticleMeta :=
  Meta i sample_form md h [] [] None None None None None
       (MkVideo None None None) None.

Definition sample_article : ArticleHistoryItem :=
  Item (sample_meta 1 (lit "old") (lit "<p>old</p>")) (MkAssets None ∅).

(** A page with one article, which is on display. *)
Definition sample_page : page_state :=
  PageState [meta sample_article] (Some sample_article)
            {[ 1%Z := assets sample_article ]} [] None [] None [].

(** A page whose history is full: the articles 49, 48, ..., 0, the newest
    first, each with its asset record. *)
Definition full_page : page_state :=
  PageState (map (fun i => sample_meta (Z.of_nat i) (lit "text") [])
                 (rev (seq 0 50)))
            None
            (list_to_map (map (fun i => (Z.of_nat i, MkAssets None ∅)) (seq 0 50)))
            [] None [] None [].

Definition sample_item (i : Z) : ArticleHistoryItem :=
  Item (sample_meta i (lit "text") []) (MkAssets None ∅).

(** An image service that fails for the prompt [bad] and counts its calls. *)
Definition sample_generateImages (ai prompt : jsstring) (calls : nat)
  : outcome GenerateImagesResponse * nat :=
  (if jseqb prompt (lit "bad") then Throw (External 7)
   else Ok (ImagesResponse (Some [lit "AAAA"])),
   S calls).

Definition sample_tasks : list ImageGenerationTask :=
  [ ImageTask (lit "cover") (lit "a cover") (Some (lit "Title"));
    ImageTask (lit "first") (lit "bad") None;
    ImageTask (lit "second") (lit "a chart") None ].

(** An operation that fails twice and then succeeds; its environment is the
    number of its calls. *)
Definition sample_operation (calls : nat) : outcome nat * nat :=
  (if calls <? 2 then Throw (External calls) else Ok calls, S calls).

(** ** Helpers of the prompts *)

(** [str.length > length ? str.substring(0, length) + '...' : str], for the
    lengths the callers pass, which are natural numbers. *)
Definition safeSubstring (str : jsstring) (length : nat) : jsstring :=
  if length <? List.length str then take length str ++ lit "..." else str.

(** [str.replace(/</g, "&lt;").replace(/>/g, "&gt;")] *)
Definition sanitizeString (str : jsstring) : jsstring :=
  replace_text (RIs Chars.gt) (lit "&gt;")
    (replace_text (RIs Chars.lt) (lit "&lt;") str).

(** What the sanitizer writes for one code unit. *)
Definition sanitized_unit (c : N) : jsstring :=
  if (c =? Chars.lt)%N then lit "&lt;"
  else if (c =? Chars.gt)%N then lit "&gt;"
  else [c].

(** What the first pass of the renderer writes for one code unit. *)
Definition escaped_unit (c : N) : jsstring :=
  if (c =? Chars.amp)%N then lit "&amp;"
  else if (c =? Chars.lt)%N then lit "&lt;"
  else if (c =? Chars.gt)%N then lit "&gt;"
  else [c].

Definition is_angle (c : N) : bool := (c =? Chars.lt)%N || (c =? Chars.gt)%N.

(** ** Measures of a log *)

(** The number of times the operation was started. *)
Fixpoint invocations (l : list event) : nat :=
  match l with
  | [] => 0
  | Invoked :: l' => S (invocations l')
  | Slept _ :: l' => invocations l'
  end.

(** The time spent waiting, in milliseconds. *)
Fixpoint waited (l : list event) : nat :=
  match l with
  | [] => 0
  | Slept ms :: l' => ms + waited l'
  | Invoked :: l' => waited l'
  end.

(** Three grounding chunks, the first and the last with the same uri. *)
Definition sample_chunks : list grounding_chunk :=
  [ GroundingChunk (Some (WebSource (Some (lit "https://a.b/c")) (Some (lit "first title"))));
    GroundingChunk (Some (WebSource (Some (lit "https://d.e/f")) None));
    GroundingChunk (Some (WebSource (Some (lit "https://a.b/c")) (Some (lit "last title")))) ].

(** The code units of a key: letters, digits, [+], [/] and [=]. *)
Definition is_key_unit (c : N) : bool :=
  is_ascii_alnum c || (c =? Chars.plus)%N || (c =? Chars.slash)%N
  || (c =? Chars.equal)%N.

(** [decode]: the octets of base-64 data, as a [Uint8Array] holds them. *)
Definition decode (base64 : jsstring) : outcome (list N) :=
  outcome_map (map (fun c => (c mod 256)%N)) (atob base64).

(** ** The API key

    The key in memory (the global [apiKey]) and the entry [geminiApiKey] of
    the local storage, which outlives the page. *)

Record key_state := KeyState {
  apiKey : option jsstring;
  storedKey : option jsstring
}.

Definition getApiKey (st : key_state) : option jsstring := apiKey st.

(** [apiKey = key; localStorage.setItem('geminiApiKey', key)] *)
Definition saveApiKey (key : jsstring) (st : key_state) : key_state :=
  KeyState (Some key) (Some key).

(** [apiKey = null; localStorage.removeItem('geminiApiKey')] *)
Definition clearApiKey (st : key_state) : key_state := KeyState None None.

(** [checkApiKeyOnLoad]: [key = localStorage.getItem('geminiApiKey');
    if (key) apiKey = key]. *)
Definition checkApiKeyOnLoad (st : key_state) : key_state :=
  if truthy (storedKey st) then KeyState (storedKey st) (storedKey st) else st.

(** The page is loaded: the global starts as [null], the storage is as it
    was left. *)
Definition load_page (storage : option jsstring) : key_state :=
  checkApiKeyOnLoad (KeyState None storage).

(** What is done with the key on the page: the save button with the text of
    the input and the outcome of the validation call, the clear button, and
    a reload. *)
Inductive key_event :=
| SaveKeyClick (input : jsstring) (validation : outcome unit)
| ClearKeyClick
| Reload.

Definition key_handle (st : key_state) (e : key_event) : key_state :=
  match e with
  | SaveKeyClick input validation =>
      let key := trim input in
      if truthy (Some key) then
        match validation with
        | Ok _ => checkApiKeyOnLoad (saveApiKey key st)
        | Throw _ => st
        end
      else st
  | ClearKeyClick => checkApiKeyOnLoad (clearApiKey st)
  | Reload => load_page (storedKey st)
  end.

(** The key in memory is the stored key, and none when the stored text is
    empty. *)
Definition key_in_step (st : key_state) : Prop :=
  apiKey st = if truthy (storedKey st) then storedKey st else None.

(** ** Invariants of a match

    [preserves Inv r]: every step the pattern [r] can take from a position
    with [Inv] leads to a position with [Inv]. *)
Fixpoint preserves (Inv : mstate -> Prop) (r : regex) : Prop :=
  match r with
  | RChar p =>
      forall l c t cs,
        Inv (MState l (c :: t) cs) -> p c = true -> Inv (MState (c :: l) t cs)
  | REmpty | RBol | REol => True
  | RSeq a b | RAlt a b => preserves Inv a /\ preserves Inv b
  | RStar _ a => preserves Inv a
  | RGroup i a =>
      preserves Inv a
      /\ forall st n,
           Inv st ->
           Inv (MState (left st) (right st)
                       ((i, rev (take n (left st))) :: caps st))
  | RBackref i =>
      forall st s,
        Inv st -> cap_lookup i (caps st) = Some s ->
        starts_with s (right st) = true -> Inv (advance (length s) st)
  end.

(** ** Plain text

    A code unit with which no pattern of the renderer can start a match:
    none of [&], [<], [>], the opening bracket, the star, the hyphen, the
    hash and the backtick, and no digit. *)
Definition is_inert (c : N) : bool :=
  negb ((c =? Chars.amp)%N || (c =? Chars.lt)%N || (c =? Chars.gt)%N
        || (c =? Chars.lbrack)%N || (c =? Chars.star)%N || (c =? Chars.minus)%N
        || (c =? Chars.hash)%N || (c =? Chars.backtick)%N || is_digit c).

(** A code unit of a plain line. *)
Definition is_plain (c : N) : bool := is_inert c && negb (c =? Chars.lf)%N.

(** The paragraph of a plain line: none for a blank line. *)
Definition paragraph_of (line : jsstring) : jsstring :=
  if forallb is_space line then [] else lit "<p>" ++ line ++ lit "</p>".

(** [fails Inv r]: the pattern [r] finds no match from a position with
    [Inv]. *)
Definition fails (Inv : mstate -> Prop) (r : regex) : Prop :=
  forall st k, Inv st -> rmatch r st k = None.

(** The rest of the text holds inert code units only. *)
Definition inert_rest (st : mstate) : Prop :=
  Forall (fun c => is_inert c = true) (right st).

(** The position is at the end or before a code unit other than [<]. *)
Definition not_at_tag (st : mstate) : Prop :=
  match right st with
  | c :: _ => c <> Chars.lt
  | [] => True
  end.

(** A code unit that is no surrogate. *)
Definition is_scalar_unit (c : N) : bool :=
  negb (is_high_surrogate c) && negb (is_low_surrogate c) && (c <? 65536)%N.

(** A string that is well formed behind a low surrogate left over at its
    head: what is left of a well-formed string when the scan of a
    replacement has gone one code unit into a pair. *)
Definition well_formed_rest (s : jsstring) : Prop :=
  well_formed s = true
  \/ exists d t, s = d :: t /\ is_low_surrogate d = true /\ well_formed t = true.

(** The position [st] of a match that started in front of [s], with [l]
    before it: what has been passed is in [left] and the rest is [right]. *)
Definition passed (l s : jsstring) (st : mstate) : Prop :=
  exists w, left st = rev w ++ l /\ s = w ++ right st.

(** In a group that started at the position with [l0] before it, no group
    was closed so far. *)
Definition in_first_group (l0 s0 : jsstring) (st : mstate) : Prop :=
  passed l0 s0 st /\ caps st = [].

(** ** Headings and paragraphs

    A text of heading lines and lines of plain text, and the markup the
    renderer is to write for it. *)

(** A code unit of the text of a line: inert and no line terminator. *)
Definition is_text_unit (c : N) : bool :=
  is_inert c && negb (is_line_terminator c).

Inductive block :=
| Heading (level : nat) (title : jsstring)
| Paragraph (text : jsstring).

(** The line of a block in the markdown. *)
Definition block_source (b : block) : jsstring :=
  match b with
  | Heading level title => repeat Chars.hash level ++ Chars.space :: title
  | Paragraph text => text
  end.

(** The name of a heading element: the letter h and the digit of the level. *)
Definition heading_tag (level : nat) : jsstring := [104; 48 + N.of_nat level]%N.

Definition heading_markup (level : nat) (title : jsstring) : jsstring :=
  lit "<" ++ heading_tag level ++ lit ">" ++ title
  ++ lit "</" ++ heading_tag level ++ lit ">".

Definition block_markup (b : block) : jsstring :=
  match b with
  | Heading level title => heading_markup level title
  | Paragraph text => paragraph_of text
  end.

Definition block_ok (b : block) : Prop :=
  match b with
  | Heading level title =>
      1 <= level <= 3 /\ Forall (fun c => is_text_unit c = true) title
  | Paragraph text => Forall (fun c => is_text_unit c = true) text
  end.

(** The line of a block between two passes: the headings of the levels in
    [done] are written as markup already. *)
Definition line_after (done : nat -> bool) (b : block) : jsstring :=
  match b with
  | Heading level title =>
      if done level then heading_markup level title else block_source b
  | Paragraph text => text
  end.

(** The scan of a replacement is at the start of a line. *)
Definition at_line_start (l : jsstring) : Prop :=
  match l with
  | [] => True
  | c :: _ => is_line_terminator c = true
  end.

(** What follows a line: the end of the text, or a line feed. *)
Definition line_tail (tail : jsstring) : Prop :=
  match tail with
  | [] => True
  | c :: _ => c = Chars.lf
  end.

(** A pattern that finds no match behind a code unit that is no line
    terminator. *)
Definition anchored (r : regex) : Prop :=
  forall l c s, is_line_terminator c = false -> rexec r (c :: l) s = None.

(** What a replacement with an anchored pattern makes of a line: the line is
    left as it is, or replaced as a whole. *)
Definition line_step (r : regex) (cb : rmatched -> jsstring)
    (line line' : jsstring) : Prop :=
  Forall (fun c => is_line_terminator c = false) line
  /\ forall l tail, at_line_start l -> line_tail tail ->
       (rexec r l (line ++ tail) = None /\ line' = line)
       \/ (line <> []
           /\ exists cs, rexec r l (line ++ tail)
                         = Some (MState (rev line ++ l) tail cs)
                         /\ cb (RMatched line cs) = line').

(** The pattern [r] has no match anywhere in [s]. *)
Definition no_match_in (r : regex) (s : jsstring) : Prop :=
  forall l s', s' `suffix_of` s -> rexec r l s' = None.

(** The marker of a list line starts with one of these. *)
Definition is_marker (c : N) : bool :=
  (c =? Chars.minus)%N || (c =? Chars.star)%N || is_digit c.

(** Behind the spaces at the position there is no marker of a list line. *)
Definition no_marker_ahead (st : mstate) : Prop :=
  match snd (span (N.eqb Chars.space) (right st)) with
  | c :: _ => is_marker c = false
  | [] => True
  end.

(** A code unit of the markdown of headings and plain lines: inert, or the
    hash. *)
Definition is_quiet (c : N) : bool := is_inert c || (c =? Chars.hash)%N.

(** ** Lists

    A text of list lines with the hyphen as their marker, and the markup the
    renderer is to write for it. *)

Definition item_source (text : jsstring) : jsstring :=
  Chars.minus :: Chars.space :: text.

Definition item_markup (text : jsstring) : jsstring :=
  lit "<li>" ++ text ++ lit "</li>".

Definition list_markup (items : list jsstring) : jsstring :=
  lit "<ul>" ++ concat (map item_markup items) ++ lit "</ul>".

(** A list line behind the list pass: a list of its own. *)
Definition item_line (text : jsstring) : jsstring :=
  lit "<ul>" ++ item_markup text ++ lit "</ul>".

(** What follows the list of a line in the text behind the list pass. *)
Definition lines_tail (items : list jsstring) : jsstring :=
  match items with
  | [] => []
  | _ :: _ => Chars.lf :: join [Chars.lf] (map item_line items)
  end.

(** A code unit of a list line: inert, or the hyphen. *)
Definition is_item_unit (c : N) : bool := is_inert c || (c =? Chars.minus)%N.

(** The position is at the end or before a code unit other than [d]. *)
Definition not_at (d : N) (st : mstate) : Prop :=
  match right st with
  | c :: _ => c <> d
  | [] => True
  end.

(** The pattern [r] has no match that starts in [w], in front of [rest]. *)
Definition no_match_before (r : regex) (w rest : jsstring) : Prop :=
  forall l p c q, w = p ++ c :: q -> rexec r l (c :: q ++ rest) = None.

(** ** Strong text in a line

    A line with one strong part, between two pairs of stars, and the markup
    the renderer is to write for it. *)

Definition strong_source (a b c : jsstring) : jsstring :=
  a ++ lit "**" ++ b ++ lit "**" ++ c.

Definition strong_markup (a b c : jsstring) : jsstring :=
  a ++ lit "<strong>" ++ b ++ lit "</strong>" ++ c.

(** The line is a paragraph, unless there is white space only around the
    strong part. *)
Definition strong_line_markup (a b c : jsstring) : jsstring :=
  if forallb is_space a && forallb is_space c then strong_markup a b c
  else lit "<p>" ++ strong_markup a b c ++ lit "</p>".

(** A code unit of a line with stars: inert, or the star. *)
Definition is_emphasis_unit (c : N) : bool := is_inert c || (c =? Chars.star)%N.

(** A code unit of a line with tags: inert, or an angle bracket. *)
Definition is_markup_unit (c : N) : bool :=
  is_inert c || (c =? Chars.lt)%N || (c =? Chars.gt)%N.

(** ** A chart behind the text of a line

    A line of text that ends with a chart placeholder whose payload is not
    JSON. *)

Definition chart_source (a payload : jsstring) : jsstring :=
  a ++ lit "[INTERACTIVE_CHART:" ++ payload ++ lit "]".

(** A code unit of the payload: none that the first pass escapes, and no
    closing bracket. *)
Definition is_payload_unit (c : N) : bool :=
  negb ((c =? Chars.amp)%N || (c =? Chars.lt)%N || (c =? Chars.gt)%N
        || (c =? Chars.rbrack)%N).

(** A code unit that the first pass leaves alone. *)
Definition is_unescaped_unit (c : N) : bool :=
  negb ((c =? Chars.amp)%N || (c =? Chars.lt)%N || (c =? Chars.gt)%N).

(** The error element of a chart without the last code unit of its closing
    tag. *)
Definition chart_error_open : jsstring :=
  markup "<div class='error'>" ++ chart_error_message ++ lit "</div".


(** * Part II: properties *)

(** ** Patterns: how [rmatch] unfolds *)

Lemma rmatch_star greedy a st k :
  rmatch (RStar greedy a) st k = star_loop greedy a k (length (right st)) st.
Proof. reflexivity. Qed.

Lemma or_else_None {A} (a : option A) : or_else a None = a.
Proof. by destruct a. Qed.

Lemma span_app p s : fst (span p s) ++ snd (span p s) = s.
Proof. induction s as [|c t IH]; simpl; [done|]. destruct (p c); simpl; congruence. Qed.

Lemma star_greedy_class p k cs n l s :
  length s <= n ->
  (forall l' c t, p c = true -> k (MState l' (c :: t) cs) = None) ->
  star_loop true (RChar p) k n (MState l s cs)
  = k (MState (rev (fst (span p s)) ++ l) (snd (span p s)) cs).
Proof.
  intros Hn Hk. revert l s Hn.
  induction n as [|n IH]; intros l s Hn.
  - destruct s; simpl in *; [done|lia].
  - destruct s as [|c t]; simpl; [done|].
    destruct (p c) eqn:Hp; simpl; [|done].
    assert (Hlt : (length t <? S (length t)) = true) by (apply Nat.ltb_lt; lia).
    rewrite Hlt, (Hk l c t Hp), or_else_None, IH by (simpl in Hn; lia).
    by rewrite <- app_assoc.
Qed.

Lemma rmatch_seq a b st k :
  rmatch (RSeq a b) st k = rmatch a st (fun st' => rmatch b st' k).
Proof. reflexivity. Qed.

Lemma rmatch_empty st k : rmatch REmpty st k = k st.
Proof. reflexivity. Qed.

Lemma rmatch_is c l s cs k :
  rmatch (RIs c) (MState l s cs) k
  = match s with
    | x :: t => if (x =? c)%N then k (MState (x :: l) t cs) else None
    | [] => None
    end.
Proof. destruct s as [|x t]; simpl; [done|]. by rewrite (N.eqb_sym c x). Qed.

Lemma rmatch_group i a st k :
  rmatch (RGroup i a) st k
  = rmatch a st (fun st' =>
      k (MState (left st') (right st')
           ((i, rev (take (length (left st') - length (left st)) (left st')))
            :: caps st'))).
Proof. reflexivity. Qed.

Lemma rmatch_opt a st k :
  rmatch (ROpt a) st k = or_else (rmatch a st k) (k st).
Proof. reflexivity. Qed.

Lemma strip_prefix_Some w s t : strip_prefix w s = Some t <-> s = w ++ t.
Proof.
  revert s. induction w as [|a w IH]; intros s; simpl.
  - split; congruence.
  - destruct s as [|c s]; [split; discriminate|].
    destruct (c =? a)%N eqn:E.
    + apply N.eqb_eq in E. subst. rewrite IH. split; congruence.
    + apply N.eqb_neq in E. split; [discriminate|]. intros [=]. congruence.
Qed.

Lemma rmatch_str w l s cs k :
  rmatch (RStr w) (MState l s cs) k
  = match strip_prefix w s with
    | Some t => k (MState (rev w ++ l) t cs)
    | None => None
    end.
Proof.
  revert l s. induction w as [|a w IH]; intros l s; [done|].
  cbn [RStr foldr]. rewrite rmatch_seq, rmatch_is.
  destruct s as [|c s]; [done|]. cbn [strip_prefix].
  destruct (c =? a)%N eqn:E; [|done].
  apply N.eqb_eq in E. subst c.
  change (foldr (fun c r => RSeq (RIs c) r) REmpty w) with (RStr w).
  rewrite IH. cbn [rev]. by rewrite <- app_assoc.
Qed.

(** One or more code units of a class, greedy, before something that cannot
    start with a code unit of the class: the longest run is taken. *)
Lemma rmatch_plus_class p l s cs k :
  (forall l' c t, p c = true -> k (MState l' (c :: t) cs) = None) ->
  rmatch (RPlus true (RChar p)) (MState l s cs) k
  = match fst (span p s) with
    | [] => None
    | _ :: _ => k (MState (rev (fst (span p s)) ++ l) (snd (span p s)) cs)
    end.
Proof.
  intros Hk. unfold RPlus. rewrite rmatch_seq.
  destruct s as [|c t]; [done|]. simpl.
  destruct (p c) eqn:Hp; [|done]. 
  change (star_loop true (RChar p) k (length t) (MState (c :: l) t cs) = 
     k (MState (rev (c :: fst (span p t)) ++ l) (snd (span p t)) cs)).
  rewrite star_greedy_class by (auto; lia). simpl. by rewrite <- app_assoc.
Qed.

Arguments rmatch : simpl never.

Lemma strip_prefix_app p q s :
  strip_prefix (p ++ q) s
  = match strip_prefix p s with
    | Some t => strip_prefix q t
    | None => None
    end.
Proof.
  revert s. induction p as [|a p IH]; intros s; [done|].
  destruct s as [|c s]; [done|]. simpl. by destruct (c =? a)%N.
Qed.

Lemma rmatch_url l s cs k :
  (forall l' c t, url_char c = true -> k (MState l' (c :: t) cs) = None) ->
  rmatch url_re (MState l s cs) k
  = match scheme s with
    | Some (sch, s3) =>
        match fst (span url_char s3) with
        | [] => None
        | _ :: _ =>
            k (MState (rev (sch ++ fst (span url_char s3)) ++ l)
                      (snd (span url_char s3)) cs)
        end
    | None => None
    end.
Proof.
  intros Hk. unfold url_re, RCat, scheme. cbn [foldr].
  change (lit "https://") with (lit "http" ++ 115%N :: lit "://").
  change (lit "http://") with (lit "http" ++ lit "://").
  rewrite !strip_prefix_app.
  rewrite rmatch_seq, rmatch_str.
  destruct (strip_prefix (lit "http") s) as [s1|]; [|done].
  rewrite rmatch_seq, rmatch_opt, rmatch_is.
  assert (Hno : forall l1 s1,
    rmatch (RSeq (RStr (lit "://")) (RSeq (RPlus true (RChar url_char)) REmpty))
      (MState l1 s1 cs) k
    = match strip_prefix (lit "://") s1 with
      | Some s3 =>
          match fst (span url_char s3) with
          | [] => None
          | _ :: _ =>
              k (MState (rev (fst (span url_char s3)) ++ rev (lit "://") ++ l1)
                        (snd (span url_char s3)) cs)
          end
      | None => None
      end).
  { intros l1 s1'. rewrite rmatch_seq, rmatch_str.
    destruct (strip_prefix (lit "://") s1') as [s3|]; [|done].
    rewrite rmatch_seq, rmatch_plus_class.
    - destruct (fst (span url_char s3)); [done|]. by rewrite rmatch_empty.
    - intros. rewrite rmatch_empty. auto. }
  rewrite Hno.
  destruct s1 as [|x t]; [done|].
  cbn [strip_prefix].
  destruct (x =? 115)%N eqn:E.
  - apply N.eqb_eq in E. subst x. rewrite Hno. cbn [N.eqb Pos.eqb].
    change (strip_prefix (lit "://") (115%N :: t)) with (@None jsstring). cbv beta iota. rewrite or_else_None.
    destruct (strip_prefix (lit "://") t) as [s3|]; [|done].
    destruct (fst (span url_char s3)) eqn:Hs; [done|].
    f_equal. f_equal. rewrite !rev_app_distr, <- !app_assoc. reflexivity.
  - cbn [or_else].
    destruct (strip_prefix (lit "://") (x :: t)) as [s3|]; [|done].
    destruct (fst (span url_char s3)) eqn:Hs; [done|].
    f_equal. f_equal. rewrite !rev_app_distr, <- !app_assoc. reflexivity.
Qed.

Lemma take_length_diff {A} (x l : list A) :
  take (length (x ++ l) - length l) (x ++ l) = x.
Proof.
  rewrite length_app. replace (length x + length l - length l) with (length x) by lia.
  by rewrite take_app_length.
Qed.

Lemma rexec_link l s :
  rexec link_re l s
  = match link_at s with
    | Some (text, url, rest) =>
        Some (MState (rev (link_src text url) ++ l) rest [(2, url); (1, text)])
    | None => None
    end.
Proof.
  unfold rexec, link_re, link_at, RCat. cbn [foldr].
  rewrite rmatch_seq, rmatch_is.
  destruct s as [|c s1]; [done|]. cbn [strip_prefix].
  destruct (c =? Chars.lbrack)%N eqn:Ec; [|done].
  apply N.eqb_eq in Ec. subst c.
  rewrite rmatch_seq, rmatch_group. cbn [left right caps].
  rewrite rmatch_plus_class.
  2:{ intros l' c t Hc. rewrite rmatch_seq, rmatch_is.
      cbn [left right caps]. unfold not_rbrack in Hc. by destruct (c =? Chars.rbrack)%N. }
  destruct (fst (span not_rbrack s1)) as [|t0 text] eqn:Htext; [done|].
  rewrite <- Htext. clear Htext t0 text.
  set (text := fst (span not_rbrack s1)). set (s2 := snd (span not_rbrack s1)).
  cbn [left right caps].   rewrite (take_length_diff (rev text) (Chars.lbrack :: l)), rev_involutive.
  rewrite rmatch_seq, rmatch_is.
  destruct s2 as [|c2 s2']; [done|]. cbn [strip_prefix].
  destruct (c2 =? Chars.rbrack)%N eqn:E2; [|done].
  rewrite rmatch_seq, rmatch_is.
  destruct s2' as [|c3 s3]; [done|].
  destruct (c3 =? Chars.lparen)%N eqn:E3; [|done].
  apply N.eqb_eq in E2, E3. subst c2 c3.
  rewrite rmatch_seq, rmatch_group. cbn [left right caps].
  rewrite rmatch_url.
  2:{ intros l' c t Hc. rewrite rmatch_seq, rmatch_is. cbn [left right caps].
      unfold url_char in Hc. destruct (c =? Chars.rparen)%N; [|done].
      by rewrite orb_true_r in Hc. }
  destruct (scheme s3) as [[sch s4]|]; [|done].
  destruct (fst (span url_char s4)) as [|b0 body] eqn:Hbody; [done|].
  rewrite <- Hbody. clear Hbody b0 body.
  set (body := fst (span url_char s4)). set (s5 := snd (span url_char s4)).
  cbn [left right caps]. rewrite (take_length_diff (rev (sch ++ body))), rev_involutive.
  rewrite rmatch_seq, rmatch_is.
  destruct s5 as [|c5 s6]; [done|]. cbn [strip_prefix].
  destruct (c5 =? Chars.rparen)%N eqn:E5; [|done].
  apply N.eqb_eq in E5. subst c5. rewrite rmatch_empty.
  f_equal. f_equal. unfold link_src.
  change (Chars.lbrack :: text ++ [Chars.rbrack; Chars.lparen] ++ (sch ++ body) ++ [Chars.rparen])
    with ([Chars.lbrack] ++ text ++ [Chars.rbrack; Chars.lparen] ++ (sch ++ body) ++ [Chars.rparen]).
  rewrite !rev_app_distr. simpl. rewrite <- !app_assoc. simpl. reflexivity.
Qed.

Lemma span_spec p s :
  Forall (fun c => p c = true) (fst (span p s))
  /\ match snd (span p s) with c :: _ => p c = false | [] => True end.
Proof.
  induction s as [|c t [IH1 IH2]]; simpl; [by split|].
  destruct (p c) eqn:E; simpl; [split; [by constructor|done]|by split].
Qed.

Lemma span_run p run rest :
  Forall (fun c => p c = true) run ->
  match rest with c :: _ => p c = false | [] => True end ->
  span p (run ++ rest) = (run, rest).
Proof.
  intros Hrun Hrest. induction Hrun as [|c run Hc _ IH]; simpl.
  - destruct rest as [|c t]; [done|]. simpl. by rewrite Hrest.
  - by rewrite Hc, IH.
Qed.

Lemma scheme_Some s sch s3 :
  scheme s = Some (sch, s3)
  <-> (sch = lit "http://" \/ sch = lit "https://") /\ s = sch ++ s3.
Proof.
  unfold scheme. split.
  - destruct (strip_prefix (lit "https://") s) as [t|] eqn:E1.
    + intros [= <- <-]. apply strip_prefix_Some in E1. auto.
    + destruct (strip_prefix (lit "http://") s) as [t|] eqn:E2; [|done].
      intros [= <- <-]. apply strip_prefix_Some in E2. auto.
  - intros [[-> | ->] ->].
    + assert (H : strip_prefix (lit "http://") (lit "http://" ++ s3) = Some s3)
        by by apply strip_prefix_Some.
      rewrite H.
      destruct (strip_prefix (lit "https://") (lit "http://" ++ s3)) as [t|] eqn:E; [|done].
      apply strip_prefix_Some in E. discriminate E.
    + assert (H : strip_prefix (lit "https://") (lit "https://" ++ s3) = Some s3)
        by by apply strip_prefix_Some.
      by rewrite H.
Qed.

Lemma link_at_Some s text url rest :
  link_at s = Some (text, url, rest)
  <-> is_link text url /\ s = link_src text url ++ rest.
Proof.
  unfold link_at. split.
  - destruct (strip_prefix [Chars.lbrack] s) as [s1|] eqn:E1; [|done].
    apply strip_prefix_Some in E1. subst s.
    pose proof (span_spec not_rbrack s1) as [Ht _].
    pose proof (span_app not_rbrack s1) as Happ.
    destruct (fst (span not_rbrack s1)) as [|t0 tx] eqn:Etext; [done|].
    destruct (strip_prefix _ (snd (span not_rbrack s1))) as [s3|] eqn:E2; [|done].
    apply strip_prefix_Some in E2.
    destruct (scheme s3) as [[sch s4]|] eqn:E3; [|done].
    apply scheme_Some in E3 as [Hsch ->].
    pose proof (span_spec url_char s4) as [Hb _].
    pose proof (span_app url_char s4) as Happ2.
    destruct (fst (span url_char s4)) as [|b0 bd] eqn:Ebody; [done|].
    destruct (strip_prefix _ (snd (span url_char s4))) as [s6|] eqn:E4; [|done].
    apply strip_prefix_Some in E4.
    intros [= <- <- <-]. split.
    + split; [done|done|]. exists (b0 :: bd). split; [|done].
      destruct Hsch as [-> | ->]; auto.
    + unfold link_src. rewrite <- Happ, E2, <- Happ2, E4. simpl.
      repeat first [rewrite <- app_assoc | rewrite <- app_comm_cons | progress cbn [app]]. reflexivity.
  - intros [[Hne Htext (body & Hurl & Hbne & Hbody)] ->].
    assert (Hs : exists sch, (sch = lit "http://" \/ sch = lit "https://")
                             /\ url = sch ++ body).
    { destruct Hurl as [-> | ->]; eauto. }
    destruct Hs as (sch & Hsch & ->).
    unfold link_src.
    repeat first [rewrite <- app_assoc | rewrite <- app_comm_cons | progress cbn [app]].
    cbn [strip_prefix]. rewrite N.eqb_refl.
    rewrite (span_run not_rbrack text); [|done|done]. cbn [fst snd].
    destruct text as [|t0 tx]; [done|].
    cbn [strip_prefix]. rewrite !N.eqb_refl.
    assert (E : scheme (sch ++ body ++ Chars.rparen :: rest)
                = Some (sch, body ++ Chars.rparen :: rest))
      by by apply scheme_Some.
    rewrite E.
    rewrite (span_run url_char body); [|done|done]. cbn [fst snd].
    destruct body as [|b0 bd]; [done|].
    cbn [strip_prefix]. by rewrite N.eqb_refl.
Qed.

Lemma link_at_None s :
  link_at s = None ->
  forall text url rest, is_link text url -> s <> link_src text url ++ rest.
Proof.
  intros HN text url rest Hl ->.
  assert (link_at (link_src text url ++ rest) = Some (text, url, rest))
    by by apply link_at_Some.
  congruence.
Qed.

Lemma link_at_not_None s text url rest :
  is_link text url -> s = link_src text url ++ rest -> link_at s <> None.
Proof.
  intros Hl Hs HN. by eapply link_at_None.
Qed.

Lemma replace_loop_link valid fuel l text url rest :
  is_link text url ->
  replace_loop (S fuel) link_re (keep_grounded valid) l (link_src text url ++ rest)
  = (if bool_decide (url ∈ valid) then link_src text url else text)
    ++ replace_loop fuel link_re (keep_grounded valid)
         (rev (link_src text url) ++ l) rest.
Proof.
  intros Hl. cbn [replace_loop]. rewrite rexec_link.
  assert (E : link_at (link_src text url ++ rest) = Some (text, url, rest))
    by by apply link_at_Some.
  rewrite E. cbn [left right caps].
  rewrite length_app, length_rev.
  replace (length (link_src text url) + length l - length l)
    with (length (link_src text url)) by lia.
  rewrite take_app_length.
  unfold link_src at 1. cbn [length].
  unfold keep_grounded, group. cbn [groups whole cap_lookup Nat.eqb default].
  reflexivity.
Qed.

Lemma replace_loop_plain valid fuel l c rest :
  link_at (c :: rest) = None ->
  replace_loop (S fuel) link_re (keep_grounded valid) l (c :: rest)
  = c :: replace_loop fuel link_re (keep_grounded valid) (c :: l) rest.
Proof.
  intros E. cbn [replace_loop]. by rewrite rexec_link, E.
Qed.

Lemma replace_loop_filtered valid fuel l s :
  length s < fuel ->
  filtered valid s (replace_loop fuel link_re (keep_grounded valid) l s).
Proof.
  revert l s. induction fuel as [|fuel IH]; intros l s Hf; [lia|].
  destruct (link_at s) as [[[text url] rest]|] eqn:E.
  - apply link_at_Some in E as [Hl ->].
    rewrite replace_loop_link by done.
    assert (Hlen : length rest < fuel).
    { rewrite length_app in Hf. unfold link_src in Hf. simpl in Hf. lia. }
    case_bool_decide.
    + by apply filtered_kept; [| |apply IH].
    + by apply filtered_demoted; [| |apply IH].
  - destruct s as [|c t]; [constructor|].
    rewrite replace_loop_plain by done.
    apply filtered_plain; [by apply link_at_None|].
    apply IH. simpl in Hf. lia.
Qed.






(** ** The reference list *)

Lemma jsmap_set_keys {V} k (v : V) m :
  map fst (jsmap_set k v m)
  = if bool_decide (k ∈ map fst m) then map fst m else map fst m ++ [k].
Proof.
  induction m as [|[k' v'] m IH]; cbn [jsmap_set map fst app].
  - rewrite (bool_decide_eq_false_2 (k ∈ [])); [done|]. apply not_elem_of_nil.
  - destruct (decide (k = k')) as [->|Hne].
    + rewrite (bool_decide_eq_true_2 (k' = k')) by done.
      rewrite (bool_decide_eq_true_2 (k' ∈ k' :: map fst m)); [done|].
      apply elem_of_cons. auto.
    + rewrite (bool_decide_eq_false_2 (k = k')) by done.
      cbn [map fst]. rewrite IH.
      destruct (decide (k ∈ map fst m)) as [Hin|Hin].
      * rewrite (bool_decide_eq_true_2 (k ∈ map fst m)) by done.
        rewrite (bool_decide_eq_true_2 (k ∈ k' :: map fst m)); [done|].
        apply elem_of_cons. auto.
      * rewrite (bool_decide_eq_false_2 (k ∈ map fst m)) by done.
        rewrite (bool_decide_eq_false_2 (k ∈ k' :: map fst m)); [done|].
        intros [?|?]%elem_of_cons; congruence.
Qed.

Lemma filter_all {A} (P : A -> Prop) `{forall x, Decision (P x)} (l : list A) :
  (forall x, x ∈ l -> P x) -> filter P l = l.
Proof.
  induction l as [|x l IH]; intros Hall; [done|].
  rewrite filter_cons_True by (apply Hall, elem_of_cons; auto).
  f_equal. apply IH. intros y Hy. apply Hall, elem_of_cons. auto.
Qed.

Lemma first_occurrences_elem x l :
  x ∈ first_occurrences l <-> x ∈ l.
Proof.
  induction l as [|y t IH]; simpl; [done|].
  rewrite !elem_of_cons, list_elem_of_filter, IH.
  destruct (decide (x = y)); tauto.
Qed.

Lemma first_occurrences_NoDup l : NoDup (first_occurrences l).
Proof.
  induction l as [|y t IH]; simpl; [constructor|].
  constructor.
  - rewrite list_elem_of_filter. tauto.
  - by apply NoDup_filter.
Qed.

Lemma jsmap_of_keys_acc {V} (entries : list (jsstring * V)) (acc : jsmap V) :
  map fst (foldl (fun m e => jsmap_set (fst e) (snd e) m) acc entries)
  = map fst acc
    ++ filter (fun k => k ∉ map fst acc) (first_occurrences (map fst entries)).
Proof.
  revert acc. induction entries as [|[k v] es IH]; intros acc; simpl.
  - by rewrite app_nil_r.
  - rewrite IH, jsmap_set_keys. simpl. case_bool_decide as E.
    + f_equal. rewrite filter_cons_False by tauto.
      rewrite list_filter_filter. apply list_filter_iff.
      intros x. split; [|tauto]. intros Hx. split; [done|]. congruence.
    + rewrite filter_cons_True by done.
      rewrite <- app_assoc. simpl. do 2 f_equal.
      rewrite list_filter_filter. apply list_filter_iff.
      intros x; simpl. rewrite elem_of_app, list_elem_of_singleton. tauto.
Qed.

Lemma jsmap_of_keys {V} (entries : list (jsstring * V)) :
  map fst (jsmap_of entries) = first_occurrences (map fst entries).
Proof.
  unfold jsmap_of. rewrite jsmap_of_keys_acc. simpl.
  apply filter_all. intros x _. apply not_elem_of_nil.
Qed.

Lemma jsmap_set_keyed r m :
  keyed_by_uri m -> keyed_by_uri (jsmap_set (ref_uri r) r m).
Proof.
  unfold keyed_by_uri. induction 1 as [|[k v] m Hk Hm IH]; simpl.
  - by repeat constructor.
  - case_bool_decide; constructor; auto.
Qed.

Lemma jsmap_of_keyed_acc refs acc :
  keyed_by_uri acc ->
  keyed_by_uri (foldl (fun m e => jsmap_set (fst e) (snd e) m) acc
                  (map (fun item => (ref_uri item, item)) refs)).
Proof.
  revert acc. induction refs as [|r refs IH]; intros acc Hacc; [done|].
  simpl. apply IH. by apply jsmap_set_keyed.
Qed.

Lemma keyed_values m :
  keyed_by_uri m -> map ref_uri (jsmap_values m) = map fst m.
Proof.
  unfold jsmap_values. induction 1 as [|[k v] m Hk Hm IH]; simpl; [done|].
  simpl in Hk. by rewrite IH, Hk.
Qed.

Lemma uniqueReferences_uris refs :
  map ref_uri (uniqueReferences refs) = first_occurrences (map ref_uri refs).
Proof.
  unfold uniqueReferences.
  rewrite keyed_values by (apply jsmap_of_keyed_acc; constructor).
  rewrite jsmap_of_keys, map_map. reflexivity.
Qed.

Lemma groundedReferences_uris chunks :
  map ref_uri (groundedReferences chunks)
  = map chunk_uri (filter (fun c => has_uri c = true) chunks).
Proof.
  unfold groundedReferences. rewrite map_map. apply map_ext.
  intros c. unfold chunk_reference, chunk_uri. by destruct (web c).
Qed.

(** C3: the reference list of the assembled article has at most seven
    entries, no two of them with the same uri, and its uris are the uris of
    the grounding chunks, without repetition, in the order of their first
    occurrence (cut after the seventh). *)
Theorem finalReferences_spec (coreReferences : list grounding_chunk) :
  length (finalReferences coreReferences) <= 7
  /\ NoDup (map ref_uri (finalReferences coreReferences))
  /\ map ref_uri (finalReferences coreReferences)
     = take 7 (first_occurrences
                 (map chunk_uri
                    (filter (fun c => has_uri c = true) coreReferences))).
Proof.
  assert (E : map ref_uri (finalReferences coreReferences)
     = take 7 (first_occurrences
                 (map chunk_uri
                    (filter (fun c => has_uri c = true) coreReferences)))).
  { unfold finalReferences.
    rewrite <- groundedReferences_uris, <- uniqueReferences_uris.
    apply (fmap_take ref_uri). }
  split; [|split; [|exact E]].
  - unfold finalReferences. rewrite length_take. lia.
  - rewrite E. eapply sublist_NoDup; [apply first_occurrences_NoDup|].
    apply sublist_take.
Qed.


(** ** The retry wrapper *)

Section RetryContract.
Context {St T : Type}.
Variable fn : St -> outcome T * St.
Variables retries delay : nat.

Lemma retry_from_contract fuel i w :
  i + fuel = retries ->
  exists k, k <= fuel
    /\ log (snd (retry_from fn retries delay fuel i w))
       = log w ++ retry_log_from delay (i + 1) k
    /\ env (snd (retry_from fn retries delay fuel i w)) = env_after fn k (env w)
    /\ (forall j, S j < k -> is_throw (nth_outcome fn j (env w)))
    /\ match fst (retry_from fn retries delay fuel i w) with
       | Ok v => 0 < k /\ nth_outcome fn (k - 1) (env w) = Ok v
       | Throw e =>
           k = fuel
           /\ match fuel with
              | O => e = RetryLogicFailed
              | S m => nth_outcome fn m (env w) = Throw e
              end
       end.
Proof.
  revert i w. induction fuel as [|fuel IH]; intros i w Hi.
  - exists 0. simpl. rewrite app_nil_r. repeat split; try done; try lia; try (intros; lia).
  - cbn [retry_from].
    assert (Hlt : (i <? retries) = true) by (apply Nat.ltb_lt; lia).
    rewrite Hlt. destruct (fn (env w)) as [r s'] eqn:Efn.
    destruct r as [v|e].
    + exists 1. cbn. unfold nth_outcome. cbn. rewrite Efn. cbn.
      repeat split; try done; try lia; try (intros; lia).
    + destruct (i =? retries - 1) eqn:Elast.
      * apply Nat.eqb_eq in Elast. assert (fuel = 0) by lia. subst fuel.
        exists 1. cbn. unfold nth_outcome. cbn. rewrite Efn. cbn.
        repeat split; try done; try lia; try (intros; lia).
      * apply Nat.eqb_neq in Elast.
        destruct (IH (i + 1)
                    (World s' ((log w ++ [Invoked]) ++ [Slept (delay * (i + 1))])))
          as (k & Hk & Hlog & Henv & Hbefore & Hres); [lia|].
        cbn [log env] in *.
        exists (S k). split; [lia|]. split; [|split; [|split]].
        -- rewrite Hlog. rewrite <- !app_assoc. f_equal.
           destruct k as [|k]; [|done]. exfalso.
           destruct (fst (retry_from _ _ _ _ _ _)); [lia|].
           destruct Hres as [<- _]. lia.
        -- rewrite Henv. cbn. by rewrite Efn.
        -- intros [|j] Hj.
           ++ unfold nth_outcome. cbn. by rewrite Efn.
           ++ unfold nth_outcome. cbn. rewrite Efn. cbn. apply Hbefore. lia.
        -- destruct (fst (retry_from _ _ _ _ _ _)) as [v|e'].
           ++ destruct Hres as [Hk0 Hv]. split; [lia|].
              destruct k as [|k]; [lia|]. cbn in Hv |- *.
              rewrite Nat.sub_0_r in Hv.
              unfold nth_outcome in *. cbn. by rewrite Efn.
           ++ destruct Hres as [-> Hm]. split; [done|].
              destruct fuel as [|m]; [lia|].
              unfold nth_outcome in *. cbn. by rewrite Efn.
Qed.

(** C6: the retry wrapper starts the operation at most [retries] times, with
    a wait of [delay * i] after failed attempt number [i] when another
    attempt follows; it returns the result of the first attempt that
    succeeds, all attempts before it having failed; when it throws, all
    [retries] attempts were made and failed and the error is the one of the
    last attempt. *)
Theorem withRetry_contract (w : world St) :
  exists k, k <= retries
    /\ log (snd (withRetry fn retries delay w)) = log w ++ retry_log delay k
    /\ env (snd (withRetry fn retries delay w)) = env_after fn k (env w)
    /\ (forall j, S j < k -> is_throw (nth_outcome fn j (env w)))
    /\ match fst (withRetry fn retries delay w) with
       | Ok v => 0 < k /\ nth_outcome fn (k - 1) (env w) = Ok v
       | Throw e =>
           k = retries
           /\ match retries with
              | O => e = RetryLogicFailed
              | S m => nth_outcome fn m (env w) = Throw e
              end
       end.
Proof. unfold withRetry, retry_log. apply retry_from_contract. lia. Qed.

End RetryContract.

(** The wrapper around an operation that succeeds at its third call. *)
Lemma withRetry_contract_witness :
  exists k, k <= 3
    /\ log (snd (withRetry sample_operation 3 1000 (World 0 [])))
       = retry_log 1000 k
    /\ fst (withRetry sample_operation 3 1000 (World 0 []))
       = nth_outcome sample_operation (k - 1) 0.
Proof.
  destruct (withRetry_contract sample_operation 3 1000 (World 0 []))
    as (k & Hk & Hlog & _ & _ & Hres).
  exists k. split; [exact Hk|]. split; [exact Hlog|].
  change (fst (withRetry sample_operation 3 1000 (World 0 []))) with (@Ok nat 2) in *.
  symmetry. apply Hres.
Defined.


(** ** Image resolution *)

Section ImageResolutionProofs.
Context {St : Type}.
Variable generateImages :
  jsstring -> jsstring -> St -> outcome GenerateImagesResponse * St.
Variable ai : jsstring.
Variable w : world St.

Lemma run_snoc ts t :
  run_tasks generateImages ai w (ts ++ [t]) = image_step generateImages ai (run_tasks generateImages ai w ts) t.
Proof. unfold run_tasks. by rewrite foldl_app. Qed.

Lemma image_step_fst acc t :
  fst (image_step generateImages ai acc t)
  = object_set (key t)
      (image_value (fst (image_attempt generateImages ai t (snd acc)))) (fst acc).
Proof. unfold image_step. by destruct (image_attempt _ _ _ _). Qed.

Lemma image_step_snd acc t :
  snd (image_step generateImages ai acc t)
  = snd (image_attempt generateImages ai t (snd acc)).
Proof. unfold image_step. by destruct (image_attempt _ _ _ _). Qed.

Lemma object_set_proto v o : object_set proto_key v o = o.
Proof. unfold object_set. by rewrite bool_decide_eq_true_2. Qed.

Lemma object_set_other k v o : k <> proto_key -> object_set k v o = <[k := v]> o.
Proof. intros H. unfold object_set. by rewrite bool_decide_eq_false_2. Qed.

Lemma run_dom ts :
  dom (fst (run_tasks generateImages ai w ts))
  = list_to_set (key <$> ts) ∖ {[proto_key]}.
Proof.
  induction ts as [|t ts IH] using rev_ind.
  - unfold run_tasks. simpl. rewrite dom_empty_L. apply set_eq. intros k.
    rewrite elem_of_difference, elem_of_empty. tauto.
  - rewrite run_snoc, image_step_fst, fmap_app, list_to_set_app_L. simpl.
    destruct (decide (key t = proto_key)) as [E|E].
    + rewrite E, object_set_proto, IH. apply set_eq. intros k.
      rewrite !elem_of_difference, !elem_of_union, elem_of_singleton, elem_of_empty.
      tauto.
    + rewrite object_set_other, dom_insert_L, IH by done. apply set_eq. intros k.
      rewrite !elem_of_difference, !elem_of_union, !elem_of_difference,
        !elem_of_singleton, elem_of_empty.
      split; [|tauto]. intros [->|H]; tauto.
Qed.

Lemma run_lookup_last ts i task :
  ts !! i = Some task ->
  key task <> proto_key ->
  key task ∉ (key <$> drop (S i) ts) ->
  fst (run_tasks generateImages ai w ts) !! key task
  = Some (image_value
            (fst (image_attempt generateImages ai task (snd (run_tasks generateImages ai w (take i ts)))))).
Proof.
  revert i task. induction ts as [|t ts IH] using rev_ind; intros i task Hi Hp Hlast.
  - by rewrite lookup_nil in Hi.
  - rewrite run_snoc, image_step_fst.
    destruct (decide (i = length ts)) as [->|Hne].
    + rewrite list_lookup_middle in Hi by done. injection Hi as <-.
      rewrite object_set_other, lookup_insert_eq, take_app_length by done. done.
    + assert (Hlt : i < length ts).
      { apply lookup_lt_Some in Hi. rewrite length_app in Hi. simpl in Hi. lia. }
      rewrite lookup_app_l in Hi by done.
      rewrite drop_app_le in Hlast by lia.
      rewrite fmap_app, not_elem_of_app in Hlast. destruct Hlast as [Hts Ht].
      assert (Hkey : key t <> key task).
      { intros E. apply Ht. simpl. rewrite E. apply list_elem_of_here. }
      assert (Hstep : forall v o, object_set (key t) v o !! key task = o !! key task).
      { intros v o. unfold object_set. destruct (bool_decide _); [done|].
        by rewrite lookup_insert_ne. }
      rewrite Hstep, take_app_le by lia. by apply IH.
Qed.

Lemma run_lookup_some ts k v :
  fst (run_tasks generateImages ai w ts) !! k = Some v ->
  exists i task,
    ts !! i = Some task /\ key task = k
    /\ v = image_value
             (fst (image_attempt generateImages ai task (snd (run_tasks generateImages ai w (take i ts))))).
Proof.
  revert v. induction ts as [|t ts IH] using rev_ind; intros v Hv.
  - unfold run_tasks in Hv. simpl in Hv. by rewrite lookup_empty in Hv.
  - rewrite run_snoc, image_step_fst in Hv.
    assert (Hold : fst (run_tasks generateImages ai w ts) !! k = Some v ->
              exists i task,
                (ts ++ [t]) !! i = Some task /\ key task = k
                /\ v = image_value
                         (fst (image_attempt generateImages ai task
                                 (snd (run_tasks generateImages ai w (take i (ts ++ [t]))))))).
    { intros Hv'. destruct (IH v Hv') as (i & task & Hi & Hk & Hval).
      exists i, task. pose proof (lookup_lt_Some _ _ _ Hi) as Hlt.
      rewrite lookup_app_l by done. rewrite take_app_le by lia. done. }
    unfold object_set in Hv. destruct (bool_decide (key t = proto_key)); [by apply Hold|].
    destruct (decide (key t = k)) as [<-|Hne].
    + rewrite lookup_insert_eq in Hv. injection Hv as <-.
      exists (length ts), t. rewrite list_lookup_middle by done.
      by rewrite take_app_length.
    + rewrite lookup_insert_ne in Hv by done. by apply Hold.
Qed.

Lemma image_attempt_log task w0 :
  exists k, 1 <= k <= 3
    /\ log (snd (image_attempt generateImages ai task w0))
       = log w0 ++ retry_log 1000 k.
Proof.
  unfold image_attempt, withRetry_default, withRetry, retry_log.
  destruct (retry_from_contract (generateImages ai (fullPrompt task)) 3 1000 3 0 w0
              eq_refl) as (k & Hk & Hlog & _ & _ & Hres).
  destruct (retry_from _ 3 1000 3 0 w0) as [r w1]. simpl in *.
  exists k. split.
  - destruct r; [lia|]. destruct Hres as [-> _]. lia.
  - destruct r as [response|e]; [|done].
    by destruct (generatedImages response) as [[|? ?]|].
Qed.

Lemma world_before_S tasks i task :
  tasks !! i = Some task ->
  world_before generateImages ai tasks w (S i)
  = snd (image_attempt generateImages ai task
           (world_before generateImages ai tasks w i)).
Proof.
  intros Hi. unfold world_before.
  rewrite (take_S_r _ _ _ Hi). by rewrite run_snoc, image_step_snd.
Qed.

End ImageResolutionProofs.

(** C5 (as amended): without an API key image resolution throws before the
    first task, whatever the tasks are.  With an API key set it returns a
    map; its keys are the keys of the tasks other than [__proto__], so they
    are exactly the keys of the tasks when none of them is [__proto__]; every
    value is the sentinel or a payload the service returned for a task with
    that key; every task is run, whatever happened to the tasks before it
    (its operation is started between one and three times); the last task
    with a key decides the value under the key: its payload, or the sentinel
    when it failed. *)
Theorem generateAndStoreImages_contract {St : Type}
    (generateImages : jsstring -> jsstring -> St -> outcome GenerateImagesResponse * St)
    (apiKey : option jsstring) (tasks : list ImageGenerationTask) (w : world St) :
  (truthy apiKey = false ->
   generateAndStoreImages generateImages apiKey tasks w = (Throw ApiKeyMissing, w))
  /\ (truthy apiKey = true ->
      let ai := default [] apiKey in
      let before := world_before generateImages ai tasks w in
      exists results,
        generateAndStoreImages generateImages apiKey tasks w
        = (Ok results, before (length tasks))
        /\ dom results = list_to_set (key <$> tasks) ∖ {[proto_key]}
        /\ (proto_key ∉ key <$> tasks -> dom results = list_to_set (key <$> tasks))
        /\ (forall k v, results !! k = Some v ->
              v = error_sentinel
              \/ exists i task, tasks !! i = Some task /\ key task = k
                   /\ fst (image_attempt generateImages ai task (before i)) = Ok v)
        /\ (forall i task, tasks !! i = Some task ->
              (exists n, 1 <= n <= 3
                 /\ log (before (S i)) = log (before i) ++ retry_log 1000 n)
              /\ (key task <> proto_key ->
                  key task ∉ (key <$> drop (S i) tasks) ->
                  results !! key task
                  = Some (image_value
                            (fst (image_attempt generateImages ai task (before i))))))).
Proof.
  split.
  { intros Hkey. unfold generateAndStoreImages, getGenAIClient. by rewrite Hkey. }
  intros Hkey ai before.
  exists (fst (run_tasks generateImages ai w tasks)).
  split; [|split; [|split; [|split]]].
  - unfold generateAndStoreImages, getGenAIClient. rewrite Hkey.
    fold ai. unfold before, world_before. rewrite firstn_all.
    by destruct (run_tasks generateImages ai w tasks).
  - apply run_dom.
  - intros Hp. rewrite run_dom. apply set_eq. intros k.
    rewrite elem_of_difference, elem_of_singleton, !elem_of_list_to_set.
    split; [by intros [? _]|]. intros Hk. split; [done|]. by intros ->.
  - intros k v Hv. apply run_lookup_some in Hv as (i & task & Hi & Hk & Hval).
    unfold before, world_before.
    destruct (fst (image_attempt generateImages ai task
                     (snd (run_tasks generateImages ai w (take i tasks))))) as [b|e] eqn:E.
    + right. exists i, task. simpl in Hval. subst v. done.
    + left. done.
  - intros i task Hi. split.
    + unfold before. rewrite (world_before_S _ _ _ _ _ _ Hi).
      apply image_attempt_log.
    + intros Hp Hlast. by apply run_lookup_last.
Qed.

Lemma generateAndStoreImages_contract_witness :
  (exists results,
     fst (generateAndStoreImages sample_generateImages (Some (lit "key"))
            sample_tasks (World 0 []))
     = Ok results
     /\ dom results = list_to_set (key <$> sample_tasks)
     /\ results !! lit "first" = Some error_sentinel
     /\ results !! lit "second" = Some (lit "AAAA"))
  /\ generateAndStoreImages sample_generateImages (Some []) sample_tasks (World 0 [])
     = (Throw ApiKeyMissing, World 0 []).
Proof.
  destruct (generateAndStoreImages_contract sample_generateImages
              (Some (lit "key")) sample_tasks (World 0 [])) as [_ Hset].
  destruct (generateAndStoreImages_contract sample_generateImages
              (Some []) sample_tasks (World 0 [])) as [Hnone _].
  split; [|exact (Hnone eq_refl)].
  destruct (Hset eq_refl) as (results & Hrun & _ & Hdom & _ & Htask).
  assert (Hkeys : forall k, k ∈ key <$> sample_tasks -> k <> proto_key).
  { intros k Hk ->. vm_compute in Hk.
    repeat (apply elem_of_cons in Hk as [Hk|Hk]; [discriminate|]).
    by apply elem_of_nil in Hk. }
  exists results. rewrite Hrun. split; [done|]. split.
  { apply Hdom. intros Hin. by apply (Hkeys _ Hin). }
  split.
  - destruct (Htask 1 _ eq_refl) as [_ Hlast].
    etrans; [apply Hlast|vm_compute; reflexivity].
    + discriminate.
    + apply not_elem_of_cons. split; [|apply not_elem_of_nil].
      intros Heq. vm_compute in Heq. discriminate.
  - destruct (Htask 2 _ eq_refl) as [_ Hlast].
    etrans; [apply Hlast|vm_compute; reflexivity]; [discriminate|apply not_elem_of_nil].
Defined.

(** Without an API key the stage returns no map; and with a key, a task whose
    key is [__proto__] leaves nothing in the map. *)
Lemma missing_api_key_is_propagated :
  generateAndStoreImages sample_generateImages None sample_tasks (World 0 [])
  = (Throw ApiKeyMissing, World 0 [])
  /\ fst (generateAndStoreImages sample_generateImages (Some (lit "key"))
            [ImageTask proto_key (lit "a chart") None] (World 0 []))
     = Ok ∅.
Proof. split; reflexivity. Qed.

(** ** The key encoding: arithmetic of the encodings *)

Ltac bools :=
  repeat match goal with
  | H : _ && _ = true |- _ => apply andb_prop in H; destruct H
  | H : _ || _ = false |- _ => apply orb_false_elim in H; destruct H
  | H : negb _ = true |- _ => apply negb_true_iff in H
  | H : negb _ = false |- _ => apply negb_false_iff in H
  | H : (_ <=? _)%N = true |- _ => apply N.leb_le in H
  | H : (_ <=? _)%N = false |- _ => apply N.leb_gt in H
  | H : (_ <? _)%N = true |- _ => apply N.ltb_lt in H
  | H : (_ <? _)%N = false |- _ => apply N.ltb_ge in H
  | H : (_ =? _)%N = true |- _ => apply N.eqb_eq in H
  | H : (_ =? _)%N = false |- _ => apply N.eqb_neq in H
  end.

Ltac case_cmp :=
  repeat match goal with
  | |- context [(?a <? ?b)%N] => destruct (a <? b)%N eqn:?
  | |- context [(?a <=? ?b)%N] => destruct (a <=? b)%N eqn:?
  | |- context [(?a =? ?b)%N] => destruct (a =? b)%N eqn:?
  end; bools.

(** Decide the comparisons of the goal one after the other. *)
Ltac cmp_decide :=
  repeat match goal with
  | |- context [(?a <=? ?b)%N] =>
      first [ rewrite (proj2 (N.leb_le a b)) by lia
            | rewrite (proj2 (N.leb_gt a b)) by lia ]
  | |- context [(?a <? ?b)%N] =>
      first [ rewrite (proj2 (N.ltb_lt a b)) by lia
            | rewrite (proj2 (N.ltb_ge a b)) by lia ]
  | |- context [(?a =? ?b)%N] =>
      first [ rewrite (proj2 (N.eqb_eq a b)) by lia
            | rewrite (proj2 (N.eqb_neq a b)) by lia ]
  end.

(** The four base-64 digits of a number, as the UTF-8 forms use them. *)
Lemma N_digits64 (cp : N) :
  exists a b c d : N,
    (b < 64 /\ c < 64 /\ d < 64
     /\ cp = a * 262144 + b * 4096 + c * 64 + d
     /\ cp / 262144 = a /\ (cp / 4096) mod 64 = b /\ (cp / 64) mod 64 = c
     /\ cp mod 64 = d /\ cp / 4096 = a * 64 + b
     /\ cp / 64 = (a * 64 + b) * 64 + c)%N.
Proof.
  exists (cp / 262144)%N, ((cp / 4096) mod 64)%N, ((cp / 64) mod 64)%N, (cp mod 64)%N.
  pose proof (N.div_mod cp 64 ltac:(lia)) as H1.
  pose proof (N.mod_lt cp 64 ltac:(lia)) as H2.
  pose proof (N.div_mod (cp / 64) 64 ltac:(lia)) as H3.
  pose proof (N.mod_lt (cp / 64) 64 ltac:(lia)) as H4.
  pose proof (N.div_mod (cp / 64 / 64) 64 ltac:(lia)) as H5.
  pose proof (N.mod_lt (cp / 64 / 64) 64 ltac:(lia)) as H6.
  rewrite !N.Div0.div_div in *. change (64 * 64)%N with 4096%N in *.
  change (4096 * 64)%N with 262144%N in *.
  repeat split; lia.
Qed.

Ltac digits64 cp :=
  let a := fresh "a" in let b := fresh "b" in
  let c := fresh "c" in let d := fresh "d" in
  let E1 := fresh "E" in let E2 := fresh "E" in let E3 := fresh "E" in
  let E4 := fresh "E" in let E5 := fresh "E" in let E6 := fresh "E" in
  destruct (N_digits64 cp) as (a & b & c & d & ? & ? & ? & ? & E1 & E2 & E3 & E4 & E5 & E6);
  rewrite ?E2, ?E3, ?E4, ?E1, ?E5, ?E6; clear E1 E2 E3 E4 E5 E6; subst cp.

Lemma utf8_encode_ascii cp : (cp < 128)%N -> utf8_encode cp = [cp].
Proof. intros H. unfold utf8_encode. case_cmp; try done; lia. Qed.

Lemma utf8_encode_octets cp :
  (cp <= 1114111)%N -> Forall (fun b => (b < 256)%N) (utf8_encode cp).
Proof.
  intros H. unfold utf8_encode. digits64 cp. case_cmp; repeat constructor; lia.
Qed.

Lemma utf8_leading_ones cp :
  (128 <= cp <= 1114111)%N ->
  exists b bs, utf8_encode cp = b :: bs
    /\ leading_ones b = S (length bs) /\ 1 <= length bs <= 3.
Proof.
  intros H. unfold utf8_encode.
  destruct (cp <? 128)%N eqn:E1; bools; [lia|].
  destruct (cp <? 2048)%N eqn:E2; [|destruct (cp <? 65536)%N eqn:E3]; bools;
    eexists _, _; (split; [reflexivity|]); unfold leading_ones;
    (split; [|simpl; lia]); digits64 cp; cmp_decide; reflexivity.
Qed.

Lemma utf8_roundtrip cp :
  (128 <= cp)%N -> is_scalar cp ->
  utf8_decode (utf8_encode cp) = Some cp.
Proof.
  intros H Hs. unfold is_scalar in Hs. unfold utf8_encode.
  destruct (cp <? 128)%N eqn:E1; bools; [lia|].
  destruct (cp <? 2048)%N eqn:E2; [|destruct (cp <? 65536)%N eqn:E3]; bools;
    unfold utf8_decode, is_continuation; digits64 cp;
    destruct Hs; cmp_decide; simpl; f_equal; lia.
Qed.

Lemma utf16_encode_bmp c : (c < 65536)%N -> utf16_encode c = [c].
Proof. intros H. unfold utf16_encode. case_cmp; try done; lia. Qed.

Lemma utf16_encode_pair hi lo :
  is_high_surrogate hi = true -> is_low_surrogate lo = true ->
  utf16_encode (pair_code_point hi lo) = [hi; lo].
Proof.
  unfold is_high_surrogate, is_low_surrogate, utf16_encode, pair_code_point.
  intros H1 H2. bools. case_cmp; [lia|].
  assert (E : ((hi - 55296) * 1024 + (lo - 56320) + 65536 - 65536
               = (hi - 55296) * 1024 + (lo - 56320))%N) by lia.
  rewrite E.
  assert (E1 : (((hi - 55296) * 1024 + (lo - 56320)) / 1024 = hi - 55296)%N).
  { rewrite N.div_add_l, N.div_small; lia. }
  assert (E2 : (((hi - 55296) * 1024 + (lo - 56320)) mod 1024 = lo - 56320)%N).
  { rewrite N.add_comm, N.Div0.mod_add, N.mod_small; lia. }
  rewrite E1, E2.
  f_equal; [lia|f_equal; lia].
Qed.

Lemma pair_code_point_scalar hi lo :
  is_high_surrogate hi = true -> is_low_surrogate lo = true ->
  (65536 <= pair_code_point hi lo <= 1114111)%N.
Proof.
  unfold is_high_surrogate, is_low_surrogate, pair_code_point.
  intros H1 H2. bools. lia.
Qed.

Lemma forall_below (P : N -> bool) (n : nat) :
  forallb P (map N.of_nat (seq 0 n)) = true ->
  forall b, (b < N.of_nat n)%N -> P b = true.
Proof.
  intros H b Hb. rewrite forallb_forall in H. apply H.
  apply in_map_iff. exists (N.to_nat b). split; [apply N2Nat.id|].
  apply in_seq. lia.
Qed.

Lemma N_nibbles (b : N) :
  (b < 256)%N ->
  exists h l : N, (h < 16 /\ l < 16 /\ b = 16 * h + l /\ b / 16 = h /\ b mod 16 = l)%N.
Proof.
  intros Hb. exists (b / 16)%N, (b mod 16)%N.
  pose proof (N.div_mod b 16 ltac:(lia)).
  pose proof (N.mod_lt b 16 ltac:(lia)).
  generalize dependent (b / 16)%N. generalize dependent (b mod 16)%N.
  intros r Hr q Hq. repeat split; lia.
Qed.

Lemma hex_value_upper d : (d < 16)%N -> hex_value (hex_upper d) = Some d.
Proof.
  intros H. unfold hex_value, hex_upper.
  destruct (d <? 10)%N eqn:E; bools; cmp_decide; simpl; f_equal; lia.
Qed.

Lemma hex_value_lower d : (d < 16)%N -> hex_value (hex_lower d) = Some d.
Proof.
  intros H. unfold hex_value, hex_lower.
  destruct (d <? 10)%N eqn:E; bools; cmp_decide; simpl; f_equal; lia.
Qed.

Lemma is_upper_hex_upper d : (d < 16)%N -> is_upper_hex (hex_upper d) = true.
Proof.
  intros H. unfold is_upper_hex, hex_upper.
  destruct (d <? 10)%N eqn:E; bools; cmp_decide; reflexivity.
Qed.

Lemma percent_lower_spec b :
  (b < 256)%N ->
  percent_lower b = [Chars.percent; hex_lower (b / 16); hex_lower (b mod 16)].
Proof.
  intros Hb.
  pose (P := fun b : N =>
    if decide (percent_lower b
               = [Chars.percent; hex_lower (b / 16); hex_lower (b mod 16)])
    then true else false).
  assert (H : P b = true).
  { apply (forall_below P 256); [vm_compute; reflexivity|exact Hb]. }
  unfold P in H. by destruct (decide _).
Qed.

Lemma percent_octet_lower b rest :
  (b < 256)%N -> percent_octet (percent_lower b ++ rest) = Some (b, rest).
Proof.
  intros Hb. rewrite percent_lower_spec by done.
  destruct (N_nibbles b Hb) as (h & l & Hh & Hl & -> & -> & ->).
  cbn [app percent_octet]. rewrite N.eqb_refl.
  by rewrite !hex_value_lower.
Qed.

Lemma list_ind3 {A} (P : list A -> Prop) :
  P [] -> (forall a, P [a]) -> (forall a b, P [a; b]) ->
  (forall a b c t, P t -> P (a :: b :: c :: t)) ->
  forall l, P l.
Proof.
  intros H0 H1 H2 H3 l.
  assert (H : P l /\ (forall a, P (a :: l)) /\ (forall a b, P (a :: b :: l))).
  { induction l as [|x l (IH0 & IH1 & IH2)]; [by repeat split|].
    split; [apply IH1|]. split; [intros a; apply IH2|]. intros a b. by apply H3. }
  apply H.
Qed.

Lemma b64_encode_parts bs :
  b64_encode bs = map b64_char (b64_sextets bs) ++ b64_padding bs.
Proof.
  induction bs as [|a|a b|a b c t IH] using list_ind3; try reflexivity.
  cbn [b64_encode b64_sextets b64_padding map app]. by rewrite IH.
Qed.

Lemma b64_char_not_equal n : b64_char n <> Chars.equal.
Proof.
  unfold b64_char, Chars.equal.
  destruct (n <? 26)%N eqn:E1; [bools; lia|].
  destruct (n <? 52)%N eqn:E2; [bools; lia|].
  destruct (n <? 62)%N eqn:E3; [bools; lia|].
  destruct (n =? 62)%N; lia.
Qed.

Lemma b64_char_not_whitespace n : is_ascii_whitespace (b64_char n) = false.
Proof.
  unfold b64_char, is_ascii_whitespace.
  destruct (n <? 26)%N eqn:E1; [bools; cmp_decide; reflexivity|].
  destruct (n <? 52)%N eqn:E2; [bools; cmp_decide; reflexivity|].
  destruct (n <? 62)%N eqn:E3; [bools; cmp_decide; reflexivity|].
  destruct (n =? 62)%N; reflexivity.
Qed.

Lemma b64_value_char n : (n < 64)%N -> b64_value (b64_char n) = Some n.
Proof.
  intros Hn. unfold b64_char, b64_value.
  destruct (n <? 26)%N eqn:E1; [bools; cmp_decide; simpl; f_equal; lia|].
  destruct (n <? 52)%N eqn:E2; [bools; cmp_decide; simpl; f_equal; lia|].
  destruct (n <? 62)%N eqn:E3; [bools; cmp_decide; simpl; f_equal; lia|].
  destruct (n =? 62)%N eqn:E4; bools; [subst; reflexivity|].
  simpl. f_equal. lia.
Qed.

Lemma b64_values_chars vs :
  Forall (fun v => (v < 64)%N) vs -> b64_values (map b64_char vs) = Some vs.
Proof.
  induction 1 as [|v vs Hv _ IH]; [done|].
  cbn [map b64_values]. by rewrite b64_value_char, IH.
Qed.

Lemma N_quarters (a : N) :
  (a < 256)%N ->
  exists q r : N, (q < 64 /\ r < 4 /\ a = 4 * q + r /\ a / 4 = q /\ a mod 4 = r)%N.
Proof.
  intros Ha. exists (a / 4)%N, (a mod 4)%N.
  pose proof (N.div_mod a 4 ltac:(lia)).
  pose proof (N.mod_lt a 4 ltac:(lia)).
  generalize dependent (a / 4)%N. generalize dependent (a mod 4)%N.
  intros r Hr q Hq. repeat split; lia.
Qed.

Lemma N_sixty_fourths (a : N) :
  (a < 256)%N ->
  exists q r : N, (q < 4 /\ r < 64 /\ a = 64 * q + r /\ a / 64 = q /\ a mod 64 = r)%N.
Proof.
  intros Ha. exists (a / 64)%N, (a mod 64)%N.
  pose proof (N.div_mod a 64 ltac:(lia)).
  pose proof (N.mod_lt a 64 ltac:(lia)).
  generalize dependent (a / 64)%N. generalize dependent (a mod 64)%N.
  intros r Hr q Hq. repeat split; lia.
Qed.

(** Division of [x * m + y] with [y < m]. *)
Lemma N_div_mul_add x y m : (y < m)%N -> ((x * m + y) / m = x)%N.
Proof. intros H. rewrite N.div_add_l, N.div_small; lia. Qed.

Lemma N_mod_mul_add x y m : (y < m)%N -> ((x * m + y) mod m = y)%N.
Proof. intros H. rewrite N.add_comm, N.Div0.mod_add, N.mod_small; lia. Qed.

Ltac quarters a :=
  let q := fresh "q" in let r := fresh "r" in
  let E1 := fresh "E" in let E2 := fresh "E" in
  destruct (N_quarters a ltac:(assumption)) as (q & r & ? & ? & ? & E1 & E2);
  rewrite ?E1, ?E2; clear E1 E2; subst a.

Ltac nibbles a :=
  let q := fresh "h" in let r := fresh "l" in
  let E1 := fresh "E" in let E2 := fresh "E" in
  destruct (N_nibbles a ltac:(assumption)) as (q & r & ? & ? & ? & E1 & E2);
  rewrite ?E1, ?E2; clear E1 E2; subst a.

Ltac sixty_fourths a :=
  let q := fresh "q" in let r := fresh "r" in
  let E1 := fresh "E" in let E2 := fresh "E" in
  destruct (N_sixty_fourths a ltac:(assumption)) as (q & r & ? & ? & ? & E1 & E2);
  rewrite ?E1, ?E2; clear E1 E2; subst a.

Lemma b64_sextets_bound bs :
  Forall (fun b => (b < 256)%N) bs ->
  Forall (fun v => (v < 64)%N) (b64_sextets bs).
Proof.
  induction bs as [|a|a b|a b c t IH] using list_ind3; intros H.
  - constructor.
  - inversion_clear H. cbn [b64_sextets]. quarters a. repeat constructor; lia.
  - inversion_clear H as [|? ? ? H']. inversion_clear H'.
    cbn [b64_sextets]. quarters a. nibbles b. repeat constructor; lia.
  - inversion_clear H as [|? ? ? H']. inversion_clear H' as [|? ? ? H''].
    inversion_clear H''. cbn [b64_sextets].
    quarters a. nibbles b. sixty_fourths c.
    repeat (constructor; [lia|]). by apply IH.
Qed.

Lemma b64_octets_sextets bs :
  Forall (fun b => (b < 256)%N) bs -> b64_octets (b64_sextets bs) = bs.
Proof.
  induction bs as [|a|a b|a b c t IH] using list_ind3; intros H.
  - reflexivity.
  - inversion_clear H. cbn [b64_sextets b64_octets]. quarters a.
    replace (r * 16 / 16)%N with r by (symmetry; apply N.div_mul; lia).
    f_equal. lia.
  - inversion_clear H as [|? ? ? H']. inversion_clear H'.
    cbn [b64_sextets b64_octets]. quarters a. nibbles b.
    rewrite (N_div_mul_add r h 16) by lia.
    rewrite (N_mod_mul_add r h 16) by lia.
    replace (l * 4 / 4)%N with l by (symmetry; apply N.div_mul; lia).
    f_equal; [lia|f_equal; lia].
  - inversion_clear H as [|? ? ? H']. inversion_clear H' as [|? ? ? H''].
    inversion_clear H''. cbn [b64_sextets b64_octets].
    quarters a. nibbles b. sixty_fourths c.
    rewrite (N_div_mul_add r h 16) by lia.
    rewrite (N_mod_mul_add r h 16) by lia.
    rewrite (N_div_mul_add l q0 4) by lia.
    rewrite (N_mod_mul_add l q0 4) by lia.
    rewrite IH by done. f_equal; [lia|f_equal; [lia|f_equal; lia]].
Qed.

Lemma b64_padding_cases bs :
  exists k,
    length (b64_sextets bs) + length (b64_padding bs) = 4 * k
    /\ (b64_padding bs = []
        \/ b64_padding bs = [Chars.equal]
           /\ bs <> []
        \/ b64_padding bs = [Chars.equal; Chars.equal]).
Proof.
  induction bs as [|a|a b|a b c t (k & Hk & Hp)] using list_ind3.
  - exists 0. auto.
  - exists 1. auto.
  - exists 1. split; [done|]. right. left. done.
  - exists (S k). cbn [b64_sextets b64_padding length]. split; [lia|].
    destruct Hp as [?|[[? ?]|?]]; auto.
Qed.

Lemma b64_padding_equal bs c : c ∈ b64_padding bs -> c = Chars.equal.
Proof.
  induction bs as [|a|a b|a b c' t IH] using list_ind3; cbn [b64_padding].
  - by intros ?%elem_of_nil.
  - intros [->|[->|?%elem_of_nil]%elem_of_cons]%elem_of_cons; done.
  - intros [->|?%elem_of_nil]%elem_of_cons; done.
  - exact IH.
Qed.

Lemma filter_b64_encode bs :
  filter (fun c => is_ascii_whitespace c = false) (b64_encode bs) = b64_encode bs.
Proof.
  apply filter_all. intros c. rewrite b64_encode_parts, elem_of_app.
  intros [Hc|Hc].
  - apply list_elem_of_fmap in Hc as (n & -> & _). apply b64_char_not_whitespace.
  - by rewrite (b64_padding_equal _ _ Hc).
Qed.

Lemma strip_padding_encode bs :
  strip_padding (b64_encode bs) = map b64_char (b64_sextets bs).
Proof.
  rewrite b64_encode_parts. unfold strip_padding.
  destruct (b64_padding_cases bs) as (k & Hk & Hp).
  rewrite length_app, length_map, Hk.
  replace (4 * k) with (k * 4) by lia. rewrite Nat.Div0.mod_mul. cbn [Nat.eqb].
  rewrite rev_app_distr.
  set (body := map b64_char (b64_sextets bs)) in *.
  assert (Hbody : forall c, c ∈ rev body -> c <> Chars.equal).
  { intros c Hc. apply list_elem_of_In, in_rev, list_elem_of_In in Hc.
    apply list_elem_of_fmap in Hc as (n & -> & _).
    apply b64_char_not_equal. }
  pose proof (rev_involutive body) as Hrr.
  destruct Hp as [Hp|[[Hp Hne]|Hp]]; rewrite Hp in *; cbn [rev app].
  - rewrite app_nil_r.
    destruct (rev body) as [|c1 [|c2 r]] eqn:E; [done..|].
    rewrite (proj2 (N.eqb_neq c1 Chars.equal)); [done|].
    apply Hbody, elem_of_cons; auto.
  - destruct (rev body) as [|c2 r] eqn:E.
    + exfalso. unfold body in E. apply (f_equal length) in E.
      rewrite length_rev, length_map in E. simpl in E, Hk. lia.
    + cbn [app]. rewrite N.eqb_refl.
      rewrite (proj2 (N.eqb_neq c2 Chars.equal)) by (apply Hbody, elem_of_cons; auto).
      exact Hrr.
  - cbn [app]. rewrite !N.eqb_refl. exact Hrr.
Qed.

Lemma atob_btoa bs :
  Forall (fun b => (b < 256)%N) bs ->
  outcome_bind (btoa bs) atob = Ok bs.
Proof.
  intros Hbs. unfold btoa.
  assert (Hall : forallb (fun c => (c <=? 255)%N) bs = true).
  { apply forallb_forall. intros c Hc%list_elem_of_In.
    rewrite Forall_forall in Hbs. apply N.leb_le. specialize (Hbs c Hc). lia. }
  rewrite Hall. cbn [outcome_bind]. unfold atob.
  rewrite filter_b64_encode, strip_padding_encode, length_map.
  destruct (b64_padding_cases bs) as (k & Hk & Hp).
  assert (Hmod : length (b64_sextets bs) mod 4 <> 1).
  { destruct Hp as [E|[[E _]|E]]; rewrite E in Hk; simpl in Hk.
    - replace (length (b64_sextets bs)) with (k * 4) by lia.
      rewrite Nat.Div0.mod_mul. lia.
    - destruct k as [|k]; [lia|].
      replace (length (b64_sextets bs)) with (3 + k * 4) by lia.
      rewrite Nat.Div0.mod_add. cbn. lia.
    - destruct k as [|k]; [lia|].
      replace (length (b64_sextets bs)) with (2 + k * 4) by lia.
      rewrite Nat.Div0.mod_add. cbn. lia. }
  apply Nat.eqb_neq in Hmod. rewrite Hmod.
  rewrite b64_values_chars by by apply b64_sextets_bound.
  by rewrite b64_octets_sextets.
Qed.

Lemma list_ind2 {A} (P : list A -> Prop) :
  P [] -> (forall a, P [a]) ->
  (forall a b l, P l -> P (b :: l) -> P (a :: b :: l)) ->
  forall l, P l.
Proof.
  intros H0 H1 H2 l.
  assert (H : P l /\ forall a, P (a :: l)).
  { induction l as [|x l [IH0 IH1]]; [by split|].
    split; [apply IH1|]. intros a. by apply H2. }
  apply H.
Qed.

Lemma unreserved_ascii c : uri_unreserved c = true -> (c < 128)%N.
Proof.
  unfold uri_unreserved, is_ascii_alnum. intros H.
  repeat match type of H with
  | _ || _ = true => apply orb_prop in H; destruct H as [H|H]
  end; bools; lia.
Qed.

Lemma unreserved_not_percent c : uri_unreserved c = true -> c <> Chars.percent.
Proof. intros H ->. discriminate H. Qed.

Lemma surrogate_not_unreserved c :
  is_high_surrogate c = true -> uri_unreserved c = false.
Proof.
  intros H. destruct (uri_unreserved c) eqn:E; [|done].
  apply unreserved_ascii in E. unfold is_high_surrogate in H. bools. lia.
Qed.

(** The cases of a well-formed string. *)
Lemma well_formed_cons c t :
  well_formed (c :: t) = true ->
  (is_high_surrogate c = false /\ is_low_surrogate c = false
   /\ (c < 65536)%N /\ well_formed t = true)
  \/ (is_high_surrogate c = true
      /\ exists d t', t = d :: t' /\ is_low_surrogate d = true
                      /\ well_formed t' = true).
Proof.
  cbn [well_formed]. destruct (is_high_surrogate c) eqn:E.
  - destruct t as [|d t']; [done|]. intros H. bools. right. eauto 10.
  - intros H. bools. left. auto.
Qed.

Lemma encodeURIComponent_cons c t :
  encodeURIComponent (c :: t)
  = if uri_unreserved c then outcome_map (cons c) (encodeURIComponent t)
    else if is_low_surrogate c then Throw URIError
    else if is_high_surrogate c then
      match t with
      | d :: t' =>
          if is_low_surrogate d then
            outcome_map
              (app (flat_map percent_upper (utf8_encode (pair_code_point c d))))
              (encodeURIComponent t')
          else Throw URIError
      | [] => Throw URIError
      end
    else
      outcome_map (app (flat_map percent_upper (utf8_encode c)))
                  (encodeURIComponent t).
Proof. reflexivity. Qed.

Lemma uri_escaped_cons c t :
  uri_escaped (c :: t)
  = if uri_unreserved c then c :: uri_escaped t
    else if is_high_surrogate c then
      match t with
      | d :: t' =>
          flat_map percent_upper (utf8_encode (pair_code_point c d))
          ++ uri_escaped t'
      | [] => []
      end
    else flat_map percent_upper (utf8_encode c) ++ uri_escaped t.
Proof. reflexivity. Qed.

Lemma utf8_string_cons c t :
  utf8_string (c :: t)
  = if is_high_surrogate c then
      match t with
      | d :: t' => utf8_encode (pair_code_point c d) ++ utf8_string t'
      | [] => []
      end
    else utf8_encode c ++ utf8_string t.
Proof. reflexivity. Qed.

Lemma low_not_high c : is_high_surrogate c = true -> is_low_surrogate c = false.
Proof.
  unfold is_low_surrogate, is_high_surrogate. intros H. bools.
  cmp_decide. reflexivity.
Qed.

Lemma encodeURIComponent_escaped s :
  well_formed s = true -> encodeURIComponent s = Ok (uri_escaped s).
Proof.
  induction s as [|a|a b l IH1 IH2] using list_ind2; intros Hwf.
  - reflexivity.
  - apply well_formed_cons in Hwf as [(Hh & Hl & _ & _)|(_ & d & t' & [=] & _)].
    rewrite encodeURIComponent_cons, uri_escaped_cons. rewrite Hh, Hl.
    destruct (uri_unreserved a); simpl; by rewrite ?app_nil_r.
  - apply well_formed_cons in Hwf
      as [(Hh & Hl & _ & Hwf)|(Hh & d & t' & [= <- <-] & Hd & Hwf)].
    + rewrite encodeURIComponent_cons, uri_escaped_cons.
      rewrite Hh, Hl, (IH2 Hwf). by destruct (uri_unreserved a).
    + rewrite encodeURIComponent_cons, uri_escaped_cons.
      by rewrite (surrogate_not_unreserved _ Hh), Hh, Hd, (IH1 Hwf), (low_not_high _ Hh).
Qed.

Lemma utf8_string_octets s :
  well_formed s = true -> Forall (fun b => (b < 256)%N) (utf8_string s).
Proof.
  induction s as [|a|a b l IH1 IH2] using list_ind2; intros Hwf.
  - constructor.
  - apply well_formed_cons in Hwf as [(Hh & Hl & Ha & _)|(_ & d & t' & [=] & _)].
    rewrite utf8_string_cons, Hh. cbn [utf8_string]. rewrite app_nil_r.
    apply utf8_encode_octets. lia.
  - apply well_formed_cons in Hwf
      as [(Hh & Hl & Ha & Hwf)|(Hh & d & t' & [= <- <-] & Hd & Hwf)].
    + rewrite utf8_string_cons, Hh.
      apply Forall_app. split; [apply utf8_encode_octets; lia|by apply IH2].
    + rewrite utf8_string_cons, Hh.
      apply Forall_app. split; [|by apply IH1].
      apply utf8_encode_octets. pose proof (pair_code_point_scalar _ _ Hh Hd). lia.
Qed.

(** ** The key encoding: the two directions *)

Lemma rmatch_char p l s cs k :
  rmatch (RChar p) (MState l s cs) k
  = match s with
    | x :: t => if p x then k (MState (x :: l) t cs) else None
    | [] => None
    end.
Proof. reflexivity. Qed.

Lemma rexec_percent l s :
  rexec percent_re l s
  = match s with
    | p :: h :: lo :: rest =>
        if (p =? Chars.percent)%N && is_upper_hex h && is_upper_hex lo
        then Some (MState (lo :: h :: p :: l) rest [(1, [h; lo])])
        else None
    | _ => None
    end.
Proof.
  unfold rexec, percent_re, RCat. cbn [foldr].
  rewrite rmatch_seq, rmatch_is.
  destruct s as [|p s]; [done|].
  destruct (p =? Chars.percent)%N; [|by destruct s as [|? [|? ?]]].
  rewrite rmatch_seq, rmatch_group, rmatch_seq, rmatch_char.
  destruct s as [|h s]; [done|].
  destruct (is_upper_hex h); [|by destruct s].
  rewrite rmatch_char. destruct s as [|lo rest]; [done|].
  destruct (is_upper_hex lo); [|done].
  rewrite rmatch_empty. cbn [left right caps andb].
  replace (length (lo :: h :: p :: l) - length (p :: l)) with 2 by (simpl; lia).
  reflexivity.
Qed.

Lemma unescape_cb_value w h lo :
  (h < 16)%N -> (lo < 16)%N ->
  unescape_cb (RMatched w [(1, [hex_upper h; hex_upper lo])]) = [(16 * h + lo)%N].
Proof.
  intros Hh Hl. unfold unescape_cb, group, parseInt16, fromCharCode.
  cbn [groups cap_lookup Nat.eqb]. unfold default, from_option, Datatypes.id. cbn [foldl].
  rewrite !hex_value_upper by done. rewrite N.mod_small by lia.
  f_equal.
Qed.

Lemma unescape_hit fuel l b rest :
  (b < 256)%N ->
  replace_loop (S fuel) percent_re unescape_cb l (percent_upper b ++ rest)
  = b :: replace_loop fuel percent_re unescape_cb
           (rev (percent_upper b) ++ l) rest.
Proof.
  intros Hb. cbn [replace_loop]. rewrite rexec_percent.
  unfold percent_upper. cbn [app]. rewrite N.eqb_refl.
  destruct (N_nibbles b Hb) as (h & lo & Hh & Hl & -> & -> & ->).
  rewrite !is_upper_hex_upper by done. cbn [andb left right caps].
  replace (length (hex_upper lo :: hex_upper h :: Chars.percent :: l) - length l)
    with 3 by (simpl; lia).
  rewrite unescape_cb_value by done.
  reflexivity.
Qed.

Lemma unescape_miss fuel l c rest :
  c <> Chars.percent ->
  replace_loop (S fuel) percent_re unescape_cb l (c :: rest)
  = c :: replace_loop fuel percent_re unescape_cb (c :: l) rest.
Proof.
  intros Hc. cbn [replace_loop]. rewrite rexec_percent.
  rewrite (proj2 (N.eqb_neq c Chars.percent)) by done.
  by destruct rest as [|? [|? ?]].
Qed.

Lemma percent_upper_length b : length (percent_upper b) = 3.
Proof. reflexivity. Qed.

Lemma unescape_octets bs out rest :
  Forall (fun b => (b < 256)%N) bs ->
  (forall fuel l, length rest < fuel ->
     replace_loop fuel percent_re unescape_cb l rest = out) ->
  forall fuel l,
    length (flat_map percent_upper bs ++ rest) < fuel ->
    replace_loop fuel percent_re unescape_cb l (flat_map percent_upper bs ++ rest)
    = bs ++ out.
Proof.
  intros Hbs Hrest. induction Hbs as [|b bs Hb _ IH]; intros fuel l Hf.
  - by apply Hrest.
  - cbn [flat_map] in *. rewrite <- app_assoc in *.
    destruct fuel as [|fuel]; [lia|].
    rewrite unescape_hit by done. cbn [app]. f_equal. apply IH.
    rewrite length_app, percent_upper_length in Hf. lia.
Qed.

Lemma unescape_escaped s :
  well_formed s = true ->
  forall fuel l, length (uri_escaped s) < fuel ->
    replace_loop fuel percent_re unescape_cb l (uri_escaped s) = utf8_string s.
Proof.
  induction s as [|a|a b t IH1 IH2] using list_ind2; intros Hwf fuel l Hf.
  - destruct fuel; [simpl in Hf; lia|]. reflexivity.
  - apply well_formed_cons in Hwf as [(Hh & Hl & Ha & _)|(_ & d & t' & [=] & _)].
    rewrite uri_escaped_cons, utf8_string_cons, Hh in *.
    destruct (uri_unreserved a) eqn:Eu.
    + destruct fuel as [|fuel]; [simpl in Hf; lia|].
      rewrite unescape_miss by by apply unreserved_not_percent.
      rewrite utf8_encode_ascii by by apply unreserved_ascii.
      cbn [app]. f_equal. destruct fuel; [simpl in Hf; lia|]. reflexivity.
    + apply unescape_octets; [apply utf8_encode_octets; lia| |done].
      intros fuel' l' Hf'. destruct fuel'; [simpl in Hf'; lia|]. reflexivity.
  - apply well_formed_cons in Hwf
      as [(Hh & Hl & Ha & Hwf)|(Hh & d & t' & [= <- <-] & Hd & Hwf)].
    + rewrite uri_escaped_cons, utf8_string_cons, Hh in *.
      destruct (uri_unreserved a) eqn:Eu.
      * destruct fuel as [|fuel]; [simpl in Hf; lia|].
        rewrite unescape_miss by by apply unreserved_not_percent.
        rewrite utf8_encode_ascii by by apply unreserved_ascii.
        cbn [app]. f_equal. apply IH2; [done|]. simpl in Hf. lia.
      * apply unescape_octets; [apply utf8_encode_octets; lia| |done].
        intros fuel' l' Hf'. by apply IH2.
    + rewrite uri_escaped_cons, utf8_string_cons in *.
      rewrite (surrogate_not_unreserved _ Hh), Hh in *.
      apply unescape_octets; [| |done].
      * apply utf8_encode_octets.
        pose proof (pair_code_point_scalar _ _ Hh Hd). lia.
      * intros fuel' l' Hf'. by apply IH1.
Qed.

Lemma percent_lower_length b : (b < 256)%N -> length (percent_lower b) = 3.
Proof. intros Hb. by rewrite percent_lower_spec. Qed.

Lemma percent_lower_head b rest :
  (b < 256)%N ->
  exists t, percent_lower b ++ rest = Chars.percent :: t.
Proof. intros Hb. rewrite percent_lower_spec by done. eauto. Qed.

Lemma continuation_octets_lower bs rest :
  Forall (fun b => (b < 256)%N) bs ->
  continuation_octets (length bs) (flat_map percent_lower bs ++ rest)
  = Some (bs, rest).
Proof.
  induction 1 as [|b bs Hb _ IH]; [done|].
  cbn [length continuation_octets flat_map]. rewrite <- app_assoc.
  by rewrite percent_octet_lower, IH.
Qed.

Lemma decode_loop_cons fuel c t :
  decode_loop (S fuel) (c :: t)
  = if (c =? Chars.percent)%N then
      match percent_octet (c :: t) with
      | None => Throw URIError
      | Some (b, t1) =>
          match leading_ones b with
          | 0 => outcome_map (cons b) (decode_loop fuel t1)
          | 1 => Throw URIError
          | 2 | 3 | 4 =>
              match continuation_octets (leading_ones b - 1) t1 with
              | None => Throw URIError
              | Some (bs, t2) =>
                  match utf8_decode (b :: bs) with
                  | None => Throw URIError
                  | Some cp =>
                      outcome_map (app (utf16_encode cp)) (decode_loop fuel t2)
                  end
              end
          | _ => Throw URIError
          end
      end
    else outcome_map (cons c) (decode_loop fuel t).
Proof. reflexivity. Qed.

Lemma decode_ascii fuel b rest :
  (b < 128)%N ->
  decode_loop (S fuel) (percent_lower b ++ rest)
  = outcome_map (cons b) (decode_loop fuel rest).
Proof.
  intros Hb.
  destruct (percent_lower_head b rest) as (t & Ht); [lia|].
  pose proof (percent_octet_lower b rest ltac:(lia)) as Ho.
  rewrite Ht in *. rewrite decode_loop_cons, N.eqb_refl, Ho.
  unfold leading_ones. by rewrite (proj2 (N.ltb_lt b 128)).
Qed.

Lemma decode_scalar fuel cp rest :
  (128 <= cp)%N -> is_scalar cp ->
  decode_loop (S fuel) (flat_map percent_lower (utf8_encode cp) ++ rest)
  = outcome_map (app (utf16_encode cp)) (decode_loop fuel rest).
Proof.
  intros Hcp Hs.
  assert (Hmax : (cp <= 1114111)%N) by (unfold is_scalar in Hs; lia).
  pose proof (utf8_encode_octets cp Hmax) as Hoct.
  pose proof (utf8_roundtrip cp Hcp Hs) as Hrt.
  destruct (utf8_leading_ones cp) as (b & bs & E & Hn & Hlen); [lia|].
  rewrite E in *. inversion_clear Hoct as [|? ? Hb Hbs].
  cbn [flat_map]. rewrite <- app_assoc.
  destruct (percent_lower_head b (flat_map percent_lower bs ++ rest)) as (t & Ht);
    [done|].
  pose proof (percent_octet_lower b (flat_map percent_lower bs ++ rest) Hb) as Ho.
  rewrite Ht in *. rewrite decode_loop_cons, N.eqb_refl, Ho, Hn.
  replace (S (length bs) - 1) with (length bs) by lia.
  rewrite continuation_octets_lower, Hrt by done.
  destruct (length bs) as [|[|[|[|n]]]] eqn:El; try reflexivity; lia.
Qed.

Lemma bmp_scalar a :
  is_high_surrogate a = false -> is_low_surrogate a = false ->
  (a < 65536)%N -> is_scalar a.
Proof.
  unfold is_high_surrogate, is_low_surrogate, is_scalar. intros Hh Hl Ha.
  apply andb_false_iff in Hh, Hl.
  destruct Hh as [Hh|Hh], Hl as [Hl|Hl]; bools; lia.
Qed.

Lemma pair_scalar hi lo :
  is_high_surrogate hi = true -> is_low_surrogate lo = true ->
  (128 <= pair_code_point hi lo)%N /\ is_scalar (pair_code_point hi lo).
Proof.
  intros Hh Hl. pose proof (pair_code_point_scalar _ _ Hh Hl).
  unfold is_scalar. lia.
Qed.

Lemma flat_map_lower_length bs :
  Forall (fun b => (b < 256)%N) bs ->
  length (flat_map percent_lower bs) = 3 * length bs.
Proof.
  induction 1 as [|b bs Hb _ IH]; [done|].
  cbn [flat_map length]. rewrite length_app, percent_lower_length, IH by done. lia.
Qed.

Lemma utf8_encode_nonempty cp : utf8_encode cp <> [].
Proof. unfold utf8_encode. by repeat destruct (_ <? _)%N. Qed.

(** One code point of the string, decoded from its octets. *)
Lemma decode_code_point fuel cp rest :
  is_scalar cp ->
  length (flat_map percent_lower (utf8_encode cp ++ rest)) <= fuel ->
  exists fuel',
    length (flat_map percent_lower rest) <= fuel'
    /\ decode_loop fuel (flat_map percent_lower (utf8_encode cp ++ rest))
       = outcome_map (app (utf16_encode cp))
           (decode_loop fuel' (flat_map percent_lower rest)).
Proof.
  intros Hs Hf. rewrite flat_map_app in *.
  assert (Hmax : (cp <= 1114111)%N) by (unfold is_scalar in Hs; lia).
  pose proof (utf8_encode_octets cp Hmax) as Hoct.
  pose proof (flat_map_lower_length _ Hoct) as Hlen.
  pose proof (utf8_encode_nonempty cp) as Hne.
  assert (0 < length (utf8_encode cp)) by (destruct (utf8_encode cp); [done|simpl; lia]).
  rewrite length_app in Hf.
  destruct fuel as [|fuel]; [lia|]. exists fuel. split; [lia|].
  destruct (decide (cp < 128)%N) as [Hlt|Hge].
  - rewrite utf8_encode_ascii by done. cbn [flat_map]. rewrite app_nil_r.
    rewrite decode_ascii by done. rewrite utf16_encode_bmp by lia. done.
  - apply decode_scalar; [lia|done].
Qed.

Lemma decode_utf8_string s :
  well_formed s = true ->
  forall fuel, length (flat_map percent_lower (utf8_string s)) <= fuel ->
    decode_loop fuel (flat_map percent_lower (utf8_string s)) = Ok s.
Proof.
  induction s as [|a|a b t IH1 IH2] using list_ind2; intros Hwf fuel Hf.
  - by destruct fuel.
  - apply well_formed_cons in Hwf as [(Hh & Hl & Ha & _)|(_ & d & t' & [=] & _)].
    rewrite (utf8_string_cons a), Hh in Hf |- *.
    destruct (decode_code_point fuel a (utf8_string []) (bmp_scalar _ Hh Hl Ha) Hf)
      as (fuel' & Hf' & ->).
    rewrite utf16_encode_bmp by done. by destruct fuel'.
  - apply well_formed_cons in Hwf
      as [(Hh & Hl & Ha & Hwf)|(Hh & d & t' & [= <- <-] & Hd & Hwf)].
    + rewrite (utf8_string_cons a), Hh in Hf |- *.
      destruct (decode_code_point fuel a (utf8_string (b :: t))
                  (bmp_scalar _ Hh Hl Ha) Hf) as (fuel' & Hf' & ->).
      rewrite utf16_encode_bmp by done. by rewrite (IH2 Hwf fuel' Hf').
    + rewrite (utf8_string_cons a), Hh in Hf |- *.
      destruct (pair_scalar _ _ Hh Hd) as [_ Hsc].
      destruct (decode_code_point fuel (pair_code_point a b) (utf8_string t) Hsc Hf)
        as (fuel' & Hf' & ->).
      rewrite utf16_encode_pair by done. by rewrite (IH1 Hwf fuel' Hf').
Qed.

Lemma btoa_octets bs :
  Forall (fun b => (b < 256)%N) bs -> btoa bs = Ok (b64_encode bs).
Proof.
  intros Hbs. unfold btoa.
  assert (Hall : forallb (fun c => (c <=? 255)%N) bs = true).
  { apply forallb_forall. intros c Hc%list_elem_of_In.
    rewrite Forall_forall in Hbs. apply N.leb_le. specialize (Hbs c Hc). lia. }
  by rewrite Hall.
Qed.

Lemma atob_b64_encode bs :
  Forall (fun b => (b < 256)%N) bs -> atob (b64_encode bs) = Ok bs.
Proof.
  intros Hbs. pose proof (atob_btoa bs Hbs) as H.
  by rewrite btoa_octets in H.
Qed.

Lemma encodeUnicode_octets s :
  well_formed s = true ->
  encodeUnicode s = Ok (b64_encode (utf8_string s)).
Proof.
  intros Hwf. unfold encodeUnicode.
  rewrite encodeURIComponent_escaped by done. cbn [outcome_bind].
  unfold replace_all. rewrite unescape_escaped by (done || lia).
  apply btoa_octets. by apply utf8_string_octets.
Qed.

Lemma decodeUnicode_octets s :
  well_formed s = true ->
  decodeUnicode (b64_encode (utf8_string s)) = Ok s.
Proof.
  intros Hwf. unfold decodeUnicode, decodeUnicode_try.
  rewrite atob_b64_encode by by apply utf8_string_octets.
  cbn [outcome_bind]. unfold decodeURIComponent.
  by rewrite decode_utf8_string.
Qed.

(** C2: a placeholder whose prompt holds an ampersand, in the article the
    assembly line makes of it.  The image was generated and is in the image
    map under the placeholder as the markdown has it.  The renderer encodes
    the placeholder as it stands behind the escaping of the first pass, so
    the key of the element decodes to the escaped text, which is no key of
    the image map, and the image is shown as failed. *)
Theorem escaped_placeholder_is_shown_as_failed :
  exists article data_key,
    currentArticle (run_events initial_page ampersand_trace) = Some article
    /\ markdown (meta article) = ampersand_placeholder
    /\ imageMap (assets article) !! ampersand_placeholder
       = Some (ImageData (lit "BBBB"))
    /\ html (meta article)
       = markup "<div class='image-placeholder-wrapper' data-key='"
         ++ data_key ++ markup "'></div>"
    /\ decodeUnicode data_key = Ok (markup "[IMAGE_GENERATE:{'prompt':'a&amp;b'}]")
    /\ imageMap (assets article) !! markup "[IMAGE_GENERATE:{'prompt':'a&amp;b'}]"
       = None
    /\ view_of_placeholder article data_key = ImageFailed.
Proof.
  eexists _, (lit "W0lNQUdFX0dFTkVSQVRFOnsicHJvbXB0IjoiYSZhbXA7YiJ9XQ==").
  vm_compute. repeat split.
Qed.

(** C10: [decodeUnicode] returns a string for every argument, and that
    string is the argument itself whenever the decoding in the [try] fails
    (in [atob] or in [decodeURIComponent]). *)
Theorem decodeUnicode_total (str : jsstring) :
  exists r, decodeUnicode str = Ok r
    /\ (is_throw (decodeUnicode_try str) -> r = str)
    /\ (is_throw (atob str) -> r = str)
    /\ (forall bin, atob str = Ok bin ->
          is_throw (decodeURIComponent (flat_map percent_lower bin)) -> r = str).
Proof.
  unfold decodeUnicode, decodeUnicode_try.
  destruct (atob str) as [bin|e]; cbn [outcome_bind try_catch].
  - destruct (decodeURIComponent (flat_map percent_lower bin)) as [r|e] eqn:E;
      cbn [try_catch is_throw].
    + exists r. repeat split; try done. intros bin' [= <-]. by rewrite E.
    + exists str. repeat split; done.
  - exists str. repeat split; done.
Qed.

Lemma decodeUnicode_total_witness :
  decodeUnicode (lit "not base64!") = Ok (lit "not base64!").
Proof.
  destruct (decodeUnicode_total (lit "not base64!")) as (r & Hr & _ & Hatob & _).
  rewrite Hr. f_equal. apply Hatob. vm_compute. exact I.
Defined.

(** ** The renderer *)

(** C4: a chart placeholder whose payload holds an array.  The pattern of
    the chart pass ends the payload at the first closing bracket, so only
    the part up to the end of the array is replaced by the error element and
    the rest of the placeholder stays in the document as text; this happens
    to the payload with a missing comma and to the well-formed one alike. *)
Theorem chart_payload_with_array_leaves_tail :
  renderMarkdownToHtml (markup "[INTERACTIVE_CHART:{'labels':['a' 'b']}]")
  = Ok (chart_error ++ lit "}]</p>")
  /\ json_valid (markup "{'labels':['a' 'b']}") = false
  /\ renderMarkdownToHtml (markup "[INTERACTIVE_CHART:{'labels':['a','b']}]")
     = Ok (chart_error ++ lit "}]</p>")
  /\ json_valid (markup "{'labels':['a','b']}") = true.
Proof. vm_compute. repeat split. Qed.

(** ** The history and its cap *)

Lemma last_snoc_removelast {A} (l : list A) (x : A) :
  last (l ++ [x]) = Some x /\ removelast (l ++ [x]) = l.
Proof.
  split; [apply last_snoc|]. rewrite removelast_app by done. simpl.
  apply app_nil_r.
Qed.

Lemma addArticleToHistory_below item st :
  length (articles st) < history_cap ->
  addArticleToHistory item st
  = set_articles (meta item :: articles st)
      (saveImagesToDb (id (meta item)) (assets item) st).
Proof.
  intros Hlen. unfold addArticleToHistory. cbn [articles saveImagesToDb set_db length].
  assert (E : (history_cap <? S (length (articles st))) = false)
    by (apply Nat.ltb_ge; lia).
  by rewrite E.
Qed.

Lemma addArticleToHistory_above item st kept oldest :
  articles st = kept ++ [oldest] ->
  history_cap <= length (articles st) ->
  addArticleToHistory item st
  = deleteImagesFromDb (id oldest)
      (set_articles (meta item :: kept)
         (saveImagesToDb (id (meta item)) (assets item) st)).
Proof.
  intros E Hlen. unfold addArticleToHistory.
  cbn [articles saveImagesToDb set_db length].
  assert (E' : (history_cap <? S (length (articles st))) = true)
    by (apply Nat.ltb_lt; lia).
  rewrite E', E, app_comm_cons.
  destruct (last_snoc_removelast (meta item :: kept) oldest) as [-> ->]. done.
Qed.

Lemma addArticleToHistory_articles item st :
  length (articles st) <= history_cap ->
  articles (addArticleToHistory item st)
  = take history_cap (meta item :: articles st).
Proof.
  intros Hlen. destruct (decide (length (articles st) < history_cap)) as [Hlt|Hge].
  - rewrite addArticleToHistory_below by done. cbn [articles set_articles].
    rewrite take_ge; [done|]. simpl. lia.
  - destruct (articles st) as [|a l] eqn:E using rev_ind;
      [unfold history_cap in *; simpl in *; lia|]. clear IHl.
    rewrite (addArticleToHistory_above item st l a) by (rewrite ?E; done || lia).
    cbn [articles deleteImagesFromDb set_db set_articles].
    rewrite length_app in Hlen, Hge. simpl in Hlen, Hge.
    unfold history_cap in *. cbn [take]. f_equal.
    rewrite take_app_length'; [done|lia].
Qed.

(** X9: the history after a series of additions to the empty history
    holds the latest fifty articles, the newest first. *)
Lemma history_after_additions items :
  articles (foldl (fun st item => addArticleToHistory item st) initial_page items)
  = take history_cap (rev (map meta items)).
Proof.
  induction items as [|item items IH] using rev_ind; [done|].
  rewrite foldl_app. cbn [foldl].
  rewrite addArticleToHistory_articles, IH.
  - rewrite map_app, rev_app_distr. cbn [map rev app].
    unfold history_cap. cbn [take]. f_equal.
    rewrite take_take. f_equal.
  - rewrite IH, length_take. lia.
Qed.

(** C9: adding an article to a history of fifty removes the last record of
    the list, which is the oldest (the list has the newest first), deletes
    the asset record filed under the id of that record, and leaves fifty
    records with the new one in front; below fifty nothing is removed and
    nothing is deleted. *)
Theorem history_cap_eviction (item : ArticleHistoryItem) (st : page_state) :
  (length (articles st) = 50 ->
   exists kept oldest,
     articles st = kept ++ [oldest]
     /\ articles (addArticleToHistory item st) = meta item :: kept
     /\ length (articles (addArticleToHistory item st)) = 50
     /\ db (addArticleToHistory item st)
        = delete (id oldest) (<[id (meta item) := assets item]> (db st))
     /\ db (addArticleToHistory item st) !! id oldest = None)
  /\ (length (articles st) < 50 ->
      articles (addArticleToHistory item st) = meta item :: articles st
      /\ db (addArticleToHistory item st)
         = <[id (meta item) := assets item]> (db st)).
Proof.
  split.
  - intros Hlen.
    destruct (articles st) as [|a l] eqn:E using rev_ind; [done|]. clear IHl.
    exists l, a. rewrite length_app in Hlen. simpl in Hlen.
    rewrite (addArticleToHistory_above item st l a) by (rewrite ?E, ?length_app; simpl; unfold history_cap; done || lia).
    cbn. repeat split; try done; [lia|]. apply lookup_delete_eq.
  - intros Hlen. rewrite addArticleToHistory_below by (unfold history_cap; lia).
    done.
Qed.

Lemma history_cap_eviction_witness :
  exists kept oldest,
    articles full_page = kept ++ [oldest]
    /\ articles (addArticleToHistory (sample_item 50) full_page)
       = meta (sample_item 50) :: kept
    /\ id oldest = 0%Z
    /\ db (addArticleToHistory (sample_item 50) full_page) !! 0%Z = None.
Proof.
  destruct (history_cap_eviction (sample_item 50) full_page) as [Hfull _].
  destruct Hfull as (kept & oldest & Hsplit & Hadd & _ & _ & Hgone);
    [vm_compute; reflexivity|].
  exists kept, oldest.
  assert (Hid : id oldest = 0%Z).
  { assert (Hlast : last (articles full_page) = Some oldest)
      by (rewrite Hsplit; apply last_snoc).
    vm_compute in Hlast. by injection Hlast as <-. }
  rewrite Hid in Hgone. by repeat split.
Defined.

(** ** The markup cache *)

Lemma keeps_text_sound f a : keeps_text f -> cache_sound a -> cache_sound (f a).
Proof.
  intros Hf Ha. destruct (Hf a) as [Hm Hh]. unfold cache_sound in *.
  by rewrite Hm, Hh.
Qed.

Lemma known_sound st m : caches_sound st -> known_in st m -> cache_sound m.
Proof.
  intros [Hall Hcur] [Hin|(c & Hc & <-)].
  - rewrite Forall_forall in Hall. by apply Hall.
  - by rewrite Hc in Hcur.
Qed.

Lemma updateArticleInHistory_sound updated st :
  cache_sound (meta updated) -> caches_sound st ->
  caches_sound (updateArticleInHistory updated st).
Proof.
  intros Hu [Hall Hcur]. unfold updateArticleInHistory.
  cbn [articles saveImagesToDb set_db].
  destruct (find_index _ _) as [index|]; (split; [|done]);
    cbn [articles set_articles]; [|done].
  by apply Forall_insert.
Qed.

Lemma set_currentArticle_sound c st :
  cache_sound (meta c) -> caches_sound st ->
  caches_sound (set_currentArticle (Some c) st).
Proof. intros Hc [Hall _]. by split. Qed.

Lemma renderArticle_sound article st :
  cache_sound (meta article) -> caches_sound st ->
  caches_sound (renderArticle article st).
Proof.
  intros Ha Hst. unfold renderArticle.
  destruct (html (meta article)) as [|c h] eqn:Eh;
    [|by apply set_currentArticle_sound].
  destruct (renderMarkdownToHtml (markdown (meta article))) as [h|e] eqn:Er;
    [|by apply set_currentArticle_sound].
  assert (Hs : cache_sound (meta (with_meta (set_html h) article))).
  { right. exact Er. }
  apply updateArticleInHistory_sound; [done|].
  by apply set_currentArticle_sound.
Qed.

Lemma removelast_Forall {A} (P : A -> Prop) (l : list A) :
  Forall P l -> Forall P (removelast l).
Proof.
  induction 1 as [|x l Hx Hl IH]; [constructor|].
  simpl. destruct l; [constructor|]. by constructor.
Qed.

Lemma addArticleToHistory_sound item st :
  cache_sound (meta item) -> caches_sound st ->
  caches_sound (addArticleToHistory item st).
Proof.
  intros Hi [Hall Hcur]. unfold addArticleToHistory.
  cbn [articles saveImagesToDb set_db].
  assert (Hl : Forall cache_sound (meta item :: articles st)) by by constructor.
  destruct (history_cap <? _); [|by split].
  destruct (last _); (split; [|done]); [|done].
  cbn [articles deleteImagesFromDb set_db set_articles].
  by apply removelast_Forall.
Qed.

Lemma removeArticleFromHistory_sound i st :
  caches_sound st -> caches_sound (removeArticleFromHistory i st).
Proof.
  intros [Hall Hcur]. split; [|done].
  cbn [removeArticleFromHistory articles deleteImagesFromDb set_db set_articles].
  induction Hall as [|x l Hx Hl IH]; [constructor|].
  rewrite filter_cons. destruct (decide _); [by constructor|done].
Qed.

Lemma generateArticleAssemblyLine_sound run st :
  caches_sound st -> caches_sound (generateArticleAssemblyLine run st).
Proof.
  intros Hst. unfold generateArticleAssemblyLine.
  destruct (selectedOutline st); [|done].
  destruct (core_stream run) as [[fullText groundingMetadata]|]; [|done].
  destruct (step1_postprocess _ _) as [[? coreReferences]|]; [|done].
  destruct (decoration run) as [[[decoratedMarkdown ?] ?]|]; [|done].
  destruct (images run) as [generatedImages|]; [|done].
  unfold finalizeArticle.
  assert (Hn : cache_sound
                 (meta (newItem decoratedMarkdown coreReferences generatedImages run st)))
    by by left.
  apply renderArticle_sound; [done|]. by apply addArticleToHistory_sound.
Qed.

Lemma amend_stored_sound stub f st :
  keeps_text f -> cache_sound stub -> caches_sound st ->
  caches_sound (amend_stored stub f st).
Proof.
  intros Hf Hs Hst. unfold amend_stored.
  assert (Hfull : cache_sound (meta (with_meta f (full_article stub st))))
    by by apply keeps_text_sound.
  pose proof (updateArticleInHistory_sound _ st Hfull Hst) as H1.
  destruct (currentArticle _) as [c|]; [|done].
  destruct (_ =? _)%Z; [|done]. by apply renderArticle_sound.
Qed.

Lemma amend_current_sound f st :
  keeps_text f -> caches_sound st -> caches_sound (amend_current f st).
Proof.
  intros Hf Hst. unfold amend_current.
  destruct (currentArticle st) as [c|] eqn:Ec; [|done].
  assert (Hc : cache_sound (meta (with_meta f c))).
  { apply keeps_text_sound; [done|]. destruct Hst as [_ Hcur]. by rewrite Ec in Hcur. }
  apply updateArticleInHistory_sound; [done|]. by apply set_currentArticle_sound.
Qed.

Lemma handle_sound st e :
  caches_sound st ->
  Forall cache_sound (event_snapshots e) ->
  caches_sound (handle st e).
Proof.
  intros Hst Hsnap. destruct e; cbn [handle event_snapshots] in *.
  - by destruct outlines.
  - destruct (suggestedOutlines st !! index); [|done].
    destruct directions; [done|].
    by apply generateArticleAssemblyLine_sound.
  - destruct (suggestedDirections st !! index); [|done].
    by apply generateArticleAssemblyLine_sound.
  - done.
  - done.
  - destruct (currentArticle st) as [current|]; [|done].
    assert (Hu : cache_sound (meta (saveEdit_update current newMarkdown newPerformance)))
      by by left.
    apply renderArticle_sound; [done|]. by apply updateArticleInHistory_sound.
  - destruct (currentArticle st) as [current|]; [|done].
    destruct answer as [proofreadMarkdown|]; [|done].
    destruct (trim proofreadMarkdown); [done|].
    assert (Hu : cache_sound (meta (proofread_update current proofreadMarkdown)))
      by by left.
    apply renderArticle_sound; [done|]. by apply updateArticleInHistory_sound.
  - by apply amend_current_sound.
  - by apply amend_current_sound.
  - by apply amend_current_sound.
  - inversion_clear Hsnap. by apply amend_stored_sound.
  - inversion_clear Hsnap. by apply renderArticle_sound.
  - by apply removeArticleFromHistory_sound.
  - inversion_clear Hsnap. apply updateArticleInHistory_sound; [|done].
    by apply keeps_text_sound.
  - inversion_clear Hsnap. by apply amend_stored_sound.
  - inversion_clear Hsnap.
    assert (Hu : cache_sound (meta (with_meta (set_video v) article)))
      by by apply keeps_text_sound.
    apply renderArticle_sound; [done|]. by apply updateArticleInHistory_sound.
  - inversion_clear Hsnap.
    assert (Hu : cache_sound (meta (with_meta (set_video v) article)))
      by by apply keeps_text_sound.
    apply updateArticleInHistory_sound; [done|].
    destruct shown; [by apply set_currentArticle_sound|done].
Qed.

Lemma page_run_sound st0 hist :
  caches_sound st0 -> page_run st0 hist -> Forall caches_sound hist.
Proof.
  intros H0. induction 1 as [|st hist e Hrun IH Hsnap]; [by apply Forall_singleton|].
  constructor; [|done]. apply handle_sound; [by inversion IH|].
  rewrite Forall_forall in Hsnap |- *. intros m Hm.
  specialize (Hsnap m Hm). apply Exists_exists in Hsnap as (st' & Hin & Hk).
  rewrite Forall_forall in IH. by eapply known_sound; [apply IH|].
Qed.

(** C8: the updates the save-edit and the proofread handlers build carry
    the new markdown with an empty markup cache, and it is this update that
    is persisted and then rendered.  In every run of the page that starts
    from a state with sound caches, every state passed has sound caches: the
    markup of each article of the history and of the article on display is
    absent or is what the renderer returns for the markdown of that
    article. *)
Theorem markup_cache_invariant :
  (forall current newMarkdown newPerformance,
      markdown (meta (saveEdit_update current newMarkdown newPerformance))
      = newMarkdown
      /\ html (meta (saveEdit_update current newMarkdown newPerformance)) = [])
  /\ (forall current proofreadMarkdown,
        markdown (meta (proofread_update current proofreadMarkdown))
        = proofreadMarkdown
        /\ html (meta (proofread_update current proofreadMarkdown)) = [])
  /\ (forall st current newMarkdown newPerformance,
        currentArticle st = Some current ->
        let updatedArticle := saveEdit_update current newMarkdown newPerformance in
        handle st (SaveEdit newMarkdown newPerformance)
        = renderArticle updatedArticle (updateArticleInHistory updatedArticle st))
  /\ (forall st current proofreadMarkdown,
        currentArticle st = Some current ->
        trim proofreadMarkdown <> [] ->
        let updatedArticle := proofread_update current proofreadMarkdown in
        handle st (Proofread (Ok proofreadMarkdown))
        = renderArticle updatedArticle (updateArticleInHistory updatedArticle st))
  /\ (forall st0 hist,
        caches_sound st0 -> page_run st0 hist -> Forall caches_sound hist).
Proof.
  split; [done|]. split; [done|]. split; [|split].
  - intros st current newMarkdown newPerformance Hc. cbn [handle]. by rewrite Hc.
  - intros st current proofreadMarkdown Hc Hne. cbn [handle]. rewrite Hc.
    by destruct (trim proofreadMarkdown).
  - apply page_run_sound.
Qed.

Lemma markup_cache_invariant_witness :
  Forall caches_sound
    [handle sample_page (SaveEdit (lit "new **text**") None); sample_page].
Proof.
  destruct markup_cache_invariant as (_ & _ & _ & _ & Hrun).
  apply (Hrun sample_page).
  - split; [constructor; [|constructor]|]; right; vm_compute; reflexivity.
  - apply run_step; [apply run_start|]. simpl. constructor.
Defined.

(** ** The fallback of the direction stage *)

(** The article the assembly line stores carries the direction that is
    selected when the line runs. *)
Lemma generateArticleAssemblyLine_direction run st :
  generateArticleAssemblyLine run st = st
  \/ exists a, head (articles (generateArticleAssemblyLine run st)) = Some a
       /\ id a = now run
       /\ creativeDirection a = selectedDirection st.
Proof.
  unfold generateArticleAssemblyLine.
  destruct (selectedOutline st); [|by left].
  destruct (core_stream run) as [[fullText groundingMetadata]|]; [|by left].
  destruct (step1_postprocess _ _) as [[? coreReferences]|]; [|by left].
  destruct (decoration run) as [[[decoratedMarkdown ?] ?]|]; [|by left].
  destruct (images run) as [generatedImages|]; [|by left].
  right. unfold finalizeArticle.
  set (item := newItem decoratedMarkdown coreReferences generatedImages run st).
  assert (Hadd : exists rest, articles (addArticleToHistory item st) = meta item :: rest).
  { unfold addArticleToHistory. cbn [articles saveImagesToDb set_db].
    destruct (history_cap <? _) eqn:Hcap; [|by eexists].
    destruct (last _);
      cbn [articles deleteImagesFromDb set_db set_articles]; [|by eexists].
    destruct (articles st) as [|b l]; [done|]. by eexists. }
  destruct Hadd as [rest Hadd].
  unfold renderArticle. cbn [html meta item newItem].
  destruct (renderMarkdownToHtml _) as [h|e].
  - unfold updateArticleInHistory.
    cbn [articles saveImagesToDb set_db set_currentArticle]. rewrite Hadd.
    cbn [find_index meta with_meta id set_html item newItem].
    rewrite Z.eqb_refl. cbn [articles set_articles]. simpl.
    eexists. split; [done|]. by split.
  - cbn [articles set_currentArticle]. rewrite Hadd. simpl.
    eexists. split; [done|]. by split.
Qed.

(** When the direction stage throws, the assembly line runs in the state the
    click on the outline has left, with the direction selected in an earlier
    run still in place. *)
Lemma direction_failure_falls_back st index o e run :
  suggestedOutlines st !! index = Some o ->
  handle st (ClickOutline index (Throw e) run)
  = generateArticleAssemblyLine run (set_outlines (suggestedOutlines st) (Some o) st)
  /\ selectedDirection (set_outlines (suggestedOutlines st) (Some o) st)
     = selectedDirection st.
Proof. intros Ho. cbn [handle]. by rewrite Ho. Qed.

(** C7: in the sample trace the direction stage of the second run fails and
    the line goes on to assemble the article, but the article it stores (the
    newest of the history, with the time of the second run as its id) carries
    the direction selected in the first run. *)
Theorem failed_direction_stage_keeps_stale_direction :
  exists a rest,
    articles (run_events initial_page stale_direction_trace) = a :: rest
    /\ id a = 2%Z
    /\ creativeDirection a = Some sample_vivid.
Proof. vm_compute. eexists _, _. repeat split. Qed.

(** ** Replacements of single code units *)

Lemma replace_loop_miss fuel r cb l c t :
  rexec r l (c :: t) = None ->
  replace_loop (S fuel) r cb l (c :: t) = c :: replace_loop fuel r cb (c :: l) t.
Proof. intros E. cbn [replace_loop]. by rewrite E. Qed.

Lemma replace_loop_end fuel r cb l :
  rexec r l [] = None -> replace_loop (S fuel) r cb l [] = [].
Proof. intros E. cbn [replace_loop]. by rewrite E. Qed.

Lemma replace_loop_hit fuel r cb l w rest cs :
  w <> [] ->
  rexec r l (w ++ rest) = Some (MState (rev w ++ l) rest cs) ->
  replace_loop (S fuel) r cb l (w ++ rest)
  = cb (RMatched w cs) ++ replace_loop fuel r cb (rev w ++ l) rest.
Proof.
  intros Hw E. cbn [replace_loop]. rewrite E. cbn [left right caps].
  rewrite length_app, length_rev.
  replace (length w + length l - length l) with (length w) by lia.
  rewrite take_app_length. destruct w as [|c w]; [done|]. reflexivity.
Qed.

Lemma replace_loop_unit c w fuel l s :
  length s < fuel ->
  replace_loop fuel (RIs c) (fun _ => w) l s
  = flat_map (fun x => if (x =? c)%N then w else [x]) s.
Proof.
  revert fuel l. induction s as [|x t IH]; intros [|fuel] l Hf; simpl in Hf; try lia.
  - reflexivity.
  - cbn [flat_map]. destruct (x =? c)%N eqn:E.
    + rewrite (replace_loop_hit fuel _ _ l [x] t []); [|done|].
      * f_equal. apply IH. lia.
      * unfold rexec. rewrite rmatch_is. simpl. by rewrite E.
    + rewrite replace_loop_miss.
      * cbn [app]. f_equal. apply IH. lia.
      * unfold rexec. rewrite rmatch_is. cbn iota. by rewrite E.
Qed.

Lemma replace_text_unit c w s :
  replace_text (RIs c) w s = flat_map (fun x => if (x =? c)%N then w else [x]) s.
Proof. unfold replace_text, replace_all. apply replace_loop_unit. lia. Qed.

Lemma flat_map_compose {A B C} (f : A -> list B) (g : B -> list C) (l : list A) :
  flat_map g (flat_map f l) = flat_map (fun x => flat_map g (f x)) l.
Proof.
  induction l as [|x l IH]; [done|]. simpl. by rewrite flat_map_app, IH.
Qed.

Lemma sanitizeString_units s : sanitizeString s = flat_map sanitized_unit s.
Proof.
  unfold sanitizeString. rewrite !replace_text_unit, flat_map_compose.
  apply flat_map_ext. intros x. unfold sanitized_unit.
  destruct (x =? Chars.lt)%N eqn:E1; [reflexivity|].
  simpl. rewrite app_nil_r. done.
Qed.

Lemma escape_markup_units s : escape_markup s = flat_map escaped_unit s.
Proof.
  unfold escape_markup. rewrite !replace_text_unit, !flat_map_compose.
  apply flat_map_ext. intros x. unfold escaped_unit.
  destruct (x =? Chars.amp)%N eqn:E1; [reflexivity|].
  simpl. rewrite app_nil_r.
  destruct (x =? Chars.lt)%N eqn:E2; [reflexivity|].
  simpl. rewrite app_nil_r. done.
Qed.

Lemma sanitized_unit_clean c : Forall (fun x => is_angle x = false) (sanitized_unit c).
Proof.
  unfold sanitized_unit.
  destruct (c =? Chars.lt)%N eqn:E1; [by repeat constructor|].
  destruct (c =? Chars.gt)%N eqn:E2; [by repeat constructor|].
  repeat constructor. unfold is_angle. by rewrite E1, E2.
Qed.

Lemma sanitized_units_clean s :
  Forall (fun x => is_angle x = false) (flat_map sanitized_unit s).
Proof.
  induction s as [|c s IH]; [constructor|]. simpl.
  apply Forall_app. split; [apply sanitized_unit_clean|done].
Qed.

Lemma sanitized_units_fixed s :
  Forall (fun x => is_angle x = false) s -> flat_map sanitized_unit s = s.
Proof.
  induction 1 as [|c s Hc Hs IH]; [done|]. simpl. rewrite IH.
  unfold sanitized_unit, is_angle in *. apply orb_false_elim in Hc as [-> ->]. done.
Qed.

(** X1: [sanitizeString] writes [&lt;] for every [<] and [&gt;] for every [>] and
    copies every other code unit; its result holds no angle bracket, a second
    pass changes nothing, and a string is returned unchanged exactly when it
    holds no angle bracket. *)
Theorem sanitizeString_spec (s : jsstring) :
  sanitizeString s = flat_map sanitized_unit s
  /\ Forall (fun c => is_angle c = false) (sanitizeString s)
  /\ sanitizeString (sanitizeString s) = sanitizeString s
  /\ (sanitizeString s = s <-> Forall (fun c => is_angle c = false) s).
Proof.
  rewrite !sanitizeString_units. split; [done|].
  pose proof (sanitized_units_clean s) as Hclean.
  split; [done|]. split; [by apply sanitized_units_fixed|]. split.
  - intros E. by rewrite E in Hclean.
  - apply sanitized_units_fixed.
Qed.

Lemma safeSubstring_length str n :
  length (safeSubstring str n) = if n <? length str then n + 3 else length str.
Proof.
  unfold safeSubstring. destruct (n <? length str) eqn:E; [|done].
  apply Nat.ltb_lt in E. rewrite length_app, length_take. simpl. lia.
Qed.

(** X2: a sanitized string cut by [safeSubstring] at [n] has at most
    [n + 3] code units, holds no angle bracket (also when the cut goes through
    an entity), starts with the first [n] code units of the sanitized string,
    and is the sanitized string itself when that has at most [n] code units. *)
Theorem safeSubstring_sanitized (s : jsstring) (n : nat) :
  length (safeSubstring (sanitizeString s) n) <= n + 3
  /\ Forall (fun c => is_angle c = false) (safeSubstring (sanitizeString s) n)
  /\ take n (safeSubstring (sanitizeString s) n) = take n (sanitizeString s)
  /\ (length (sanitizeString s) <= n ->
      safeSubstring (sanitizeString s) n = sanitizeString s).
Proof.
  pose proof (sanitized_units_clean s) as Hclean.
  rewrite <- sanitizeString_units in Hclean.
  split; [|split; [|split]].
  - rewrite safeSubstring_length. destruct (n <? _) eqn:E; [lia|].
    apply Nat.ltb_ge in E. lia.
  - unfold safeSubstring. destruct (n <? _); [|done].
    apply Forall_app. split; [by apply Forall_take|by repeat constructor].
  - unfold safeSubstring. destruct (n <? _) eqn:E; [|done].
    apply Nat.ltb_lt in E. rewrite take_app_le by (rewrite length_take; lia).
    by rewrite take_take, Nat.min_id.
  - intros Hle. unfold safeSubstring.
    by rewrite (proj2 (Nat.ltb_ge _ _) Hle).
Qed.

Lemma safeSubstring_sanitized_witness :
  safeSubstring (sanitizeString (lit "a<b>c")) 20 = lit "a&lt;b&gt;c".
Proof.
  destruct (safeSubstring_sanitized (lit "a<b>c") 20) as (_ & _ & _ & Hfit).
  rewrite Hfit; [vm_compute; reflexivity|vm_compute; lia].
Defined.

Lemma escaped_unit_clean c : Forall (fun x => is_angle x = false) (escaped_unit c).
Proof.
  unfold escaped_unit.
  destruct (c =? Chars.amp)%N eqn:E0; [by repeat constructor|].
  destruct (c =? Chars.lt)%N eqn:E1; [by repeat constructor|].
  destruct (c =? Chars.gt)%N eqn:E2; [by repeat constructor|].
  repeat constructor. unfold is_angle. by rewrite E1, E2.
Qed.

Lemma escaped_unit_inj a b r1 r2 :
  escaped_unit a ++ r1 = escaped_unit b ++ r2 -> a = b /\ r1 = r2.
Proof.
  unfold escaped_unit.
  destruct (a =? Chars.amp)%N eqn:A0; [apply N.eqb_eq in A0|apply N.eqb_neq in A0];
  (destruct (a =? Chars.lt)%N eqn:A1; [apply N.eqb_eq in A1|apply N.eqb_neq in A1]);
  (destruct (a =? Chars.gt)%N eqn:A2; [apply N.eqb_eq in A2|apply N.eqb_neq in A2]);
  (destruct (b =? Chars.amp)%N eqn:B0; [apply N.eqb_eq in B0|apply N.eqb_neq in B0]);
  (destruct (b =? Chars.lt)%N eqn:B1; [apply N.eqb_eq in B1|apply N.eqb_neq in B1]);
  (destruct (b =? Chars.gt)%N eqn:B2; [apply N.eqb_eq in B2|apply N.eqb_neq in B2]);
  unfold Chars.amp, Chars.lt, Chars.gt in *; simpl; intros E;
  try discriminate; try congruence; injection E; intros; subst; try done;
  congruence.
Qed.

(** X3: the first pass of the renderer, three replacements in a row,
    writes [&amp;], [&lt;] and [&gt;] for [&], [<] and [>] and copies every
    other code unit (an entity written by one replacement is not escaped
    again by the next); the result holds no angle bracket, and different
    texts have different results. *)
Theorem escape_markup_spec (s : jsstring) :
  escape_markup s = flat_map escaped_unit s
  /\ Forall (fun c => is_angle c = false) (escape_markup s)
  /\ (forall s', escape_markup s = escape_markup s' -> s = s').
Proof.
  split; [apply escape_markup_units|]. split.
  - rewrite escape_markup_units. induction s as [|c s IH]; [constructor|].
    simpl. apply Forall_app. split; [apply escaped_unit_clean|done].
  - intros s'. rewrite !escape_markup_units. revert s'.
    induction s as [|a s IH]; intros [|b s'] E; simpl in E.
    + done.
    + exfalso. unfold escaped_unit in E.
      destruct (b =? Chars.amp)%N, (b =? Chars.lt)%N, (b =? Chars.gt)%N; discriminate.
    + exfalso. unfold escaped_unit in E.
      destruct (a =? Chars.amp)%N, (a =? Chars.lt)%N, (a =? Chars.gt)%N; discriminate.
    + apply escaped_unit_inj in E as [-> E]. f_equal. by apply IH.
Qed.

(** ** More on the history *)

Lemma find_index_Some {A} (p : A -> bool) l i :
  find_index p l = Some i ->
  exists l1 a l2, l = l1 ++ a :: l2 /\ length l1 = i /\ p a = true
    /\ Forall (fun x => p x = false) l1.
Proof.
  revert i. induction l as [|x l IH]; intros i E; [done|].
  simpl in E. destruct (p x) eqn:Ex.
  - injection E as <-. by exists [], x, l.
  - destruct (find_index p l) as [j|]; [|done]. injection E as <-.
    destruct (IH j eq_refl) as (l1 & a & l2 & -> & <- & Ha & Hl1).
    exists (x :: l1), a, l2. repeat split; try done. by constructor.
Qed.

Lemma find_index_None {A} (p : A -> bool) l :
  find_index p l = None -> Forall (fun x => p x = false) l.
Proof.
  induction l as [|x l IH]; intros E; [constructor|].
  simpl in E. destruct (p x) eqn:Ex; [done|].
  destruct (find_index p l); [done|]. constructor; [done|by apply IH].
Qed.

(** X4: [updateArticleInHistory] always writes the asset record of the
    article and leaves the article on display alone; in the list it replaces
    the first record with the id of the article and nothing else, and when
    no record has that id the list stays as it is (the asset record is
    written all the same). *)
Theorem updateArticleInHistory_spec (updated : ArticleHistoryItem) (st : page_state) :
  db (updateArticleInHistory updated st)
  = <[id (meta updated) := assets updated]> (db st)
  /\ currentArticle (updateArticleInHistory updated st) = currentArticle st
  /\ ((Forall (fun a => id a <> id (meta updated)) (articles st)
       /\ articles (updateArticleInHistory updated st) = articles st)
      \/ exists before old after,
           articles st = before ++ old :: after
           /\ id old = id (meta updated)
           /\ Forall (fun a => id a <> id (meta updated)) before
           /\ articles (updateArticleInHistory updated st)
              = before ++ meta updated :: after).
Proof.
  unfold updateArticleInHistory. cbn [articles saveImagesToDb set_db].
  destruct (find_index _ _) as [i|] eqn:E.
  - cbn [db articles currentArticle set_articles]. split; [done|]. split; [done|].
    right. apply find_index_Some in E as (l1 & a & l2 & Hl & <- & Ha & Hl1).
    exists l1, a, l2. apply Z.eqb_eq in Ha. rewrite Hl. repeat split; try done.
    + eapply Forall_impl; [exact Hl1|]. intros x Hx. by apply Z.eqb_neq.
    + rewrite insert_app_r_alt by lia. by rewrite Nat.sub_diag.
  - cbn [db articles currentArticle]. split; [done|]. split; [done|].
    left. split; [|done]. apply find_index_None in E.
    eapply Forall_impl; [exact E|]. intros x Hx. by apply Z.eqb_neq.
Qed.

(** X5: after [removeArticleFromHistory] no record of the list has the
    id and the store has no asset record for it; the other records keep their
    order, the other asset records and the article on display are untouched,
    and removing the id once more changes nothing. *)
Theorem removeArticleFromHistory_spec (i : Z) (st : page_state) :
  Forall (fun a => id a <> i) (articles (removeArticleFromHistory i st))
  /\ articles (removeArticleFromHistory i st) `sublist_of` articles st
  /\ (forall a, a ∈ articles st -> id a <> i ->
        a ∈ articles (removeArticleFromHistory i st))
  /\ db (removeArticleFromHistory i st) !! i = None
  /\ (forall j, j <> i -> db (removeArticleFromHistory i st) !! j = db st !! j)
  /\ currentArticle (removeArticleFromHistory i st) = currentArticle st
  /\ removeArticleFromHistory i (removeArticleFromHistory i st)
     = removeArticleFromHistory i st.
Proof.
  unfold removeArticleFromHistory.
  cbn [articles db currentArticle deleteImagesFromDb set_db set_articles].
  split; [|split; [|split; [|split; [|split; [|split]]]]].
  - apply Forall_forall. intros a Ha. by apply list_elem_of_filter in Ha as [? _].
  - apply sublist_filter.
  - intros a Ha Hne. by apply list_elem_of_filter.
  - apply lookup_delete_eq.
  - intros j Hj. by apply lookup_delete_ne.
  - done.
  - unfold deleteImagesFromDb, set_db, set_articles. cbn.
    rewrite delete_delete_eq. f_equal. by apply list_filter_filter_l.
Qed.

(** X6: adding an article with a new id to a history below the cap and
    removing it again gives back the state as it was, list and store. *)
Theorem add_then_remove_restores (item : ArticleHistoryItem) (st : page_state) :
  length (articles st) < history_cap ->
  Forall (fun a => id a <> id (meta item)) (articles st) ->
  db st !! id (meta item) = None ->
  removeArticleFromHistory (id (meta item)) (addArticleToHistory item st) = st.
Proof.
  intros Hlen Hfresh Hdb. rewrite addArticleToHistory_below by done.
  unfold removeArticleFromHistory, deleteImagesFromDb, saveImagesToDb, set_db,
    set_articles.
  cbn [articles currentArticle db suggestedOutlines selectedOutline
       suggestedDirections selectedDirection currentResearchedText].
  rewrite filter_cons_False by (intros H; by apply H).
  rewrite filter_all by by apply Forall_forall.
  rewrite delete_insert_eq, delete_id by done.
  by destruct st.
Qed.

Lemma add_then_remove_restores_witness :
  removeArticleFromHistory 7 (addArticleToHistory (sample_item 7) sample_page)
  = sample_page.
Proof.
  apply (add_then_remove_restores (sample_item 7) sample_page).
  - vm_compute. lia.
  - repeat constructor. vm_compute. discriminate.
  - vm_compute. reflexivity.
Defined.

(** X7: an article that was added is the first of the list and is read
    back in full (record and assets), unless the history is full and the
    evicted oldest record has the id of the new article. *)
Theorem added_article_reads_back (item : ArticleHistoryItem) (st : page_state) :
  (length (articles st) < history_cap
   \/ forall oldest, last (articles st) = Some oldest -> id oldest <> id (meta item)) ->
  head (articles (addArticleToHistory item st)) = Some (meta item)
  /\ full_article (meta item) (addArticleToHistory item st) = item.
Proof.
  intros H. unfold full_article, getImagesFromDb.
  destruct (decide (length (articles st) < history_cap)) as [Hlt|Hge].
  - rewrite addArticleToHistory_below by done.
    cbn [articles db set_articles saveImagesToDb set_db head].
    rewrite lookup_insert_eq. by destruct item.
  - destruct H as [H|H]; [done|].
    destruct (articles st) as [|a l] eqn:E using rev_ind;
      [unfold history_cap in *; simpl in *; lia|]. clear IHl.
    rewrite (addArticleToHistory_above item st l a) by (rewrite ?E; done || lia).
    cbn [articles db set_articles saveImagesToDb deleteImagesFromDb set_db head].
    rewrite lookup_delete_ne, lookup_insert_eq; [by destruct item|].
    apply H. apply last_snoc.
Qed.

Lemma added_article_reads_back_witness :
  full_article (meta (sample_item 50)) (addArticleToHistory (sample_item 50) full_page)
  = sample_item 50.
Proof.
  apply (added_article_reads_back (sample_item 50) full_page).
  right. intros oldest Hlast. vm_compute in Hlast. injection Hlast as <-.
  vm_compute. discriminate.
Defined.

(** *** The history never outgrows its cap *)

Lemma addArticleToHistory_length item st :
  length (articles (addArticleToHistory item st))
  <= Nat.max history_cap (length (articles st)).
Proof.
  unfold addArticleToHistory. cbn [articles saveImagesToDb set_db length].
  destruct (history_cap <? _) eqn:E.
  - destruct (articles st) as [|a l] eqn:El using rev_ind.
    + apply Nat.ltb_lt in E. unfold history_cap in E. simpl in E. lia.
    + clear IHl. rewrite app_comm_cons.
      destruct (last_snoc_removelast (meta item :: l) a) as [-> ->].
      cbn [articles deleteImagesFromDb set_db set_articles].
      rewrite length_app. simpl. lia.
  - apply Nat.ltb_ge in E. cbn [articles set_articles length]. lia.
Qed.

Lemma updateArticleInHistory_length updated st :
  length (articles (updateArticleInHistory updated st)) = length (articles st).
Proof.
  unfold updateArticleInHistory. cbn [articles saveImagesToDb set_db].
  destruct (find_index _ _); [|done].
  cbn [articles set_articles]. apply length_insert.
Qed.

Lemma renderArticle_length article st :
  length (articles (renderArticle article st)) = length (articles st).
Proof.
  unfold renderArticle. destruct (html _); [|done].
  destruct (renderMarkdownToHtml _); [|done].
  by rewrite updateArticleInHistory_length.
Qed.

Lemma generateArticleAssemblyLine_length run st :
  length (articles (generateArticleAssemblyLine run st))
  <= Nat.max history_cap (length (articles st)).
Proof.
  unfold generateArticleAssemblyLine.
  destruct (selectedOutline st); [|lia].
  destruct (core_stream run) as [[fullText groundingMetadata]|]; [|lia].
  destruct (step1_postprocess _ _) as [[? coreReferences]|]; [|lia].
  destruct (decoration run) as [[[decoratedMarkdown ?] ?]|]; [|lia].
  destruct (images run) as [generatedImages|]; [|lia].
  unfold finalizeArticle. rewrite renderArticle_length.
  apply addArticleToHistory_length.
Qed.

Lemma amend_stored_length stub f st :
  length (articles (amend_stored stub f st)) = length (articles st).
Proof.
  unfold amend_stored. destruct (currentArticle _) as [c|].
  - destruct (_ =? _)%Z; rewrite ?renderArticle_length;
      apply updateArticleInHistory_length.
  - apply updateArticleInHistory_length.
Qed.

Lemma amend_current_length f st :
  length (articles (amend_current f st)) = length (articles st).
Proof.
  unfold amend_current. destruct (currentArticle st); [|done].
  by rewrite updateArticleInHistory_length.
Qed.

Lemma handle_length st e :
  length (articles (handle st e)) <= Nat.max history_cap (length (articles st)).
Proof.
  destruct e; cbn [handle].
  - destruct outlines; cbn; lia.
  - destruct (suggestedOutlines st !! index); [|lia].
    destruct directions; [cbn; lia|].
    apply (generateArticleAssemblyLine_length run
             (set_outlines (suggestedOutlines st) (Some a) st)).
  - destruct (suggestedDirections st !! index); [|lia].
    apply (generateArticleAssemblyLine_length run
             (set_directions (suggestedDirections st) (Some c) st)).
  - cbn. lia.
  - cbn. lia.
  - destruct (currentArticle st); [|lia].
    rewrite renderArticle_length, updateArticleInHistory_length. lia.
  - destruct (currentArticle st); [|lia]. destruct answer; [|lia].
    destruct (trim _); [lia|].
    rewrite renderArticle_length, updateArticleInHistory_length. lia.
  - rewrite amend_current_length. lia.
  - rewrite amend_current_length. lia.
  - rewrite amend_current_length. lia.
  - rewrite amend_stored_length. lia.
  - rewrite renderArticle_length. lia.
  - unfold removeArticleFromHistory.
    cbn [articles deleteImagesFromDb set_db set_articles].
    pose proof (length_filter (fun a => id a <> article_id) (articles st)). lia.
  - rewrite updateArticleInHistory_length. lia.
  - rewrite amend_stored_length. lia.
  - rewrite renderArticle_length, updateArticleInHistory_length. lia.
  - rewrite updateArticleInHistory_length. destruct shown; cbn; lia.
Qed.

(** X8: whatever happens on the page, a history of at most fifty
    records never holds more than fifty. *)
Theorem history_never_outgrows_cap (st0 : page_state) (events : list page_event) :
  length (articles st0) <= history_cap ->
  length (articles (run_events st0 events)) <= history_cap.
Proof.
  intros H0. unfold run_events.
  induction events as [|e events IH] using rev_ind; [done|].
  rewrite foldl_app. cbn [foldl].
  pose proof (handle_length (foldl handle st0 events) e). lia.
Qed.

Lemma history_never_outgrows_cap_witness :
  length (articles (run_events initial_page stale_direction_trace)) <= history_cap.
Proof.
  apply (history_never_outgrows_cap initial_page stale_direction_trace).
  vm_compute. lia.
Defined.

(** ** The assembly line *)

Lemma addArticleToHistory_head item st :
  exists rest, articles (addArticleToHistory item st) = meta item :: rest.
Proof.
  unfold addArticleToHistory. cbn [articles saveImagesToDb set_db].
  destruct (history_cap <? _) eqn:Hcap; [|by eexists].
  destruct (last _);
    cbn [articles deleteImagesFromDb set_db set_articles]; [|by eexists].
  destruct (articles st) as [|b l]; [done|]. by eexists.
Qed.

Lemma renderArticle_shown article st :
  currentArticle (renderArticle article st)
  = Some (with_meta
            (set_html match html (meta article) with
                      | [] => match renderMarkdownToHtml (markdown (meta article)) with
                              | Ok h => h
                              | Throw _ => []
                              end
                      | h => h
                      end) article).
Proof.
  unfold renderArticle. destruct article as [m a]. cbn [meta].
  destruct (html m) as [|c h] eqn:Eh.
  - destruct (renderMarkdownToHtml (markdown m)) as [h|e].
    + unfold updateArticleInHistory. cbn [articles saveImagesToDb set_db].
      by destruct (find_index _ _).
    + cbn. unfold with_meta, set_html. cbn. rewrite <- Eh. by destruct m.
  - cbn. unfold with_meta, set_html. cbn. rewrite <- Eh. by destruct m.
Qed.

Lemma renderArticle_head article rest st :
  articles st = meta article :: rest ->
  exists shown,
    currentArticle (renderArticle article st) = Some shown
    /\ articles (renderArticle article st) = meta shown :: rest.
Proof.
  intros E. rewrite renderArticle_shown. eexists. split; [done|].
  unfold renderArticle. destruct article as [m a]. cbn [meta] in *.
  destruct (html m) as [|c h] eqn:Eh.
  - destruct (renderMarkdownToHtml (markdown m)) as [h|e].
    + unfold updateArticleInHistory.
      cbn [articles saveImagesToDb set_db set_currentArticle]. rewrite E.
      cbn [find_index meta with_meta id set_html]. rewrite Z.eqb_refl.
      cbn [articles set_articles]. done.
    + cbn [articles set_currentArticle]. rewrite E. unfold with_meta, set_html.
      cbn. rewrite <- Eh. by destruct m.
  - cbn [articles set_currentArticle]. rewrite E. unfold with_meta, set_html.
    cbn. rewrite <- Eh. by destruct m.
Qed.

Lemma generateArticleAssemblyLine_success run st o fullText chunks md p ov imgs :
  selectedOutline st = Some o ->
  core_stream run = Ok (fullText, chunks) ->
  trim fullText <> [] ->
  decoration run = Ok (md, p, ov) ->
  images run = Ok imgs ->
  exists shown rest,
    currentArticle (generateArticleAssemblyLine run st) = Some shown
    /\ articles (generateArticleAssemblyLine run st) = meta shown :: rest
    /\ shown = with_meta
                 (set_html match renderMarkdownToHtml md with
                           | Ok h => h
                           | Throw _ => []
                           end)
                 (newItem md chunks imgs run st).
Proof.
  intros Ho Hc Ht Hd Hi. unfold generateArticleAssemblyLine, step1_postprocess.
  rewrite Ho, Hc, Hd, Hi. destruct (trim fullText) as [|c t]; [done|].
  unfold finalizeArticle.
  destruct (addArticleToHistory_head (newItem md chunks imgs run st) st) as [rest E].
  destruct (renderArticle_head _ _ _ E) as (shown & Hs & Ha).
  exists shown, rest. split; [done|]. split; [done|].
  rewrite renderArticle_shown in Hs. by injection Hs as <-.
Qed.

(** X10: when every stage of the assembly line answers, the new article
    is on display and is the first of the history; its id is the time of the
    run, its markdown the decorated text, its markup what the renderer makes
    of it (none when the renderer throws), its references the reference list
    of the grounding chunks, its direction the one selected, and its assets
    the cover and the image map of the generated images. *)
Theorem assembly_line_stores_article
    (run : assembly_answers) (st : page_state) (o : ArticleOutline)
    (fullText : jsstring) (chunks : list grounding_chunk)
    (md p ov : jsstring) (imgs : gmap jsstring jsstring) :
  selectedOutline st = Some o ->
  core_stream run = Ok (fullText, chunks) ->
  trim fullText <> [] ->
  decoration run = Ok (md, p, ov) ->
  images run = Ok imgs ->
  exists shown,
    currentArticle (generateArticleAssemblyLine run st) = Some shown
    /\ head (articles (generateArticleAssemblyLine run st)) = Some (meta shown)
    /\ id (meta shown) = now run
    /\ markdown (meta shown) = md
    /\ html (meta shown) = match renderMarkdownToHtml md with
                           | Ok h => h
                           | Throw _ => []
                           end
    /\ references (meta shown) = finalReferences chunks
    /\ creativeDirection (meta shown) = selectedDirection st
    /\ assets shown = MkAssets (coverImageData imgs) (finalImageMap md imgs).
Proof.
  intros Ho Hc Ht Hd Hi.
  destruct (generateArticleAssemblyLine_success run st o fullText chunks md p ov imgs)
    as (shown & rest & Hs & Ha & ->); try done.
  eexists. split; [done|]. rewrite Ha. by repeat split.
Qed.

Lemma assembly_line_stores_article_witness :
  exists shown,
    currentArticle
      (generateArticleAssemblyLine (sample_run 1)
         (set_outlines [sample_outline] (Some sample_outline) initial_page))
    = Some shown
    /\ html (meta shown) = lit "<h1>body</h1>"
    /\ coverImage (assets shown) = Some (lit "AAAA").
Proof.
  destruct (assembly_line_stores_article (sample_run 1)
              (set_outlines [sample_outline] (Some sample_outline) initial_page)
              sample_outline (lit "body") [] (lit "# body") (lit "a cover")
              (lit "Title") {[ lit "cover" := lit "AAAA" ]})
    as (shown & Hs & _ & _ & _ & Hh & _ & _ & Ha); try reflexivity.
  - vm_compute. discriminate.
  - exists shown. split; [exact Hs|]. split.
    + rewrite Hh. vm_compute. reflexivity.
    + rewrite Ha. vm_compute. reflexivity.
Defined.

(** X11: when no direction is selected (after loading the page or after
    going back to the outlines) and the direction stage throws, the article
    the fallback assembles carries no creative direction. *)
Theorem fallback_without_selection
    (st : page_state) (index : nat) (o : ArticleOutline) (e : js_error)
    (run : assembly_answers) (fullText : jsstring) (chunks : list grounding_chunk)
    (md p ov : jsstring) (imgs : gmap jsstring jsstring) :
  suggestedOutlines st !! index = Some o ->
  selectedDirection st = None ->
  core_stream run = Ok (fullText, chunks) ->
  trim fullText <> [] ->
  decoration run = Ok (md, p, ov) ->
  images run = Ok imgs ->
  exists shown,
    currentArticle (handle st (ClickOutline index (Throw e) run)) = Some shown
    /\ head (articles (handle st (ClickOutline index (Throw e) run)))
       = Some (meta shown)
    /\ id (meta shown) = now run
    /\ creativeDirection (meta shown) = None.
Proof.
  intros Ho Hsel Hc Ht Hd Hi. cbn [handle generateCreativeDirections]. rewrite Ho.
  destruct (generateArticleAssemblyLine_success run
              (set_outlines (suggestedOutlines st) (Some o) st)
              o fullText chunks md p ov imgs)
    as (shown & rest & Hs & Ha & ->); try done.
  eexists. split; [done|]. rewrite Ha. by repeat split.
Qed.

Lemma fallback_without_selection_witness :
  exists shown,
    currentArticle
      (handle (handle (run_events initial_page stale_direction_trace) BackToOutlines)
              (ClickOutline 0 (Throw (External 1)) (sample_run 3)))
    = Some shown
    /\ id (meta shown) = 3%Z
    /\ creativeDirection (meta shown) = None.
Proof.
  destruct (fallback_without_selection
              (handle (run_events initial_page stale_direction_trace) BackToOutlines)
              0 sample_outline (External 1) (sample_run 3)
              (lit "body") [] (lit "# body") (lit "a cover") (lit "Title")
              {[ lit "cover" := lit "AAAA" ]})
    as (shown & Hs & _ & Hid & Hdir); try (vm_compute; reflexivity).
  - vm_compute. discriminate.
  - exists shown. by repeat split.
Defined.

(** ** More on the reference list *)

Lemma jsmap_set_elem {V} k (v : V) m e :
  NoDup (map fst m) ->
  e ∈ jsmap_set k v m -> e = (k, v) \/ (fst e <> k /\ e ∈ m).
Proof.
  induction m as [|[k' v'] m IH]; cbn [jsmap_set map fst]; intros Hnd He.
  - apply list_elem_of_singleton in He. by left.
  - apply NoDup_cons in Hnd as [Hk' Hnd]. case_bool_decide as E.
    + subst k'. apply elem_of_cons in He as [->|He]; [by left|].
      right. split; [|by apply elem_of_cons; right].
      intros <-. apply Hk'. apply list_elem_of_fmap. by exists e.
    + apply elem_of_cons in He as [->|He].
      * right. split; [by intros <-|]. apply elem_of_cons. by left.
      * destruct (IH Hnd He) as [->|[Hne Hin]]; [by left|].
        right. split; [done|]. apply elem_of_cons. by right.
Qed.

Lemma jsmap_of_snoc {V} (entries : list (jsstring * V)) k v :
  jsmap_of (entries ++ [(k, v)]) = jsmap_set k v (jsmap_of entries).
Proof. unfold jsmap_of. by rewrite foldl_app. Qed.

Lemma jsmap_of_last {V} (entries : list (jsstring * V)) e :
  e ∈ jsmap_of entries ->
  exists before after,
    entries = before ++ e :: after /\ Forall (fun e' => fst e' <> fst e) after.
Proof.
  revert e. induction entries as [|[k v] entries IH] using rev_ind; intros e He.
  - by apply elem_of_nil in He.
  - rewrite jsmap_of_snoc in He. apply jsmap_set_elem in He as [->|[Hne Hin]].
    + exists entries, []. by split.
    + destruct (IH e Hin) as (before & after & -> & Hafter).
      exists before, (after ++ [(k, v)]). split; [by rewrite <- app_assoc|].
      apply Forall_app. split; [done|]. repeat constructor. simpl. congruence.
    + rewrite jsmap_of_keys. apply first_occurrences_NoDup.
Qed.

Lemma has_uri_reference c :
  has_uri c = true ->
  ref_uri (chunk_reference c) = chunk_uri c
  /\ ref_uri (chunk_reference c) <> [] /\ ref_title (chunk_reference c) <> [].
Proof.
  unfold has_uri, chunk_reference, chunk_uri. destruct (web c) as [w|]; [|done].
  cbn [ref_uri ref_title]. intros Hu. split; [done|].
  destruct (uri w) as [[|x u]|]; try done. split; [done|].
  destruct (title w) as [[|y t]|]; done.
Qed.

(** X12: every reference of the list has a uri and a title that are not
    empty, and is built from the last grounding chunk with its uri: a uri
    cited several times keeps the place of its first citation (C3) and gets
    the title of its last. *)
Theorem reference_of_last_citation
    (coreReferences : list grounding_chunk) (r : reference) :
  r ∈ finalReferences coreReferences ->
  ref_uri r <> [] /\ ref_title r <> []
  /\ exists before c after,
       filter (fun c => has_uri c = true) coreReferences = before ++ c :: after
       /\ r = chunk_reference c
       /\ Forall (fun c' => chunk_uri c' <> ref_uri r) after.
Proof.
  intros Hr. unfold finalReferences in Hr.
  apply (subseteq_take 7) in Hr.
  unfold uniqueReferences, jsmap_values in Hr.
  apply list_elem_of_fmap in Hr as ([k r'] & -> & He). cbn [snd].
  apply jsmap_of_last in He as (before & after & Hsplit & Hafter).
  unfold groundedReferences in Hsplit. rewrite map_map in Hsplit.
  apply map_eq_app in Hsplit as (cs1 & cs2 & Hcs & H1 & H2).
  destruct cs2 as [|c cs2]; [done|]. cbn [map] in H2.
  injection H2 as Hk Hr' H3. subst k r'.
  assert (Hc : has_uri c = true).
  { assert (Hin : c ∈ filter (fun c => has_uri c = true) coreReferences)
      by (rewrite Hcs; apply elem_of_app; right; apply elem_of_cons; by left).
    by apply list_elem_of_filter in Hin as [? _]. }
  destruct (has_uri_reference c Hc) as (Hu & Hne & Ht).
  split; [done|]. split; [done|].
  exists cs1, c, cs2. split; [done|]. split; [done|].
  subst after. apply Forall_forall. intros c' Hc'. rewrite Forall_forall in Hafter.
  specialize (Hafter (ref_uri (chunk_reference c'), chunk_reference c')).
  cbn [fst] in Hafter. rewrite Hu in Hafter. rewrite Hu.
  assert (Hc2 : has_uri c' = true).
  { assert (Hin : c' ∈ filter (fun c => has_uri c = true) coreReferences)
      by (rewrite Hcs; apply elem_of_app; right; apply elem_of_cons; by right).
    by apply list_elem_of_filter in Hin as [? _]. }
  destruct (has_uri_reference c' Hc2) as (Hu' & _). rewrite <- Hu'.
  apply Hafter. apply (list_elem_of_fmap_2 (fun x => (ref_uri (chunk_reference x), chunk_reference x))).
  done.
Qed.

Lemma reference_of_last_citation_witness :
  exists before c after,
    filter (fun c => has_uri c = true) sample_chunks = before ++ c :: after
    /\ Reference (lit "https://a.b/c") (lit "last title") = chunk_reference c
    /\ Forall (fun c' => chunk_uri c' <> lit "https://a.b/c") after.
Proof.
  assert (Hin : Reference (lit "https://a.b/c") (lit "last title")
                ∈ finalReferences sample_chunks).
  { vm_compute. apply elem_of_cons. by left. }
  destruct (reference_of_last_citation sample_chunks _ Hin) as (_ & _ & H).
  exact H.
Defined.

(** ** How often and how long the retry wrapper works *)

Lemma invocations_app l1 l2 : invocations (l1 ++ l2) = invocations l1 + invocations l2.
Proof.
  induction l1 as [|[|ms] l1 IH]; simpl; [done| |done]. by rewrite IH.
Qed.

Lemma waited_app l1 l2 : waited (l1 ++ l2) = waited l1 + waited l2.
Proof.
  induction l1 as [|[|ms] l1 IH]; simpl; [done|done|]. rewrite IH. lia.
Qed.

Lemma retry_log_from_measures delay i k :
  invocations (retry_log_from delay i k) = k
  /\ 2 * waited (retry_log_from delay i k) = delay * ((k - 1) * (2 * i + k - 2)).
Proof.
  revert i. induction k as [|k IH]; intros i; [split; [done|simpl; lia]|].
  destruct k as [|k].
  - split; [done|]. simpl. lia.
  - change (retry_log_from delay i (S (S k)))
      with (Invoked :: Slept (delay * i) :: retry_log_from delay (i + 1) (S k)).
    destruct (IH (i + 1)) as [Hn Hw]. split.
    + cbn [invocations]. by rewrite Hn.
    + cbn [waited]. rewrite Nat.mul_add_distr_l, Hw.
      replace (S k - 1) with k by lia.
      replace (2 * (i + 1) + S k - 2) with (2 * i + k + 1) by lia.
      replace (S (S k) - 1) with (k + 1) by lia.
      replace (2 * i + S (S k) - 2) with (2 * i + k) by lia.
      nia.
Qed.

(** X13: the retry wrapper starts the operation [k <= retries] times
    and waits [delay * k * (k - 1) / 2] in all; [k] is at least one when it
    returns and [retries] when it throws. *)
Theorem withRetry_effort {St T : Type} (fn : St -> outcome T * St)
    (retries delay : nat) (w : world St) :
  let w' := snd (withRetry fn retries delay w) in
  exists k,
    k <= retries
    /\ invocations (log w') = invocations (log w) + k
    /\ 2 * waited (log w') = 2 * waited (log w) + delay * (k * (k - 1))
    /\ match fst (withRetry fn retries delay w) with
       | Ok _ => 1 <= k
       | Throw _ => k = retries
       end.
Proof.
  unfold withRetry.
  destruct (retry_from_contract fn retries delay retries 0 w eq_refl)
    as (k & Hk & Hlog & _ & _ & Hres).
  exists k. rewrite Hlog, invocations_app, waited_app.
  destruct (retry_log_from_measures delay (0 + 1) k) as [Hn Hw].
  rewrite Hn. split; [done|]. split; [done|]. split.
  - rewrite Nat.mul_add_distr_l, Hw.
    replace (2 * (0 + 1) + k - 2) with k by lia.
    destruct k; simpl; nia.
  - destruct (fst _); [lia|by destruct Hres].
Qed.

Lemma image_stage_effort_upto {St : Type}
    (generateImages : jsstring -> jsstring -> St -> outcome GenerateImagesResponse * St)
    (ai : jsstring) (tasks : list ImageGenerationTask) (w : world St) (i : nat) :
  i <= length tasks ->
  let wi := world_before generateImages ai tasks w i in
  invocations (log w) + i <= invocations (log wi)
  /\ invocations (log wi) <= invocations (log w) + 3 * i
  /\ waited (log wi) <= waited (log w) + 3000 * i.
Proof.
  induction i as [|i IH]; intros Hi.
  - unfold world_before, run_tasks. simpl. lia.
  - destruct (lookup_lt_is_Some_2 tasks i) as [task Ht]; [lia|].
    cbn zeta. rewrite (world_before_S _ _ _ _ _ _ Ht).
    destruct (image_attempt_log generateImages ai task
                (world_before generateImages ai tasks w i)) as (n & Hn & Hlog).
    rewrite Hlog, invocations_app, waited_app.
    destruct (retry_log_from_measures 1000 1 n) as [Hinv Hw].
    unfold retry_log. rewrite Hinv.
    destruct IH as (H1 & H2 & H3); [lia|]. cbn zeta in *.
    assert (waited (retry_log_from 1000 1 n) <= 3000).
    { assert (n = 1 \/ n = 2 \/ n = 3) as [->|[->| ->]] by lia; simpl; lia. }
    lia.
Qed.

(** X14: with an API key set, image resolution calls the image service
    at least once and at most three times for every task, and waits at most
    three seconds per task. *)
Theorem image_stage_effort {St : Type}
    (generateImages : jsstring -> jsstring -> St -> outcome GenerateImagesResponse * St)
    (apiKey : option jsstring) (tasks : list ImageGenerationTask) (w : world St) :
  truthy apiKey = true ->
  let w' := snd (generateAndStoreImages generateImages apiKey tasks w) in
  invocations (log w) + length tasks <= invocations (log w')
  /\ invocations (log w') <= invocations (log w) + 3 * length tasks
  /\ waited (log w') <= waited (log w) + 3000 * length tasks.
Proof.
  intros Hkey. unfold generateAndStoreImages, getGenAIClient. rewrite Hkey.
  pose proof (image_stage_effort_upto generateImages (default [] apiKey) tasks w
                (length tasks) (le_n _)) as H.
  unfold world_before in H. rewrite firstn_all in H.
  by destruct (run_tasks _ _ _ _).
Qed.

Lemma image_stage_effort_witness :
  invocations
    (log (snd (generateAndStoreImages sample_generateImages (Some (lit "key"))
                 sample_tasks (World 0 []))))
  <= 9.
Proof.
  apply (image_stage_effort sample_generateImages (Some (lit "key")) sample_tasks
           (World 0 []) eq_refl).
Defined.

(** ** More on the keys *)

Lemma b64_char_key n : is_key_unit (b64_char n) = true.
Proof.
  unfold b64_char, is_key_unit, is_ascii_alnum, Chars.plus, Chars.slash, Chars.equal.
  destruct (n <? 26)%N eqn:E1; bools; [cmp_decide; reflexivity|].
  destruct (n <? 52)%N eqn:E2; bools; [cmp_decide; reflexivity|].
  destruct (n <? 62)%N eqn:E3; bools; [cmp_decide; reflexivity|].
  destruct (n =? 62)%N eqn:E4; reflexivity.
Qed.

Lemma b64_encode_key bs :
  Forall (fun c => is_key_unit c = true) (b64_encode bs)
  /\ length (b64_encode bs) mod 4 = 0.
Proof.
  induction bs as [|a|a b|a b c t IH] using list_ind3.
  - by split.
  - split; [|done]. repeat constructor; apply b64_char_key.
  - split; [|done]. repeat constructor; apply b64_char_key.
  - destruct IH as [IH1 IH2]. cbn [b64_encode]. split.
    + repeat (constructor; [apply b64_char_key|]). done.
    + cbn [length].
      replace (S (S (S (S (length (b64_encode t))))))
        with (length (b64_encode t) + 1 * 4) by lia.
      by rewrite Nat.Div0.mod_add.
Qed.

(** X15: a key that [encodeUnicode] returns consists of letters, digits,
    [+], [/] and [=], in groups of four; it holds no double quote, so it
    cannot end the attribute it is written into. *)
Theorem encodeUnicode_key_alphabet (s key : jsstring) :
  encodeUnicode s = Ok key ->
  Forall (fun c => is_key_unit c = true) key
  /\ length key mod 4 = 0
  /\ Chars.dquote ∉ key.
Proof.
  unfold encodeUnicode. destruct (encodeURIComponent s) as [e|]; [|done].
  cbn [outcome_bind]. unfold btoa. destruct (forallb _ _); [|done].
  intros [= <-]. destruct (b64_encode_key (replace_all percent_re unescape_cb e))
    as [Hk Hl].
  split; [done|]. split; [done|].
  intros Hin. rewrite Forall_forall in Hk. by specialize (Hk _ Hin).
Qed.

Lemma encodeUnicode_key_alphabet_witness :
  Forall (fun c => is_key_unit c = true)
         (b64_encode (utf8_string (markup "[IMAGE_GENERATE:{'prompt':'a'}]"))).
Proof.
  apply (encodeUnicode_key_alphabet (markup "[IMAGE_GENERATE:{'prompt':'a'}]")).
  vm_compute. reflexivity.
Defined.

(** X16: two strings without lone surrogates that have the same key are
    the same string. *)
Theorem encodeUnicode_injective (s1 s2 : jsstring) :
  well_formed s1 = true -> well_formed s2 = true ->
  encodeUnicode s1 = encodeUnicode s2 -> s1 = s2.
Proof.
  intros H1 H2 E.
  rewrite (encodeUnicode_octets s1 H1), (encodeUnicode_octets s2 H2) in E.
  injection E as E.
  pose proof (decodeUnicode_octets s1 H1) as D1.
  pose proof (decodeUnicode_octets s2 H2) as D2.
  rewrite E in D1. rewrite D1 in D2. by injection D2.
Qed.

Lemma encodeUnicode_injective_witness :
  lit "[IMAGE_" ++ lit "GENERATE:{}]" = lit "[IMAGE_GENERATE:{}]".
Proof.
  apply encodeUnicode_injective; vm_compute; reflexivity.
Defined.

(** X17: [decode] gives back the octets of base-64 data. *)
Theorem decode_roundtrip (bytes : list N) :
  Forall (fun b => (b < 256)%N) bytes ->
  decode (b64_encode bytes) = Ok bytes.
Proof.
  intros Hb. unfold decode. rewrite atob_b64_encode by done. cbn [outcome_map].
  f_equal. induction Hb as [|b l Hb Hl IH]; [done|].
  cbn [map]. rewrite IH. f_equal. by apply N.mod_small.
Qed.

Lemma decode_roundtrip_witness :
  decode (lit "AAEC/w==") = Ok [0; 1; 2; 255]%N.
Proof.
  apply (decode_roundtrip [0; 1; 2; 255]%N).
  repeat constructor.
Defined.

(** ** The API key *)

Lemma checkApiKeyOnLoad_in_step st :
  apiKey st = None \/ key_in_step st -> key_in_step (checkApiKeyOnLoad st).
Proof.
  intros H. unfold key_in_step, checkApiKeyOnLoad in *.
  destruct (truthy (storedKey st)) eqn:E; cbn [apiKey storedKey].
  - by rewrite ?E.
  - rewrite ?E. by destruct H.
Qed.

Lemma load_page_in_step storage : key_in_step (load_page storage).
Proof. apply checkApiKeyOnLoad_in_step. by left. Qed.

Lemma key_handle_in_step st e : key_in_step st -> key_in_step (key_handle st e).
Proof.
  intros H. destruct e as [input [[]|err]| |]; cbn [key_handle].
  - destruct (truthy (Some (trim input))) eqn:E; [|done].
    unfold key_in_step, checkApiKeyOnLoad, saveApiKey. cbn [storedKey].
    rewrite E. cbn [apiKey storedKey]. by rewrite E.
  - by destruct (truthy _).
  - apply checkApiKeyOnLoad_in_step. by left.
  - apply load_page_in_step.
Qed.

(** X18: after loading the page and any series of save, clear and reload
    events, the key in memory is the stored key (none when the stored text is
    empty); a reload does not change whether a client can be made, which is
    the case exactly when a non-empty key is stored; after the clear button
    there is no client; after a save with a key that validates the client
    has the trimmed input as its key; a key that does not validate changes
    nothing. *)
Theorem api_key_survives_reload (storage : option jsstring) (events : list key_event) :
  let st := foldl key_handle (load_page storage) events in
  key_in_step st
  /\ getGenAIClient (getApiKey (key_handle st Reload)) = getGenAIClient (getApiKey st)
  /\ (getGenAIClient (getApiKey st) = Throw ApiKeyMissing <-> truthy (storedKey st) = false)
  /\ getGenAIClient (getApiKey (key_handle st ClearKeyClick)) = Throw ApiKeyMissing
  /\ (forall input, trim input <> [] ->
        getGenAIClient (getApiKey (key_handle st (SaveKeyClick input (Ok ()))))
        = Ok (trim input))
  /\ (forall input e, key_handle st (SaveKeyClick input (Throw e)) = st).
Proof.
  cbn zeta. set (st := foldl key_handle (load_page storage) events).
  assert (Hst : key_in_step st).
  { subst st. induction events as [|e events IH] using rev_ind.
    - apply load_page_in_step.
    - rewrite foldl_app. by apply key_handle_in_step. }
  split; [done|]. unfold key_in_step in Hst. unfold getApiKey.
  split; [|split; [|split; [|split]]].
  - cbn [key_handle]. unfold load_page, checkApiKeyOnLoad. cbn [storedKey].
    rewrite Hst. destruct (truthy (storedKey st)) eqn:E; cbn [apiKey]; [done|].
    unfold getGenAIClient. done.
  - rewrite Hst. unfold getGenAIClient.
    destruct (truthy (storedKey st)) eqn:E; [by rewrite E|]. done.
  - done.
  - intros input Hne. cbn [key_handle].
    assert (E : truthy (Some (trim input)) = true) by by destruct (trim input).
    rewrite E. unfold checkApiKeyOnLoad, saveApiKey. cbn [storedKey]. rewrite E.
    cbn [apiKey]. unfold getGenAIClient. by rewrite E.
  - intros input e. unfold key_handle. by destruct (truthy (Some (trim input))).
Qed.

(** ** Trimming *)

Lemma trim_start_split s :
  exists ws, s = ws ++ trim_start s /\ Forall (fun c => is_space c = true) ws
    /\ match trim_start s with c :: _ => is_space c = false | [] => True end.
Proof.
  induction s as [|c s (ws & E & Hws & Hh)]; [by exists []|].
  cbn [trim_start]. destruct (is_space c) eqn:Ec.
  - exists (c :: ws). split; [by rewrite E at 1|]. split; [by constructor|done].
  - by exists [].
Qed.

Lemma trim_split s :
  exists ws1 ws2,
    s = ws1 ++ trim s ++ ws2
    /\ Forall (fun c => is_space c = true) ws1
    /\ Forall (fun c => is_space c = true) ws2.
Proof.
  destruct (trim_start_split s) as (ws1 & E1 & H1 & _).
  destruct (trim_start_split (rev (trim_start s))) as (ws2 & E2 & H2 & _).
  exists ws1, (rev ws2). unfold trim, trim_end. split; [|split; [done|]].
  - rewrite <- rev_app_distr, <- E2, rev_involutive. done.
  - apply Forall_forall. intros c Hc. rewrite Forall_forall in H2. apply H2.
    by apply list_elem_of_In, in_rev, list_elem_of_In.
Qed.

Lemma trim_length s : length (trim s) <= length s.
Proof.
  destruct (trim_split s) as (ws1 & ws2 & E & _).
  rewrite E at 2. rewrite !length_app. lia.
Qed.

Lemma trim_Forall (P : N -> Prop) s : Forall P s -> Forall P (trim s).
Proof.
  destruct (trim_split s) as (ws1 & ws2 & E & _). intros H.
  rewrite E in H. apply Forall_app in H as [_ H]. by apply Forall_app in H as [H _].
Qed.

(** ** More on the hallucination filter *)

Lemma filtered_length valid s out : filtered valid s out -> length out <= length s.
Proof.
  induction 1 as [|text url rest out Hl Hv Hf IH|text url rest out Hl Hv Hf IH
                 |c rest out Hno Hf IH].
  - done.
  - rewrite !length_app. lia.
  - rewrite !length_app. unfold link_src. cbn [length]. rewrite !length_app. lia.
  - simpl. lia.
Qed.

Lemma filtered_no_bracket valid s out :
  filtered valid s out -> Forall (fun c => c <> Chars.lbrack) s -> out = s.
Proof.
  induction 1 as [|text url rest out Hl Hv Hf IH|text url rest out Hl Hv Hf IH
                 |c rest out Hno Hf IH]; intros Hs.
  - done.
  - unfold link_src in Hs. by inversion Hs.
  - unfold link_src in Hs. by inversion Hs.
  - inversion Hs; subst. f_equal. by apply IH.
Qed.

(** X19: the hallucination filter never makes the text longer; a text
    without an opening bracket is only trimmed; and a text of white space
    only is filtered to the empty text, which the core-text stage reports as
    an error. *)
Theorem hallucination_filter_bounds (valid : gset jsstring) (fullText : jsstring) :
  length (remove_hallucinated_links valid fullText) <= length fullText
  /\ (Forall (fun c => c <> Chars.lbrack) fullText ->
      remove_hallucinated_links valid fullText = trim fullText)
  /\ (trim fullText = [] ->
      remove_hallucinated_links valid fullText = []
      /\ forall groundingMetadata, step1_postprocess fullText groundingMetadata = None).
Proof.
  assert (Hf : filtered valid (trim fullText) (remove_hallucinated_links valid fullText)).
  { unfold remove_hallucinated_links, replace_all. apply replace_loop_filtered. lia. }
  split; [|split].
  - pose proof (filtered_length _ _ _ Hf). pose proof (trim_length fullText). lia.
  - intros Hs. eapply filtered_no_bracket; [done|]. by apply trim_Forall.
  - intros E. split.
    + rewrite E in Hf. by inversion Hf.
    + intros g. unfold step1_postprocess. by rewrite E.
Qed.

(** ** Invariants of a match *)

Lemma star_loop_invariant Inv greedy a k n :
  (forall st k res, Inv st -> rmatch a st k = Some res ->
     exists st', Inv st' /\ k st' = Some res) ->
  forall st res, Inv st -> star_loop greedy a k n st = Some res ->
    exists st', Inv st' /\ k st' = Some res.
Proof.
  intros Ha. induction n as [|n IH]; intros st res Hst E.
  - by exists st.
  - cbn [star_loop] in E.
    assert (Hmore : forall res',
      rmatch a st (fun st' => if length (right st') <? length (right st)
                              then star_loop greedy a k n st' else None) = Some res' ->
      exists st', Inv st' /\ k st' = Some res').
    { intros res' E'. destruct (Ha _ _ _ Hst E') as (st1 & H1 & E1).
      destruct (_ <? _); [|done]. by apply (IH st1). }
    destruct greedy.
    + destruct (rmatch a st _) as [r1|] eqn:E1.
      * cbn [or_else] in E. injection E as <-. by apply Hmore.
      * cbn [or_else] in E. by exists st.
    + destruct (k st) as [r0|] eqn:E0.
      * cbn [or_else] in E. injection E as <-. by exists st.
      * cbn [or_else] in E. by apply Hmore.
Qed.

Lemma rmatch_invariant Inv r :
  preserves Inv r ->
  forall st k res, Inv st -> rmatch r st k = Some res ->
    exists st', Inv st' /\ k st' = Some res.
Proof.
  induction r as [p| |a IHa b IHb|a IHa b IHb|g a IHa|i a IHa|i| |];
    intros Hp st k res Hst E.
  - destruct st as [l s cs]. rewrite rmatch_char in E.
    destruct s as [|c t]; [done|]. destruct (p c) eqn:Ec; [|done].
    eexists. split; [|exact E]. by apply (Hp l c t cs).
  - rewrite rmatch_empty in E. by exists st.
  - destruct Hp as [Hpa Hpb]. rewrite rmatch_seq in E.
    destruct (IHa Hpa _ _ _ Hst E) as (st1 & H1 & E1).
    by apply (IHb Hpb _ _ _ H1 E1).
  - destruct Hp as [Hpa Hpb].
    assert (E' : or_else (rmatch a st k) (rmatch b st k) = Some res) by exact E.
    destruct (rmatch a st k) as [r1|] eqn:E1.
    + cbn [or_else] in E'. injection E' as <-. by apply (IHa Hpa _ _ _ Hst E1).
    + cbn [or_else] in E'. by apply (IHb Hpb _ _ _ Hst E').
  - rewrite rmatch_star in E.
    eapply star_loop_invariant; [|exact Hst|exact E]. by apply IHa.
  - destruct Hp as [Hpa Hg]. rewrite rmatch_group in E.
    destruct (IHa Hpa _ _ _ Hst E) as (st1 & H1 & E1).
    eexists. split; [|exact E1]. by apply Hg.
  - assert (E' : match cap_lookup i (caps st) with
                 | Some s => if starts_with s (right st)
                             then k (advance (length s) st) else None
                 | None => k st
                 end = Some res) by exact E.
    destruct (cap_lookup i (caps st)) as [s|] eqn:Ec; [|by exists st].
    destruct (starts_with s (right st)) eqn:Es; [|done].
    eexists. split; [|exact E']. by apply Hp.
  - assert (E' : match left st with
                 | [] => k st
                 | c :: _ => if is_line_terminator c then k st else None
                 end = Some res) by exact E.
    exists st. split; [done|]. destruct (left st) as [|c ?]; [done|].
    by destruct (is_line_terminator c).
  - assert (E' : match right st with
                 | [] => k st
                 | c :: _ => if is_line_terminator c then k st else None
                 end = Some res) by exact E.
    exists st. split; [done|]. destruct (right st) as [|c ?]; [done|].
    by destruct (is_line_terminator c).
Qed.

(** ** Patterns that find no match *)

Lemma fails_char Inv p :
  (forall l c t cs, Inv (MState l (c :: t) cs) -> p c = false) ->
  fails Inv (RChar p).
Proof.
  intros H [l s cs] k Hst. rewrite rmatch_char. destruct s as [|c t]; [done|].
  by rewrite (H l c t cs Hst).
Qed.

Lemma fails_seq_l Inv a b : fails Inv a -> fails Inv (RSeq a b).
Proof. intros H st k Hst. rewrite rmatch_seq. by apply H. Qed.

Lemma fails_seq_r Inv a b :
  preserves Inv a -> fails Inv b -> fails Inv (RSeq a b).
Proof.
  intros Hp Hb st k Hst. rewrite rmatch_seq.
  destruct (rmatch a st _) as [res|] eqn:E; [|done].
  destruct (rmatch_invariant Inv a Hp _ _ _ Hst E) as (st1 & H1 & E1).
  by rewrite (Hb st1 k H1) in E1.
Qed.

Lemma fails_alt Inv a b : fails Inv a -> fails Inv b -> fails Inv (RAlt a b).
Proof.
  intros Ha Hb st k Hst.
  change (or_else (rmatch a st k) (rmatch b st k) = None).
  by rewrite (Ha st k Hst), (Hb st k Hst).
Qed.

Lemma fails_group Inv i a : fails Inv a -> fails Inv (RGroup i a).
Proof. intros H st k Hst. rewrite rmatch_group. by apply H. Qed.

Lemma fails_str Inv w :
  match w with
  | c :: _ => forall l x t cs, Inv (MState l (x :: t) cs) -> (x =? c)%N = false
  | [] => False
  end ->
  fails Inv (RStr w).
Proof.
  destruct w as [|c w]; [done|]. intros H.
  change (RStr (c :: w)) with (RSeq (RIs c) (RStr w)).
  apply fails_seq_l. apply fails_char. intros l x t cs Hst.
  rewrite N.eqb_sym. by apply (H l x t cs).
Qed.

Lemma rest_preserves (P : N -> Prop) r :
  preserves (fun st => Forall P (right st)) r.
Proof.
  induction r as [p| |a IHa b IHb|a IHa b IHb|g a IHa|i a IHa|i| |];
    cbn [preserves]; try done.
  - intros l c t cs H _. cbn in *. by inversion H.
  - intros st s H _ _. unfold advance. cbn. by apply Forall_drop.
Qed.

(** A pattern that must start with a code unit that is not inert. *)
Lemma inert_fails_is c : is_inert c = false -> fails inert_rest (RIs c).
Proof.
  intros Hc. apply fails_char. intros l x t cs Hst. unfold inert_rest in Hst.
  cbn in Hst. inversion Hst; subst. destruct (c =? x)%N eqn:E; [|done].
  apply N.eqb_eq in E. congruence.
Qed.

Lemma inert_fails_str w :
  match w with c :: _ => is_inert c = false | [] => False end ->
  fails inert_rest (RStr w).
Proof.
  intros H. apply fails_str. destruct w as [|c w]; [done|].
  intros l x t cs Hst. unfold inert_rest in Hst. cbn in Hst. inversion Hst; subst.
  destruct (x =? c)%N eqn:E; [|done]. apply N.eqb_eq in E. congruence.
Qed.

Lemma inert_fails_after a b :
  fails inert_rest b -> fails inert_rest (RSeq a b).
Proof. apply fails_seq_r. apply rest_preserves. Qed.

(** Without a match anywhere, a replacement changes nothing. *)
Lemma replace_loop_none r cb fuel l s :
  (forall l' s', s' `suffix_of` s -> rexec r l' s' = None) ->
  length s < fuel ->
  replace_loop fuel r cb l s = s.
Proof.
  revert fuel l. induction s as [|c t IH]; intros [|fuel] l H Hf; simpl in Hf; try lia.
  - apply replace_loop_end. by apply H.
  - rewrite replace_loop_miss by by apply H. f_equal. apply IH; [|lia].
    intros l' s' Hs. apply H. by apply suffix_cons_r.
Qed.

Lemma replace_all_none r cb s :
  (forall l' s', s' `suffix_of` s -> rexec r l' s' = None) ->
  replace_all r cb s = s.
Proof. intros H. apply replace_loop_none; [done|lia]. Qed.

Lemma replace_loop_try_none r cb fuel l s :
  (forall l' s', s' `suffix_of` s -> rexec r l' s' = None) ->
  length s < fuel ->
  replace_loop_try fuel r cb l s = Ok s.
Proof.
  revert fuel l. induction s as [|c t IH]; intros [|fuel] l H Hf; simpl in Hf; try lia.
  - cbn [replace_loop_try]. by rewrite H.
  - cbn [replace_loop_try]. rewrite H by done. rewrite IH; [done| |lia].
    intros l' s' Hs. apply H. by apply suffix_cons_r.
Qed.

Lemma inert_no_match r s :
  fails inert_rest r -> Forall (fun c => is_inert c = true) s ->
  forall l' s', s' `suffix_of` s -> rexec r l' s' = None.
Proof.
  intros Hr Hs l' s' [p ->]. apply Hr. unfold inert_rest. cbn.
  by apply Forall_app in Hs as [_ ?].
Qed.

Lemma replace_all_inert r cb s :
  fails inert_rest r -> Forall (fun c => is_inert c = true) s ->
  replace_all r cb s = s.
Proof. intros Hr Hs. apply replace_all_none. by apply inert_no_match. Qed.

(** The patterns of the renderer up to the paragraph pass. *)
Lemma chart_re_inert : fails inert_rest chart_re.
Proof. apply fails_seq_l. by apply inert_fails_str. Qed.

Lemma image_re_inert : fails inert_rest image_re.
Proof. apply fails_seq_l. by apply inert_fails_is. Qed.

Lemma bold_re_inert : fails inert_rest bold_re.
Proof. apply fails_seq_l. by apply inert_fails_str. Qed.

Lemma em_re_inert : fails inert_rest em_re.
Proof. apply fails_seq_l. by apply inert_fails_is. Qed.

Lemma paid_re_inert : fails inert_rest paid_re.
Proof. by apply inert_fails_str. Qed.

Lemma box_re_inert : fails inert_rest box_re.
Proof. apply fails_seq_l. by apply inert_fails_str. Qed.

Lemma summary_re_inert : fails inert_rest summary_re.
Proof. apply fails_seq_l. by apply inert_fails_str. Qed.

Lemma heading_re_inert hashes :
  match hashes with c :: _ => is_inert c = false | [] => False end ->
  fails inert_rest (heading_re hashes).
Proof.
  intros H. apply inert_fails_after. apply fails_seq_l. by apply inert_fails_str.
Qed.

Lemma code_re_inert : fails inert_rest code_re.
Proof. apply fails_seq_l. by apply inert_fails_is. Qed.

Lemma link_re_inert : fails inert_rest link_re.
Proof. apply fails_seq_l. by apply inert_fails_is. Qed.

Lemma list_re_inert : fails inert_rest list_re.
Proof.
  apply inert_fails_after. apply inert_fails_after. apply fails_seq_l.
  apply fails_group. repeat apply fails_alt.
  - by apply inert_fails_is.
  - by apply inert_fails_is.
  - do 2 apply fails_seq_l. apply fails_char.
    intros l c t cs Hst. unfold inert_rest in Hst. cbn in Hst. inversion Hst; subst.
    unfold is_inert in *. destruct (is_digit c); [|done].
    by rewrite !orb_true_r in *.
Qed.

Lemma adjacent_lists_re_inert : fails inert_rest adjacent_lists_re.
Proof. apply fails_seq_l. by apply inert_fails_str. Qed.

(** ** The paragraph pass on plain lines *)

Lemma split_on_line sep line :
  Forall (fun c => c <> sep) line -> split_on sep line = [line].
Proof.
  induction 1 as [|c t Hc Ht IH]; [done|]. cbn [split_on].
  rewrite (proj2 (N.eqb_neq c sep)) by done. by rewrite IH.
Qed.

Lemma split_on_app sep line rest :
  Forall (fun c => c <> sep) line ->
  split_on sep (line ++ sep :: rest) = line :: split_on sep rest.
Proof.
  induction 1 as [|c t Hc Ht IH]; cbn [split_on app].
  - by rewrite N.eqb_refl.
  - rewrite (proj2 (N.eqb_neq c sep)) by done. by rewrite IH.
Qed.

Lemma split_on_join sep lines :
  lines <> [] -> Forall (Forall (fun c => c <> sep)) lines ->
  split_on sep (join [sep] lines) = lines.
Proof.
  intros Hne H. induction H as [|line lines Hl Hls IH]; [done|].
  destruct lines as [|line' lines].
  - cbn [join]. by apply split_on_line.
  - change (join [sep] (line :: line' :: lines))
      with (line ++ sep :: join [sep] (line' :: lines)).
    rewrite split_on_app by done. by rewrite IH.
Qed.

Lemma trim_start_blank s :
  forallb is_space s = true -> trim_start s = [].
Proof.
  induction s as [|c s IH]; [done|]. cbn [forallb trim_start].
  intros [Hc Hs]%andb_prop. rewrite Hc. by apply IH.
Qed.

Lemma trim_blank s : trim s = [] <-> forallb is_space s = true.
Proof.
  split.
  - intros E. destruct (trim_split s) as (ws1 & ws2 & Hs & H1 & H2).
    rewrite E in Hs. cbn [app] in Hs. rewrite Hs. rewrite forallb_app.
    rewrite Forall_forall in H1, H2.
    apply andb_true_intro. split; apply forallb_forall;
      intros c Hc%list_elem_of_In; auto.
  - intros H. unfold trim, trim_end. rewrite (trim_start_blank s H). reflexivity.
Qed.

Lemma plain_inert c : is_plain c = true -> is_inert c = true /\ c <> Chars.lf.
Proof.
  unfold is_plain. intros [H1 H2]%andb_prop. split; [done|].
  apply negb_true_iff in H2. by apply N.eqb_neq.
Qed.

Lemma inert_not_lt c : is_inert c = true -> c <> Chars.lt.
Proof. intros H ->. done. Qed.

Lemma paragraph_line_plain line :
  Forall (fun c => is_inert c = true) line ->
  paragraph_line line = paragraph_of line.
Proof.
  intros Hl. unfold paragraph_line, paragraph_of.
  destruct (forallb is_space line) eqn:E.
  - apply trim_blank in E. by rewrite E.
  - destruct (trim line) as [|c t] eqn:Et.
    + apply trim_blank in Et. congruence.
    + assert (Hc : is_inert c = true).
      { pose proof (trim_Forall _ _ Hl) as H. rewrite Et in H. by inversion H. }
      apply inert_not_lt in Hc. cbn [starts_with lit map list_ascii_of_string].
      change (N_of_ascii "<") with Chars.lt.
      rewrite (proj2 (N.eqb_neq Chars.lt c)) by done. done.
Qed.

(** ** The last three passes on paragraphs of plain lines *)

Lemma tag_fails_str w :
  match w with c :: _ => c = Chars.lt | [] => False end ->
  fails not_at_tag (RStr w).
Proof.
  intros H. apply fails_str. destruct w as [|c w]; [done|]. subst c.
  intros l x t cs Hst. unfold not_at_tag in Hst. cbn in Hst. by apply N.eqb_neq.
Qed.

Lemma empty_paragraph_re_tag : fails not_at_tag empty_paragraph_re.
Proof. apply fails_seq_l. by apply tag_fails_str. Qed.

Lemma paragraph_open_re_tag : fails not_at_tag paragraph_open_re.
Proof. apply fails_seq_l. by apply tag_fails_str. Qed.

Lemma paragraph_close_re_tag : fails not_at_tag paragraph_close_re.
Proof.
  apply fails_seq_l. apply fails_group. apply fails_seq_l. by apply tag_fails_str.
Qed.

(** At the end of a paragraph. *)
Lemma empty_paragraph_re_close l rest :
  rexec empty_paragraph_re l (lit "</p>" ++ rest) = None.
Proof. reflexivity. Qed.

Lemma paragraph_open_re_close l rest :
  rexec paragraph_open_re l (lit "</p>" ++ rest) = None.
Proof. reflexivity. Qed.

Lemma paragraph_close_re_close l rest :
  rexec paragraph_close_re l (lit "</p>" ++ rest) = None.
Proof. reflexivity. Qed.

(** At the start of a paragraph. *)
Lemma paragraph_close_re_open l rest :
  rexec paragraph_close_re l (lit "<p>" ++ rest) = None.
Proof. reflexivity. Qed.

Lemma paragraph_open_re_open l c rest :
  c <> Chars.lt -> rexec paragraph_open_re l (lit "<p>" ++ c :: rest) = None.
Proof.
  intros Hc. unfold rexec, paragraph_open_re. cbn [RCat foldr].
  rewrite rmatch_seq, rmatch_str.
  change (strip_prefix (lit "<p>") (lit "<p>" ++ c :: rest)) with (Some (c :: rest)).
  cbn iota. rewrite rmatch_seq, rmatch_group, rmatch_seq, rmatch_is.
  by rewrite (proj2 (N.eqb_neq c Chars.lt)).
Qed.

Lemma span_nonblank line rest :
  forallb is_space line = false ->
  exists c t, snd (span is_space (line ++ rest)) = c :: t
              /\ is_space c = false /\ c ∈ line.
Proof.
  induction line as [|x line IH]; [done|]. cbn [forallb app span].
  destruct (is_space x) eqn:Ex.
  - cbn [andb snd]. intros H. destruct (IH H) as (c & t & E & Hc & Hin).
    exists c, t. split; [done|]. split; [done|]. by apply elem_of_cons; right.
  - intros _. exists x, (line ++ rest). split; [done|]. split; [done|].
    by apply elem_of_cons; left.
Qed.

Lemma empty_paragraph_re_open l line rest :
  Forall (fun c => is_inert c = true) line ->
  forallb is_space line = false ->
  rexec empty_paragraph_re l (lit "<p>" ++ line ++ rest) = None.
Proof.
  intros Hl Hb. unfold rexec, empty_paragraph_re. cbn [RCat foldr].
  rewrite rmatch_seq, rmatch_str.
  change (strip_prefix (lit "<p>") (lit "<p>" ++ line ++ rest))
    with (Some (line ++ rest)).
  cbn iota. rewrite rmatch_seq, rmatch_star. cbn [right].
  rewrite star_greedy_class; [|done|].
  - destruct (span_nonblank line rest Hb) as (c & t & E & Hc & Hin).
    rewrite E. rewrite rmatch_seq, rmatch_str.
    rewrite Forall_forall in Hl. apply Hl, inert_not_lt in Hin.
    cbn [strip_prefix lit map list_ascii_of_string].
    change (N_of_ascii "<") with Chars.lt.
    by rewrite (proj2 (N.eqb_neq c Chars.lt)).
  - intros l' c t Hc. rewrite rmatch_seq, rmatch_str.
    cbn [strip_prefix lit map list_ascii_of_string].
    change (N_of_ascii "<") with Chars.lt.
    destruct (c =? Chars.lt)%N eqn:E; [|done].
    apply N.eqb_eq in E. subst c. done.
Qed.

Lemma tag_no_match r l c t :
  fails not_at_tag r -> c <> Chars.lt -> rexec r l (c :: t) = None.
Proof. intros Hr Hc. by apply Hr. Qed.

Lemma suffix_cons_cases {A} (s' : list A) y l :
  s' `suffix_of` y :: l -> s' = y :: l \/ s' `suffix_of` l.
Proof.
  intros [[|x p] E]; [by left|]. right. exists p. by injection E.
Qed.

Lemma suffix_of_line_rest (line rest s' : jsstring) :
  s' `suffix_of` line ++ rest ->
  s' `suffix_of` rest \/ exists c t, s' = c :: t /\ c ∈ line.
Proof.
  induction line as [|x line IH]; cbn [app]; intros H; [by left|].
  apply suffix_cons_cases in H as [->|H].
  - right. exists x, (line ++ rest). split; [done|]. by apply elem_of_cons; left.
  - destruct (IH H) as [?|(c & t & -> & Hin)]; [by left|].
    right. exists c, t. split; [done|]. by apply elem_of_cons; right.
Qed.

(** No match in a paragraph in front of a text without a match. *)
Lemma paragraph_no_match r line rest :
  fails not_at_tag r ->
  (forall l, rexec r l (lit "<p>" ++ line ++ lit "</p>" ++ rest) = None) ->
  (forall l, rexec r l (lit "</p>" ++ rest) = None) ->
  Forall (fun c => is_inert c = true) line ->
  (forall l s', s' `suffix_of` rest -> rexec r l s' = None) ->
  forall l s', s' `suffix_of` lit "<p>" ++ line ++ lit "</p>" ++ rest ->
    rexec r l s' = None.
Proof.
  intros Hr Hopen Hclose Hl Hrest l s' Hs.
  change (lit "<p>" ++ line ++ lit "</p>" ++ rest)
    with (Chars.lt :: 112%N :: Chars.gt :: line ++ lit "</p>" ++ rest) in Hs.
  apply suffix_cons_cases in Hs as [->|Hs]; [apply Hopen|].
  apply suffix_cons_cases in Hs as [->|Hs]; [by apply tag_no_match|].
  apply suffix_cons_cases in Hs as [->|Hs]; [by apply tag_no_match|].
  apply suffix_of_line_rest in Hs as [Hs|(c & t & -> & Hin)].
  - change (lit "</p>" ++ rest)
      with (Chars.lt :: Chars.slash :: 112%N :: Chars.gt :: rest) in Hs.
    apply suffix_cons_cases in Hs as [->|Hs]; [apply Hclose|].
    apply suffix_cons_cases in Hs as [->|Hs]; [by apply tag_no_match|].
    apply suffix_cons_cases in Hs as [->|Hs]; [by apply tag_no_match|].
    apply suffix_cons_cases in Hs as [->|Hs]; [by apply tag_no_match|].
    by apply Hrest.
  - apply tag_no_match; [done|]. rewrite Forall_forall in Hl.
    by apply inert_not_lt, Hl.
Qed.

Lemma paragraphs_no_match r lines :
  fails not_at_tag r ->
  (forall l line rest,
     Forall (fun c => is_inert c = true) line -> forallb is_space line = false ->
     rexec r l (lit "<p>" ++ line ++ lit "</p>" ++ rest) = None) ->
  (forall l rest, rexec r l (lit "</p>" ++ rest) = None) ->
  Forall (Forall (fun c => is_inert c = true)) lines ->
  forall l s', s' `suffix_of` concat (map paragraph_of lines) -> rexec r l s' = None.
Proof.
  intros Hr Hopen Hclose Hlines.
  induction Hlines as [|line lines Hline Hlines IH]; intros l s' Hs.
  - cbn in Hs. apply suffix_nil_inv in Hs as ->. by apply Hr.
  - cbn [map concat] in Hs. unfold paragraph_of in Hs at 1.
    destruct (forallb is_space line) eqn:Eb; [by apply IH|].
    rewrite <- !app_assoc in Hs.
    eapply paragraph_no_match; [done| | |exact Hline|exact IH|exact Hs].
    + intros l0. by apply Hopen.
    + intros l0. apply Hclose.
Qed.

Lemma inert_lines_join lines :
  Forall (Forall (fun c => is_plain c = true)) lines ->
  Forall (fun c => is_inert c = true) (join [Chars.lf] lines)
  /\ Forall (Forall (fun c => is_inert c = true)) lines
  /\ Forall (Forall (fun c => c <> Chars.lf)) lines.
Proof.
  induction 1 as [|line lines Hl Hls (IH1 & IH2 & IH3)]; [by repeat split|].
  assert (H1 : Forall (fun c => is_inert c = true) line)
    by (eapply Forall_impl; [exact Hl|]; intros c Hc; by apply plain_inert in Hc as [? _]).
  assert (H2 : Forall (fun c => c <> Chars.lf) line)
    by (eapply Forall_impl; [exact Hl|]; intros c Hc; by apply plain_inert in Hc as [_ ?]).
  split; [|split; by constructor].
  destruct lines as [|line' lines]; [done|].
  change (join [Chars.lf] (line :: line' :: lines))
    with (line ++ Chars.lf :: join [Chars.lf] (line' :: lines)).
  apply Forall_app. split; [done|]. by constructor.
Qed.

(** X21: lines of plain text (no markup character, no digit) are
    rendered as one paragraph per line that is not blank, with the text of
    the line unchanged, and nothing else. *)
Theorem plain_text_paragraphs (lines : list jsstring) :
  lines <> [] ->
  Forall (Forall (fun c => is_plain c = true)) lines ->
  renderMarkdownToHtml (join [Chars.lf] lines)
  = Ok (concat (map paragraph_of lines)).
Proof.
  intros Hne Hlines.
  destruct (inert_lines_join lines Hlines) as (Hj & Hi & Hlf).
  unfold renderMarkdownToHtml, escape_markup, chart_pass, image_pass,
    replace_text, replace_all_try.
  rewrite (replace_all_inert (RIs Chars.amp)) by (by apply inert_fails_is || done).
  rewrite (replace_all_inert (RIs Chars.lt)) by (by apply inert_fails_is || done).
  rewrite (replace_all_inert (RIs Chars.gt)) by (by apply inert_fails_is || done).
  rewrite (replace_all_inert chart_re) by (apply chart_re_inert || done).
  rewrite replace_loop_try_none;
    [|by apply inert_no_match; [apply image_re_inert|]|lia].
  cbn [outcome_map]. f_equal. unfold inline_and_block_passes, replace_text.
  rewrite (replace_all_inert bold_re) by (apply bold_re_inert || done).
  rewrite (replace_all_inert em_re) by (apply em_re_inert || done).
  rewrite (replace_all_inert paid_re) by (apply paid_re_inert || done).
  rewrite (replace_all_inert box_re) by (apply box_re_inert || done).
  rewrite (replace_all_inert summary_re) by (apply summary_re_inert || done).
  rewrite (replace_all_inert (heading_re (lit "###")))
    by (by apply heading_re_inert || done).
  rewrite (replace_all_inert (heading_re (lit "##")))
    by (by apply heading_re_inert || done).
  rewrite (replace_all_inert (heading_re (lit "#")))
    by (by apply heading_re_inert || done).
  rewrite (replace_all_inert code_re) by (apply code_re_inert || done).
  rewrite (replace_all_inert link_re) by (apply link_re_inert || done).
  rewrite (replace_all_inert list_re) by (apply list_re_inert || done).
  rewrite (replace_all_inert adjacent_lists_re) by (apply adjacent_lists_re_inert || done).
  rewrite split_on_join by done.
  assert (Hmap : map paragraph_line lines = map paragraph_of lines).
  { clear -Hi. induction Hi as [|line lines Hl Hls IH]; [done|].
    cbn [map]. by rewrite paragraph_line_plain, IH. }
  rewrite Hmap.
  rewrite (replace_all_none empty_paragraph_re).
  2: { apply paragraphs_no_match; [apply empty_paragraph_re_tag| |
         apply empty_paragraph_re_close|done].
       intros l line rest Hl Hb. by apply empty_paragraph_re_open. }
  rewrite (replace_all_none paragraph_open_re).
  2: { apply paragraphs_no_match; [apply paragraph_open_re_tag| |
         apply paragraph_open_re_close|done].
       intros l line rest Hl Hb. destruct line as [|c t]; [done|].
       apply paragraph_open_re_open. inversion Hl; subst. by apply inert_not_lt. }
  rewrite (replace_all_none paragraph_close_re); [done|].
  apply paragraphs_no_match; [apply paragraph_close_re_tag| |
    apply paragraph_close_re_close|done].
  intros l line rest Hl Hb. apply paragraph_close_re_open.
Qed.

Lemma plain_text_paragraphs_witness :
  renderMarkdownToHtml
    (join [Chars.lf] [lit "Hello, world."; lit "  "; lit "A second line"])
  = Ok (lit "<p>Hello, world.</p><p>A second line</p>").
Proof.
  etrans; [apply plain_text_paragraphs|vm_compute; reflexivity].
  - discriminate.
  - repeat (constructor; [repeat constructor|]). constructor.
Defined.

(** ** Well-formed strings under cutting and pasting *)

Lemma scalar_unit_cases c :
  is_scalar_unit c = true ->
  is_high_surrogate c = false /\ is_low_surrogate c = false /\ (c < 65536)%N.
Proof. unfold is_scalar_unit. intros H. bools. by repeat split. Qed.

Lemma well_formed_scalar c t :
  is_scalar_unit c = true -> well_formed (c :: t) = well_formed t.
Proof.
  intros (Hh & Hl & Hc)%scalar_unit_cases. cbn [well_formed].
  rewrite Hh, Hl. cmp_decide. reflexivity.
Qed.

Lemma well_formed_pair c d t :
  is_high_surrogate c = true -> is_low_surrogate d = true ->
  well_formed (c :: d :: t) = well_formed t.
Proof. intros Hc Hd. cbn [well_formed]. by rewrite Hc, Hd. Qed.

Lemma well_formed_app a b :
  well_formed a = true -> well_formed b = true -> well_formed (a ++ b) = true.
Proof.
  induction a as [|c|c d t IH1 IH2] using list_ind2; intros Ha Hb.
  - done.
  - apply well_formed_cons in Ha as [(Hh & Hl & Hc & _)|(_ & d & t' & [=] & _)].
    cbn [app well_formed]. rewrite Hh, Hl, Hb. cmp_decide. reflexivity.
  - apply well_formed_cons in Ha
      as [(Hh & Hl & Hc & Ha)|(Hh & d' & t' & [= <- <-] & Hd & Ha)].
    + change ((c :: d :: t) ++ b) with (c :: (d :: t) ++ b).
      cbn [well_formed]. rewrite Hh, Hl, (IH2 Ha Hb). cmp_decide. reflexivity.
    + change ((c :: d :: t) ++ b) with (c :: d :: t ++ b).
      rewrite well_formed_pair by done. by apply IH1.
Qed.

(** A well-formed string may be cut in front of a code unit that is no low
    surrogate. *)
Lemma well_formed_cut a c b :
  well_formed (a ++ c :: b) = true -> is_low_surrogate c = false ->
  well_formed a = true /\ well_formed (c :: b) = true.
Proof.
  intros H Hc. induction a as [|x|x y t IH1 IH2] using list_ind2.
  - done.
  - cbn [app] in H.
    apply well_formed_cons in H as [(Hh & Hl & Hx & H)|(Hh & d & t' & [= <- <-] & Hd & _)];
      [|congruence].
    split; [|done]. cbn [well_formed]. rewrite Hh, Hl. cmp_decide. reflexivity.
  - change ((x :: y :: t) ++ c :: b) with (x :: y :: t ++ c :: b) in H.
    apply well_formed_cons in H
      as [(Hh & Hl & Hx & H)|(Hh & d & t' & [= <- <-] & Hd & H)].
    + destruct (IH2 H) as [Ha Hb]. split; [|done].
      cbn [well_formed]. rewrite Hh, Hl. cbn [well_formed] in Ha. rewrite Ha.
      cmp_decide. reflexivity.
    + destruct (IH1 H) as [Ha Hb]. split; [|done]. by rewrite well_formed_pair.
Qed.

Lemma well_formed_flat_map (f : N -> jsstring) s :
  (forall c, is_scalar_unit c = false -> f c = [c]) ->
  (forall c, is_scalar_unit c = true -> well_formed (f c) = true) ->
  well_formed s = true -> well_formed (flat_map f s) = true.
Proof.
  intros Hs Hf. induction s as [|c|c d t IH1 IH2] using list_ind2; intros H.
  - done.
  - apply well_formed_cons in H as [(Hh & Hl & Hc & _)|(_ & d & t' & [=] & _)].
    cbn [flat_map]. rewrite app_nil_r. apply Hf. unfold is_scalar_unit.
    rewrite Hh, Hl. cmp_decide. reflexivity.
  - apply well_formed_cons in H
      as [(Hh & Hl & Hc & H)|(Hh & d' & t' & [= <- <-] & Hd & H)].
    + change (flat_map f (c :: d :: t)) with (f c ++ flat_map f (d :: t)).
      apply well_formed_app; [|by apply IH2]. apply Hf. unfold is_scalar_unit.
      rewrite Hh, Hl. cmp_decide. reflexivity.
    + change (flat_map f (c :: d :: t)) with (f c ++ f d ++ flat_map f t).
      rewrite (Hs c), (Hs d).
      * cbn [app]. rewrite well_formed_pair by done. by apply IH1.
      * unfold is_scalar_unit. by rewrite Hd, andb_false_r.
      * unfold is_scalar_unit. by rewrite Hh.
Qed.

Lemma replace_text_well_formed c w s :
  is_scalar_unit c = true -> well_formed w = true ->
  well_formed s = true -> well_formed (replace_text (RIs c) w s) = true.
Proof.
  intros Hc Hw Hs. rewrite replace_text_unit. apply well_formed_flat_map; [| |done].
  - intros x Hx. destruct (x =? c)%N eqn:E; [|done].
    apply N.eqb_eq in E. congruence.
  - intros x Hx. destruct (x =? c)%N; [done|].
    by rewrite well_formed_scalar.
Qed.

Lemma escape_markup_well_formed s :
  well_formed s = true -> well_formed (escape_markup s) = true.
Proof.
  intros Hs. unfold escape_markup.
  repeat (apply replace_text_well_formed; [done|done|]). done.
Qed.

Lemma well_formed_rest_tail c t :
  well_formed_rest (c :: t) -> well_formed_rest t.
Proof.
  intros [H|(d & t' & [= <- <-] & Hd & H)]; [|by left].
  apply well_formed_cons in H as [(_ & _ & _ & H)|(_ & d & t' & -> & Hd & H)];
    [by left|]. right. by exists d, t'.
Qed.

Lemma well_formed_rest_head c t :
  well_formed_rest (c :: t) -> is_low_surrogate c = false ->
  well_formed (c :: t) = true.
Proof. intros [H|(d & t' & [= <- <-] & Hd & H)]; [done|congruence]. Qed.

(** ** Where the matches of the placeholder patterns start and end *)

Lemma passed_preserves l s r : preserves (passed l s) r.
Proof.
  induction r as [p| |a IHa b IHb|a IHa b IHb|g a IHa|i a IHa|i| |];
    cbn [preserves]; try done.
  - intros l0 c t cs (w & Hl & Hs) _. cbn in *. exists (w ++ [c]). split.
    + rewrite rev_app_distr. cbn. by rewrite Hl.
    + by rewrite Hs, <- app_assoc.
  - intros st v (w & Hl & Hs) _ _. unfold advance.
    exists (w ++ take (length v) (right st)). cbn [left right]. split.
    + by rewrite rev_app_distr, <- app_assoc, Hl.
    + by rewrite Hs, <- app_assoc, take_drop.
Qed.

Lemma in_first_group_any l0 s0 g : preserves (in_first_group l0 s0) (RStar g RAny).
Proof.
  cbn [preserves RAny]. intros l c t cs [(w & Hl & Hs) Hc] _. cbn in *.
  split; [|done]. exists (w ++ [c]). split.
  - rewrite rev_app_distr. cbn. by rewrite Hl.
  - by rewrite Hs, <- app_assoc.
Qed.

(** A match of a pattern made of an opening text, a group of anything up
    to a closing code unit, and that code unit. *)
Lemma rexec_payload pre c l s st' :
  rexec (RCat [RStr pre; RGroup 1 (RStar false RAny); RIs c]) l s = Some st' ->
  exists g rest,
    s = pre ++ g ++ c :: rest
    /\ left st' = rev (pre ++ g ++ [c]) ++ l
    /\ right st' = rest
    /\ caps st' = [(1, g)].
Proof.
  unfold rexec. cbn [RCat foldr]. rewrite rmatch_seq, rmatch_str.
  destruct (strip_prefix _ s) as [s1|] eqn:E1; [|done].
  apply strip_prefix_Some in E1. subst s.
  rewrite rmatch_seq, rmatch_group. intros E.
  assert (H0 : in_first_group (rev pre ++ l) s1 (MState (rev pre ++ l) s1 []))
    by (split; [by exists []|done]).
  destruct (rmatch_invariant _ _ (in_first_group_any (rev pre ++ l) s1 false)
              _ _ _ H0 E)
    as ([l2 s2 cs2] & [(g & Hl & Hs) Hc] & E2).
  cbn [left right caps] in *. subst l2 s1 cs2.
  rewrite rmatch_seq, rmatch_is in E2. destruct s2 as [|x rest]; [done|].
  destruct (x =? c)%N eqn:Ex; [|done]. apply N.eqb_eq in Ex. subst x.
  rewrite rmatch_empty in E2. injection E2 as <-. exists g, rest.
  cbn [left right caps]. split; [done|]. split; [|split; [done|]].
  - rewrite !rev_app_distr. cbn [rev app]. by rewrite <- !app_assoc.
  - do 2 f_equal. rewrite length_app, length_rev.
    replace (length g + length (rev pre ++ l) - length (rev pre ++ l))
      with (length g) by lia.
    rewrite <- (length_rev g), take_app_length. apply rev_involutive.
Qed.

Lemma rexec_chart l s st' :
  rexec chart_re l s = Some st' ->
  exists g rest,
    s = lit "[INTERACTIVE_CHART:" ++ g ++ Chars.rbrack :: rest
    /\ left st' = rev (lit "[INTERACTIVE_CHART:" ++ g ++ [Chars.rbrack]) ++ l
    /\ right st' = rest
    /\ caps st' = [(1, g)].
Proof. apply (rexec_payload (lit "[INTERACTIVE_CHART:") Chars.rbrack). Qed.

(** A match of the image pattern starts with the opening bracket and ends
    with a closing one. *)
Lemma rexec_image l s st' :
  rexec image_re l s = Some st' ->
  exists w rest,
    s = Chars.lbrack :: w ++ Chars.rbrack :: rest
    /\ left st' = rev (Chars.lbrack :: w ++ [Chars.rbrack]) ++ l
    /\ right st' = rest.
Proof.
  unfold rexec, image_re. cbn [RCat foldr]. rewrite rmatch_seq, rmatch_is.
  destruct s as [|x s1]; [done|].
  destruct (x =? Chars.lbrack)%N eqn:Ex; [|done]. apply N.eqb_eq in Ex. subst x.
  rewrite rmatch_seq. intros E.
  assert (H0 : passed (Chars.lbrack :: l) s1 (MState (Chars.lbrack :: l) s1 []))
    by by exists [].
  destruct (rmatch_invariant _ _ (passed_preserves _ _ _) _ _ _ H0 E) as (st1 & H1 & E1).
  rewrite rmatch_seq in E1.
  destruct (rmatch_invariant _ _ (passed_preserves _ _ _) _ _ _ H1 E1) as (st2 & H2 & E2).
  rewrite rmatch_seq in E2.
  destruct (rmatch_invariant _ _ (passed_preserves _ _ _) _ _ _ H2 E2)
    as ([l3 s3 cs3] & (w & Hl & Hs) & E3).
  cbn [left right] in *. subst l3 s1.
  rewrite rmatch_seq, rmatch_is in E3. destruct s3 as [|x rest]; [done|].
  destruct (x =? Chars.rbrack)%N eqn:Ex; [|done]. apply N.eqb_eq in Ex. subst x.
  rewrite rmatch_empty in E3. injection E3 as <-. exists w, rest.
  cbn [left right]. split; [done|]. split; [|done].
  cbn [rev]. rewrite !rev_app_distr. cbn [rev app]. by rewrite <- !app_assoc.
Qed.

(** ** The renderer does not throw on well-formed text *)

Lemma replace_loop_try_hit fuel r cb l w rest cs :
  w <> [] ->
  rexec r l (w ++ rest) = Some (MState (rev w ++ l) rest cs) ->
  replace_loop_try (S fuel) r cb l (w ++ rest)
  = outcome_bind (cb (RMatched w cs)) (fun out =>
      outcome_map (app out) (replace_loop_try fuel r cb (rev w ++ l) rest)).
Proof.
  intros Hw E. cbn [replace_loop_try]. rewrite E. cbn [left right caps].
  rewrite length_app, length_rev.
  replace (length w + length l - length l) with (length w) by lia.
  rewrite take_app_length. destruct w as [|c w]; [done|]. reflexivity.
Qed.

Lemma chart_cb_well_formed w g :
  well_formed g = true -> well_formed (chart_cb (RMatched w [(1, g)])) = true.
Proof.
  intros Hg. unfold chart_cb.
  change (group (RMatched w [(1, g)]) 1) with g.
  destruct (json_valid g); [|reflexivity].
  apply well_formed_app; [reflexivity|]. apply well_formed_app; [|reflexivity].
  unfold quote_attribute. by apply replace_text_well_formed.
Qed.

Lemma chart_pass_well_formed_rest fuel l s :
  (well_formed s = true ->
   well_formed (replace_loop fuel chart_re chart_cb l s) = true)
  /\ (forall d t, s = d :: t -> is_low_surrogate d = true -> well_formed t = true ->
        exists out, replace_loop fuel chart_re chart_cb l s = d :: out
                    /\ well_formed out = true).
Proof.
  revert l s. induction fuel as [|fuel IH]; intros l s.
  { split; [done|]. intros d t -> _ Ht. by exists t. }
  destruct (rexec chart_re l s) as [st'|] eqn:E.
  - destruct (rexec_chart _ _ _ E) as (g & rest & Hs & Hl & Hr & Hc).
    destruct st' as [l' s' cs']. cbn [left right caps] in *. subst l' s' cs'.
    assert (Hs' : s = (lit "[INTERACTIVE_CHART:" ++ g ++ [Chars.rbrack]) ++ rest)
      by (rewrite Hs, <- !app_assoc; done).
    split.
    + intros Hwf. rewrite Hs' in E |- *.
      assert (Hne : lit "[INTERACTIVE_CHART:" ++ g ++ [Chars.rbrack] <> [])
        by (change (lit "[INTERACTIVE_CHART:")
              with (Chars.lbrack :: lit "INTERACTIVE_CHART:"); done).
      rewrite (replace_loop_hit fuel _ _ _ _ _ _ Hne E).
      change (lit "[INTERACTIVE_CHART:" ++ g ++ Chars.rbrack :: rest)
        with (lit "[INTERACTIVE_CHART" ++ Chars.colon :: g ++ Chars.rbrack :: rest)
        in Hs.
      rewrite Hs in Hwf. apply well_formed_cut in Hwf as [_ Hwf]; [|done].
      rewrite well_formed_scalar in Hwf by done.
      apply well_formed_cut in Hwf as [Hg Hwf]; [|done].
      rewrite well_formed_scalar in Hwf by done.
      apply well_formed_app; [by apply chart_cb_well_formed|]. by apply IH.
    + intros d t Hd Hlow _. rewrite Hs in Hd. injection Hd as <- _. done.
  - destruct s as [|c t]; [split; [done|by intros]|].
    rewrite replace_loop_miss by done.
    destruct (IH (c :: l) t) as [IH1 IH2]. split.
    + intros Hwf. apply well_formed_cons in Hwf
        as [(Hh & Hlo & Hc & Hwf)|(Hh & d & t' & -> & Hd & Hwf)].
      * rewrite well_formed_scalar; [by apply IH1|].
        unfold is_scalar_unit. rewrite Hh, Hlo. cmp_decide. reflexivity.
      * destruct (IH2 d t' eq_refl Hd Hwf) as (out & -> & Hout).
        by rewrite well_formed_pair.
    + intros d t' [= <- <-] Hd Hwf. eexists. split; [done|]. by apply IH1.
Qed.

Lemma chart_pass_well_formed s :
  well_formed s = true -> well_formed (chart_pass s) = true.
Proof. apply chart_pass_well_formed_rest. Qed.

Lemma image_pass_well_formed_rest fuel l s :
  well_formed_rest s ->
  exists out, replace_loop_try fuel image_re image_cb l s = Ok out.
Proof.
  revert l s. induction fuel as [|fuel IH]; intros l s Hs; [by eexists|].
  destruct (rexec image_re l s) as [st'|] eqn:E.
  - destruct (rexec_image _ _ _ E) as (w & rest & Hw & Hl & Hr).
    destruct st' as [l' s' cs']. cbn [left right] in *. subst l' s'.
    assert (Hs' : s = (Chars.lbrack :: w ++ [Chars.rbrack]) ++ rest)
      by (rewrite Hw; cbn [app]; by rewrite <- app_assoc).
    subst s. apply well_formed_rest_head in Hs; [|done].
    rewrite app_comm_cons in Hs. apply well_formed_cut in Hs as [Hw1 Hw2]; [|done].
    rewrite well_formed_scalar in Hw2 by done.
    rewrite Hs' in E |- *.
    assert (Hne : Chars.lbrack :: w ++ [Chars.rbrack] <> []) by done.
    rewrite (replace_loop_try_hit fuel _ _ _ _ _ _ Hne E).
    unfold image_cb at 1. cbn [whole].
    rewrite encodeUnicode_octets.
    + cbn [outcome_map outcome_bind].
      destruct (IH (rev (Chars.lbrack :: w ++ [Chars.rbrack]) ++ l) rest) as [out ->];
        [by left|]. by eexists.
    + rewrite app_comm_cons. by apply well_formed_app.
  - destruct s as [|c t]; [by eexists|]. cbn [replace_loop_try]. rewrite E.
    destruct (IH (c :: l) t) as [out ->]; [by eapply well_formed_rest_tail|].
    by eexists.
Qed.

(** X20: the renderer returns markup for every text without a lone
    surrogate: charts with a broken payload, image placeholders and any other
    input of that kind do not make it throw. *)
Theorem renderer_total_well_formed (markdown : jsstring) :
  well_formed markdown = true ->
  exists html, renderMarkdownToHtml markdown = Ok html.
Proof.
  intros Hwf. unfold renderMarkdownToHtml, image_pass, replace_all_try.
  destruct (image_pass_well_formed_rest
              (S (length (chart_pass (escape_markup markdown)))) []
              (chart_pass (escape_markup markdown))) as [out ->]; [|by eexists].
  left. by apply chart_pass_well_formed, escape_markup_well_formed.
Qed.

Lemma renderer_total_well_formed_witness :
  exists html,
    renderMarkdownToHtml
      (markup "[INTERACTIVE_CHART:{'a':['b']}] [IMAGE_GENERATE:{'prompt':'"
       ++ [55357; 56832]%N ++ markup "'}] " ++ [55357; 56832]%N)
    = Ok html.
Proof.
  apply renderer_total_well_formed. vm_compute. reflexivity.
Defined.

(** ** Writing an article back and showing it *)

(** The list with its first record of the id of [m] replaced by [m]. *)
Lemma updateArticleInHistory_articles updated st :
  articles (updateArticleInHistory updated st)
  = match find_index (fun a => (id a =? id (meta updated))%Z) (articles st) with
    | Some index => <[index := meta updated]> (articles st)
    | None => articles st
    end.
Proof.
  unfold updateArticleInHistory. cbn [articles saveImagesToDb set_db].
  by destruct (find_index _ _).
Qed.

Lemma updateArticleInHistory_db updated st :
  db (updateArticleInHistory updated st)
  = <[id (meta updated) := assets updated]> (db st).
Proof.
  unfold updateArticleInHistory. cbn [articles saveImagesToDb set_db].
  by destruct (find_index _ _).
Qed.

Lemma updateArticleInHistory_twice u1 u2 st :
  id (meta u2) = id (meta u1) ->
  articles (updateArticleInHistory u2 (updateArticleInHistory u1 st))
  = articles (updateArticleInHistory u2 st).
Proof.
  intros Hid. rewrite !updateArticleInHistory_articles, Hid.
  destruct (find_index _ (articles st)) as [i|] eqn:E; [|by rewrite E].
  destruct (find_index_Some _ _ _ E) as (l1 & a & l2 & Hl & Hi & Ha & Hl1).
  assert (E' : find_index (fun a => (id a =? id (meta u1))%Z)
                 (<[i := meta u1]> (articles st)) = Some i).
  { rewrite Hl, <- Hi. rewrite insert_app_r_alt by lia. rewrite Nat.sub_diag. cbn.
    clear -Hl1. induction Hl1 as [|x l Hx Hl IH]; cbn.
    - by rewrite Z.eqb_refl.
    - rewrite Hx. cbn in IH. by rewrite IH. }
  rewrite E'. apply list_insert_insert_eq.
Qed.

Lemma update_then_render updated st :
  html (meta updated) = [] ->
  let shown :=
    with_meta (set_html match renderMarkdownToHtml (markdown (meta updated)) with
                        | Ok h => h
                        | Throw _ => []
                        end) updated in
  let st' := renderArticle updated (updateArticleInHistory updated st) in
  currentArticle st' = Some shown
  /\ articles st' = articles (updateArticleInHistory shown st)
  /\ db st' = <[id (meta updated) := assets updated]> (db st).
Proof.
  intros Hh. cbn zeta. split; [|split].
  - rewrite renderArticle_shown. by rewrite Hh.
  - unfold renderArticle. rewrite Hh.
    destruct (renderMarkdownToHtml _) as [h|e].
    + rewrite updateArticleInHistory_articles. cbn [articles set_currentArticle].
      rewrite <- updateArticleInHistory_articles.
      by apply updateArticleInHistory_twice.
    + cbn [articles set_currentArticle]. destruct updated as [m a].
      unfold with_meta, set_html. cbn [meta assets] in *. rewrite <- Hh.
      by destruct m.
  - unfold renderArticle. rewrite Hh.
    destruct (renderMarkdownToHtml _) as [h|e].
    + rewrite !updateArticleInHistory_db. cbn [db set_currentArticle].
      rewrite updateArticleInHistory_db. apply insert_insert_eq.
    + cbn [db set_currentArticle]. apply updateArticleInHistory_db.
Qed.

(** X22: after an edit is saved, and after a proofreading that answered
    with a text that is not blank, the article on display has the id and the
    assets it had, the new markdown and the markup the renderer makes of it
    (none when the renderer throws); the history is the old one with that
    record written by [updateArticleInHistory], and the store holds the
    assets under the id. A saved edit resets the fact check, a proofreading
    keeps it. *)
Theorem edit_is_stored_and_shown
    (st : page_state) (current : ArticleHistoryItem)
    (newMarkdown : jsstring) (newPerformance : option ArticlePerformance)
    (proofreadMarkdown : jsstring) :
  currentArticle st = Some current ->
  (let st' := handle st (SaveEdit newMarkdown newPerformance) in
   exists shown,
     currentArticle st' = Some shown
     /\ id (meta shown) = id (meta current)
     /\ markdown (meta shown) = newMarkdown
     /\ html (meta shown) = match renderMarkdownToHtml newMarkdown with
                            | Ok h => h
                            | Throw _ => []
                            end
     /\ factCheck (meta shown) = Some (MkFactCheck Unchecked [])
     /\ assets shown = assets current
     /\ articles st' = articles (updateArticleInHistory shown st)
     /\ db st' = <[id (meta current) := assets current]> (db st))
  /\ (trim proofreadMarkdown <> [] ->
      let st' := handle st (Proofread (Ok proofreadMarkdown)) in
      exists shown,
        currentArticle st' = Some shown
        /\ id (meta shown) = id (meta current)
        /\ markdown (meta shown) = proofreadMarkdown
        /\ html (meta shown) = match renderMarkdownToHtml proofreadMarkdown with
                               | Ok h => h
                               | Throw _ => []
                               end
        /\ factCheck (meta shown) = factCheck (meta current)
        /\ assets shown = assets current
        /\ articles st' = articles (updateArticleInHistory shown st)
        /\ db st' = <[id (meta current) := assets current]> (db st)).
Proof.
  intros Hc. split.
  - cbn zeta. cbn [handle]. rewrite Hc.
    destruct (update_then_render (saveEdit_update current newMarkdown newPerformance)
                st eq_refl) as (Hs & Ha & Hd).
    eexists. split; [exact Hs|]. by repeat split.
  - intros Ht. cbn zeta. cbn [handle]. rewrite Hc.
    destruct (trim proofreadMarkdown) as [|x t]; [done|].
    destruct (update_then_render (proofread_update current proofreadMarkdown)
                st eq_refl) as (Hs & Ha & Hd).
    eexists. split; [exact Hs|]. by repeat split.
Qed.

Lemma edit_is_stored_and_shown_witness :
  exists shown,
    currentArticle (handle sample_page (SaveEdit (lit "new text") None)) = Some shown
    /\ html (meta shown) = lit "<p>new text</p>"
    /\ articles (handle sample_page (SaveEdit (lit "new text") None)) = [meta shown].
Proof.
  destruct (edit_is_stored_and_shown sample_page sample_article (lit "new text") None
              [] eq_refl)
    as [(shown & Hs & Hid & _ & Hh & _ & _ & Ha & _) _].
  exists shown. split; [exact Hs|]. split.
  - rewrite Hh. vm_compute. reflexivity.
  - rewrite Ha. rewrite updateArticleInHistory_articles.
    rewrite Hid. reflexivity.
Defined.

(** ** An article that is deleted while it is on display *)

(** X23: deleting the article on display leaves it the current article;
    a fact check result that arrives afterwards writes its asset record back
    into the store, while the list stays without a record of that id. *)
Theorem deleted_article_is_written_back
    (st : page_state) (c : ArticleHistoryItem) (results : list jsstring) :
  currentArticle st = Some c ->
  let st1 := handle st (DeleteFromHistory (id (meta c))) in
  let st2 := handle st1 (FactCheckDone results) in
  currentArticle st1 = Some c
  /\ db st1 !! id (meta c) = None
  /\ Forall (fun a => id a <> id (meta c)) (articles st2)
  /\ db st2 !! id (meta c) = Some (assets c).
Proof.
  intros Hc. cbn zeta. cbn [handle].
  assert (H1 : currentArticle (removeArticleFromHistory (id (meta c)) st) = Some c)
    by exact Hc.
  split; [done|]. split; [apply lookup_delete_eq|].
  unfold amend_current. rewrite H1.
  assert (Hgone : Forall (fun a => id a <> id (meta c))
                    (articles (removeArticleFromHistory (id (meta c)) st))).
  { apply Forall_forall. intros a Ha.
    cbn [removeArticleFromHistory articles deleteImagesFromDb set_db set_articles] in Ha.
    by apply list_elem_of_filter in Ha as [? _]. }
  split.
  - rewrite updateArticleInHistory_articles. cbn [articles set_currentArticle].
    destruct (find_index _ _) as [i|] eqn:E; [|done].
    apply find_index_Some in E as (l1 & a & l2 & Hl & _ & Ha & _).
    rewrite Hl in Hgone. apply Forall_app in Hgone as [_ Hg].
    inversion Hg; subst. apply Z.eqb_eq in Ha. done.
  - rewrite updateArticleInHistory_db. apply lookup_insert_eq.
Qed.

Lemma deleted_article_is_written_back_witness :
  db (handle (handle sample_page (DeleteFromHistory 1)) (FactCheckDone [])) !! 1%Z
  = Some (assets sample_article).
Proof.
  apply (deleted_article_is_written_back sample_page sample_article [] eq_refl).
Defined.

(** ** Replacements with an anchored pattern, line by line *)

Lemma rmatch_bol st k :
  rmatch RBol st k
  = match left st with
    | [] => k st
    | c :: _ => if is_line_terminator c then k st else None
    end.
Proof. reflexivity. Qed.

Lemma rmatch_eol st k :
  rmatch REol st k
  = match right st with
    | [] => k st
    | c :: _ => if is_line_terminator c then k st else None
    end.
Proof. reflexivity. Qed.

Lemma bol_at_line_start l s cs k :
  at_line_start l -> rmatch RBol (MState l s cs) k = k (MState l s cs).
Proof.
  intros H. rewrite rmatch_bol. cbn [left]. destruct l as [|c l]; [done|].
  cbn in H. by rewrite H.
Qed.

Lemma anchored_bol r : anchored (RSeq RBol r).
Proof.
  intros l c s Hc. unfold rexec. rewrite rmatch_seq, rmatch_bol. cbn [left].
  by rewrite Hc.
Qed.

(** The scan over the rest of a line in which the pattern cannot match, and
    over the line feed behind it. *)
Lemma replace_loop_rest_of_line r cb line :
  anchored r ->
  Forall (fun c => is_line_terminator c = false) line ->
  forall fuel c l tail,
    is_line_terminator c = false ->
    length (line ++ tail) < fuel ->
    replace_loop fuel r cb (c :: l) (line ++ tail)
    = line ++ match tail with
              | [] => []
              | y :: rest =>
                  y :: replace_loop (fuel - S (length line)) r cb
                         (y :: rev line ++ c :: l) rest
              end.
Proof.
  intros Hr. induction 1 as [|x line Hx Hline IH]; intros fuel c l tail Hc Hf.
  - cbn [app rev length] in *. destruct fuel as [|fuel]; [lia|].
    destruct tail as [|y rest].
    + apply replace_loop_end. by apply Hr.
    + rewrite replace_loop_miss by by apply Hr.
      by replace (S fuel - 1) with fuel by lia.
  - destruct fuel as [|fuel]; [simpl in Hf; lia|]. cbn [app].
    rewrite replace_loop_miss by by apply Hr.
    rewrite IH; [|done|simpl in Hf; lia].
    cbn [rev length]. rewrite <- app_assoc. cbn [app]. reflexivity.
Qed.

Lemma rev_line_head (P : N -> Prop) line l :
  line <> [] -> Forall P line ->
  exists c l', rev line ++ l = c :: l' /\ P c.
Proof.
  intros Hne H. destruct (rev line) as [|c t] eqn:E.
  - apply (f_equal (@rev N)) in E. rewrite rev_involutive in E. done.
  - exists c, (t ++ l). split; [done|].
    apply Forall_rev in H. rewrite E in H. by inversion H.
Qed.

(** One line of the scan. *)
Lemma replace_loop_line r cb line line' tail fuel l :
  anchored r -> line_step r cb line line' ->
  at_line_start l -> line_tail tail ->
  length (line ++ tail) < fuel ->
  match tail with
  | [] => replace_loop fuel r cb l (line ++ tail) = line'
  | y :: rest =>
      exists fuel',
        length rest < fuel'
        /\ replace_loop fuel r cb l (line ++ tail)
           = line' ++ y :: replace_loop fuel' r cb (y :: rev line ++ l) rest
  end.
Proof.
  intros Hr [Hline Hstep] Hl Ht Hf.
  destruct (Hstep l tail Hl Ht) as [[E ->]|(Hne & cs & E & <-)].
  - destruct line as [|x line].
    + cbn [app rev length] in *. destruct fuel as [|fuel]; [lia|].
      destruct tail as [|y rest].
      * by apply replace_loop_end.
      * exists fuel. split; [simpl in Hf; lia|]. by apply replace_loop_miss.
    + destruct fuel as [|fuel]; [simpl in Hf; lia|]. cbn [app] in *.
      rewrite replace_loop_miss by done. inversion Hline; subst.
      rewrite replace_loop_rest_of_line; [|done..|simpl in Hf; lia].
      destruct tail as [|y rest]; [by rewrite app_nil_r|].
      eexists. split; [|cbn [rev]; rewrite <- app_assoc; reflexivity].
      simpl in Hf. rewrite ?length_app in Hf. simpl in Hf. lia.
  - destruct fuel as [|fuel]; [lia|].
    rewrite (replace_loop_hit fuel r cb l line tail cs Hne E).
    destruct (rev_line_head _ line l Hne Hline) as (c & l' & El & Hc).
    rewrite El.
    pose proof (replace_loop_rest_of_line r cb [] Hr (Forall_nil_2 _) fuel c l' tail Hc)
      as H. cbn [app rev length] in H.
    rewrite length_app in Hf.
    assert (Hne' : 0 < length line) by (destruct line; [done|simpl; lia]).
    rewrite H by lia. destruct tail as [|y rest].
    { by rewrite app_nil_r. }
    eexists. split; [|reflexivity]. simpl in Hf. lia.
Qed.

Lemma replace_loop_by_lines r cb lines lines' :
  anchored r ->
  Forall2 (line_step r cb) lines lines' ->
  forall line line' fuel l,
    line_step r cb line line' ->
    at_line_start l ->
    length (join [Chars.lf] (line :: lines)) < fuel ->
    replace_loop fuel r cb l (join [Chars.lf] (line :: lines))
    = join [Chars.lf] (line' :: lines').
Proof.
  intros Hr. induction 1 as [|next next' lines lines' Hnext Hrest IH];
    intros line line' fuel l Hstep Hl Hf.
  - cbn [join] in *.
    pose proof (replace_loop_line r cb line line' [] fuel l Hr Hstep Hl I) as H.
    rewrite !app_nil_r in H. by apply H.
  - change (join [Chars.lf] (line :: next :: lines))
      with (line ++ Chars.lf :: join [Chars.lf] (next :: lines)) in *.
    change (join [Chars.lf] (line' :: next' :: lines'))
      with (line' ++ Chars.lf :: join [Chars.lf] (next' :: lines')).
    destruct (replace_loop_line r cb line line'
                (Chars.lf :: join [Chars.lf] (next :: lines)) fuel l Hr Hstep Hl
                (eq_refl : line_tail (Chars.lf :: _)) Hf)
      as (fuel' & Hf' & ->).
    f_equal. f_equal. by apply IH.
Qed.

Lemma replace_all_by_lines r cb lines lines' :
  anchored r -> lines <> [] ->
  Forall2 (line_step r cb) lines lines' ->
  replace_all r cb (join [Chars.lf] lines) = join [Chars.lf] lines'.
Proof.
  intros Hr Hne H. destruct H as [|line line' lines lines' Hstep Hrest]; [done|].
  unfold replace_all. apply replace_loop_by_lines; [done..|lia].
Qed.

(** ** The heading passes *)

Lemma text_unit_inert c :
  is_text_unit c = true -> is_inert c = true /\ is_line_terminator c = false.
Proof.
  unfold is_text_unit. intros [H1 H2]%andb_prop. split; [done|].
  by apply negb_true_iff.
Qed.

Lemma text_units_inert t :
  Forall (fun c => is_text_unit c = true) t ->
  Forall (fun c => is_inert c = true) t
  /\ Forall (fun c => is_line_terminator c = false) t.
Proof.
  intros H. split; (eapply Forall_impl; [exact H|]); intros c Hc;
    by apply text_unit_inert in Hc as [? ?].
Qed.

Lemma level_cases level :
  1 <= level <= 3 -> level = 1 \/ level = 2 \/ level = 3.
Proof. lia. Qed.

Lemma heading_markup_no_terminator level title :
  1 <= level <= 3 ->
  Forall (fun c => is_line_terminator c = false) title ->
  Forall (fun c => is_line_terminator c = false) (heading_markup level title).
Proof.
  intros Hl Ht. unfold heading_markup.
  destruct (level_cases level Hl) as [->|[->| ->]];
    (apply Forall_app; split; [by repeat constructor|]);
    (apply Forall_app; split; [by repeat constructor|]);
    (apply Forall_app; split; [by repeat constructor|]);
    (apply Forall_app; split; [done|]); by repeat constructor.
Qed.

Lemma block_source_no_terminator b :
  block_ok b -> Forall (fun c => is_line_terminator c = false) (block_source b).
Proof.
  destruct b as [level title|text]; cbn [block_ok block_source].
  - intros [_ Ht]. apply text_units_inert in Ht as [_ Ht].
    apply Forall_app. split; [|by constructor].
    apply Forall_forall. intros c Hc. apply list_elem_of_In, repeat_spec in Hc.
    by subst c.
  - intros Ht. by apply text_units_inert in Ht as [_ Ht].
Qed.

Lemma line_after_no_terminator done b :
  block_ok b ->
  Forall (fun c => is_line_terminator c = false) (line_after done b).
Proof.
  intros Hb. destruct b as [level title|text]; cbn [line_after].
  - destruct (done level); [|by apply block_source_no_terminator].
    destruct Hb as [Hl Ht]. apply heading_markup_no_terminator; [done|].
    by apply text_units_inert in Ht as [_ ?].
  - by apply (block_source_no_terminator (Paragraph text)).
Qed.

Lemma heading_re_miss hashes l s :
  strip_prefix hashes s = None -> rexec (heading_re hashes) l s = None.
Proof.
  intros H. unfold rexec, heading_re. cbn [RCat foldr].
  rewrite rmatch_seq, rmatch_bol. cbn [left].
  assert (E : rmatch (RSeq (RStr hashes)
                (RSeq (RIs Chars.space)
                   (RSeq (RGroup 1 (RSeq (RStar true RDot) REol)) REmpty)))
                (MState l s []) Some = None).
  { by rewrite rmatch_seq, rmatch_str, H. }
  destruct l as [|c l]; [done|]. by destruct (is_line_terminator c).
Qed.

Lemma heading_re_hit hashes title l tail :
  at_line_start l -> line_tail tail ->
  Forall (fun c => is_line_terminator c = false) title ->
  rexec (heading_re hashes) l (hashes ++ Chars.space :: title ++ tail)
  = Some (MState (rev (hashes ++ Chars.space :: title) ++ l) tail [(1, title)]).
Proof.
  intros Hl Ht Htitle. unfold rexec, heading_re. cbn [RCat foldr].
  rewrite rmatch_seq, bol_at_line_start by done.
  rewrite rmatch_seq, rmatch_str.
  rewrite (proj2 (strip_prefix_Some hashes _ _) eq_refl).
  rewrite rmatch_seq, rmatch_is. change (Chars.space =? Chars.space)%N with true.
  cbn iota. rewrite rmatch_seq, rmatch_group, rmatch_seq, rmatch_star.
  cbn [right left]. unfold RDot.
  assert (Hspan : span (fun c => negb (is_line_terminator c)) (title ++ tail)
                  = (title, tail)).
  { apply span_run.
    - eapply Forall_impl; [exact Htitle|]. intros c Hc. cbn beta. by rewrite Hc.
    - destruct tail as [|c ?]; [done|]. cbn in Ht. by subst c. }
  rewrite star_greedy_class; [|done|].
  - rewrite Hspan. cbn [fst snd]. rewrite rmatch_eol. cbn [right left caps].
    assert (Hk : forall (x : option mstate),
              match tail with
              | [] => x
              | c :: _ => if is_line_terminator c then x else None
              end = x).
    { intros x. destruct tail as [|c ?]; [done|]. cbn in Ht. by subst c. }
    etrans; [apply Hk|]. rewrite rmatch_empty.
    rewrite length_app, length_rev.
    replace (length title + length (Chars.space :: rev hashes ++ l)
             - length (Chars.space :: rev hashes ++ l)) with (length title) by lia.
    rewrite take_app_length', rev_involutive by by rewrite length_rev.
    f_equal. f_equal. rewrite rev_app_distr. cbn [rev].
    rewrite <- !app_assoc. reflexivity.
  - intros l' c t Hc. rewrite rmatch_eol. cbn [right].
    apply negb_true_iff in Hc. by rewrite Hc.
Qed.

Lemma strip_prefix_fewer_hashes n m rest :
  m < n ->
  strip_prefix (repeat Chars.hash n) (repeat Chars.hash m ++ Chars.space :: rest)
  = None.
Proof.
  revert n. induction m as [|m IH]; intros [|n] H; try lia; [done|].
  cbn [repeat app strip_prefix]. rewrite N.eqb_refl. apply IH. lia.
Qed.

Lemma heading_line_step n cb b :
  1 <= n <= 3 ->
  (forall line title, cb (RMatched line [(1, title)]) = heading_markup n title) ->
  block_ok b ->
  line_step (heading_re (repeat Chars.hash n)) cb
    (line_after (Nat.ltb n) b) (line_after (Nat.leb n) b).
Proof.
  intros Hn Hcb Hb. split; [by apply line_after_no_terminator|].
  intros l tail Hl Ht. destruct b as [level title|text]; cbn [line_after].
  - destruct Hb as [Hlevel Htitle].
    apply text_units_inert in Htitle as [_ Htitle].
    destruct (n <? level) eqn:E1.
    + apply Nat.ltb_lt in E1. rewrite (proj2 (Nat.leb_le n level)) by lia.
      left. split; [|done]. apply heading_re_miss.
      destruct n as [|n]; [lia|]. reflexivity.
    + apply Nat.ltb_ge in E1. destruct (n <=? level) eqn:E2.
      * apply Nat.leb_le in E2. assert (level = n) as -> by lia.
        right. split; [by destruct n; [lia|]|].
        exists [(1, title)]. split; [|apply Hcb].
        cbn [block_source]. rewrite <- app_assoc. cbn [app].
        by apply heading_re_hit.
      * apply Nat.leb_gt in E2. left. split; [|done]. apply heading_re_miss.
        cbn [block_source]. rewrite <- app_assoc. cbn [app].
        by apply strip_prefix_fewer_hashes.
  - left. split; [|done]. apply heading_re_miss.
    destruct n as [|n]; [lia|]. cbn [repeat].
    destruct text as [|c t].
    + destruct tail as [|c ?]; [done|]. cbn in Ht. by subst c.
    + cbn [block_ok] in Hb. inversion Hb as [|? ? Hc _]; subst.
      apply text_unit_inert in Hc as [Hc _]. cbn [app strip_prefix].
      destruct (c =? Chars.hash)%N eqn:E; [|done].
      apply N.eqb_eq in E. by subst c.
Qed.

Lemma heading_pass n cb blocks :
  1 <= n <= 3 ->
  (forall line title, cb (RMatched line [(1, title)]) = heading_markup n title) ->
  blocks <> [] -> Forall block_ok blocks ->
  replace_all (heading_re (repeat Chars.hash n)) cb
    (join [Chars.lf] (map (line_after (Nat.ltb n)) blocks))
  = join [Chars.lf] (map (line_after (Nat.leb n)) blocks).
Proof.
  intros Hn Hcb Hne Hok. apply replace_all_by_lines.
  - apply anchored_bol.
  - by destruct blocks.
  - induction Hok as [|b blocks Hb Hbs IH]; [done|]. cbn [map].
    constructor; [by apply heading_line_step|].
    destruct blocks as [|b' blocks]; [constructor|]. by apply IH.
Qed.

(** ** Patterns that cannot start in a text *)

Lemma rest_fails_is (P : N -> Prop) c :
  (forall x, P x -> x <> c) -> fails (fun st => Forall P (right st)) (RIs c).
Proof.
  intros H. apply fails_char. intros l x t cs Hst. cbn in Hst.
  inversion Hst; subst. destruct (c =? x)%N eqn:E; [|done].
  apply N.eqb_eq in E. subst x. by destruct (H c).
Qed.

Lemma rest_fails_str (P : N -> Prop) w :
  match w with c :: _ => forall x, P x -> x <> c | [] => False end ->
  fails (fun st => Forall P (right st)) (RStr w).
Proof.
  intros H. apply fails_str. destruct w as [|c w]; [done|].
  intros l x t cs Hst. cbn in Hst. inversion Hst; subst.
  apply N.eqb_neq. by apply H.
Qed.

Lemma rest_no_match (P : N -> Prop) r s :
  fails (fun st => Forall P (right st)) r -> Forall P s -> no_match_in r s.
Proof.
  intros Hr Hs l' s' [p ->]. apply Hr. cbn.
  by apply Forall_app in Hs as [_ ?].
Qed.

Lemma replace_all_no_match r cb s : no_match_in r s -> replace_all r cb s = s.
Proof. apply replace_all_none. Qed.

Lemma Forall_join (P : N -> Prop) lines :
  P Chars.lf -> Forall (Forall P) lines -> Forall P (join [Chars.lf] lines).
Proof.
  intros Hlf. induction 1 as [|line lines Hl Hls IH]; [done|].
  destruct lines as [|line' lines]; [done|].
  change (join [Chars.lf] (line :: line' :: lines))
    with (line ++ Chars.lf :: join [Chars.lf] (line' :: lines)).
  apply Forall_app. split; [done|]. by constructor.
Qed.

(** The markdown of headings and plain lines. *)
Lemma quiet_not c x : is_quiet c = false -> is_quiet x = true -> x <> c.
Proof. intros Hc Hx ->. congruence. Qed.

Lemma block_source_quiet blocks :
  Forall block_ok blocks ->
  Forall (fun c => is_quiet c = true) (join [Chars.lf] (map block_source blocks)).
Proof.
  intros H. apply Forall_join; [done|]. apply Forall_forall.
  intros line (b & <- & Hb)%list_elem_of_In%in_map_iff.
  rewrite Forall_forall in H. apply list_elem_of_In, H in Hb.
  assert (Ht : forall t, Forall (fun c => is_text_unit c = true) t ->
                 Forall (fun c => is_quiet c = true) t).
  { intros t Ht. eapply Forall_impl; [exact Ht|]. intros c Hc.
    apply text_unit_inert in Hc as [Hc _]. unfold is_quiet. by rewrite Hc. }
  destruct b as [level title|text]; cbn [block_source block_ok] in *.
  - destruct Hb as [_ Hb]. apply Forall_app. split; [|constructor; [done|by apply Ht]].
    apply Forall_forall. intros c Hc. apply list_elem_of_In, repeat_spec in Hc.
    by subst c.
  - by apply Ht.
Qed.

Lemma quiet_fails_is c :
  is_quiet c = false -> fails (fun st => Forall (fun x => is_quiet x = true) (right st)) (RIs c).
Proof. intros H. apply rest_fails_is. intros x. by apply quiet_not. Qed.

Lemma quiet_fails_str w :
  match w with c :: _ => is_quiet c = false | [] => False end ->
  fails (fun st => Forall (fun x => is_quiet x = true) (right st)) (RStr w).
Proof.
  intros H. apply rest_fails_str. destruct w as [|c w]; [done|].
  intros x. by apply quiet_not.
Qed.

Lemma quiet_no_match r s :
  fails (fun st => Forall (fun x => is_quiet x = true) (right st)) r ->
  Forall (fun c => is_quiet c = true) s ->
  no_match_in r s.
Proof. apply rest_no_match. Qed.

(** The text behind the heading passes holds no backtick and no opening
    bracket. *)
Lemma heading_markup_units (P : N -> Prop) level title :
  1 <= level <= 3 ->
  P Chars.lt -> P Chars.gt -> P Chars.slash -> P 104%N
  -> P 49%N -> P 50%N -> P 51%N ->
  Forall P title -> Forall P (heading_markup level title).
Proof.
  intros Hl ? ? ? ? ? ? ? Ht. unfold heading_markup.
  destruct (level_cases level Hl) as [->|[->| ->]];
    (apply Forall_app; split; [by repeat constructor|]);
    (apply Forall_app; split; [by repeat constructor|]);
    (apply Forall_app; split; [by repeat constructor|]);
    (apply Forall_app; split; [done|]); by repeat constructor.
Qed.

Lemma lines_done_units (P : N -> Prop) blocks :
  P Chars.lt -> P Chars.gt -> P Chars.slash -> P 104%N
  -> P 49%N -> P 50%N -> P 51%N -> P Chars.lf ->
  (forall c, is_inert c = true -> P c) ->
  Forall block_ok blocks ->
  Forall P (join [Chars.lf] (map (line_after (fun _ => true)) blocks)).
Proof.
  intros ? ? ? ? ? ? ? ? Hi H. apply Forall_join; [done|]. apply Forall_forall.
  intros line (b & <- & Hb)%list_elem_of_In%in_map_iff.
  rewrite Forall_forall in H. apply list_elem_of_In, H in Hb.
  assert (Ht : forall t, Forall (fun c => is_text_unit c = true) t -> Forall P t).
  { intros t Ht. eapply Forall_impl; [exact Ht|]. intros c Hc.
    apply text_unit_inert in Hc as [Hc _]. by apply Hi. }
  destruct b as [level title|text]; cbn [line_after block_ok] in *.
  - destruct Hb as [Hl Hb]. apply heading_markup_units; auto.
  - by apply Ht.
Qed.

Lemma code_re_done blocks :
  Forall block_ok blocks ->
  no_match_in code_re (join [Chars.lf] (map (line_after (fun _ => true)) blocks)).
Proof.
  intros H. apply (rest_no_match (fun c => c <> Chars.backtick)).
  - apply fails_seq_l. by apply rest_fails_is.
  - apply lines_done_units; try done. by intros c Hc ->.
Qed.

Lemma link_re_done blocks :
  Forall block_ok blocks ->
  no_match_in link_re (join [Chars.lf] (map (line_after (fun _ => true)) blocks)).
Proof.
  intros H. apply (rest_no_match (fun c => c <> Chars.lbrack)).
  - apply fails_seq_l. by apply rest_fails_is.
  - apply lines_done_units; try done. by intros c Hc ->.
Qed.

(** ** The list pass *)

Lemma no_marker_ahead_line l line tail cs :
  match line with
  | c :: _ => c = Chars.lt \/ Forall (fun c => is_inert c = true) line
  | [] => True
  end ->
  line_tail tail ->
  no_marker_ahead (MState l (line ++ tail) cs).
Proof.
  intros Hline Ht. unfold no_marker_ahead. cbn [right].
  assert (Htail : match snd (span (N.eqb Chars.space) tail) with
                  | c :: _ => is_marker c = false
                  | [] => True
                  end).
  { destruct tail as [|c ?]; [done|]. cbn in Ht. by subst c. }
  assert (Hinert : forall t, Forall (fun c => is_inert c = true) t ->
            match snd (span (N.eqb Chars.space) (t ++ tail)) with
            | c :: _ => is_marker c = false
            | [] => True
            end).
  { induction 1 as [|x t Hx Ht' IH]; [done|].
    cbn [app span]. destruct (Chars.space =? x)%N; [done|].
    cbn [snd]. unfold is_inert in Hx. unfold is_marker.
    apply negb_true_iff in Hx. repeat (apply orb_false_elim in Hx as [Hx ?]).
    by rewrite H2, H3, H. }
  destruct line as [|c line]; [done|].
  destruct Hline as [->|Hline]; [reflexivity|]. by apply Hinert.
Qed.

Lemma no_marker_ahead_head l c t cs :
  no_marker_ahead (MState l (c :: t) cs) -> is_marker c = false.
Proof.
  unfold no_marker_ahead. cbn [right span].
  destruct (Chars.space =? c)%N eqn:E; [|done].
  apply N.eqb_eq in E. by subst c.
Qed.

Lemma list_re_miss l s :
  no_marker_ahead (MState l s []) -> rexec list_re l s = None.
Proof.
  intros Hs. unfold rexec, list_re. cbn [RCat foldr].
  rewrite rmatch_seq, rmatch_bol. cbn [left].
  match goal with
  | |- context [rmatch ?r (MState l s []) Some] =>
      assert (E : rmatch r (MState l s []) Some = None)
  end.
  { revert Hs. generalize (MState l s []) (@Some mstate).
    apply fails_seq_r.
    - cbn [preserves RIs]. split; [|done].
      intros l' c t cs. unfold no_marker_ahead. cbn [right span].
      intros H E. by rewrite E in H.
    - apply fails_seq_l, fails_group. cbn [RAlts foldl].
      repeat apply fails_alt.
      + apply fails_char. intros l' c t cs Hc%no_marker_ahead_head.
        unfold is_marker in Hc. repeat (apply orb_false_elim in Hc as [Hc ?]).
        by rewrite N.eqb_sym.
      + apply fails_char. intros l' c t cs Hc%no_marker_ahead_head.
        unfold is_marker in Hc. repeat (apply orb_false_elim in Hc as [Hc ?]).
        by rewrite N.eqb_sym.
      + do 2 apply fails_seq_l. apply fails_char.
        intros l' c t cs Hc%no_marker_ahead_head.
        unfold is_marker in Hc. by repeat (apply orb_false_elim in Hc as [Hc ?]). }
  destruct l as [|c l]; [done|]. by destruct (is_line_terminator c).
Qed.

Lemma list_line_step b :
  block_ok b ->
  line_step list_re list_cb
    (line_after (fun _ => true) b) (line_after (fun _ => true) b).
Proof.
  intros Hb. split; [by apply line_after_no_terminator|].
  intros l tail Hl Ht. left. split; [|done].
  apply list_re_miss, no_marker_ahead_line; [|done].
  destruct b as [level title|text]; cbn [line_after].
  - by left.
  - destruct text as [|c t]; [done|]. right.
    by apply text_units_inert in Hb as [? _].
Qed.

Lemma list_pass blocks :
  blocks <> [] -> Forall block_ok blocks ->
  replace_all list_re list_cb
    (join [Chars.lf] (map (line_after (fun _ => true)) blocks))
  = join [Chars.lf] (map (line_after (fun _ => true)) blocks).
Proof.
  intros Hne Hok. apply replace_all_by_lines.
  - apply anchored_bol.
  - by destruct blocks.
  - induction Hok as [|b blocks Hb Hbs IH]; [done|]. cbn [map].
    constructor; [by apply list_line_step|].
    destruct blocks as [|b' blocks]; [constructor|]. by apply IH.
Qed.

(** ** Patterns that start with a tag *)

Lemma nm_nil r : fails not_at_tag r -> no_match_in r [].
Proof. intros Hr l s' Hs. apply suffix_nil_inv in Hs as ->. by apply Hr. Qed.

Lemma nm_cons r c rest :
  (forall l, rexec r l (c :: rest) = None) ->
  no_match_in r rest -> no_match_in r (c :: rest).
Proof.
  intros Hc Hrest l s' Hs. apply suffix_cons_cases in Hs as [->|Hs]; [apply Hc|].
  by apply Hrest.
Qed.

Lemma nm_plain r w rest :
  fails not_at_tag r -> Forall (fun c => c <> Chars.lt) w ->
  no_match_in r rest -> no_match_in r (w ++ rest).
Proof.
  intros Hr Hw Hrest l s' Hs.
  apply suffix_of_line_rest in Hs as [Hs|(c & t & -> & Hin)]; [by apply Hrest|].
  apply tag_no_match; [done|]. rewrite Forall_forall in Hw. by apply Hw.
Qed.

Lemma inert_no_tag t :
  Forall (fun c => is_inert c = true) t -> Forall (fun c => c <> Chars.lt) t.
Proof. intros H. eapply Forall_impl; [exact H|]. intros c. apply inert_not_lt. Qed.

Lemma nm_heading r level title rest :
  fails not_at_tag r -> 1 <= level <= 3 ->
  Forall (fun c => is_inert c = true) title ->
  (forall l, rexec r l (heading_markup level title ++ rest) = None) ->
  (forall l, rexec r l (lit "</" ++ heading_tag level ++ lit ">" ++ rest) = None) ->
  no_match_in r rest ->
  no_match_in r (heading_markup level title ++ rest).
Proof.
  intros Hr Hl Ht%inert_no_tag Hopen Hclose Hrest.
  assert (E : heading_markup level title ++ rest
              = Chars.lt :: (heading_tag level ++ lit ">") ++ title
                ++ Chars.lt :: (Chars.slash :: heading_tag level ++ lit ">") ++ rest).
  { unfold heading_markup. rewrite <- !app_assoc. reflexivity. }
  rewrite E in *. apply nm_cons; [done|].
  apply nm_plain; [done| |].
  { destruct (level_cases level Hl) as [->|[->| ->]]; by repeat constructor. }
  apply nm_plain; [done..|].
  apply nm_cons.
  { intros l. specialize (Hclose l). by rewrite <- !app_assoc in *. }
  apply nm_plain; [done| |done].
  destruct (level_cases level Hl) as [->|[->| ->]]; by repeat constructor.
Qed.

Lemma nm_join r lines :
  fails not_at_tag r ->
  Forall (fun line => forall rest, no_match_in r rest -> no_match_in r (line ++ rest))
         lines ->
  no_match_in r (join [Chars.lf] lines).
Proof.
  intros Hr. induction 1 as [|line lines Hline Hlines IH]; [by apply nm_nil|].
  destruct lines as [|line' lines].
  - cbn [join]. rewrite <- (app_nil_r line). by apply Hline, nm_nil.
  - change (join [Chars.lf] (line :: line' :: lines))
      with (line ++ [Chars.lf] ++ join [Chars.lf] (line' :: lines)).
    apply Hline. apply nm_plain; [done|by repeat constructor|done].
Qed.

Lemma adjacent_lists_re_tag : fails not_at_tag adjacent_lists_re.
Proof. apply fails_seq_l. by apply tag_fails_str. Qed.

Lemma adjacent_lists_re_done blocks :
  Forall block_ok blocks ->
  no_match_in adjacent_lists_re
    (join [Chars.lf] (map (line_after (fun _ => true)) blocks)).
Proof.
  intros H. apply nm_join; [apply adjacent_lists_re_tag|].
  apply Forall_forall.
  intros line (b & <- & Hb)%list_elem_of_In%in_map_iff rest Hrest.
  rewrite Forall_forall in H. apply list_elem_of_In, H in Hb.
  destruct b as [level title|text]; cbn [line_after block_ok] in *.
  - destruct Hb as [Hl Ht]. apply text_units_inert in Ht as [Ht _].
    apply nm_heading; [apply adjacent_lists_re_tag|done..| | |done].
    + intros l. by destruct (level_cases level Hl) as [->|[->| ->]].
    + intros l. by destruct (level_cases level Hl) as [->|[->| ->]].
  - apply text_units_inert in Hb as [Hb _].
    apply nm_plain; [apply adjacent_lists_re_tag|by apply inert_no_tag|done].
Qed.

(** ** The paragraph pass *)

Lemma paragraph_line_tagged body :
  paragraph_line (Chars.lt :: body ++ [Chars.gt]) = Chars.lt :: body ++ [Chars.gt].
Proof.
  assert (Et : trim (Chars.lt :: body ++ [Chars.gt]) = Chars.lt :: body ++ [Chars.gt]).
  { unfold trim, trim_end. cbn [trim_start].
    change (is_space Chars.lt) with false. cbn iota.
    change (Chars.lt :: body ++ [Chars.gt]) with ((Chars.lt :: body) ++ [Chars.gt]).
    rewrite rev_app_distr. cbn [rev app trim_start].
    change (is_space Chars.gt) with false. cbn iota.
    change (Chars.gt :: rev body ++ [Chars.lt]) with ([Chars.gt] ++ rev (Chars.lt :: body)).
    rewrite rev_app_distr, rev_involutive. reflexivity. }
  unfold paragraph_line. rewrite Et. cbn zeta.
  assert (Ee : ends_with (lit ">") (Chars.lt :: body ++ [Chars.gt]) = true).
  { unfold ends_with.
    change (Chars.lt :: body ++ [Chars.gt]) with ((Chars.lt :: body) ++ [Chars.gt]).
    rewrite rev_app_distr. reflexivity. }
  rewrite Ee. reflexivity.
Qed.

Lemma paragraph_line_heading level title :
  1 <= level <= 3 ->
  paragraph_line (heading_markup level title) = heading_markup level title.
Proof.
  intros Hl.
  assert (E : heading_markup level title
              = Chars.lt :: (heading_tag level ++ lit ">" ++ title ++ lit "</"
                             ++ heading_tag level) ++ [Chars.gt]).
  { unfold heading_markup. rewrite <- !app_assoc. reflexivity. }
  rewrite E. apply paragraph_line_tagged.
Qed.

Lemma paragraph_pass blocks :
  Forall block_ok blocks ->
  map paragraph_line (map (line_after (fun _ => true)) blocks)
  = map block_markup blocks.
Proof.
  induction 1 as [|b blocks Hb Hbs IH]; [done|]. cbn [map]. rewrite IH. f_equal.
  destruct b as [level title|text]; cbn [line_after block_markup block_ok] in *.
  - apply paragraph_line_heading. by destruct Hb.
  - apply paragraph_line_plain. by apply text_units_inert in Hb as [? _].
Qed.

(** ** The last three passes *)

Lemma markup_shape blocks :
  concat (map block_markup blocks) = []
  \/ exists c t, concat (map block_markup blocks) = Chars.lt :: c :: t
                 /\ (c = 112%N \/ c = 104%N).
Proof.
  induction blocks as [|b blocks IH]; [by left|]. cbn [map concat].
  destruct b as [level title|text]; cbn [block_markup].
  - right. exists 104%N. eexists. split; [|by right]. reflexivity.
  - unfold paragraph_of. destruct (forallb is_space text); [done|].
    right. exists 112%N. eexists. split; [|by left]. reflexivity.
Qed.

Lemma nm_markup r blocks :
  fails not_at_tag r ->
  (forall l line rest,
     Forall (fun c => is_inert c = true) line -> forallb is_space line = false ->
     rexec r l (lit "<p>" ++ line ++ lit "</p>" ++ rest) = None) ->
  (forall l rest, rexec r l (lit "</p>" ++ rest) = None) ->
  (forall l level title rest,
     1 <= level <= 3 -> rexec r l (heading_markup level title ++ rest) = None) ->
  (forall l level bs,
     1 <= level <= 3 ->
     rexec r l (lit "</" ++ heading_tag level ++ lit ">"
                ++ concat (map block_markup bs)) = None) ->
  Forall block_ok blocks ->
  no_match_in r (concat (map block_markup blocks)).
Proof.
  intros Hr Hpo Hpc Hho Hhc.
  induction 1 as [|b blocks Hb Hbs IH]; [by apply nm_nil|]. cbn [map concat].
  destruct b as [level title|text]; cbn [block_markup block_ok] in *.
  - destruct Hb as [Hl Ht]. apply text_units_inert in Ht as [Ht _].
    apply nm_heading; [done..| | |done].
    + intros l. by apply Hho.
    + intros l. by apply Hhc.
  - apply text_units_inert in Hb as [Hb _]. unfold paragraph_of.
    destruct (forallb is_space text) eqn:Eb; [done|].
    rewrite <- !app_assoc. intros l s' Hs.
    eapply paragraph_no_match; [done| | |exact Hb|exact IH|exact Hs].
    + intros l0. by apply Hpo.
    + intros l0. apply Hpc.
Qed.

Lemma empty_paragraph_re_markup blocks :
  Forall block_ok blocks ->
  no_match_in empty_paragraph_re (concat (map block_markup blocks)).
Proof.
  apply nm_markup.
  - apply empty_paragraph_re_tag.
  - intros l line rest Hl Hb. by apply empty_paragraph_re_open.
  - apply empty_paragraph_re_close.
  - intros l level title rest Hl.
    by destruct (level_cases level Hl) as [->|[->| ->]].
  - intros l level bs Hl.
    by destruct (level_cases level Hl) as [->|[->| ->]].
Qed.

Lemma paragraph_open_re_markup blocks :
  Forall block_ok blocks ->
  no_match_in paragraph_open_re (concat (map block_markup blocks)).
Proof.
  apply nm_markup.
  - apply paragraph_open_re_tag.
  - intros l line rest Hl Hb. destruct line as [|c t]; [done|].
    apply paragraph_open_re_open. inversion Hl; subst. by apply inert_not_lt.
  - apply paragraph_open_re_close.
  - intros l level title rest Hl.
    by destruct (level_cases level Hl) as [->|[->| ->]].
  - intros l level bs Hl.
    by destruct (level_cases level Hl) as [->|[->| ->]].
Qed.

Lemma paragraph_close_re_markup blocks :
  Forall block_ok blocks ->
  no_match_in paragraph_close_re (concat (map block_markup blocks)).
Proof.
  apply nm_markup.
  - apply paragraph_close_re_tag.
  - intros l line rest Hl Hb. apply paragraph_close_re_open.
  - apply paragraph_close_re_close.
  - intros l level title rest Hl.
    by destruct (level_cases level Hl) as [->|[->| ->]].
  - intros l level bs Hl.
    destruct (markup_shape bs) as [->|(c & t & -> & Hc)];
      destruct (level_cases level Hl) as [->|[->| ->]]; try reflexivity;
      by destruct Hc as [->| ->].
Qed.

(** ** Headings and paragraphs *)

Lemma source_lines blocks :
  Forall block_ok blocks ->
  map block_source blocks = map (line_after (Nat.ltb 3)) blocks.
Proof.
  induction 1 as [|b blocks Hb Hbs IH]; [done|]. cbn [map]. rewrite IH. f_equal.
  destruct b as [level title|text]; [|done]. cbn [line_after].
  destruct Hb as [Hl _]. by rewrite (proj2 (Nat.ltb_ge 3 level)) by lia.
Qed.

Lemma done_lines blocks :
  Forall block_ok blocks ->
  map (line_after (Nat.leb 1)) blocks = map (line_after (fun _ => true)) blocks.
Proof.
  induction 1 as [|b blocks Hb Hbs IH]; [done|]. cbn [map]. rewrite IH. f_equal.
  destruct b as [level title|text]; [|done]. cbn [line_after].
  destruct Hb as [Hl _]. by rewrite (proj2 (Nat.leb_le 1 level)) by lia.
Qed.

Lemma done_lines_no_line_feed blocks :
  Forall block_ok blocks ->
  Forall (Forall (fun c => c <> Chars.lf))
         (map (line_after (fun _ => true)) blocks).
Proof.
  intros H. apply Forall_forall.
  intros line (b & <- & Hb)%list_elem_of_In%in_map_iff.
  rewrite Forall_forall in H. apply list_elem_of_In, H in Hb.
  eapply Forall_impl; [by apply line_after_no_terminator|].
  by intros c Hc ->.
Qed.

(** X24: a text of heading lines (one to three hashes, a space and a
    title) and lines of plain text is rendered block by block: a heading as
    the element of its level with the title as it is, a line of plain text
    as a paragraph, a blank line as nothing; a heading is not wrapped in a
    paragraph. *)
Theorem headings_and_paragraphs (blocks : list block) :
  blocks <> [] ->
  Forall block_ok blocks ->
  renderMarkdownToHtml (join [Chars.lf] (map block_source blocks))
  = Ok (concat (map block_markup blocks)).
Proof.
  intros Hne Hok.
  pose proof (block_source_quiet blocks Hok) as Hq.
  unfold renderMarkdownToHtml, escape_markup, chart_pass, image_pass,
    replace_text, replace_all_try.
  rewrite (replace_all_no_match (RIs Chars.amp))
    by (apply quiet_no_match; [by apply quiet_fails_is|done]).
  rewrite (replace_all_no_match (RIs Chars.lt))
    by (apply quiet_no_match; [by apply quiet_fails_is|done]).
  rewrite (replace_all_no_match (RIs Chars.gt))
    by (apply quiet_no_match; [by apply quiet_fails_is|done]).
  rewrite (replace_all_no_match chart_re)
    by (apply quiet_no_match; [apply fails_seq_l; by apply quiet_fails_str|done]).
  rewrite replace_loop_try_none;
    [|apply quiet_no_match; [apply fails_seq_l; by apply quiet_fails_is|done]|lia].
  cbn [outcome_map]. f_equal. unfold inline_and_block_passes, replace_text.
  rewrite (replace_all_no_match bold_re)
    by (apply quiet_no_match; [apply fails_seq_l; by apply quiet_fails_str|done]).
  rewrite (replace_all_no_match em_re)
    by (apply quiet_no_match; [apply fails_seq_l; by apply quiet_fails_is|done]).
  rewrite (replace_all_no_match paid_re)
    by (apply quiet_no_match; [by apply quiet_fails_str|done]).
  rewrite (replace_all_no_match box_re)
    by (apply quiet_no_match; [apply fails_seq_l; by apply quiet_fails_str|done]).
  rewrite (replace_all_no_match summary_re)
    by (apply quiet_no_match; [apply fails_seq_l; by apply quiet_fails_str|done]).
  rewrite (source_lines blocks Hok).
  rewrite (heading_pass 3 _ blocks) by (done || lia).
  rewrite (heading_pass 2 _ blocks) by (done || lia).
  rewrite (heading_pass 1 _ blocks) by (done || lia).
  rewrite (done_lines blocks Hok).
  rewrite (replace_all_no_match code_re) by by apply code_re_done.
  rewrite (replace_all_no_match link_re) by by apply link_re_done.
  rewrite list_pass by done.
  rewrite (replace_all_no_match adjacent_lists_re) by by apply adjacent_lists_re_done.
  rewrite split_on_join;
    [|by destruct blocks|by apply done_lines_no_line_feed].
  rewrite (paragraph_pass blocks Hok).
  rewrite (replace_all_no_match empty_paragraph_re)
    by by apply empty_paragraph_re_markup.
  rewrite (replace_all_no_match paragraph_open_re)
    by by apply paragraph_open_re_markup.
  rewrite (replace_all_no_match paragraph_close_re)
    by by apply paragraph_close_re_markup.
  reflexivity.
Qed.

Lemma headings_and_paragraphs_witness :
  renderMarkdownToHtml
    (join [Chars.lf] [lit "# On tea"; lit "Tea is a drink."; lit "";
                      lit "## How to brew"; lit "Use hot water."])
  = Ok (lit "<h1>On tea</h1><p>Tea is a drink.</p><h2>How to brew</h2><p>Use hot water.</p>").
Proof.
  etrans;
    [apply (headings_and_paragraphs
              [Heading 1 (lit "On tea"); Paragraph (lit "Tea is a drink.");
               Paragraph []; Heading 2 (lit "How to brew");
               Paragraph (lit "Use hot water.")])
    |vm_compute; reflexivity].
  - discriminate.
  - repeat (constructor; [cbn [block_ok]; repeat split; try lia; repeat constructor|]).
    constructor.
Defined.

(** ** The list pass on list lines *)

Lemma rmatch_alt a b st k :
  rmatch (RAlt a b) st k = or_else (rmatch a st k) (rmatch b st k).
Proof. reflexivity. Qed.

Lemma list_re_hit text l tail :
  at_line_start l -> line_tail tail ->
  Forall (fun c => is_line_terminator c = false) text ->
  rexec list_re l (item_source text ++ tail)
  = Some (MState (rev (item_source text) ++ l) tail
            [(3, text); (2, [Chars.minus]); (1, [])]).
Proof.
  intros Hl Ht Htext. unfold rexec, list_re, item_source. cbn [RCat foldr app].
  rewrite rmatch_seq, bol_at_line_start by done.
  rewrite rmatch_seq, rmatch_group, rmatch_star. cbn [right left caps].
  unfold RIs at 1.
  rewrite star_greedy_class; [|done|].
  2: { intros l' c t Hc. apply N.eqb_eq in Hc. subst c. reflexivity. }
  change (span (N.eqb Chars.space) (Chars.minus :: Chars.space :: text ++ tail))
    with (@nil N, Chars.minus :: Chars.space :: text ++ tail).
  cbn [fst snd rev app left right caps]. rewrite Nat.sub_diag. cbn [take rev].
  rewrite rmatch_seq, rmatch_group. cbn [RAlts foldl]. rewrite !rmatch_alt.
  rewrite (rmatch_is Chars.minus). change (Chars.minus =? Chars.minus)%N with true.
  cbn iota. cbn [left right caps].
  replace (length (Chars.minus :: l) - length l) with 1 by (simpl; lia).
  cbn [take rev app].
  rewrite rmatch_seq, (rmatch_is Chars.space).
  change (Chars.space =? Chars.space)%N with true. cbn iota.
  rewrite rmatch_seq, rmatch_group, rmatch_seq, rmatch_star.
  cbn [right left]. unfold RDot.
  assert (Hspan : span (fun c => negb (is_line_terminator c)) (text ++ tail)
                  = (text, tail)).
  { apply span_run.
    - eapply Forall_impl; [exact Htext|]. intros c Hc. cbn beta. by rewrite Hc.
    - destruct tail as [|c ?]; [done|]. cbn in Ht. by subst c. }
  rewrite star_greedy_class; [|done|].
  2: { intros l' c t Hc. rewrite rmatch_eol. cbn [right].
       apply negb_true_iff in Hc. by rewrite Hc. }
  rewrite Hspan. cbn [fst snd]. rewrite rmatch_eol. cbn [right left caps].
  assert (Hk : forall (x : option mstate),
            match tail with
            | [] => x
            | c :: _ => if is_line_terminator c then x else None
            end = x).
  { intros x. destruct tail as [|c ?]; [done|]. cbn in Ht. by subst c. }
  rewrite Hk. rewrite rmatch_empty.
  rewrite (take_length_diff (rev text)), rev_involutive.
  cbn [or_else]. f_equal. f_equal. cbn [rev]. rewrite <- !app_assoc. reflexivity.
Qed.

Lemma item_source_no_terminator text :
  Forall (fun c => is_text_unit c = true) text ->
  Forall (fun c => is_line_terminator c = false) (item_source text).
Proof.
  intros H. apply text_units_inert in H as [_ H]. by repeat constructor.
Qed.

Lemma item_line_step text :
  Forall (fun c => is_text_unit c = true) text ->
  line_step list_re list_cb (item_source text) (item_line text).
Proof.
  intros H. split; [by apply item_source_no_terminator|].
  intros l tail Hl Ht. right. split; [done|].
  exists [(3, text); (2, [Chars.minus]); (1, [])]. split.
  - apply list_re_hit; [done..|]. by apply text_units_inert in H as [_ H].
  - unfold list_cb, item_line, item_markup, group. cbn.
    rewrite <- !app_assoc. reflexivity.
Qed.

Lemma list_pass_items items :
  items <> [] -> Forall (Forall (fun c => is_text_unit c = true)) items ->
  replace_all list_re list_cb (join [Chars.lf] (map item_source items))
  = join [Chars.lf] (map item_line items).
Proof.
  intros Hne Hok. apply replace_all_by_lines.
  - apply anchored_bol.
  - by destruct items.
  - induction Hok as [|t items Ht Hts IH]; [done|]. cbn [map].
    constructor; [by apply item_line_step|].
    destruct items as [|t' items]; [constructor|]. by apply IH.
Qed.

(** ** The passes in front of the list pass *)

Lemma item_unit_not c x : is_item_unit c = false -> is_item_unit x = true -> x <> c.
Proof. intros Hc Hx ->. congruence. Qed.

Lemma item_source_units items :
  Forall (Forall (fun c => is_text_unit c = true)) items ->
  Forall (fun c => is_item_unit c = true) (join [Chars.lf] (map item_source items)).
Proof.
  intros H. apply Forall_join; [done|]. apply Forall_forall.
  intros line (t & <- & Ht)%list_elem_of_In%in_map_iff.
  rewrite Forall_forall in H. apply list_elem_of_In, H in Ht.
  constructor; [done|]. constructor; [done|].
  eapply Forall_impl; [exact Ht|]. intros c Hc.
  apply text_unit_inert in Hc as [Hc _]. unfold is_item_unit. by rewrite Hc.
Qed.

Lemma item_fails_is c :
  is_item_unit c = false ->
  fails (fun st => Forall (fun x => is_item_unit x = true) (right st)) (RIs c).
Proof. intros H. apply rest_fails_is. intros x. by apply item_unit_not. Qed.

Lemma item_fails_str w :
  match w with c :: _ => is_item_unit c = false | [] => False end ->
  fails (fun st => Forall (fun x => is_item_unit x = true) (right st)) (RStr w).
Proof.
  intros H. apply rest_fails_str. destruct w as [|c w]; [done|].
  intros x. by apply item_unit_not.
Qed.

Lemma item_fails_heading hashes :
  match hashes with c :: _ => is_item_unit c = false | [] => False end ->
  fails (fun st => Forall (fun x => is_item_unit x = true) (right st))
        (heading_re hashes).
Proof.
  intros H. apply fails_seq_r; [apply rest_preserves|].
  apply fails_seq_l. by apply item_fails_str.
Qed.

(** The divider of the paid part starts with three hyphens; the hyphen of a
    list line is followed by a space. *)
Lemma nmb_nil r rest : no_match_before r [] rest.
Proof. intros l p c q E. by destruct p. Qed.

Lemma nmb_cons r c w rest :
  (forall l, rexec r l (c :: w ++ rest) = None) ->
  no_match_before r w rest -> no_match_before r (c :: w) rest.
Proof.
  intros Hc Hw l p x q E. destruct p as [|y p].
  - injection E as <- <-. apply Hc.
  - injection E as <- E. by apply (Hw l p x q).
Qed.

Lemma nmb_plain d r w rest :
  fails (not_at d) r -> Forall (fun c => c <> d) w -> no_match_before r w rest.
Proof.
  intros Hr Hw l p c q E. apply Hr. cbn. rewrite Forall_forall in Hw.
  apply Hw. rewrite E. apply elem_of_app. right. by left.
Qed.

Lemma nmb_app r w1 w2 rest :
  no_match_before r w1 (w2 ++ rest) -> no_match_before r w2 rest ->
  no_match_before r (w1 ++ w2) rest.
Proof.
  intros H1 H2 l p c q E.
  revert p E H1. induction w1 as [|x w1 IH]; intros p E H1.
  - by apply (H2 l p c q).
  - destruct p as [|y p].
    + cbn [app] in E. injection E as <- <-.
      rewrite <- app_assoc. exact (H1 l [] x w1 eq_refl).
    + cbn [app] in E. injection E as <- E. apply (IH p E).
      intros l' p' c' q' E'. apply (H1 l' (x :: p') c' q'). by rewrite E'.
Qed.

Lemma nmb_no_match r s :
  no_match_before r s [] -> (forall l, rexec r l [] = None) -> no_match_in r s.
Proof.
  intros H He l s' [p E]. destruct s' as [|c q]; [apply He|].
  specialize (H l p c q E). by rewrite app_nil_r in H.
Qed.

Lemma nmb_join r lines :
  (forall l rest, rexec r l (Chars.lf :: rest) = None) ->
  Forall (fun line => forall rest, no_match_before r line rest) lines ->
  no_match_before r (join [Chars.lf] lines) [].
Proof.
  intros Hlf. induction 1 as [|line lines Hline Hlines IH]; [apply nmb_nil|].
  destruct lines as [|line' lines]; [apply Hline|].
  change (join [Chars.lf] (line :: line' :: lines))
    with (line ++ Chars.lf :: join [Chars.lf] (line' :: lines)).
  apply nmb_app; [apply Hline|]. apply nmb_cons; [|done].
  intros l. apply Hlf.
Qed.

Lemma fails_not_at_str d w :
  match w with c :: _ => c = d | [] => False end -> fails (not_at d) (RStr w).
Proof.
  intros H. apply fails_str. destruct w as [|c w]; [done|]. subst c.
  intros l x t cs Hst. unfold not_at in Hst. cbn in Hst. by apply N.eqb_neq.
Qed.

Lemma paid_re_items items :
  Forall (Forall (fun c => is_text_unit c = true)) items ->
  no_match_in paid_re (join [Chars.lf] (map item_source items)).
Proof.
  intros H. apply nmb_no_match; [|done]. apply nmb_join; [done|].
  apply Forall_forall.
  intros line (t & <- & Ht)%list_elem_of_In%in_map_iff rest.
  rewrite Forall_forall in H. apply list_elem_of_In, H in Ht.
  apply nmb_cons; [done|].
  apply (nmb_plain Chars.minus); [by apply fails_not_at_str|].
  constructor; [done|]. eapply Forall_impl; [exact Ht|].
  intros c Hc. apply text_unit_inert in Hc as [Hc _]. by intros ->.
Qed.

(** ** The lists of the lines are made one *)

Lemma replace_loop_skip r cb w :
  forall fuel l rest,
    no_match_before r w rest -> length w <= fuel ->
    replace_loop fuel r cb l (w ++ rest)
    = w ++ replace_loop (fuel - length w) r cb (rev w ++ l) rest.
Proof.
  induction w as [|c w IH]; intros fuel l rest Hw Hf.
  - cbn [app rev length]. by rewrite Nat.sub_0_r.
  - destruct fuel as [|fuel]; [simpl in Hf; lia|]. cbn [app].
    rewrite replace_loop_miss by exact (Hw l [] c w eq_refl).
    rewrite IH; [|intros l' p x q E; apply (Hw l' (c :: p) x q); by rewrite E
                 |simpl in Hf; lia].
    cbn [rev length]. rewrite <- app_assoc. reflexivity.
Qed.

Lemma adjacent_lists_re_hit l rest :
  exists cs,
    rexec adjacent_lists_re l (lit "</ul>" ++ Chars.lf :: lit "<ul>" ++ rest)
    = Some (MState (rev (lit "</ul>" ++ Chars.lf :: lit "<ul>") ++ l) rest cs).
Proof.
  eexists. unfold rexec, adjacent_lists_re. cbn [RCat foldr].
  rewrite rmatch_seq, rmatch_str.
  change (strip_prefix (lit "</") (lit "</ul>" ++ Chars.lf :: lit "<ul>" ++ rest))
    with (Some (lit "ul>" ++ Chars.lf :: lit "<ul>" ++ rest)).
  cbn iota. rewrite rmatch_seq, rmatch_group, rmatch_alt, rmatch_str.
  cbn [left right caps].
  change (strip_prefix (lit "ul") (lit "ul>" ++ Chars.lf :: lit "<ul>" ++ rest))
    with (Some (lit ">" ++ Chars.lf :: lit "<ul>" ++ rest)).
  cbn iota. cbn [left right caps].
  rewrite (take_length_diff (rev (lit "ul"))), rev_involutive.
  rewrite rmatch_seq, (rmatch_is Chars.gt).
  change (lit ">" ++ Chars.lf :: lit "<ul>" ++ rest)
    with (Chars.gt :: Chars.lf :: lit "<ul>" ++ rest).
  change (Chars.gt =? Chars.gt)%N with true. cbn iota.
  rewrite rmatch_seq, rmatch_star. cbn [right].
  rewrite star_greedy_class; [|done|].
  2: { intros l' c t Hc. rewrite rmatch_seq, rmatch_is.
       destruct (c =? Chars.lt)%N eqn:E; [|done].
       apply N.eqb_eq in E. by subst c. }
  change (span is_space (Chars.lf :: lit "<ul>" ++ rest))
    with ([Chars.lf], lit "<ul>" ++ rest).
  cbn [fst snd]. rewrite rmatch_seq, (rmatch_is Chars.lt).
  change (lit "<ul>" ++ rest) with (Chars.lt :: lit "ul>" ++ rest).
  change (Chars.lt =? Chars.lt)%N with true. cbn iota.
  rewrite rmatch_seq.
  change (rmatch (RBackref 1) ?st ?k)
    with (match cap_lookup 1 (caps st) with
          | Some s => if starts_with s (right st) then k (advance (length s) st)
                      else None
          | None => k st
          end).
  cbn [caps cap_lookup Nat.eqb right].
  change (starts_with (lit "ul") (lit "ul>" ++ rest)) with true. cbn iota.
  unfold advance. cbn [right left caps].
  change (drop (length (lit "ul")) (lit "ul>" ++ rest)) with (Chars.gt :: rest).
  rewrite rmatch_seq, (rmatch_is Chars.gt).
  change (Chars.gt =? Chars.gt)%N with true. cbn iota.
  rewrite rmatch_empty. cbn [or_else]. reflexivity.
Qed.

Lemma join_item_lines t items :
  join [Chars.lf] (map item_line (t :: items)) = item_line t ++ lines_tail items.
Proof. destruct items; [by rewrite app_nil_r|done]. Qed.

Lemma adjacent_lists_re_item text rest :
  Forall (fun c => is_inert c = true) text ->
  no_match_before adjacent_lists_re (item_markup text) rest.
Proof.
  intros Ht%inert_no_tag. unfold item_markup.
  change (lit "<li>" ++ text ++ lit "</li>")
    with (Chars.lt :: (lit "li>" ++ text) ++ (Chars.lt :: lit "/li>")).
  apply nmb_cons; [done|]. apply nmb_app.
  - apply (nmb_plain Chars.lt); [apply adjacent_lists_re_tag|].
    apply Forall_app. split; [by repeat constructor|done].
  - apply nmb_cons; [done|].
    apply (nmb_plain Chars.lt); [apply adjacent_lists_re_tag|by repeat constructor].
Qed.

Lemma adjacent_lists_re_last : no_match_in adjacent_lists_re (lit "</ul>").
Proof.
  apply nm_cons; [done|].
  apply (nm_plain adjacent_lists_re (lit "/ul>") []);
    [apply adjacent_lists_re_tag|by repeat constructor|].
  apply nm_nil, adjacent_lists_re_tag.
Qed.

Lemma adjacent_loop items :
  forall text fuel l,
    Forall (Forall (fun c => is_inert c = true)) (text :: items) ->
    length (item_markup text ++ lit "</ul>" ++ lines_tail items) < fuel ->
    replace_loop fuel adjacent_lists_re (fun _ => []) l
      (item_markup text ++ lit "</ul>" ++ lines_tail items)
    = item_markup text ++ concat (map item_markup items) ++ lit "</ul>".
Proof.
  induction items as [|next items IH]; intros text fuel l Hok Hf.
  - cbn [lines_tail map concat app] in *. rewrite app_nil_r in *.
    rewrite length_app in Hf.
    rewrite replace_loop_skip;
      [|apply adjacent_lists_re_item; by inversion Hok|lia].
    f_equal. apply replace_loop_none; [apply adjacent_lists_re_last|].
    change (length (lit "</ul>")) with 5 in *. lia.
  - inversion Hok as [|? ? Htext Hrest]; subst.
    unfold lines_tail in Hf |- *. rewrite join_item_lines in Hf |- *.
    unfold item_line in Hf |- *. fold (lines_tail items) in Hf |- *.
    rewrite <- !app_assoc in Hf |- *.
    set (rest := item_markup next ++ lit "</ul>" ++ lines_tail items) in *.
    rewrite length_app in Hf.
    rewrite replace_loop_skip; [|by apply adjacent_lists_re_item|lia].
    f_equal.
    change (lit "</ul>" ++ Chars.lf :: lit "<ul>" ++ rest)
      with ((lit "</ul>" ++ Chars.lf :: lit "<ul>") ++ rest) in *.
    destruct (adjacent_lists_re_hit (rev (item_markup text) ++ l) rest) as [cs E].
    rewrite length_app in Hf.
    destruct (fuel - length (item_markup text)) as [|fuel'] eqn:Ef; [lia|].
    rewrite (replace_loop_hit fuel' _ _ _ _ _ cs); [|done|exact E].
    cbn [app map concat]. rewrite <- !app_assoc. apply IH; [done|].
    change (length (lit "</ul>" ++ Chars.lf :: lit "<ul>")) with 10 in Hf.
    fold rest. lia.
Qed.

Lemma adjacent_pass_items items :
  items <> [] -> Forall (Forall (fun c => is_text_unit c = true)) items ->
  replace_all adjacent_lists_re (fun _ => []) (join [Chars.lf] (map item_line items))
  = list_markup items.
Proof.
  intros Hne Hok. destruct items as [|text items]; [done|].
  assert (Hi : Forall (Forall (fun c => is_inert c = true)) (text :: items)).
  { eapply Forall_impl; [exact Hok|]. intros t Ht.
    by apply text_units_inert in Ht as [? _]. }
  unfold replace_all, list_markup.
  rewrite join_item_lines. unfold item_line. rewrite <- !app_assoc.
  change (lit "<ul>" ++ item_markup text ++ lit "</ul>" ++ lines_tail items)
    with (lit "<ul>" ++ (item_markup text ++ lit "</ul>" ++ lines_tail items)).
  rewrite replace_loop_skip.
  - cbn [map concat]. rewrite <- !app_assoc. f_equal.
    apply adjacent_loop; [done|]. rewrite !length_app. simpl. lia.
  - change (lit "<ul>") with (Chars.lt :: lit "ul>").
    apply nmb_cons; [done|].
    apply (nmb_plain Chars.lt); [apply adjacent_lists_re_tag|by repeat constructor].
  - rewrite !length_app. simpl. lia.
Qed.

(** ** The paragraph pass and the last three passes on a list *)

Lemma nmb_item r text rest :
  fails not_at_tag r ->
  (forall l x, rexec r l (lit "<li>" ++ x) = None) ->
  (forall l x, rexec r l (lit "</li>" ++ x) = None) ->
  Forall (fun c => is_inert c = true) text ->
  no_match_before r (item_markup text) rest.
Proof.
  intros Hr Hopen Hclose Ht%inert_no_tag. unfold item_markup.
  change (lit "<li>" ++ text ++ lit "</li>")
    with (Chars.lt :: (lit "li>" ++ text) ++ (Chars.lt :: lit "/li>")).
  apply nmb_cons.
  { intros l. rewrite <- !app_assoc. apply (Hopen l). }
  apply nmb_app.
  - apply (nmb_plain Chars.lt); [exact Hr|].
    apply Forall_app. split; [by repeat constructor|done].
  - apply nmb_cons; [intros l; apply (Hclose l)|].
    apply (nmb_plain Chars.lt); [exact Hr|by repeat constructor].
Qed.

Lemma nmb_concat r parts rest :
  Forall (fun w => forall rest, no_match_before r w rest) parts ->
  no_match_before r (concat parts) rest.
Proof.
  induction 1 as [|w parts Hw Hparts IH]; [apply nmb_nil|].
  cbn [concat]. apply nmb_app; [apply Hw|apply IH].
Qed.

Lemma nm_list r items :
  fails not_at_tag r ->
  (forall l x, rexec r l (lit "<ul>" ++ x) = None) ->
  (forall l x, rexec r l (lit "<li>" ++ x) = None) ->
  (forall l x, rexec r l (lit "</li>" ++ x) = None) ->
  (forall l, rexec r l (lit "</ul>") = None) ->
  Forall (Forall (fun c => is_inert c = true)) items ->
  no_match_in r (list_markup items).
Proof.
  intros Hr Hul Hli Hli' Hul' Hok. apply nmb_no_match; [|intros l; by apply Hr].
  unfold list_markup. apply nmb_app; [|apply nmb_app].
  - change (lit "<ul>") with (Chars.lt :: lit "ul>").
    apply nmb_cons; [intros l; apply (Hul l)|].
    apply (nmb_plain Chars.lt); [exact Hr|by repeat constructor].
  - apply nmb_concat. apply Forall_forall.
    intros w (t & <- & Ht)%list_elem_of_In%in_map_iff rest.
    rewrite Forall_forall in Hok. apply list_elem_of_In, Hok in Ht.
    by apply nmb_item.
  - change (lit "</ul>") with (Chars.lt :: lit "/ul>").
    apply nmb_cons; [intros l; apply (Hul' l)|].
    apply (nmb_plain Chars.lt); [exact Hr|by repeat constructor].
Qed.

Lemma list_markup_tagged items :
  exists body, list_markup items = Chars.lt :: body ++ [Chars.gt].
Proof.
  exists (lit "ul>" ++ concat (map item_markup items) ++ lit "</ul").
  unfold list_markup. rewrite <- !app_assoc. reflexivity.
Qed.

Lemma list_markup_no_line_feed items :
  Forall (Forall (fun c => is_text_unit c = true)) items ->
  Forall (fun c => c <> Chars.lf) (list_markup items).
Proof.
  intros H. unfold list_markup.
  apply Forall_app. split; [by repeat constructor|].
  apply Forall_app. split; [|by repeat constructor].
  induction H as [|t items Ht Hts IH]; [done|]. cbn [map concat].
  apply Forall_app. split; [|done]. unfold item_markup.
  apply Forall_app. split; [by repeat constructor|].
  apply Forall_app. split; [|by repeat constructor].
  eapply Forall_impl; [exact Ht|]. intros c Hc.
  apply text_unit_inert in Hc as [_ Hc]. by intros ->.
Qed.

(** X25: list lines with the hyphen as their marker are rendered as one
    list: the list pass makes a list of every line, the pass behind it takes
    out what is between them, and the result is not wrapped in a
    paragraph. *)
Theorem list_items (items : list jsstring) :
  items <> [] ->
  Forall (Forall (fun c => is_text_unit c = true)) items ->
  renderMarkdownToHtml (join [Chars.lf] (map item_source items))
  = Ok (list_markup items).
Proof.
  intros Hne Hok.
  pose proof (item_source_units items Hok) as Hq.
  assert (Hi : Forall (Forall (fun c => is_inert c = true)) items).
  { eapply Forall_impl; [exact Hok|]. intros t Ht.
    by apply text_units_inert in Ht as [? _]. }
  unfold renderMarkdownToHtml, escape_markup, chart_pass, image_pass,
    replace_text, replace_all_try.
  rewrite (replace_all_no_match (RIs Chars.amp))
    by (eapply rest_no_match; [by apply item_fails_is|done]).
  rewrite (replace_all_no_match (RIs Chars.lt))
    by (eapply rest_no_match; [by apply item_fails_is|done]).
  rewrite (replace_all_no_match (RIs Chars.gt))
    by (eapply rest_no_match; [by apply item_fails_is|done]).
  rewrite (replace_all_no_match chart_re)
    by (eapply rest_no_match; [apply fails_seq_l; by apply item_fails_str|done]).
  rewrite replace_loop_try_none;
    [|eapply rest_no_match; [apply fails_seq_l; by apply item_fails_is|done]|lia].
  cbn [outcome_map]. f_equal. unfold inline_and_block_passes, replace_text.
  rewrite (replace_all_no_match bold_re)
    by (eapply rest_no_match; [apply fails_seq_l; by apply item_fails_str|done]).
  rewrite (replace_all_no_match em_re)
    by (eapply rest_no_match; [apply fails_seq_l; by apply item_fails_is|done]).
  rewrite (replace_all_no_match paid_re) by by apply paid_re_items.
  rewrite (replace_all_no_match box_re)
    by (eapply rest_no_match; [apply fails_seq_l; by apply item_fails_str|done]).
  rewrite (replace_all_no_match summary_re)
    by (eapply rest_no_match; [apply fails_seq_l; by apply item_fails_str|done]).
  rewrite (replace_all_no_match (heading_re (lit "###")))
    by (eapply rest_no_match; [by apply item_fails_heading|done]).
  rewrite (replace_all_no_match (heading_re (lit "##")))
    by (eapply rest_no_match; [by apply item_fails_heading|done]).
  rewrite (replace_all_no_match (heading_re (lit "#")))
    by (eapply rest_no_match; [by apply item_fails_heading|done]).
  rewrite (replace_all_no_match code_re)
    by (eapply rest_no_match; [apply fails_seq_l; by apply item_fails_is|done]).
  rewrite (replace_all_no_match link_re)
    by (eapply rest_no_match; [apply fails_seq_l; by apply item_fails_is|done]).
  rewrite list_pass_items by done.
  rewrite adjacent_pass_items by done.
  rewrite split_on_line by by apply list_markup_no_line_feed.
  cbn [map concat]. rewrite app_nil_r.
  destruct (list_markup_tagged items) as [body Eb].
  rewrite Eb at 1. rewrite paragraph_line_tagged, <- Eb.
  rewrite (replace_all_no_match empty_paragraph_re)
    by (apply nm_list; [apply empty_paragraph_re_tag|done..]).
  rewrite (replace_all_no_match paragraph_open_re)
    by (apply nm_list; [apply paragraph_open_re_tag|done..]).
  rewrite (replace_all_no_match paragraph_close_re)
    by (apply nm_list; [apply paragraph_close_re_tag|done..]).
  reflexivity.
Qed.

Lemma list_items_witness :
  renderMarkdownToHtml (join [Chars.lf] [lit "- tea"; lit "- coffee"; lit "- "])
  = Ok (lit "<ul><li>tea</li><li>coffee</li><li></li></ul>").
Proof.
  etrans; [apply (list_items [lit "tea"; lit "coffee"; []])|vm_compute; reflexivity].
  - discriminate.
  - repeat (constructor; [repeat constructor|]). constructor.
Defined.

(** ** A lazy quantifier *)

Lemma star_lazy_class p k cs w :
  forall n l s res,
    Forall (fun c => p c = true) w ->
    (forall w1 c w2, w = w1 ++ c :: w2 ->
       k (MState (rev w1 ++ l) (c :: w2 ++ s) cs) = None) ->
    k (MState (rev w ++ l) s cs) = Some res ->
    length (w ++ s) <= n ->
    star_loop false (RChar p) k n (MState l (w ++ s) cs) = Some res.
Proof.
  induction w as [|c w IH]; intros n l s res Hw Hk Hres Hn.
  - cbn [app rev] in *. destruct n as [|n]; [done|].
    cbn [star_loop]. by rewrite Hres.
  - destruct n as [|n]; [simpl in Hn; lia|]. cbn [star_loop app].
    pose proof (Hk [] c w eq_refl) as Hk0. cbn [rev app] in Hk0.
    rewrite Hk0. cbn [or_else].
    rewrite rmatch_char. inversion Hw as [|? ? Hc Hw']; subst. rewrite Hc.
    cbn [right length].
    rewrite (proj2 (Nat.ltb_lt (length (w ++ s)) (S (length (w ++ s))))) by lia.
    apply IH; [done| | |simpl in Hn; lia].
    + intros w1 x w2 E. specialize (Hk (c :: w1) x w2).
      cbn [rev app] in Hk. rewrite <- app_assoc in Hk. apply Hk. by rewrite E.
    + cbn [rev] in Hres. by rewrite <- app_assoc in Hres.
Qed.

(** ** The pass of the strong parts *)

Lemma bold_re_hit b l c :
  Forall (fun x => is_text_unit x = true) b ->
  rexec bold_re l (lit "**" ++ b ++ lit "**" ++ c)
  = Some (MState (rev (lit "**" ++ b ++ lit "**") ++ l) c [(1, b)]).
Proof.
  intros Hb. unfold rexec, bold_re. cbn [RCat foldr].
  rewrite rmatch_seq, rmatch_str.
  change (strip_prefix (lit "**") (lit "**" ++ b ++ lit "**" ++ c))
    with (Some (b ++ lit "**" ++ c)).
  cbn iota. rewrite rmatch_seq, rmatch_group, rmatch_star. cbn [right left caps].
  unfold RDot.
  erewrite star_lazy_class; [reflexivity| | | |done].
  - eapply Forall_impl; [exact Hb|]. intros x Hx.
    apply text_unit_inert in Hx as [_ Hx]. cbn beta. by rewrite Hx.
  - intros w1 x w2 E. cbn [left right caps].
    rewrite rmatch_seq, rmatch_str.
    assert (Hx : is_text_unit x = true).
    { rewrite Forall_forall in Hb. apply Hb. rewrite E.
      apply elem_of_app. right. by left. }
    apply text_unit_inert in Hx as [Hx _]. cbn [strip_prefix lit map list_ascii_of_string].
    change (N_of_ascii "*") with Chars.star.
    destruct (x =? Chars.star)%N eqn:Ex; [|done].
    apply N.eqb_eq in Ex. by subst x.
  - cbn [left right caps]. rewrite rmatch_seq, rmatch_str.
    rewrite (proj2 (strip_prefix_Some (lit "**") (lit "**" ++ c) c) eq_refl).
    rewrite rmatch_empty.
    rewrite (take_length_diff (rev b)), rev_involutive.
    f_equal. f_equal. rewrite !rev_app_distr. rewrite <- !app_assoc. reflexivity.
Qed.

Lemma class_fails_is (q : N -> bool) c :
  q c = false ->
  fails (fun st => Forall (fun x => q x = true) (right st)) (RIs c).
Proof. intros H. apply rest_fails_is. intros x Hx ->. congruence. Qed.

Lemma class_fails_str (q : N -> bool) w :
  match w with c :: _ => q c = false | [] => False end ->
  fails (fun st => Forall (fun x => q x = true) (right st)) (RStr w).
Proof.
  intros H. apply rest_fails_str. destruct w as [|c w]; [done|].
  intros x Hx ->. congruence.
Qed.

Lemma class_fails_heading (q : N -> bool) hashes :
  match hashes with c :: _ => q c = false | [] => False end ->
  fails (fun st => Forall (fun x => q x = true) (right st)) (heading_re hashes).
Proof.
  intros H. apply fails_seq_r; [apply rest_preserves|].
  apply fails_seq_l. by apply class_fails_str.
Qed.

Lemma class_no_match (q : N -> bool) r s :
  fails (fun st => Forall (fun x => q x = true) (right st)) r ->
  Forall (fun c => q c = true) s -> no_match_in r s.
Proof. apply rest_no_match. Qed.

Lemma text_units_class (q : N -> bool) t :
  (forall c, is_inert c = true -> q c = true) ->
  Forall (fun c => is_text_unit c = true) t -> Forall (fun c => q c = true) t.
Proof.
  intros Hq Ht. eapply Forall_impl; [exact Ht|]. intros c Hc.
  apply text_unit_inert in Hc as [Hc _]. by apply Hq.
Qed.

Lemma strong_source_units a b c :
  Forall (fun x => is_text_unit x = true) a ->
  Forall (fun x => is_text_unit x = true) b ->
  Forall (fun x => is_text_unit x = true) c ->
  Forall (fun x => is_emphasis_unit x = true) (strong_source a b c).
Proof.
  intros Ha Hb Hc.
  assert (Hq : forall x, is_inert x = true -> is_emphasis_unit x = true)
    by (intros x Hx; unfold is_emphasis_unit; by rewrite Hx).
  unfold strong_source. repeat (apply Forall_app; split);
    try (by apply text_units_class); by repeat constructor.
Qed.

Lemma strong_markup_units a b c :
  Forall (fun x => is_text_unit x = true) a ->
  Forall (fun x => is_text_unit x = true) b ->
  Forall (fun x => is_text_unit x = true) c ->
  Forall (fun x => is_markup_unit x = true) (strong_markup a b c).
Proof.
  intros Ha Hb Hc.
  assert (Hq : forall x, is_inert x = true -> is_markup_unit x = true)
    by (intros x Hx; unfold is_markup_unit; by rewrite Hx).
  unfold strong_markup. repeat (apply Forall_app; split);
    try (by apply text_units_class); by repeat constructor.
Qed.

Lemma bold_re_star : fails (not_at Chars.star) bold_re.
Proof. apply fails_seq_l. by apply fails_not_at_str. Qed.

Lemma text_units_no (d : N) t :
  is_inert d = false ->
  Forall (fun c => is_text_unit c = true) t -> Forall (fun c => c <> d) t.
Proof.
  intros Hd Ht. eapply Forall_impl; [exact Ht|]. intros c Hc ->.
  apply text_unit_inert in Hc as [Hc _]. congruence.
Qed.

Lemma bold_pass a b c :
  Forall (fun x => is_text_unit x = true) a ->
  Forall (fun x => is_text_unit x = true) b ->
  Forall (fun x => is_text_unit x = true) c ->
  replace_all bold_re (fun m => lit "<strong>" ++ group m 1 ++ lit "</strong>")
    (strong_source a b c)
  = strong_markup a b c.
Proof.
  intros Ha Hb Hc. unfold replace_all, strong_source, strong_markup.
  rewrite replace_loop_skip;
    [|apply (nmb_plain Chars.star); [apply bold_re_star|by apply text_units_no]
     |rewrite length_app; lia].
  f_equal.
  change (lit "**" ++ b ++ lit "**" ++ c) with (lit "**" ++ (b ++ lit "**" ++ c)).
  replace (lit "**" ++ (b ++ lit "**" ++ c)) with ((lit "**" ++ b ++ lit "**") ++ c)
    by (by rewrite <- !app_assoc).
  destruct (S (length (a ++ (lit "**" ++ b ++ lit "**") ++ c)) - length a)
    as [|fuel] eqn:Ef; [rewrite !length_app in Ef; lia|].
  rewrite (replace_loop_hit fuel _ _ _ _ _ [(1, b)]); [|done|].
  - unfold group. cbn [cap_lookup groups Nat.eqb default].
    rewrite <- !app_assoc. do 3 f_equal.
    apply replace_loop_none.
    + apply (rest_no_match (fun x => x <> Chars.star)).
      * apply fails_seq_l. apply rest_fails_str. by intros x Hx.
      * by apply text_units_no.
    + rewrite !length_app in Ef. simpl in Ef. lia.
  - rewrite <- !app_assoc. by apply bold_re_hit.
Qed.

(** ** The passes behind it *)

Lemma markup_unit_not_digit c : is_markup_unit c = true -> is_digit c = false.
Proof.
  unfold is_markup_unit, is_inert. destruct (is_digit c) eqn:E; [|done].
  rewrite !orb_true_r. cbn [negb orb]. intros H.
  apply orb_prop in H as [H| H]; apply N.eqb_eq in H; by subst c.
Qed.

Lemma list_re_markup_units :
  fails (fun st => Forall (fun x => is_markup_unit x = true) (right st)) list_re.
Proof.
  apply fails_seq_r; [apply rest_preserves|].
  apply fails_seq_r; [apply rest_preserves|].
  apply fails_seq_l, fails_group. cbn [RAlts foldl]. repeat apply fails_alt.
  - by apply class_fails_is.
  - by apply class_fails_is.
  - do 2 apply fails_seq_l. apply fails_char. intros l c t cs Hst.
    cbn in Hst. inversion Hst; subst. by apply markup_unit_not_digit.
Qed.

Lemma nmb_strong r a b c rest :
  fails not_at_tag r ->
  (forall l x, rexec r l (lit "<strong>" ++ x) = None) ->
  (forall l x, rexec r l (lit "</strong>" ++ x) = None) ->
  Forall (fun x => is_text_unit x = true) a ->
  Forall (fun x => is_text_unit x = true) b ->
  Forall (fun x => is_text_unit x = true) c ->
  no_match_before r (strong_markup a b c) rest.
Proof.
  intros Hr Hopen Hclose Ha Hb Hc. unfold strong_markup.
  change (a ++ lit "<strong>" ++ b ++ lit "</strong>" ++ c)
    with (a ++ (Chars.lt :: lit "strong>" ++ b)
            ++ (Chars.lt :: lit "/strong>" ++ c)).
  apply nmb_app; [apply (nmb_plain Chars.lt); [exact Hr|by apply text_units_no]|].
  apply nmb_app.
  - apply nmb_cons.
    { intros l. rewrite <- !app_assoc. apply (Hopen l). }
    apply (nmb_plain Chars.lt); [exact Hr|].
    apply Forall_app. split; [by repeat constructor|by apply text_units_no].
  - apply nmb_cons.
    { intros l. rewrite <- !app_assoc. apply (Hclose l). }
    apply (nmb_plain Chars.lt); [exact Hr|].
    apply Forall_app. split; [by repeat constructor|by apply text_units_no].
Qed.

(** ** The paragraph pass *)

Lemma trim_start_app_blank ws s :
  forallb is_space ws = true -> trim_start (ws ++ s) = trim_start s.
Proof.
  induction ws as [|x ws IH]; [done|]. cbn [forallb app trim_start].
  intros [Hx Hws]%andb_prop. rewrite Hx. by apply IH.
Qed.

Lemma trim_start_nonblank a s :
  forallb is_space a = false ->
  exists x t, trim_start (a ++ s) = x :: t /\ x ∈ a /\ is_space x = false.
Proof.
  induction a as [|y a IH]; [done|]. cbn [forallb app trim_start].
  destruct (is_space y) eqn:Ey.
  - cbn [andb]. intros H. destruct (IH H) as (x & t & E & Hin & Hx).
    exists x, t. split; [done|]. split; [by apply elem_of_cons; right|done].
  - intros _. exists y, (a ++ s). split; [done|]. split; [by apply elem_of_cons; left|done].
Qed.

Lemma trim_end_head x t :
  is_space x = false -> exists t', trim_end (x :: t) = x :: t'.
Proof.
  intros Hx. unfold trim_end.
  destruct (trim_start_split (rev (x :: t))) as (ws & E & Hws & _).
  destruct (trim_start (rev (x :: t))) as [|y u] eqn:Eu.
  - rewrite app_nil_r in E. rewrite <- E in Hws.
    apply Forall_rev in Hws. rewrite rev_involutive in Hws.
    inversion Hws; subst. congruence.
  - apply (f_equal (@rev N)) in E. rewrite rev_involutive, rev_app_distr in E.
    destruct (rev (y :: u)) as [|z v] eqn:Ev.
    + apply (f_equal (@rev N)) in Ev. by rewrite rev_involutive in Ev.
    + cbn [app] in E. injection E as -> _. by exists v.
Qed.

Lemma forallb_rev (p : N -> bool) s : forallb p (rev s) = forallb p s.
Proof.
  induction s as [|x s IH]; [done|]. cbn [rev forallb].
  rewrite forallb_app, IH. cbn [forallb]. by rewrite andb_true_r, andb_comm.
Qed.

Lemma trim_core ws1 x t y u ws2 :
  forallb is_space ws1 = true -> forallb is_space ws2 = true ->
  is_space x = false -> is_space y = false -> rev (x :: t) = y :: u ->
  trim (ws1 ++ (x :: t) ++ ws2) = x :: t.
Proof.
  intros H1 H2 Hx Hy Hrev. unfold trim. rewrite trim_start_app_blank by done.
  cbn [app trim_start]. rewrite Hx. unfold trim_end.
  change (x :: t ++ ws2) with ((x :: t) ++ ws2).
  rewrite rev_app_distr, trim_start_app_blank by by rewrite forallb_rev.
  rewrite Hrev. cbn [trim_start]. rewrite Hy. rewrite <- Hrev.
  apply rev_involutive.
Qed.

Lemma elem_of_rev (x : N) s : x ∈ rev s -> x ∈ s.
Proof. intros H. apply list_elem_of_In, in_rev. by apply list_elem_of_In. Qed.

Lemma last_of_trim ws1 x t c :
  forallb is_space ws1 = true -> is_space x = false ->
  forallb is_space c = false ->
  exists z v, rev (trim (ws1 ++ (x :: t) ++ c)) = z :: v /\ z ∈ c.
Proof.
  intros H1 Hx Hc. unfold trim. rewrite trim_start_app_blank by done.
  cbn [app trim_start]. rewrite Hx. unfold trim_end. rewrite rev_involutive.
  change (x :: t ++ c) with ((x :: t) ++ c). rewrite rev_app_distr.
  destruct (trim_start_nonblank (rev c) (rev (x :: t))) as (z & v & E & Hin & _);
    [by rewrite forallb_rev|].
  exists z, v. split; [done|]. by apply elem_of_rev.
Qed.

Lemma strong_core a b c :
  exists t u,
    strong_markup a b c = a ++ (Chars.lt :: t) ++ c
    /\ rev (Chars.lt :: t) = Chars.gt :: u.
Proof.
  exists (lit "strong>" ++ b ++ lit "</strong>").
  exists (rev (lit "</strong") ++ rev b ++ rev (lit "<strong>")).
  change (Chars.lt :: lit "strong>" ++ b ++ lit "</strong>")
    with (lit "<strong>" ++ b ++ lit "</strong>").
  split.
  - unfold strong_markup. by rewrite <- !app_assoc.
  - rewrite !rev_app_distr, <- !app_assoc. reflexivity.
Qed.

Lemma paragraph_line_unfold line :
  paragraph_line line
  = match trim line with
    | [] => []
    | _ :: _ =>
        if starts_with (lit "<") (trim line) && ends_with (lit ">") (trim line)
        then line else lit "<p>" ++ line ++ lit "</p>"
    end.
Proof. reflexivity. Qed.

Lemma paragraph_line_strong a b c :
  Forall (fun x => is_text_unit x = true) a ->
  Forall (fun x => is_text_unit x = true) c ->
  paragraph_line (strong_markup a b c) = strong_line_markup a b c.
Proof.
  intros Ha Hc. unfold strong_line_markup. rewrite paragraph_line_unfold.
  destruct (strong_core a b c) as (t & u & Es & Hrev).
  destruct (forallb is_space a) eqn:Ea.
  - destruct (forallb is_space c) eqn:Ec; cbn [andb].
    + assert (Et : trim (strong_markup a b c) = Chars.lt :: t)
        by (rewrite Es; by apply (trim_core a Chars.lt t Chars.gt u c)).
      rewrite Et. unfold ends_with. by rewrite Hrev.
    + assert (Et : exists z v, rev (trim (strong_markup a b c)) = z :: v /\ z ∈ c)
        by (rewrite Es; by apply last_of_trim).
      destruct Et as (z & v & E & Hin).
      rewrite Forall_forall in Hc. apply Hc, text_unit_inert in Hin as [Hin _].
      unfold ends_with. rewrite E.
      assert (Ez : starts_with (rev (lit ">")) (z :: v) = false).
      { cbn [rev lit map list_ascii_of_string app starts_with].
        change (N_of_ascii ">") with Chars.gt.
        destruct (Chars.gt =? z)%N eqn:Eg; [|done].
        apply N.eqb_eq in Eg. by subst z. }
      rewrite Ez, andb_false_r.
      destruct (trim (strong_markup a b c)) eqn:Et; [done|done].
  - cbn [andb].
    assert (Et : exists x w, trim (strong_markup a b c) = x :: w /\ x ∈ a).
    { rewrite Es.
      destruct (trim_start_nonblank a ((Chars.lt :: t) ++ c) Ea)
        as (x & w & E & Hin & Hx).
      destruct (trim_end_head x w Hx) as (w' & E').
      exists x, w'. split; [|done]. unfold trim. by rewrite E, E'. }
    destruct Et as (x & w & Et & Hin). rewrite Et.
    rewrite Forall_forall in Ha. apply Ha, text_unit_inert in Hin as [Hin _].
    cbn [lit map list_ascii_of_string starts_with].
    change (N_of_ascii "<") with Chars.lt.
    destruct (Chars.lt =? x)%N eqn:Elt; [|done].
    apply N.eqb_eq in Elt. by subst x.
Qed.

(** ** The last three passes *)

Lemma nm_strong r a b c :
  fails not_at_tag r ->
  (forall l x, rexec r l (lit "<strong>" ++ x) = None) ->
  (forall l x, rexec r l (lit "</strong>" ++ x) = None) ->
  Forall (fun x => is_text_unit x = true) a ->
  Forall (fun x => is_text_unit x = true) b ->
  Forall (fun x => is_text_unit x = true) c ->
  no_match_in r (strong_markup a b c).
Proof.
  intros Hr Hopen Hclose Ha Hb Hc. apply nmb_no_match; [|intros l; by apply Hr].
  by apply nmb_strong.
Qed.

Lemma nm_strong_paragraph r a b c :
  fails not_at_tag r ->
  (forall l x, rexec r l (lit "<strong>" ++ x) = None) ->
  (forall l x, rexec r l (lit "</strong>" ++ x) = None) ->
  (forall l, rexec r l (lit "<p>" ++ strong_markup a b c ++ lit "</p>") = None) ->
  (forall l, rexec r l (lit "</p>") = None) ->
  Forall (fun x => is_text_unit x = true) a ->
  Forall (fun x => is_text_unit x = true) b ->
  Forall (fun x => is_text_unit x = true) c ->
  no_match_in r (lit "<p>" ++ strong_markup a b c ++ lit "</p>").
Proof.
  intros Hr Hopen Hclose Hp Hp' Ha Hb Hc.
  apply nmb_no_match; [|intros l; by apply Hr].
  change (lit "<p>" ++ strong_markup a b c ++ lit "</p>")
    with ((Chars.lt :: lit "p>") ++ strong_markup a b c ++ (Chars.lt :: lit "/p>")).
  apply nmb_app; [|apply nmb_app].
  - apply nmb_cons; [intros l; rewrite app_nil_r; apply (Hp l)|].
    apply (nmb_plain Chars.lt); [exact Hr|by repeat constructor].
  - by apply nmb_strong.
  - apply nmb_cons; [intros l; apply (Hp' l)|].
    apply (nmb_plain Chars.lt); [exact Hr|by repeat constructor].
Qed.

Lemma empty_paragraph_re_strong l a b c :
  Forall (fun x => is_text_unit x = true) a ->
  rexec empty_paragraph_re l (lit "<p>" ++ strong_markup a b c ++ lit "</p>") = None.
Proof.
  intros Ha. destruct (forallb is_space a) eqn:Ea.
  - unfold rexec, empty_paragraph_re. cbn [RCat foldr].
    rewrite rmatch_seq, rmatch_str.
    change (strip_prefix (lit "<p>") (lit "<p>" ++ strong_markup a b c ++ lit "</p>"))
      with (Some (strong_markup a b c ++ lit "</p>")).
    cbn iota. rewrite rmatch_seq, rmatch_star. cbn [right].
    rewrite star_greedy_class; [|done|].
    2: { intros l' x t Hx. rewrite rmatch_seq, rmatch_str.
         cbn [strip_prefix lit map list_ascii_of_string].
         change (N_of_ascii "<") with Chars.lt.
         destruct (x =? Chars.lt)%N eqn:E; [|done].
         apply N.eqb_eq in E. by subst x. }
    unfold strong_markup. rewrite <- !app_assoc.
    rewrite (span_run is_space a).
    + cbn [fst snd]. rewrite rmatch_seq, rmatch_str. reflexivity.
    + apply Forall_forall. intros x Hx.
      rewrite forallb_forall in Ea. by apply Ea, list_elem_of_In.
    + reflexivity.
  - unfold strong_markup. rewrite <- !app_assoc.
    apply empty_paragraph_re_open; [|done].
    by apply text_units_inert in Ha as [? _].
Qed.

Lemma paragraph_open_re_strong l a b c :
  Forall (fun x => is_text_unit x = true) a ->
  rexec paragraph_open_re l (lit "<p>" ++ strong_markup a b c ++ lit "</p>") = None.
Proof.
  intros Ha. destruct a as [|x a]; [reflexivity|].
  unfold strong_markup. cbn [app]. apply paragraph_open_re_open.
  inversion Ha as [|? ? Hx _]; subst. apply text_unit_inert in Hx as [Hx _].
  by apply inert_not_lt.
Qed.

(** ** A line with a strong part *)

Lemma strong_markup_no_line_feed a b c :
  Forall (fun x => is_text_unit x = true) a ->
  Forall (fun x => is_text_unit x = true) b ->
  Forall (fun x => is_text_unit x = true) c ->
  Forall (fun x => x <> Chars.lf) (strong_markup a b c).
Proof.
  intros Ha Hb Hc.
  assert (Ht : forall t, Forall (fun x => is_text_unit x = true) t ->
                 Forall (fun x => x <> Chars.lf) t).
  { intros t Ht. eapply Forall_impl; [exact Ht|]. intros x Hx ->.
    by apply text_unit_inert in Hx as [_ Hx]. }
  unfold strong_markup. repeat (apply Forall_app; split);
    try (by apply Ht); by repeat constructor.
Qed.

(** X26: a line of plain text with one part between two pairs of stars
    is rendered with that part as a strong element, and as a paragraph;
    when there is white space only around the part, the line is written as
    it is, without a paragraph around it. *)
Theorem strong_in_line (a b c : jsstring) :
  Forall (fun x => is_text_unit x = true) a ->
  Forall (fun x => is_text_unit x = true) b ->
  Forall (fun x => is_text_unit x = true) c ->
  renderMarkdownToHtml (strong_source a b c) = Ok (strong_line_markup a b c).
Proof.
  intros Ha Hb Hc.
  pose proof (strong_source_units a b c Ha Hb Hc) as Hq.
  pose proof (strong_markup_units a b c Ha Hb Hc) as Hm.
  unfold renderMarkdownToHtml, escape_markup, chart_pass, image_pass,
    replace_text, replace_all_try.
  rewrite (replace_all_no_match (RIs Chars.amp))
    by (apply (class_no_match is_emphasis_unit); [by apply class_fails_is|done]).
  rewrite (replace_all_no_match (RIs Chars.lt))
    by (apply (class_no_match is_emphasis_unit); [by apply class_fails_is|done]).
  rewrite (replace_all_no_match (RIs Chars.gt))
    by (apply (class_no_match is_emphasis_unit); [by apply class_fails_is|done]).
  rewrite (replace_all_no_match chart_re)
    by (apply (class_no_match is_emphasis_unit); [apply fails_seq_l; by apply class_fails_str|done]).
  rewrite replace_loop_try_none;
    [|apply (class_no_match is_emphasis_unit); [apply fails_seq_l; by apply class_fails_is|done]|lia].
  cbn [outcome_map]. f_equal. unfold inline_and_block_passes, replace_text.
  rewrite bold_pass by done.
  rewrite (replace_all_no_match em_re)
    by (apply (class_no_match is_markup_unit); [apply fails_seq_l; by apply class_fails_is|done]).
  rewrite (replace_all_no_match paid_re)
    by (apply (class_no_match is_markup_unit); [by apply class_fails_str|done]).
  rewrite (replace_all_no_match box_re)
    by (apply (class_no_match is_markup_unit); [apply fails_seq_l; by apply class_fails_str|done]).
  rewrite (replace_all_no_match summary_re)
    by (apply (class_no_match is_markup_unit); [apply fails_seq_l; by apply class_fails_str|done]).
  rewrite (replace_all_no_match (heading_re (lit "###")))
    by (apply (class_no_match is_markup_unit); [by apply class_fails_heading|done]).
  rewrite (replace_all_no_match (heading_re (lit "##")))
    by (apply (class_no_match is_markup_unit); [by apply class_fails_heading|done]).
  rewrite (replace_all_no_match (heading_re (lit "#")))
    by (apply (class_no_match is_markup_unit); [by apply class_fails_heading|done]).
  rewrite (replace_all_no_match code_re)
    by (apply (class_no_match is_markup_unit); [apply fails_seq_l; by apply class_fails_is|done]).
  rewrite (replace_all_no_match link_re)
    by (apply (class_no_match is_markup_unit); [apply fails_seq_l; by apply class_fails_is|done]).
  rewrite (replace_all_no_match list_re)
    by (apply (class_no_match is_markup_unit); [apply list_re_markup_units|done]).
  rewrite (replace_all_no_match adjacent_lists_re)
    by (apply nm_strong; [apply adjacent_lists_re_tag|done..]).
  rewrite split_on_line by by apply strong_markup_no_line_feed.
  cbn [map concat]. rewrite app_nil_r.
  rewrite paragraph_line_strong by done.
  unfold strong_line_markup.
  destruct (forallb is_space a && forallb is_space c).
  - rewrite (replace_all_no_match empty_paragraph_re)
      by (apply nm_strong; [apply empty_paragraph_re_tag|done..]).
    rewrite (replace_all_no_match paragraph_open_re)
      by (apply nm_strong; [apply paragraph_open_re_tag|done..]).
    rewrite (replace_all_no_match paragraph_close_re)
      by (apply nm_strong; [apply paragraph_close_re_tag|done..]).
    reflexivity.
  - rewrite (replace_all_no_match empty_paragraph_re)
      by (apply nm_strong_paragraph;
          [apply empty_paragraph_re_tag|done|done
          |intros l; by apply empty_paragraph_re_strong|done..]).
    rewrite (replace_all_no_match paragraph_open_re)
      by (apply nm_strong_paragraph;
          [apply paragraph_open_re_tag|done|done
          |intros l; by apply paragraph_open_re_strong|done..]).
    rewrite (replace_all_no_match paragraph_close_re)
      by (apply nm_strong_paragraph; [apply paragraph_close_re_tag|done..]).
    reflexivity.
Qed.

Lemma strong_in_line_witness :
  renderMarkdownToHtml (lit "Tea is **hot** today")
  = Ok (lit "<p>Tea is <strong>hot</strong> today</p>")
  /\ renderMarkdownToHtml (lit " **hot** ") = Ok (lit " <strong>hot</strong> ").
Proof.
  split.
  - etrans; [apply (strong_in_line (lit "Tea is ") (lit "hot") (lit " today"))
            |vm_compute; reflexivity];
      repeat constructor.
  - etrans; [apply (strong_in_line (lit " ") (lit "hot") (lit " "))
            |vm_compute; reflexivity];
      repeat constructor.
Defined.

(** ** The chart pass *)

Lemma chart_re_hit payload l rest :
  Forall (fun x => is_payload_unit x = true) payload ->
  rexec chart_re l (lit "[INTERACTIVE_CHART:" ++ payload ++ Chars.rbrack :: rest)
  = Some (MState (rev (lit "[INTERACTIVE_CHART:" ++ payload ++ [Chars.rbrack]) ++ l)
            rest [(1, payload)]).
Proof.
  intros Hp. unfold rexec, chart_re. cbn [RCat foldr].
  rewrite rmatch_seq, rmatch_str.
  rewrite (proj2 (strip_prefix_Some (lit "[INTERACTIVE_CHART:") _ _) eq_refl).
  rewrite rmatch_seq, rmatch_group, rmatch_star. cbn [right left caps].
  unfold RAny.
  erewrite star_lazy_class; [reflexivity| | | |done].
  - eapply Forall_impl; [exact Hp|]. done.
  - intros w1 x w2 E. cbn [left right caps]. rewrite rmatch_seq, rmatch_is.
    assert (Hx : is_payload_unit x = true).
    { rewrite Forall_forall in Hp. apply Hp. rewrite E.
      apply elem_of_app. right. by left. }
    unfold is_payload_unit in Hx. apply negb_true_iff in Hx.
    repeat (apply orb_false_elim in Hx as [Hx ?]). by rewrite H.
  - cbn [left right caps]. rewrite rmatch_seq, rmatch_is.
    rewrite N.eqb_refl. rewrite rmatch_empty.
    rewrite (take_length_diff (rev payload)), rev_involutive.
    f_equal. f_equal. rewrite !rev_app_distr. rewrite <- !app_assoc. reflexivity.
Qed.

Lemma chart_re_bracket : fails (not_at Chars.lbrack) chart_re.
Proof. apply fails_seq_l. by apply fails_not_at_str. Qed.

Lemma chart_pass_line a payload :
  Forall (fun x => is_text_unit x = true) a ->
  Forall (fun x => is_payload_unit x = true) payload ->
  json_valid payload = false ->
  chart_pass (chart_source a payload) = a ++ chart_error.
Proof.
  intros Ha Hp Hj. unfold chart_pass, replace_all, chart_source.
  rewrite replace_loop_skip;
    [|apply (nmb_plain Chars.lbrack); [apply chart_re_bracket|by apply text_units_no]
     |rewrite length_app; lia].
  f_equal.
  replace (lit "[INTERACTIVE_CHART:" ++ payload ++ lit "]")
    with ((lit "[INTERACTIVE_CHART:" ++ payload ++ [Chars.rbrack]) ++ [])
    by (by rewrite app_nil_r).
  destruct (S (length (a ++ (lit "[INTERACTIVE_CHART:" ++ payload ++ [Chars.rbrack]) ++ []))
            - length a) as [|fuel] eqn:Ef; [rewrite !length_app in Ef; lia|].
  rewrite (replace_loop_hit fuel _ _ _ _ _ [(1, payload)]); [|done|].
  - unfold chart_cb. cbn zeta.
    change (group (RMatched _ [(1, payload)]) 1) with payload. rewrite Hj.
    rewrite <- (app_nil_r chart_error) at 2. f_equal.
    destruct fuel as [|fuel']; [done|]. by apply replace_loop_end.
  - rewrite <- !app_assoc. by apply chart_re_hit.
Qed.

(** ** The error element in the passes behind the chart pass *)

Lemma forallb_Forall (p : N -> bool) s :
  forallb p s = true -> Forall (fun x => p x = true) s.
Proof.
  intros H. apply Forall_forall. intros x Hx.
  rewrite forallb_forall in H. by apply H, list_elem_of_In.
Qed.

Lemma chart_error_units : Forall (fun x => is_markup_unit x = true) chart_error.
Proof. by apply forallb_Forall. Qed.

Lemma chart_error_tags :
  chart_error
  = Chars.lt :: (markup "div class='error'>" ++ chart_error_message)
    ++ Chars.lt :: lit "/div>".
Proof. reflexivity. Qed.

Lemma chart_error_body :
  Forall (fun x => x <> Chars.lt)
         (markup "div class='error'>" ++ chart_error_message).
Proof.
  eapply Forall_impl;
    [apply (forallb_Forall (fun x => negb (x =? Chars.lt)%N)); reflexivity|].
  intros x Hx ->. done.
Qed.

Lemma chart_error_no_line_feed : Forall (fun x => x <> Chars.lf) chart_error.
Proof.
  eapply Forall_impl;
    [apply (forallb_Forall (fun x => negb (x =? Chars.lf)%N)); reflexivity|].
  intros x Hx ->. done.
Qed.

Lemma line_units a :
  Forall (fun x => is_text_unit x = true) a ->
  Forall (fun x => is_markup_unit x = true) (a ++ chart_error).
Proof.
  intros Ha. apply Forall_app. split; [|apply chart_error_units].
  apply text_units_class; [|done].
  intros x Hx. unfold is_markup_unit. by rewrite Hx.
Qed.

Lemma nmb_chart_error r a rest :
  fails not_at_tag r ->
  (forall l x, rexec r l (chart_error ++ x) = None) ->
  (forall l, rexec r l (lit "</div>" ++ rest) = None) ->
  Forall (fun x => is_text_unit x = true) a ->
  no_match_before r (a ++ chart_error) rest.
Proof.
  intros Hr Hopen Hclose Ha.
  apply nmb_app; [apply (nmb_plain Chars.lt); [exact Hr|by apply text_units_no]|].
  rewrite chart_error_tags. apply nmb_cons.
  { intros l. rewrite <- app_assoc. apply (Hopen l). }
  apply nmb_app; [apply (nmb_plain Chars.lt); [exact Hr|apply chart_error_body]|].
  apply nmb_cons; [intros l; apply (Hclose l)|].
  apply (nmb_plain Chars.lt); [exact Hr|by repeat constructor].
Qed.

(** ** The paragraph pass *)

Lemma paragraph_line_text_first a s :
  Forall (fun x => is_text_unit x = true) a ->
  forallb is_space a = false ->
  paragraph_line (a ++ s) = lit "<p>" ++ (a ++ s) ++ lit "</p>".
Proof.
  intros Ha Ea. rewrite paragraph_line_unfold.
  destruct (trim_start_nonblank a s Ea) as (x & w & E & Hin & Hx).
  destruct (trim_end_head x w Hx) as (w' & E').
  unfold trim. rewrite E, E'.
  rewrite Forall_forall in Ha. apply Ha, text_unit_inert in Hin as [Hin _].
  cbn [lit map list_ascii_of_string starts_with].
  change (N_of_ascii "<") with Chars.lt.
  destruct (Chars.lt =? x)%N eqn:Elt; [|done].
  apply N.eqb_eq in Elt. by subst x.
Qed.

(** ** The last three passes *)

Lemma nmb_paragraph_start r a rest :
  fails not_at_tag r ->
  (forall l, rexec r l (lit "<p>" ++ a ++ rest) = None) ->
  Forall (fun x => is_text_unit x = true) a ->
  no_match_before r (lit "<p>" ++ a) rest.
Proof.
  intros Hr Hopen Ha.
  change (lit "<p>" ++ a) with (Chars.lt :: lit "p>" ++ a).
  apply nmb_cons; [intros l; rewrite <- app_assoc; apply (Hopen l)|].
  apply (nmb_plain Chars.lt); [exact Hr|].
  apply Forall_app. split; [by repeat constructor|by apply text_units_no].
Qed.

Lemma nm_line r a :
  fails not_at_tag r ->
  (forall l rest, rexec r l (lit "<p>" ++ a ++ rest) = None) ->
  (forall l x, rexec r l (chart_error ++ x) = None) ->
  (forall l, rexec r l (lit "</div>" ++ lit "</p>") = None) ->
  (forall l, rexec r l (lit "</p>") = None) ->
  Forall (fun x => is_text_unit x = true) a ->
  no_match_in r (lit "<p>" ++ (a ++ chart_error) ++ lit "</p>").
Proof.
  intros Hr Hp Hopen Hclose Hp' Ha.
  apply nmb_no_match; [|intros l; by apply Hr].
  replace (lit "<p>" ++ (a ++ chart_error) ++ lit "</p>")
    with ((lit "<p>" ++ a) ++ chart_error ++ (Chars.lt :: lit "/p>"))
    by (by rewrite <- !app_assoc).
  apply nmb_app; [by apply nmb_paragraph_start|].
  apply nmb_app.
  - apply (nmb_chart_error r []); [done..| |done].
    intros l. apply (Hclose l).
  - apply nmb_cons; [intros l; apply (Hp' l)|].
    apply (nmb_plain Chars.lt); [exact Hr|by repeat constructor].
Qed.

Lemma paragraph_close_re_hit l :
  rexec paragraph_close_re l (lit "</div></p>")
  = Some (MState (rev (lit "</div></p>") ++ l) []
            [(1, lit "</div"); (2, lit "div")]).
Proof.
  unfold rexec, paragraph_close_re. cbn [RCat foldr].
  rewrite rmatch_seq, rmatch_group, rmatch_seq, rmatch_str.
  change (strip_prefix (lit "</") (lit "</div></p>")) with (Some (lit "div></p>")).
  cbn iota. rewrite rmatch_group. unfold block_tag. cbn [RAlts foldl].
  rewrite !rmatch_alt, !rmatch_str. cbn [left right caps].
  change (strip_prefix (lit "ul") (lit "div></p>")) with (@None jsstring).
  change (strip_prefix (lit "ol") (lit "div></p>")) with (@None jsstring).
  change (strip_prefix (lit "h1") (lit "div></p>")) with (@None jsstring).
  change (strip_prefix (lit "h2") (lit "div></p>")) with (@None jsstring).
  change (strip_prefix (lit "h3") (lit "div></p>")) with (@None jsstring).
  change (strip_prefix (lit "div") (lit "div></p>")) with (Some (lit "></p>")).
  cbn iota. cbn [or_else left right caps].
  rewrite (take_length_diff (rev (lit "div"))), rev_involutive.
  rewrite (app_assoc (rev (lit "div")) (rev (lit "</")) l).
  rewrite (take_length_diff (rev (lit "div") ++ rev (lit "</"))).
  rewrite rmatch_seq, rmatch_str.
  change (strip_prefix (lit "></p>") (lit "></p>")) with (Some (@nil N)).
  cbn iota. rewrite rmatch_empty. reflexivity.
Qed.

Lemma paragraph_close_pass_line a :
  Forall (fun x => is_text_unit x = true) a ->
  replace_all paragraph_close_re (fun m => group m 1)
    (lit "<p>" ++ (a ++ chart_error) ++ lit "</p>")
  = lit "<p>" ++ a ++ chart_error_open.
Proof.
  intros Ha. unfold replace_all.
  set (body := markup "div class='error'>" ++ chart_error_message).
  assert (E : lit "<p>" ++ (a ++ chart_error) ++ lit "</p>"
              = ((lit "<p>" ++ a) ++ Chars.lt :: body) ++ lit "</div></p>" ++ []).
  { rewrite chart_error_tags. fold body. rewrite <- !app_assoc. cbn [app].
    rewrite <- !app_assoc. reflexivity. }
  assert (E' : lit "<p>" ++ a ++ chart_error_open
               = ((lit "<p>" ++ a) ++ Chars.lt :: body) ++ lit "</div").
  { unfold chart_error_open.
    change (markup "<div class='error'>" ++ chart_error_message ++ lit "</div")
      with (Chars.lt :: body ++ lit "</div").
    rewrite <- !app_assoc. reflexivity. }
  rewrite E, E'.
  rewrite replace_loop_skip; [|..|rewrite !length_app; simpl; lia].
  - f_equal.
    destruct (S (length (((lit "<p>" ++ a) ++ Chars.lt :: body) ++ lit "</div></p>" ++ []))
              - length ((lit "<p>" ++ a) ++ Chars.lt :: body))
      as [|fuel] eqn:Ef; [rewrite !length_app in Ef; simpl in Ef; lia|].
    rewrite (replace_loop_hit fuel _ _ _ (lit "</div></p>") []
               [(1, lit "</div"); (2, lit "div")]);
      [|done|apply paragraph_close_re_hit].
    change (group (RMatched _ [(1, lit "</div"); (2, lit "div")]) 1)
      with (lit "</div").
    rewrite <- (app_nil_r (lit "</div")) at 2. f_equal.
    destruct fuel as [|fuel']; [done|]. apply replace_loop_end.
    by apply paragraph_close_re_tag.
  - apply nmb_app.
    + apply nmb_paragraph_start; [apply paragraph_close_re_tag| |done].
      intros l. apply paragraph_close_re_open.
    + apply nmb_cons; [done|].
      apply (nmb_plain Chars.lt); [apply paragraph_close_re_tag|].
      apply chart_error_body.
Qed.

(** ** A line that ends with a chart that cannot be read *)

Lemma chart_source_units a payload :
  Forall (fun x => is_text_unit x = true) a ->
  Forall (fun x => is_payload_unit x = true) payload ->
  Forall (fun x => is_unescaped_unit x = true) (chart_source a payload).
Proof.
  intros Ha Hp. unfold chart_source. repeat (apply Forall_app; split).
  - apply text_units_class; [|done]. intros x Hx.
    unfold is_inert in Hx. unfold is_unescaped_unit.
    apply negb_true_iff in Hx. repeat (apply orb_false_elim in Hx as [Hx ?]).
    by rewrite Hx, H6, H5.
  - by apply forallb_Forall.
  - eapply Forall_impl; [exact Hp|]. intros x Hx.
    unfold is_payload_unit in Hx. unfold is_unescaped_unit.
    apply negb_true_iff in Hx. repeat (apply orb_false_elim in Hx as [Hx ?]).
    by rewrite Hx, H1, H0.
  - by repeat constructor.
Qed.

(** X27: a line of text that ends with a chart placeholder whose
    payload is not JSON is rendered as a paragraph with the text and the
    error element; the last pass takes the end of the paragraph away
    together with the last code unit of the closing tag of the element, so
    the markup ends with that tag left open. *)
Theorem chart_error_in_line (a payload : jsstring) :
  Forall (fun x => is_text_unit x = true) a ->
  forallb is_space a = false ->
  Forall (fun x => is_payload_unit x = true) payload ->
  json_valid payload = false ->
  renderMarkdownToHtml (chart_source a payload)
  = Ok (lit "<p>" ++ a ++ chart_error_open).
Proof.
  intros Ha Ea Hp Hj.
  pose proof (chart_source_units a payload Ha Hp) as Hq.
  pose proof (line_units a Ha) as Hm.
  unfold renderMarkdownToHtml, escape_markup, image_pass,
    replace_text, replace_all_try.
  rewrite (replace_all_no_match (RIs Chars.amp))
    by (apply (class_no_match is_unescaped_unit); [by apply class_fails_is|done]).
  rewrite (replace_all_no_match (RIs Chars.lt))
    by (apply (class_no_match is_unescaped_unit); [by apply class_fails_is|done]).
  rewrite (replace_all_no_match (RIs Chars.gt))
    by (apply (class_no_match is_unescaped_unit); [by apply class_fails_is|done]).
  rewrite chart_pass_line by done.
  rewrite replace_loop_try_none;
    [|apply (class_no_match is_markup_unit);
      [apply fails_seq_l; by apply class_fails_is|done]|lia].
  cbn [outcome_map]. f_equal. unfold inline_and_block_passes, replace_text.
  rewrite (replace_all_no_match bold_re)
    by (apply (class_no_match is_markup_unit);
        [apply fails_seq_l; by apply class_fails_str|done]).
  rewrite (replace_all_no_match em_re)
    by (apply (class_no_match is_markup_unit);
        [apply fails_seq_l; by apply class_fails_is|done]).
  rewrite (replace_all_no_match paid_re)
    by (apply (class_no_match is_markup_unit); [by apply class_fails_str|done]).
  rewrite (replace_all_no_match box_re)
    by (apply (class_no_match is_markup_unit);
        [apply fails_seq_l; by apply class_fails_str|done]).
  rewrite (replace_all_no_match summary_re)
    by (apply (class_no_match is_markup_unit);
        [apply fails_seq_l; by apply class_fails_str|done]).
  rewrite (replace_all_no_match (heading_re (lit "###")))
    by (apply (class_no_match is_markup_unit); [by apply class_fails_heading|done]).
  rewrite (replace_all_no_match (heading_re (lit "##")))
    by (apply (class_no_match is_markup_unit); [by apply class_fails_heading|done]).
  rewrite (replace_all_no_match (heading_re (lit "#")))
    by (apply (class_no_match is_markup_unit); [by apply class_fails_heading|done]).
  rewrite (replace_all_no_match code_re)
    by (apply (class_no_match is_markup_unit);
        [apply fails_seq_l; by apply class_fails_is|done]).
  rewrite (replace_all_no_match link_re)
    by (apply (class_no_match is_markup_unit);
        [apply fails_seq_l; by apply class_fails_is|done]).
  rewrite (replace_all_no_match list_re)
    by (apply (class_no_match is_markup_unit); [apply list_re_markup_units|done]).
  rewrite (replace_all_no_match adjacent_lists_re).
  2: { apply nmb_no_match; [|intros l; by apply adjacent_lists_re_tag].
       apply nmb_chart_error; [apply adjacent_lists_re_tag|done..]. }
  rewrite split_on_line.
  2: { apply Forall_app. split; [|apply chart_error_no_line_feed].
       eapply Forall_impl; [exact Ha|]. intros x Hx ->.
       by apply text_unit_inert in Hx as [_ Hx]. }
  cbn [map concat]. rewrite app_nil_r.
  rewrite paragraph_line_text_first by done.
  assert (Hi : Forall (fun x => is_inert x = true) a)
    by by apply text_units_inert in Ha as [? _].
  rewrite (replace_all_no_match empty_paragraph_re).
  2: { apply nm_line; [apply empty_paragraph_re_tag| |done..].
       intros l rest. by apply empty_paragraph_re_open. }
  rewrite (replace_all_no_match paragraph_open_re).
  2: { apply nm_line; [apply paragraph_open_re_tag| |done..].
       intros l rest. destruct a as [|x a']; [done|].
       apply paragraph_open_re_open. inversion Hi; subst. by apply inert_not_lt. }
  by apply paragraph_close_pass_line.
Qed.

Lemma chart_error_in_line_witness :
  renderMarkdownToHtml (lit "Sales: [INTERACTIVE_CHART:soon]")
  = Ok (lit "<p>Sales: " ++ chart_error_open).
Proof.
  etrans; [apply (chart_error_in_line (lit "Sales: ") (lit "soon"))
          |vm_compute; reflexivity].
  - repeat constructor.
  - reflexivity.
  - repeat constructor.
  - vm_compute. reflexivity.
Defined.

(** ** The key encoding on every string of code units *)

Lemma unreserved_no_surrogate c :
  uri_unreserved c = true ->
  is_high_surrogate c = false /\ is_low_surrogate c = false.
Proof.
  intros H%unreserved_ascii. unfold is_high_surrogate, is_low_surrogate.
  split; apply andb_false_intro1; apply N.leb_gt; lia.
Qed.

Lemma encodeURIComponent_lone s :
  Forall (fun c => (c < 65536)%N) s ->
  well_formed s = false ->
  encodeURIComponent s = Throw URIError.
Proof.
  induction s as [| |a b l IH0 IH1] using list_ind2.
  - done.
  - intros Ha. inversion Ha as [|? ? Ha0 _]; subst. apply N.ltb_lt in Ha0.
    rewrite encodeURIComponent_cons. cbn [well_formed].
    destruct (uri_unreserved a) eqn:Eu.
    + destruct (unreserved_no_surrogate a Eu) as [-> ->]. by rewrite Ha0.
    + destruct (is_low_surrogate a); [done|].
      destruct (is_high_surrogate a); [done|]. by rewrite Ha0.
  - intros Hs. inversion Hs as [|? ? Ha0 Hs']; subst. apply N.ltb_lt in Ha0.
    inversion Hs' as [|? ? _ Hl]; subst.
    rewrite encodeURIComponent_cons.
    change (well_formed (a :: b :: l))
      with (if is_high_surrogate a then is_low_surrogate b && well_formed l
            else negb (is_low_surrogate a) && (a <? 65536)%N && well_formed (b :: l)).
    destruct (uri_unreserved a) eqn:Eu.
    + destruct (unreserved_no_surrogate a Eu) as [-> ->]. rewrite Ha0.
      cbn [negb andb]. intros H. by rewrite (IH1 Hs' H).
    + destruct (is_low_surrogate a); [done|].
      destruct (is_high_surrogate a).
      * destruct (is_low_surrogate b); [|done]. cbn [andb]. intros H.
        by rewrite (IH0 Hl H).
      * rewrite Ha0. cbn [negb andb]. intros H. by rewrite (IH1 Hs' H).
Qed.

(** X28: for a string of 16-bit code units without a lone surrogate
    [encodeUnicode] returns a key, and [decodeUnicode] of the key is the
    string, code unit for code unit; for a string with a lone surrogate
    [encodeUnicode] throws a [URIError]. *)
Theorem encodeUnicode_roundtrip (s : jsstring) :
  Forall (fun c => (c < 65536)%N) s ->
  if well_formed s
  then exists data_key,
         encodeUnicode s = Ok data_key /\ decodeUnicode data_key = Ok s
  else encodeUnicode s = Throw URIError.
Proof.
  intros Hs. destruct (well_formed s) eqn:Hwf.
  - exists (b64_encode (utf8_string s)).
    split; [by apply encodeUnicode_octets|by apply decodeUnicode_octets].
  - unfold encodeUnicode. by rewrite encodeURIComponent_lone.
Qed.

Lemma encodeUnicode_roundtrip_witness :
  (exists data_key,
     encodeUnicode (lit "[IMAGE_GENERATE:{}] " ++ [12354; 55357; 56832]%N) = Ok data_key
     /\ decodeUnicode data_key
        = Ok (lit "[IMAGE_GENERATE:{}] " ++ [12354; 55357; 56832]%N))
  /\ encodeUnicode (lit "a" ++ [55357%N]) = Throw URIError.
Proof.
  split.
  - apply (encodeUnicode_roundtrip (lit "[IMAGE_GENERATE:{}] " ++ [12354; 55357; 56832]%N)).
    repeat (constructor; [reflexivity|]). constructor.
  - apply (encodeUnicode_roundtrip (lit "a" ++ [55357%N])).
    repeat (constructor; [reflexivity|]). constructor.
Defined.

